(** * Chaotic attractor renderer: model and verified properties

    A shallow embedding of [attractor_cinematic.c].  Single-precision
    arithmetic is the IEEE-754 binary32 format, each operation rounded to
    nearest (ties to even); C [int] is 32 bits wide. *)

From Stdlib Require Import Ascii String.
From Stdlib Require Import ZArith Bool List Lia SpecFloat Reals Lra Psatz.
From Stdlib Require Import ClassicalEpsilon.
Import ListNotations.
Open Scope Z_scope.

(** * Model of the program *)

(** ** IEEE-754 binary32: the C type [float]

    The operations are the Standard Library's executable specification of
    IEEE-754 arithmetic ([SpecFloat], round to nearest, ties to even),
    instantiated at 24 bits of precision and exponent bound 128. *)
Module F32.

Definition prec : Z := 24.
Definition emax : Z := 128.

Definition float : Type := spec_float.

Definition add : float -> float -> float := SFadd prec emax.
Definition sub : float -> float -> float := SFsub prec emax.
Definition mul : float -> float -> float := SFmul prec emax.
Definition div : float -> float -> float := SFdiv prec emax.
Definition sqrt : float -> float := SFsqrt prec emax.
Definition abs : float -> float := SFabs.
Definition opp : float -> float := SFopp.

(** C's [<], [>], [<=] on floats: false as soon as an operand is NaN. *)
Definition ltb : float -> float -> bool := SFltb.
Definition gtb (x y : float) : bool := SFltb y x.
Definition leb : float -> float -> bool := SFleb.

Definition is_nan (x : float) : bool :=
  match x with S754_nan => true | _ => false end.

Definition is_finite (x : float) : bool :=
  match x with S754_zero _ | S754_finite _ _ _ => true | _ => false end.

(** A value of the format: canonical mantissa and exponent in range. *)
Definition valid (x : float) : bool := valid_binary prec emax x.

(** The conversion [(float) n] of an integer. *)
Definition of_Z (n : Z) : float := binary_normalize prec emax n 0 false.

(** A decimal literal [n/d] with [n] and [d] below [2^24]: the division of two
    exactly represented integers is correctly rounded, as the literal is. *)
Definition lit (n d : Z) : float := div (of_Z n) (of_Z d).

Definition zero : float := S754_zero false.
Definition one : float := of_Z 1.

(** The conversion [(int) x] where it is defined: truncation toward zero. *)
Definition trunc (x : float) : option Z :=
  match x with
  | S754_zero _ => Some 0
  | S754_finite s m e =>
      let a := match e with
               | Zneg p => Z.shiftr (Zpos m) (Zpos p)
               | _ => Z.shiftl (Zpos m) e
               end in
      Some (if s then - a else a)
  | _ => None
  end.

End F32.

Import F32.

(** ** Machine integers: the C type [int], 32 bits, two's complement *)

Definition wrap_int (z : Z) : Z := (z + 2 ^ 31) mod 2 ^ 32 - 2 ^ 31.

(** ** Configuration and constants *)

Definition WIDTH : Z := 1920.
Definition HEIGHT : Z := 1080.
Definition NUM_PARTICLES : Z := 2000000.
Definition DT : float := lit 12 1000.
Definition EXPOSURE : float := lit 25 10.
Definition MAX_COORD : float := of_Z 80.

Definition TYPE_AIZAWA : Z := 0.
Definition TYPE_THOMAS : Z := 1.
Definition TYPE_LORENZ : Z := 2.
Definition TYPE_HALVORSEN : Z := 3.
Definition TYPE_CHEN : Z := 4.
Definition NUM_TYPES : Z := 5.

Definition TRANSITION_FRAMES : Z := 120.

(** The zoom parameters a configuration file may override. *)
Record Config : Type := mkConfig {
  cfg_screen_fill_factor : float;
  cfg_min_zoom : float;
  cfg_max_zoom : float;
  cfg_initial_cam_scale : float
}.

Definition default_config : Config :=
  {| cfg_screen_fill_factor := lit 7 100;
     cfg_min_zoom := of_Z 60;
     cfg_max_zoom := of_Z 2000;
     cfg_initial_cam_scale := opp one |}.

Record Params : Type := mkParams {
  p_a : float; p_b : float; p_c : float; p_d : float; p_e : float; p_f : float
}.

(** ** [get_heatmap_color] *)

Record Color : Type := mkColor { red : float; green : float; blue : float }.

(** The four branches of the heatmap, in the order of the source. *)
Definition heat_branch1 (t : float) : Color :=
  mkColor zero (mul t (of_Z 5)) one.

Definition heat_branch2 (t : float) : Color :=
  mkColor zero one (sub one (mul (sub t (lit 2 10)) (lit 33 10))).

Definition heat_branch3 (t : float) : Color :=
  mkColor (mul (sub t (lit 5 10)) (lit 33 10)) one zero.

Definition heat_branch4 (t : float) : Color :=
  mkColor one
          (sub one (mul (sub t (lit 8 10)) (of_Z 5)))
          (mul (sub t (lit 8 10)) (of_Z 5)).

Definition heat_clamp (t : float) : float :=
  let t := if ltb t zero then zero else t in
  if gtb t one then one else t.

Definition get_heatmap_color (t : float) : Color :=
  let t := heat_clamp t in
  if ltb t (lit 2 10) then heat_branch1 t
  else if ltb t (lit 5 10) then heat_branch2 t
  else if ltb t (lit 8 10) then heat_branch3 t
  else heat_branch4 t.

(** ** Scheduler: fragment counter, type cycling and type blend *)

Record Sched : Type := mkSched {
  current_type : Z;
  previous_type : Z;
  algo_timer : Z;
  transition_blend : float
}.

Definition initial_sched (start_type : Z) : Sched :=
  {| current_type := start_type;
     previous_type := start_type;
     algo_timer := 0;
     transition_blend := one |}.

(** The test of the inner [if]: at a fragment boundary, the incremented
    counter has reached 6. *)
Definition type_change (fpf frame : Z) (s : Sched) : bool :=
  (Z.rem frame fpf =? 0) && (algo_timer s + 1 >=? 6).

(** The block executed at the top of each frame. *)
Definition cycle_step (fpf frame : Z) (s : Sched) : Sched :=
  if Z.rem frame fpf =? 0 then
    let timer := algo_timer s + 1 in
    if timer >=? 6 then
      {| current_type := Z.rem (current_type s + 1) NUM_TYPES;
         previous_type := current_type s;
         algo_timer := 0;
         transition_blend := zero |}
    else
      {| current_type := current_type s;
         previous_type := previous_type s;
         algo_timer := timer;
         transition_blend := transition_blend s |}
  else s.

(** The blend increment, [1.0f / TRANSITION_FRAMES]. *)
Definition blend_increment : float := div one (of_Z TRANSITION_FRAMES).

Definition blend_step (b : float) : float :=
  if ltb b one then
    let b' := add b blend_increment in
    if gtb b' one then one else b'
  else b.

Definition sched_frame (fpf frame : Z) (s : Sched) : Sched :=
  let s' := cycle_step fpf frame s in
  {| current_type := current_type s';
     previous_type := previous_type s';
     algo_timer := algo_timer s';
     transition_blend := blend_step (transition_blend s') |}.

(** The scheduler state after the frames [0 .. n-1], together with the
    number of type changes that happened in them. *)
Fixpoint run_sched (fpf : Z) (start_type : Z) (n : nat) : Sched * nat :=
  match n with
  | O => (initial_sched start_type, O)
  | S k =>
      let '(s, c) := run_sched fpf start_type k in
      (sched_frame fpf (Z.of_nat k) s,
       if type_change fpf (Z.of_nat k) s then S c else c)
  end.


(** ** Parameter interpolation *)

Definition lerp_rate : float := lit 2 100.

(** [cur += (target - cur) * rate]. *)
Definition smooth (cur target rate : float) : float :=
  add cur (mul (sub target cur) rate).

Definition lerp_params (cur target : Params) : Params :=
  {| p_a := smooth (p_a cur) (p_a target) lerp_rate;
     p_b := smooth (p_b cur) (p_b target) lerp_rate;
     p_c := smooth (p_c cur) (p_c target) lerp_rate;
     p_d := smooth (p_d cur) (p_d target) lerp_rate;
     p_e := smooth (p_e cur) (p_e target) lerp_rate;
     p_f := smooth (p_f cur) (p_f target) lerp_rate |}.

(** ** Integrator *)

Record Particle : Type := mkParticle {
  px : float; py : float; pz : float;
  vx : float; vy : float; vz : float
}.

Section Integrator.

(** [sinf] of the C library, used by the Thomas field. *)
Variable sinf : float -> float.

(** The derivative of one attractor type at a point; no branch is taken for a
    type outside 0..4, which leaves the three components at 0. *)
Definition field (type : Z) (p : Params) (x y z : float)
  : float * float * float :=
  let a := p_a p in let b := p_b p in let c := p_c p in
  let d := p_d p in let e := p_e p in let f := p_f p in
  let four := of_Z 4 in
  if type =? TYPE_AIZAWA then
    (sub (mul (sub z b) x) (mul d y),
     add (mul d x) (mul (sub z b) y),
     add (sub (sub (add c (mul a z)) (div (mul (mul z z) z) (of_Z 3)))
              (mul (add (mul x x) (mul y y)) (add one (mul e z))))
         (mul (mul (mul (mul f z) x) x) x))
  else if type =? TYPE_THOMAS then
    (sub (sinf y) (mul b x), sub (sinf z) (mul b y), sub (sinf x) (mul b z))
  else if type =? TYPE_LORENZ then
    (mul a (sub y x), sub (mul x (sub b z)) y, sub (mul x y) (mul c z))
  else if type =? TYPE_HALVORSEN then
    (sub (sub (sub (mul (opp a) x) (mul four y)) (mul four z)) (mul y y),
     sub (sub (sub (mul (opp a) y) (mul four z)) (mul four x)) (mul z z),
     sub (sub (sub (mul (opp a) z) (mul four x)) (mul four y)) (mul x x))
  else if type =? TYPE_CHEN then
    (mul a (sub y x),
     add (sub (mul (sub c a) x) (mul x z)) (mul c y),
     sub (mul x y) (mul b z))
  else (zero, zero, zero).

(** The test of the escape/divergence rule. *)
Definition escaped (x y z : float) : bool :=
  gtb (abs x) MAX_COORD || gtb (abs y) MAX_COORD || gtb (abs z) MAX_COORD
  || is_nan x.

(** [(float)((i * 1327) % 1000) / 1000.0f], the product taken in [int]. *)
Definition respawn_hash (i : Z) : float :=
  div (of_Z (Z.rem (wrap_int (i * 1327)) 1000)) (of_Z 1000).

Definition respawn_coord (i : Z) : float :=
  mul (sub (respawn_hash i) (lit 5 10)) (of_Z 4).

(** The recovery rule applied to the advanced position and the blended
    derivative of particle [i]. *)
Definition recover (i : Z) (x y z dx dy dz : float) : Particle :=
  if escaped x y z then
    let c := respawn_coord i in mkParticle c c c zero zero zero
  else mkParticle x y z dx dy dz.

(** One iteration of the physics loop for particle [i]. *)
Definition integrate_particle (cur_type prev_type : Z) (p : Params)
    (blend : float) (i : Z) (q : Particle) : Particle :=
  let x := px q in let y := py q in let z := pz q in
  let '(dx_cur, dy_cur, dz_cur) := field cur_type p x y z in
  let '(dx_prev, dy_prev, dz_prev) := field prev_type p x y z in
  let dx := add dx_prev (mul (sub dx_cur dx_prev) blend) in
  let dy := add dy_prev (mul (sub dy_cur dy_prev) blend) in
  let dz := add dz_prev (mul (sub dz_cur dz_prev) blend) in
  recover i (add x (mul dx DT)) (add y (mul dy DT)) (add z (mul dz DT))
          dx dy dz.

End Integrator.

(** ** Statistics aggregator *)

Definition sample_stride : Z := 100.

(** [for (i = start; i < n; i += stride) acc = body i acc], with a bound on
    the number of iterations. *)
Fixpoint stride_loop {A : Type} (fuel : nat) (i n stride : Z)
    (body : Z -> A -> A) (acc : A) : A :=
  match fuel with
  | O => acc
  | S k =>
      if i <? n then stride_loop k (i + stride) n stride body (body i acc)
      else acc
  end.

(** The indices the sampling loops visit, in order. *)
Definition sampled_indices (n : Z) : list Z :=
  rev (stride_loop (Z.to_nat n) 0 n sample_stride (fun i acc => i :: acc) nil).

Definition particle_at (ps : list Particle) (i : Z) : Particle :=
  nth (Z.to_nat i) ps (mkParticle zero zero zero zero zero zero).

(** Rotated-frame coordinates of a particle. *)
Definition rot_x (cos_t sin_t : float) (q : Particle) : float :=
  sub (mul (px q) cos_t) (mul (pz q) sin_t).

Definition rot_y (q : Particle) : float := py q.

Definition speed (q : Particle) : float :=
  sqrt (add (add (mul (vx q) (vx q)) (mul (vy q) (vy q))) (mul (vz q) (vz q))).

Record Stats : Type := mkStats {
  center_x : float; center_y : float;
  mean_dist_x : float; mean_dist_y : float;
  max_spd : float
}.

(** First pass: the sums of the rotated coordinates and the maximal speed,
    accumulated in the order of the indices. *)
Definition stats_pass1 (cos_t sin_t : float) (ps : list Particle) (n : Z)
  : float * float * float :=
  stride_loop (Z.to_nat n) 0 n sample_stride
    (fun i '(sum_x, sum_y, mx) =>
       let q := particle_at ps i in
       let spd := speed q in
       (add sum_x (rot_x cos_t sin_t q), add sum_y (rot_y q),
        if gtb spd mx then spd else mx))
    (zero, zero, zero).

(** Second pass: the sums of the absolute deviations from the centroid. *)
Definition stats_pass2 (cos_t sin_t : float) (ps : list Particle) (n : Z)
    (cx cy : float) : float * float :=
  stride_loop (Z.to_nat n) 0 n sample_stride
    (fun i '(sdx, sdy) =>
       let q := particle_at ps i in
       (add sdx (abs (sub (rot_x cos_t sin_t q) cx)),
        add sdy (abs (sub (rot_y q) cy))))
    (zero, zero).

Definition num_samples (n : Z) : Z := Z.quot n sample_stride.

Definition statistics (cos_t sin_t : float) (ps : list Particle) (n : Z)
  : Stats :=
  let '(sum_x, sum_y, mx) := stats_pass1 cos_t sin_t ps n in
  let cx := div sum_x (of_Z (num_samples n)) in
  let cy := div sum_y (of_Z (num_samples n)) in
  let '(sdx, sdy) := stats_pass2 cos_t sin_t ps n cx cy in
  mkStats cx cy (div sdx (of_Z (num_samples n)))
          (div sdy (of_Z (num_samples n))) mx.

(** The arithmetic mean of a list of floats, summed left to right from 0. *)
Definition mean (l : list float) : float :=
  div (fold_left add l zero) (of_Z (Z.of_nat (length l))).

(** ** Camera zoom *)

Definition floor_one (x : float) : float := if ltb x one then one else x.

Definition clamp_zoom (cfg : Config) (s : float) : float :=
  let s := if ltb s (cfg_min_zoom cfg) then cfg_min_zoom cfg else s in
  if gtb s (cfg_max_zoom cfg) then cfg_max_zoom cfg else s.

(** The scale the extents ask for, before it is clamped. *)
Definition raw_target_scale (cfg : Config) (mdx mdy mult : float) : float :=
  let target_w := floor_one (mul mdx mult) in
  let target_h := floor_one (mul mdy mult) in
  let scale_w := div (mul (of_Z WIDTH) (cfg_screen_fill_factor cfg)) target_w in
  let scale_h := div (mul (of_Z HEIGHT) (cfg_screen_fill_factor cfg)) target_h in
  if ltb scale_w scale_h then scale_w else scale_h.

Definition target_scale (cfg : Config) (mdx mdy mult : float) : float :=
  clamp_zoom cfg (raw_target_scale cfg mdx mdy mult).

Definition cam_rate : float := lit 5 1000.

Definition initial_cam_scale (cfg : Config) : float :=
  if gtb (cfg_initial_cam_scale cfg) zero then cfg_initial_cam_scale cfg
  else of_Z 100.

(** The camera scale after one frame. *)
Definition cam_scale_step (cfg : Config) (cam_scale mdx mdy mult : float)
  : float :=
  smooth cam_scale (target_scale cfg mdx mdy mult) cam_rate.

(** The camera scale after a sequence of frames, given for each frame the
    aggregator's deviations and the combined multiplier. *)
Fixpoint cam_scale_run (cfg : Config) (frames : list (float * float * float))
    (cam_scale : float) : float :=
  match frames with
  | nil => cam_scale
  | (mdx, mdy, mult) :: rest =>
      cam_scale_run cfg rest (cam_scale_step cfg cam_scale mdx mdy mult)
  end.

(** ** Rasterizer: the contribution of one particle *)

Definition depth_fade (rz : float) : float :=
  div one (add one (mul (abs rz) (lit 1 100))).

Definition contribution (t rz : float) : Color :=
  let c := get_heatmap_color t in
  let f := depth_fade rz in
  mkColor (mul (red c) f) (mul (green c) f) (mul (blue c) f).

(** ** Tone mapper *)

Section ToneMap.

(** [logf] of the C library. *)
Variable logf : float -> float.

(** The value [logf (1 + a * EXPOSURE) * 45], before the clamp. *)
Definition tone_raw (a : float) : float :=
  mul (logf (add one (mul a EXPOSURE))) (of_Z 45).

(** The channel value before the conversion to a byte. *)
Definition tone_value (a : float) : float :=
  let r := tone_raw a in
  if gtb r (of_Z 255) then of_Z 255 else r.

(** The conversion [(unsigned char) r]: defined when the truncated value
    fits a byte. *)
Definition to_uchar (r : float) : option Z :=
  match trunc r with
  | Some v => if (0 <=? v) && (v <=? 255) then Some v else None
  | None => None
  end.

Definition tone_map (a : float) : option Z := to_uchar (tone_value a).

(** The formula of the design, with both clamps. *)
Definition tone_formula (a : float) : option Z :=
  let r := tone_raw a in
  let r := if ltb r zero then zero else r in
  let r := if gtb r (of_Z 255) then of_Z 255 else r in
  to_uchar r.

End ToneMap.

(** * Vocabulary of the statements *)

(** ** The real number a float stands for *)

Definition bpow (e : Z) : R := powerRZ 2 e.

Definition F2R (x : float) : R :=
  match x with
  | S754_finite s m e =>
      ((if s then - IZR (Zpos m) else IZR (Zpos m)) * bpow e)%R
  | _ => 0%R
  end.

(** Two floats that are finite and differ by at most [tol]. *)
Definition close_to (tol : R) (x y : float) : Prop :=
  is_finite x = true /\ is_finite y = true /\
  (Rabs (F2R x - F2R y) <= tol)%R.

Definition colors_agree (tol : R) (c1 c2 : Color) : Prop :=
  close_to tol (red c1) (red c2) /\
  close_to tol (green c1) (green c2) /\
  close_to tol (blue c1) (blue c2).

(** ** Rounding to nearest, ties to even *)

(** The position of a real [x] with respect to [m * 2^e], as a [location]
    records it: on the point, or strictly between it and the next one, below,
    at or above the middle. *)
Definition located (m : Z) (l : location) (e : Z) (x : R) : Prop :=
  match l with
  | loc_Exact => x = (IZR m * bpow e)%R
  | loc_Inexact c =>
      (IZR m * bpow e < x < (IZR m + 1) * bpow e)%R /\
      match c with
      | Lt => (x < (IZR m + / 2) * bpow e)%R
      | Eq => x = ((IZR m + / 2) * bpow e)%R
      | Gt => ((IZR m + / 2) * bpow e < x)%R
      end
  end.

(** [E] is the exponent of the format's grid around [x > 0]: the grid of the
    subnormals at [-149], and otherwise the one with 24 digits for [x]. *)
Definition grid_exp (x : R) (E : Z) : Prop :=
  -149 <= E /\ (x < bpow (E + 24))%R /\
  (-149 < E -> (bpow (E + 23) <= x)%R).

(** [k * 2^E] is a point of the grid nearest to [x], the even one of two. *)
Definition nearest_even (x : R) (k E : Z) : Prop :=
  (Rabs (x - IZR k * bpow E) <= bpow E / 2)%R /\
  (Rabs (x - IZR k * bpow E) = (bpow E / 2)%R -> Z.even k = true).

(** The float with sign [s], mantissa [m] and exponent [e], or the infinity
    when the exponent is out of range. *)
Definition finite_or_inf (s : bool) (m : positive) (e : Z) : float :=
  if e <=? 104 then S754_finite s m e else S754_infinity s.

(** The float with sign [s] and magnitude [k * 2^E], for [0 <= k <= 2^24]. *)
Definition float_of (s : bool) (k E : Z) : float :=
  match k with
  | Zpos m =>
      if k =? 16777216 then finite_or_inf s 8388608 (E + 1)
      else finite_or_inf s m E
  | _ => S754_zero s
  end.

(** [f] is the rounding of the positive real [x]. *)
Definition rounds_pos (x : R) (f : float) : Prop :=
  exists k E, grid_exp x E /\ nearest_even x k E /\ f = float_of false k E.

(** [f] is the rounding of the real [x]; the sign of a zero is left open. *)
Definition rounds (x : R) (f : float) : Prop :=
  (x = 0%R -> f = S754_zero false \/ f = S754_zero true) /\
  ((0 < x)%R -> rounds_pos x f) /\
  ((x < 0)%R -> rounds_pos (- x) (opp f)).

(** A mantissa and an exponent of the format's grid: at most 24 digits (or
    [2^24], one step before renormalisation), exactly 24 above the
    subnormals. *)
Definition grid_pair (k E : Z) : Prop :=
  -149 <= E /\ 0 <= k <= 16777216 /\ (-149 < E -> 8388608 <= k).

(** A value of the format that is a finite number. *)
Definition finb (x : float) : bool := valid x && is_finite x.

(** [f] is a finite value of the format between [lo] and [hi]. *)
Definition within (lo hi f : float) : Prop :=
  finb f = true /\ (F2R lo <= F2R f <= F2R hi)%R.

Definition nonneg (f : float) : bool :=
  match f with
  | S754_zero _ | S754_finite false _ _ | S754_infinity false => true
  | _ => false
  end.

Definition nonpos (f : float) : bool :=
  match f with
  | S754_zero _ | S754_finite true _ _ | S754_infinity true => true
  | _ => false
  end.

Definition signed (s : bool) (z : Z) : Z := if s then - z else z.

(** The largest finite float. *)
Definition max_float : float := S754_finite false 16777215 104.

(** [2^101] and [2^100] as floats. *)
Definition two_101 : float := S754_finite false 8388608 78.
Definition two_100 : float := S754_finite false 8388608 77.

(** A float of magnitude at most [2^100]. *)
Definition moderate (x : float) : bool := finb x && leb (abs x) two_100.

(** The respawn coordinate as a function of the remainder [(i*1327) % 1000]. *)
Definition coord_of_rem (r : Z) : float :=
  mul (sub (div (of_Z r) (of_Z 1000)) (lit 5 10)) (of_Z 4).

Definition Z_range (lo : Z) (len : nat) : list Z :=
  map (fun k => lo + Z.of_nat k) (seq 0 len).

(** 150 particles at rest at the point (1, 1, 0). *)
Definition cloud150 : list Particle :=
  repeat (mkParticle one one zero zero zero zero) 150.

(** A float in the unit interval, as the comparisons of the code see it. *)
Definition in_unit (x : float) : Prop := leb zero x = true /\ leb x one = true.

(** The new value [c'] of a field lies between the old value [c] and the
    target [t]: the step neither overshoots the target nor moves away from
    it, and the distance to the target decreases unless the value is
    unchanged. *)
Definition approaches (c t c' : float) : Prop :=
  finb c' = true /\
  (leb c t = true -> leb c c' = true /\ leb c' t = true) /\
  (leb t c = true -> leb t c' = true /\ leb c' c = true) /\
  (Rabs (F2R t - F2R c') <= Rabs (F2R t - F2R c))%R /\
  (Rabs (F2R t - F2R c') = Rabs (F2R t - F2R c) -> F2R c' = F2R c).

Definition params_moderate (p : Params) : bool :=
  moderate (p_a p) && moderate (p_b p) && moderate (p_c p) &&
  moderate (p_d p) && moderate (p_e p) && moderate (p_f p).

(** The Lorenz parameters, and a target whose [b] is 24 units in the last
    place above 28. *)
Definition lorenz_cur : Params :=
  mkParams (of_Z 10) (of_Z 28) (lit 266 100) zero zero zero.

Definition lorenz_target : Params :=
  mkParams (of_Z 10) (S754_finite false 14680088 (-19)) (lit 266 100)
           zero zero zero.

(** A configuration whose zoom range is not empty and whose values are
    finite numbers of moderate size, the fill factor positive. *)
Definition config_ok (cfg : Config) : bool :=
  finb (cfg_screen_fill_factor cfg) &&
  ltb zero (cfg_screen_fill_factor cfg) &&
  leb (cfg_screen_fill_factor cfg) two_100 &&
  moderate (cfg_min_zoom cfg) && moderate (cfg_max_zoom cfg) &&
  leb (cfg_min_zoom cfg) (cfg_max_zoom cfg).

(** A scale within the configured zoom range. *)
Definition in_zoom_range (cfg : Config) (s : float) : Prop :=
  valid s = true /\
  leb (cfg_min_zoom cfg) s = true /\ leb s (cfg_max_zoom cfg) = true.

(** What a frame gives the camera: the two deviations and the combined
    multiplier, values of the format whose vertical extent is a number. *)
Definition frame_ok (fr : float * float * float) : Prop :=
  let '(mdx, mdy, mult) := fr in
  valid mdx = true /\ valid mdy = true /\ valid mult = true /\
  is_nan (mul mdy mult) = false.

(** A configured initial scale of 10 is below [min_zoom = 60], and the
    camera scale is still below it after the first frame. *)
Definition config_zoomed_out : Config :=
  {| cfg_screen_fill_factor := lit 7 100;
     cfg_min_zoom := of_Z 60;
     cfg_max_zoom := of_Z 2000;
     cfg_initial_cam_scale := of_Z 10 |}.

(** The number of fragment boundaries among the frames [0 .. n-1]. *)
Definition boundaries (fpf n : Z) : Z := (n + fpf - 1) / fpf.

(** * The rest of the program *)

(** ** Command line: the start type *)

(** [start_type = atoi(optarg) % NUM_TYPES], for the [int] that [atoi]
    returns. *)
Definition start_type_of_arg (n : Z) : Z := Z.rem n NUM_TYPES.

(** ** Random parameters *)

Definition zero_params : Params := mkParams zero zero zero zero zero zero.

Section Random.

(** [RAND_MAX] and [rand] of the C library: the generator is a state, and a
    call returns an [int] and the next state. *)
Variable RAND_MAX : Z.
Context {RandState : Type}.
Variable rand : RandState -> Z * RandState.

(** [min + ((float)rand() / RAND_MAX) * (max - min)]. *)
Definition rand_range_cpu (min max : float) (g : RandState)
  : float * RandState :=
  let '(r, g') := rand g in
  (add min (mul (div (of_Z r) (of_Z RAND_MAX)) (sub max min)), g').

(** The parameters of a type, with their random perturbation; a type
    outside 0..4 takes no case of the [switch] and leaves all six at 0. *)
Definition get_target_params (type : Z) (g : RandState)
  : Params * RandState :=
  if type =? TYPE_AIZAWA then
    let '(r, g') := rand_range_cpu (opp (lit 5 10)) (lit 5 10) g in
    (mkParams (lit 95 100) (lit 7 10) (lit 6 10) (add (lit 35 10) r)
              (lit 25 100) (lit 1 10), g')
  else if type =? TYPE_THOMAS then
    let '(r, g') := rand_range_cpu (opp (lit 2 100)) (lit 2 100) g in
    (mkParams zero (add (lit 19 100) r) zero zero zero zero, g')
  else if type =? TYPE_LORENZ then
    let '(r, g') := rand_range_cpu (opp (of_Z 5)) (of_Z 5) g in
    (mkParams (of_Z 10) (add (of_Z 28) r) (lit 266 100) zero zero zero, g')
  else if type =? TYPE_HALVORSEN then
    let '(r, g') := rand_range_cpu (opp (lit 2 10)) (lit 2 10) g in
    (mkParams (add (lit 14 10) r) zero zero zero zero zero, g')
  else if type =? TYPE_CHEN then
    (mkParams (of_Z 40) (of_Z 3) (of_Z 28) zero zero zero, g)
  else (zero_params, g).

(** The initial random box: three draws per particle, in the order x, y, z. *)
Definition init_position (g : RandState) : (float * float * float) * RandState :=
  let '(x, g1) := rand_range_cpu (opp (of_Z 5)) (of_Z 5) g in
  let '(y, g2) := rand_range_cpu (opp (of_Z 5)) (of_Z 5) g1 in
  let '(z, g3) := rand_range_cpu (opp (of_Z 5)) (of_Z 5) g2 in
  ((x, y, z), g3).

Fixpoint init_positions (n : nat) (g : RandState)
  : list (float * float * float) * RandState :=
  match n with
  | O => (nil, g)
  | S k =>
      let '(p, g1) := init_position g in
      let '(ps, g2) := init_positions k g1 in
      (p :: ps, g2)
  end.

(** The parameter state of the main loop: the current and the target
    parameters, and the generator. *)
Record ParamState : Type := mkParamState {
  ps_cur : Params;
  ps_target : Params;
  ps_rand : RandState
}.

(** [cur_p = get_target_params(start_type); target_p = cur_p]. *)
Definition initial_params (start_type : Z) (g : RandState) : ParamState :=
  let '(p, g') := get_target_params start_type g in
  mkParamState p p g'.

(** The parameters over one frame: new target parameters are drawn when the
    type changes, for the new current type, and the current parameters move
    toward the target. *)
Definition params_frame (fpf frame : Z) (s : Sched) (st : ParamState)
  : ParamState :=
  let '(target, g) :=
    if type_change fpf frame s
    then get_target_params (current_type (cycle_step fpf frame s)) (ps_rand st)
    else (ps_target st, ps_rand st) in
  mkParamState (lerp_params (ps_cur st) target) target g.

(** Scheduler and parameters after the frames [0 .. n-1]. *)
Fixpoint run_params (fpf start_type : Z) (g : RandState) (n : nat)
  : Sched * ParamState :=
  match n with
  | O => (initial_sched start_type, initial_params start_type g)
  | S k =>
      let '(s, st) := run_params fpf start_type g k in
      (sched_frame fpf (Z.of_nat k) s, params_frame fpf (Z.of_nat k) s st)
  end.

End Random.

(** The six parameters are finite values between [lo] and [hi]. *)
Definition params_within (lo hi : float) (p : Params) : Prop :=
  within lo hi (p_a p) /\ within lo hi (p_b p) /\ within lo hi (p_c p) /\
  within lo hi (p_d p) /\ within lo hi (p_e p) /\ within lo hi (p_f p).

(** The parameters of each type, field by field. *)
Definition target_spec (type : Z) (p : Params) : Prop :=
  if type =? TYPE_AIZAWA then
    p_a p = lit 95 100 /\ p_b p = lit 7 10 /\ p_c p = lit 6 10 /\
    within (of_Z 3) (of_Z 4) (p_d p) /\
    p_e p = lit 25 100 /\ p_f p = lit 1 10
  else if type =? TYPE_THOMAS then
    p_a p = zero /\ within (lit 17 100) (lit 21 100) (p_b p) /\
    p_c p = zero /\ p_d p = zero /\ p_e p = zero /\ p_f p = zero
  else if type =? TYPE_LORENZ then
    p_a p = of_Z 10 /\ within (of_Z 23) (of_Z 33) (p_b p) /\
    p_c p = lit 266 100 /\ p_d p = zero /\ p_e p = zero /\ p_f p = zero
  else if type =? TYPE_HALVORSEN then
    within (sub (lit 14 10) (lit 2 10)) (lit 16 10) (p_a p) /\
    p_b p = zero /\ p_c p = zero /\ p_d p = zero /\ p_e p = zero /\
    p_f p = zero
  else if type =? TYPE_CHEN then
    p = mkParams (of_Z 40) (of_Z 3) (of_Z 28) zero zero zero
  else p = zero_params.

(** A linear congruential generator with 15-bit outputs, as an instance of
    the C library's [rand]. *)
Definition lcg_rand (g : Z) : Z * Z :=
  let g' := (g * 1103515245 + 12345) mod 2147483648 in
  (Z.quot g' 65536 mod 32768, g').

(** ** Configuration file *)

(** The text of a file or of a line: a list of bytes. *)
Definition text : Type := list ascii.

(** A string literal of the source. *)
Definition str (s : string) : text := list_ascii_of_string s.

Arguments str s%_string.

(** [strcmp(a, b) == 0]. *)
Fixpoint streq (a b : text) : bool :=
  match a, b with
  | nil, nil => true
  | x :: a', y :: b' => Ascii.eqb x y && streq a' b'
  | _, _ => false
  end.

(** Everything [load_config] can override: the per-type framing multipliers
    [ATTRACTOR_BASE_MULTIPLIERS] (an array of [NUM_TYPES] floats), the two
    animation amplitudes and the zoom parameters. *)
Record Settings : Type := mkSettings {
  ATTRACTOR_BASE_MULTIPLIERS : list float;
  cfg_zoom_oscillation : float;
  cfg_dynamic_adjustment : float;
  cfg_zoom : Config
}.

Definition default_settings : Settings :=
  {| ATTRACTOR_BASE_MULTIPLIERS :=
       [lit 8 10; lit 8 10; lit 25 10; lit 12 10; lit 25 10];
     cfg_zoom_oscillation := zero;
     cfg_dynamic_adjustment := zero;
     cfg_zoom := default_config |}.

(** [a[i] = v] for an index within the array. *)
Fixpoint array_set {A : Type} (l : list A) (i : nat) (v : A) : list A :=
  match l, i with
  | nil, _ => nil
  | _ :: r, O => v :: r
  | x :: r, S k => x :: array_set r k v
  end.

(** [ATTRACTOR_BASE_MULTIPLIERS[type]]; an index outside the array has no
    defined value. *)
Definition multiplier_at (s : Settings) (type : Z) : option float :=
  if type <? 0 then None
  else nth_error (ATTRACTOR_BASE_MULTIPLIERS s) (Z.to_nat type).

Definition set_multiplier (type : Z) (v : float) (s : Settings) : Settings :=
  {| ATTRACTOR_BASE_MULTIPLIERS :=
       array_set (ATTRACTOR_BASE_MULTIPLIERS s) (Z.to_nat type) v;
     cfg_zoom_oscillation := cfg_zoom_oscillation s;
     cfg_dynamic_adjustment := cfg_dynamic_adjustment s;
     cfg_zoom := cfg_zoom s |}.

Definition set_zoom (c : Config) (s : Settings) : Settings :=
  {| ATTRACTOR_BASE_MULTIPLIERS := ATTRACTOR_BASE_MULTIPLIERS s;
     cfg_zoom_oscillation := cfg_zoom_oscillation s;
     cfg_dynamic_adjustment := cfg_dynamic_adjustment s;
     cfg_zoom := c |}.

(** The chain of [strcmp] tests on the key of a line. *)
Definition apply_setting (key : text) (value : float) (s : Settings)
  : Settings :=
  let z := cfg_zoom s in
  if streq key (str "aizawa") then set_multiplier TYPE_AIZAWA value s
  else if streq key (str "thomas") then set_multiplier TYPE_THOMAS value s
  else if streq key (str "lorenz") then set_multiplier TYPE_LORENZ value s
  else if streq key (str "halvorsen") then
    set_multiplier TYPE_HALVORSEN value s
  else if streq key (str "chen") then set_multiplier TYPE_CHEN value s
  else if streq key (str "screen_fill_factor") then
    set_zoom (mkConfig value (cfg_min_zoom z) (cfg_max_zoom z)
                       (cfg_initial_cam_scale z)) s
  else if streq key (str "min_zoom") then
    set_zoom (mkConfig (cfg_screen_fill_factor z) value (cfg_max_zoom z)
                       (cfg_initial_cam_scale z)) s
  else if streq key (str "max_zoom") then
    set_zoom (mkConfig (cfg_screen_fill_factor z) (cfg_min_zoom z) value
                       (cfg_initial_cam_scale z)) s
  else if streq key (str "zoom_oscillation") then
    {| ATTRACTOR_BASE_MULTIPLIERS := ATTRACTOR_BASE_MULTIPLIERS s;
       cfg_zoom_oscillation := value;
       cfg_dynamic_adjustment := cfg_dynamic_adjustment s;
       cfg_zoom := z |}
  else if streq key (str "dynamic_adjustment") then
    {| ATTRACTOR_BASE_MULTIPLIERS := ATTRACTOR_BASE_MULTIPLIERS s;
       cfg_zoom_oscillation := cfg_zoom_oscillation s;
       cfg_dynamic_adjustment := value;
       cfg_zoom := z |}
  else if streq key (str "initial_cam_scale") then
    set_zoom (mkConfig (cfg_screen_fill_factor z) (cfg_min_zoom z)
                       (cfg_max_zoom z) value) s
  else s.

(** The eleven keys the parser knows. *)
Definition known_keys : list text :=
  map str ["aizawa"; "thomas"; "lorenz"; "halvorsen"; "chen";
           "screen_fill_factor"; "min_zoom"; "max_zoom";
           "zoom_oscillation"; "dynamic_adjustment";
           "initial_cam_scale"]%string.

(** [isspace] in the C locale: space, and the controls 9..13. *)
Definition isspace (c : ascii) : bool :=
  let n := nat_of_ascii c in
  (n =? 32)%nat || ((9 <=? n)%nat && (n <=? 13)%nat).

(** A white-space directive of a [scanf] format: skips any white space. *)
Fixpoint skip_space (l : text) : text :=
  match l with
  | c :: r => if isspace c then skip_space r else l
  | nil => nil
  end.

(** A character of the scanset [[^= ]]. *)
Definition key_char (c : ascii) : bool :=
  negb (Ascii.eqb c "="%char || Ascii.eqb c " "%char).

(** The conversion [%63[^= ]]: the longest prefix of at most [width]
    characters of the scanset, and what follows it. *)
Fixpoint scan_key (width : nat) (l : text) : text * text :=
  match width, l with
  | S w, c :: r =>
      if key_char c then let '(k, rest) := scan_key w r in (c :: k, rest)
      else (nil, l)
  | _, _ => (nil, l)
  end.

(** The string a buffer holds: the bytes before the first NUL. *)
Fixpoint c_str (l : text) : text :=
  match l with
  | c :: r => if Ascii.eqb c Ascii.zero then nil else c :: c_str r
  | nil => nil
  end.

(** [fgets(line, n + 1, f)]: at most [n] bytes, up to and including the
    first newline; the line read and the rest of the file. *)
Fixpoint fgets (n : nat) (input : text) : text * text :=
  match n, input with
  | S k, c :: r =>
      if Ascii.eqb c "010"%char then ([c], r)
      else let '(l, rest) := fgets k r in (c :: l, rest)
  | _, _ => (nil, input)
  end.

Section ConfigParser.

(** The conversion [%f] on the input left after the white space before it:
    the C library's parser of a floating-point number, which fails when the
    input does not start with one. *)
Variable scan_float : text -> option float.

(** [sscanf(line, " %63[^= ] = %f", key, &value) == 2], with the key and
    the value converted. *)
Definition scan_setting (line : text) : option (text * float) :=
  match scan_key 63 (skip_space line) with
  | (nil, _) => None
  | (key, rest) =>
      match skip_space rest with
      | c :: rest' =>
          if Ascii.eqb c "="%char then
            match scan_float (skip_space rest') with
            | Some v => Some (key, v)
            | None => None
            end
          else None
      | nil => None
      end
  end.

(** The body of the reading loop for one line. *)
Definition config_line (line : text) (s : Settings) : Settings :=
  match line with
  | c :: _ =>
      if Ascii.eqb c "#"%char || Ascii.eqb c "010"%char
         || Ascii.eqb c "013"%char
      then s
      else match scan_setting (c_str line) with
           | Some (key, value) => apply_setting key value s
           | None => s
           end
  | nil => s
  end.

(** [while (fgets(line, sizeof(line), f)) ...] with [char line[256]]; every
    iteration on a non-empty input consumes at least one byte. *)
Fixpoint load_lines (fuel : nat) (input : text) (s : Settings) : Settings :=
  match fuel with
  | O => s
  | S k =>
      match input with
      | nil => s
      | _ => let '(line, rest) := fgets 255 input in
             load_lines k rest (config_line line s)
      end
  end.

(** [load_config]: a file that cannot be opened leaves the settings as they
    are. *)
Definition load_config (file : option text) (s : Settings) : Settings :=
  match file with
  | None => s
  | Some content => load_lines (length content) content s
  end.

End ConfigParser.

(** A space or a tab. *)
Definition blank (c : ascii) : bool :=
  Ascii.eqb c " "%char || Ascii.eqb c "009"%char.

(** A character a plain key is made of: not [=], not white space, not NUL,
    and not [#]. *)
Definition plain_char (c : ascii) : bool :=
  key_char c && negb (isspace c) && negb (Ascii.eqb c Ascii.zero)
  && negb (Ascii.eqb c "#"%char).

(** A key of 1 to 63 plain characters. *)
Definition plain_key (k : text) : bool :=
  forallb plain_char k && (1 <=? length k)%nat && (length k <=? 63)%nat.

(** No byte of the text is a newline. *)
Definition no_newline (l : text) : bool :=
  forallb (fun c => negb (Ascii.eqb c "010"%char)) l.

(** A number parser for examples: it reads one decimal digit. *)
Definition scan_digit (l : text) : option float :=
  match l with
  | c :: _ =>
      let n := nat_of_ascii c in
      if (48 <=? n)%nat && (n <=? 57)%nat
      then Some (of_Z (Z.of_nat n - 48))
      else None
  | nil => None
  end.

(** ** Main loop: smoothed quantities and zoom multiplier *)

(** [smooth_base_multiplier += (ATTRACTOR_BASE_MULTIPLIERS[current_type] -
    smooth_base_multiplier) * 0.02f]; undefined for a type outside the
    array. *)
Definition base_multiplier_step (s : Settings) (type : Z) (m : float)
  : option float :=
  match multiplier_at s type with
  | Some target => Some (smooth m target lerp_rate)
  | None => None
  end.

(** [if (max_spd < 1.0f) max_spd = 1.0f;
     smooth_max_spd += (max_spd - smooth_max_spd) * 0.005f]. *)
Definition max_spd_step (smooth_max_spd max_spd : float) : float :=
  smooth smooth_max_spd (floor_one max_spd) cam_rate.

(** The smoothed maximal speed after a sequence of frames, from its initial
    value 1.0. *)
Definition max_spd_run (speeds : list float) : float :=
  fold_left max_spd_step speeds one.

(** [max_spd / (smooth_max_spd + 0.001f)]. *)
Definition velocity_ratio (max_spd smooth_max_spd : float) : float :=
  div max_spd (add smooth_max_spd (lit 1 1000)).

(** The velocity-based factor, clamped to [0.85, 1.15]. *)
Definition dynamic_factor (s : Settings) (max_spd smooth_max_spd : float)
  : float :=
  let d := add one (mul (sub (velocity_ratio max_spd smooth_max_spd) one)
                        (cfg_dynamic_adjustment s)) in
  let d := if ltb d (lit 85 100) then lit 85 100 else d in
  if gtb d (lit 115 100) then lit 115 100 else d.

(** [1.0f + zoom_wave * cfg_zoom_oscillation], for the sine [zoom_wave] of
    the position within the fragment. *)
Definition sinusoidal_factor (s : Settings) (zoom_wave : float) : float :=
  add one (mul zoom_wave (cfg_zoom_oscillation s)).

(** [smooth_base_multiplier * dynamic_factor * sinusoidal_factor]. *)
Definition combined_multiplier (s : Settings)
    (smooth_base_multiplier max_spd smooth_max_spd zoom_wave : float)
  : float :=
  mul (mul smooth_base_multiplier (dynamic_factor s max_spd smooth_max_spd))
      (sinusoidal_factor s zoom_wave).

(** The time stamp of a chapter: minutes and seconds of [frame / 60]. *)
Definition framerate : Z := 60.

Definition timestamp (frame : Z) : Z * Z :=
  let total_seconds := Z.quot frame framerate in
  (Z.quot total_seconds 60, Z.rem total_seconds 60).

(** ** Rasterizer *)

Definition INT_MIN : Z := - 2 ^ 31.
Definition INT_MAX : Z := 2 ^ 31 - 1.

(** The conversion [(int) x], defined when the truncated value is an
    [int]. *)
Definition to_int (x : float) : option Z :=
  match trunc x with
  | Some v => if (INT_MIN <=? v) && (v <=? INT_MAX) then Some v else None
  | None => None
  end.

(** [(int)((c - cam_c) * cam_scale + size / 2)]. *)
Definition screen_coord (c cam_c cam_scale : float) (size : Z) : option Z :=
  to_int (add (mul (sub c cam_c) cam_scale) (of_Z (Z.quot size 2))).

Definition on_screen (px py : Z) : bool :=
  (px >=? 0) && (px <? WIDTH) && (py >=? 0) && (py <? HEIGHT).

(** [(py * WIDTH + px) * 3], in [int] arithmetic. *)
Definition pixel_index (px py : Z) : Z :=
  wrap_int (wrap_int (wrap_int (py * WIDTH) + px) * 3).

(** The accumulation buffer: [WIDTH * HEIGHT * 3] floats. *)
Definition Buffer : Type := Z -> float.

Definition buffer_size : Z := WIDTH * HEIGHT * 3.

(** The buffer at the start of a frame. *)
Definition clear_buffer : Buffer := fun _ => zero.

(** [accum_buffer[idx] += v]. *)
Definition accum_add (buf : Buffer) (idx : Z) (v : float) : Buffer :=
  fun j => if j =? idx then add (buf j) v else buf j.

Definition rot_z (cos_t sin_t : float) (q : Particle) : float :=
  add (mul (px q) sin_t) (mul (pz q) cos_t).

(** The heat of a particle: its speed relative to the smoothed maximum. *)
Definition heat (smooth_max_spd : float) (q : Particle) : float :=
  div (speed q) smooth_max_spd.

(** The view of a frame: rotation, camera and speed scale. *)
Record View : Type := mkView {
  v_cos : float; v_sin : float;
  v_cx : float; v_cy : float; v_scale : float;
  v_max_spd : float
}.

(** One iteration of the render loop; no result when a conversion to [int]
    is undefined. *)
Definition render_particle (v : View) (q : Particle) (buf : Buffer)
  : option Buffer :=
  let rx := rot_x (v_cos v) (v_sin v) q in
  let rz := rot_z (v_cos v) (v_sin v) q in
  let ry := rot_y q in
  match screen_coord rx (v_cx v) (v_scale v) WIDTH,
        screen_coord ry (v_cy v) (v_scale v) HEIGHT with
  | Some px, Some py =>
      if on_screen px py then
        let c := contribution (heat (v_max_spd v) q) rz in
        let idx := pixel_index px py in
        Some (accum_add (accum_add (accum_add buf idx (red c))
                                   (idx + 1) (green c))
                        (idx + 2) (blue c))
      else Some buf
  | _, _ => None
  end.

(** The render loop over the particles, in the order of the indices. *)
Fixpoint render (v : View) (ps : list Particle) (buf : Buffer)
  : option Buffer :=
  match ps with
  | nil => Some buf
  | q :: rest =>
      match render_particle v q buf with
      | Some buf' => render v rest buf'
      | None => None
      end
  end.

(** A particle whose heat and depth are numbers. *)
Definition renderable (v : View) (q : Particle) : Prop :=
  valid (heat (v_max_spd v) q) = true /\
  is_nan (heat (v_max_spd v) q) = false /\
  valid (rot_z (v_cos v) (v_sin v) q) = true /\
  is_nan (rot_z (v_cos v) (v_sin v) q) = false.

(** [2^24], where a sum of contributions stops growing. *)
Definition two_24 : float := of_Z 16777216.

(** Every float of the buffer is a finite number in [0, 2^24], and no float
    outside the buffer has been written. *)
Definition buffer_ok (buf : Buffer) : Prop :=
  forall j, within zero two_24 (buf j) /\
            (j < 0 \/ buffer_size <= j -> buf j = zero).

(** The conversions to [int] of a particle are defined. *)
Definition projects (v : View) (q : Particle) : Prop :=
  screen_coord (rot_x (v_cos v) (v_sin v) q) (v_cx v) (v_scale v) WIDTH
    <> None /\
  screen_coord (rot_y q) (v_cy v) (v_scale v) HEIGHT <> None.

(** A view and a particle for examples: the particle at rest at (1, 1, 0),
    seen without rotation at 100 pixels per unit. *)
Definition example_view : View :=
  mkView one zero zero zero (of_Z 100) one.

Definition example_particle : Particle :=
  mkParticle one one zero zero zero zero.

(** The buffer after rendering the example particle, at pixel (1060, 640). *)
Definition example_buffer : Buffer :=
  let c := contribution (heat (v_max_spd example_view) example_particle)
                        (rot_z (v_cos example_view) (v_sin example_view)
                               example_particle) in
  let idx := pixel_index 1060 640 in
  accum_add (accum_add (accum_add clear_buffer idx (red c))
                       (idx + 1) (green c))
            (idx + 2) (blue c).

(** ** Statistics: vocabulary *)

(** [if (spd > max_spd) max_spd = spd] over a list of speeds. *)
Definition running_max (l : list float) (m : float) : float :=
  fold_left (fun m spd => if gtb spd m then spd else m) l m.

(** The speeds of the sampled particles, in the order of the loop. *)
Definition sampled_speeds (ps : list Particle) (n : Z) : list float :=
  map (fun i => speed (particle_at ps i)) (sampled_indices n).

(** The fields of a particle are values of the format. *)
Definition valid_particle (q : Particle) : bool :=
  valid (px q) && valid (py q) && valid (pz q) &&
  valid (vx q) && valid (vy q) && valid (vz q).

(** A float that is NaN or not negative. *)
Definition nan_or_nonneg (x : float) : bool := is_nan x || leb zero x.

(** The smoothed base multiplier along a run: initialised from the start
    type, then moved each frame toward the multiplier of the current type. *)
Fixpoint base_multiplier_run (s : Settings) (fpf start_type : Z) (n : nat)
  : option float :=
  match n with
  | O => multiplier_at s start_type
  | S k =>
      match base_multiplier_run s fpf start_type k with
      | Some m =>
          base_multiplier_step s
            (current_type (fst (run_sched fpf start_type (S k)))) m
      | None => None
      end
  end.

(** A speed that is a number of magnitude at most [2^100]. *)
Definition speed_ok (m : float) : Prop :=
  valid m = true /\ leb m two_100 = true.

(** ** Integrator: vocabulary *)

(** A zero of either sign. *)
Definition is_zero (x : float) : bool :=
  match x with S754_zero _ => true | _ => false end.

(** Lorenz, Halvorsen or Chen: the types whose field vanishes at the
    origin. *)
Definition origin_type (type : Z) : bool :=
  (type =? TYPE_LORENZ) || (type =? TYPE_HALVORSEN) || (type =? TYPE_CHEN).

(** ** Rendering: bounds that keep the conversions defined *)

(** A finite value of the format of magnitude at most [B]. *)
Definition bounded (B x : float) : Prop := within (opp B) B x.

Definition two_60 : float := S754_finite false 8388608 37.

(** The largest float below [2^31]. *)
Definition int_big : float := S754_finite false 16777215 7.

(** A view with sine and cosine in [-1, 1], the camera centre within 1000
    units of the origin, a scale between 0 and [10^6] pixels per unit, and a
    smoothed maximal speed in [1, 2^100]. *)
Definition view_ok (v : View) : Prop :=
  bounded one (v_cos v) /\ bounded one (v_sin v) /\
  bounded (of_Z 1000) (v_cx v) /\ bounded (of_Z 1000) (v_cy v) /\
  bounded (of_Z 1000000) (v_scale v) /\
  within one two_100 (v_max_spd v).

(** A particle inside the escape bound, with velocity components of
    magnitude at most [2^60]. *)
Definition particle_ok (q : Particle) : Prop :=
  bounded MAX_COORD (px q) /\ bounded MAX_COORD (py q) /\
  bounded MAX_COORD (pz q) /\
  bounded two_60 (vx q) /\ bounded two_60 (vy q) /\ bounded two_60 (vz q).

(** ** The physics loop over the particle arrays *)

Section PhysicsLoop.

Variable sinf : float -> float.

(** [for (...; i < num_particles; i++)]: the loop body applied to the
    particles from index [i] on. *)
Fixpoint physics_from (cur_type prev_type : Z) (p : Params) (blend : float)
    (i : Z) (ps : list Particle) : list Particle :=
  match ps with
  | nil => nil
  | q :: r =>
      integrate_particle sinf cur_type prev_type p blend i q
      :: physics_from cur_type prev_type p blend (i + 1) r
  end.

(** The physics update of one frame, with the types and the blend of the
    scheduler and the current parameters. *)
Definition physics_frame (s : Sched) (p : Params) (ps : list Particle)
  : list Particle :=
  physics_from (current_type s) (previous_type s) p (transition_blend s) 0 ps.

Variable RAND_MAX : Z.
Context {RandState : Type}.
Variable rand : RandState -> Z * RandState.

(** The particle arrays after the frames [0 .. n-1]: in each frame the
    scheduler and the parameters are updated first. *)
Fixpoint run_physics (fpf start_type : Z) (g : RandState)
    (ps0 : list Particle) (n : nat) : list Particle :=
  match n with
  | O => ps0
  | S k =>
      let '(s, st) := run_params RAND_MAX rand fpf start_type g (S k) in
      physics_frame s (ps_cur st) (run_physics fpf start_type g ps0 k)
  end.

End PhysicsLoop.

(** A position inside the escape bound; nothing is said of the velocity. *)
Definition position_ok (q : Particle) : Prop :=
  bounded MAX_COORD (px q) /\ bounded MAX_COORD (py q) /\
  bounded MAX_COORD (pz q).

(** Two particles inside the bound, the second with velocities that are not
    numbers. *)
Definition example_cloud : list Particle :=
  [mkParticle one (of_Z 2) (of_Z 3) (of_Z 3) (of_Z 3) (of_Z 3);
   mkParticle (opp (of_Z 5)) (of_Z 5) zero S754_nan S754_nan S754_nan].

(** ** The camera centre *)

(** [cam_cx += (center_x - cam_cx) * 0.005f], and the same for [cam_cy]. *)
Definition cam_centre_step (cam centre : float) : float :=
  smooth cam centre cam_rate.

(** The view the render loop of a frame uses: the camera centre is moved
    toward the centroid of the statistics before the loop. *)
Definition frame_view (cos_t sin_t : float) (st : Stats)
    (cam_cx cam_cy cam_scale smooth_max_spd : float) : View :=
  mkView cos_t sin_t
         (cam_centre_step cam_cx (center_x st))
         (cam_centre_step cam_cy (center_y st))
         cam_scale smooth_max_spd.

(** ** The bounded-state invariant *)

(** The position of a particle. *)
Definition position (q : Particle) : float * float * float :=
  (px q, py q, pz q).

(** A stored coordinate that is a number of magnitude at most 80. *)
Definition coord_ok (c : float) : Prop :=
  is_nan c = false /\ leb (abs c) (of_Z 80) = true.

Definition stored_ok (q : Particle) : Prop :=
  coord_ok (px q) /\ coord_ok (py q) /\ coord_ok (pz q).

(** The Euler step of one particle, before the recovery rule: the position
    it reaches and the blended derivative. *)
Definition advance (sinf : float -> float) (cur_type prev_type : Z)
    (p : Params) (blend : float) (q : Particle)
  : (float * float * float) * (float * float * float) :=
  let x := px q in let y := py q in let z := pz q in
  let '(dx_cur, dy_cur, dz_cur) := field sinf cur_type p x y z in
  let '(dx_prev, dy_prev, dz_prev) := field sinf prev_type p x y z in
  let dx := add dx_prev (mul (sub dx_cur dx_prev) blend) in
  let dy := add dy_prev (mul (sub dy_cur dy_prev) blend) in
  let dz := add dz_prev (mul (sub dz_cur dz_prev) blend) in
  ((add x (mul dx DT), add y (mul dy DT), add z (mul dz DT)), (dx, dy, dz)).

(** Two particles of the initial random box of the generator [lcg_rand],
    with velocities that are not numbers, as an allocation may hold. *)
Definition example_box : list Particle :=
  map (fun '(x, y, z) => mkParticle x y z S754_nan S754_nan S754_nan)
      (fst (init_positions 32767 lcg_rand 2 1)).

(** ** Progress of the interpolation *)

(** The current value is far from the target: their distance is at least
    [2^-18] times the magnitude of the current value, which is between 32
    and 64 units in its last place, and at least [2^-120]. *)
Definition far_from (c t : float) : Prop :=
  (bpow (-18) * Rabs (F2R c) <= Rabs (F2R t - F2R c) /\
   bpow (-120) <= Rabs (F2R t - F2R c))%R.

(** The new value [c'] is strictly closer to the target than [c]. *)
Definition closer (c t c' : float) : Prop :=
  (Rabs (F2R t - F2R c') < Rabs (F2R t - F2R c))%R.

(** The new value [c'] is [c + (t - c) * 0.02] up to the roundings of the
    three operations and of the constant. *)
Definition near_rate (c t c' : float) : Prop :=
  (Rabs (F2R c' - (F2R c + (F2R t - F2R c) * (2 / 100)))
   <= bpow (-22) * (Rabs (F2R c) + Rabs (F2R t - F2R c)) + bpow (-148))%R.

(** One interpolation step of a field: it approaches the target, by 0.02
    of the distance up to rounding, and strictly so when the current value
    is far from the target. *)
Definition lerp_step_ok (c t c' : float) : Prop :=
  approaches c t c' /\ near_rate c t c' /\ (far_from c t -> closer c t c').

(** The Lorenz parameters with the target [b = 33], the upper end of the
    range [get_target_params] draws from. *)
Definition lorenz_far_target : Params :=
  mkParams (of_Z 10) (of_Z 33) (lit 266 100) zero zero zero.

(** ** The tone map of the design *)

(** [clamp (ln (1 + accum * 2.5) * 45, 0, 255)], over the real numbers. *)
Definition tone_spec (x : R) : R :=
  Rmin 255 (Rmax 0 (ln (1 + x * 2.5) * 45)).

(** The byte [v] is the truncation of a value within [2^-12] of the
    design's value at [x]. *)
Definition byte_of_spec (x : R) (v : Z) : Prop :=
  exists t : R,
    (Rabs (t - tone_spec x) <= bpow (-12))%R /\ (IZR v <= t < IZR v + 1)%R.

(** The natural logarithm rounded to single precision: a rounding of
    [ln x] for a finite [x], and the argument itself otherwise. *)
Definition round_ln (x : float) : float :=
  if is_finite x
  then epsilon (inhabits zero) (fun f => rounds (ln (F2R x)) f)
  else x.

(** Squaring in fixed point with denominator [D]: [k] times
    [n := n * n / D], rounded down; from a lower bound [n / D] of
    [exp z] it gives one of [exp (z * 2^k)]. *)
Fixpoint sq_chain (D n : Z) (k : nat) : Z :=
  match k with
  | O => n
  | S j => let m := sq_chain D n j in (m * m) / D
  end.

(** The accumulated value [10326828 * 2^-18], about 39.3937: with it
    [1 + accum * 2.5] is [13039607 * 2^-17] exactly, the logarithm of
    which is just below 4.6. *)
Definition accum_207 : float := S754_finite false 10326828 (-18).

(** * Rounding: the operations against the real numbers *)

(** ** Powers of two *)

Section Bpow.
Local Open Scope R_scope.

Lemma bpow_pos (e : Z) : 0 < bpow e.
Proof. apply powerRZ_lt. lra. Qed.

Lemma bpow_add (a b : Z) : bpow (a + b) = bpow a * bpow b.
Proof. apply powerRZ_add. lra. Qed.

Lemma bpow_0 : bpow 0 = 1.
Proof. reflexivity. Qed.

Lemma bpow_1 : bpow 1 = 2.
Proof. unfold bpow. simpl. lra. Qed.

Lemma bpow_succ (e : Z) : bpow (e + 1) = 2 * bpow e.
Proof. rewrite bpow_add, bpow_1. lra. Qed.

Lemma bpow_pred (e : Z) : bpow (e - 1) = bpow e / 2.
Proof.
  replace e with ((e - 1) + 1)%Z at 2 by lia. rewrite bpow_succ. lra.
Qed.

Lemma bpow_IZR (n : Z) : (0 <= n)%Z -> bpow n = IZR (2 ^ n).
Proof.
  intros Hn. destruct n as [| p | p]; [reflexivity | | lia].
  unfold bpow. change (2 ^ Z.pos p)%Z with (Z.pow_pos 2 p).
  now rewrite Zpower_pos_powerRZ.
Qed.

Lemma bpow_le (a b : Z) : (a <= b)%Z -> bpow a <= bpow b.
Proof.
  intros H. replace b with (a + (b - a))%Z by lia.
  rewrite bpow_add. rewrite (bpow_IZR (b - a)) by lia.
  assert (1 <= IZR (2 ^ (b - a))).
  { apply IZR_le. pose proof (Z.pow_pos_nonneg 2 (b - a)). lia. }
  pose proof (bpow_pos a). nra.
Qed.

Lemma bpow_lt (a b : Z) : (a < b)%Z -> bpow a < bpow b.
Proof.
  intros H. apply Rlt_le_trans with (bpow (a + 1)).
  - rewrite bpow_succ. pose proof (bpow_pos a). lra.
  - apply bpow_le. lia.
Qed.

Lemma bpow_le_inv (a b : Z) : bpow a <= bpow b -> (a <= b)%Z.
Proof.
  intros H. destruct (Z_le_gt_dec a b) as [|Hgt]; [assumption |].
  pose proof (bpow_lt b a ltac:(lia)). lra.
Qed.

Lemma bpow_lt_inv (a b : Z) : bpow a < bpow b -> (a < b)%Z.
Proof.
  intros H. destruct (Z_lt_ge_dec a b) as [|Hge]; [assumption |].
  pose proof (bpow_le b a ltac:(lia)). lra.
Qed.

End Bpow.

(** ** Number of binary digits *)

Lemma digits2_size (m : positive) : digits2_pos m = Pos.size m.
Proof. induction m; simpl; congruence. Qed.

Lemma digits2_bounds (m : positive) :
  2 ^ (Z.pos (digits2_pos m) - 1) <= Z.pos m < 2 ^ Z.pos (digits2_pos m).
Proof.
  rewrite digits2_size. split.
  - pose proof (Pos.size_le m) as H.
    assert (H' : 2 ^ Z.pos (Pos.size m) <= 2 * Z.pos m).
    { change (2 * Z.pos m) with (Z.pos m~0).
      rewrite <- Pos2Z.inj_pow. apply Pos2Z.pos_le_pos. exact H. }
    replace (Z.pos (Pos.size m)) with (Z.pos (Pos.size m) - 1 + 1) in H' by lia.
    rewrite Z.pow_add_r in H' by lia. lia.
  - pose proof (Pos.size_gt m) as H.
    rewrite <- Pos2Z.inj_pow. apply Pos2Z.pos_lt_pos. exact H.
Qed.

(** ** Iterated shifts *)

Lemma iter_pos_nat {A : Type} (f : A -> A) (p : positive) (x : A) :
  SpecFloat.iter_pos f p x = Nat.iter (Pos.to_nat p) f x.
Proof.
  revert x. induction p as [p IH | p IH |]; intros x; cbn [SpecFloat.iter_pos].
  - rewrite !IH. rewrite Pos2Nat.inj_xI.
    cbn [Nat.iter]. rewrite <- Nat.iter_add.
    replace (Pos.to_nat p + Pos.to_nat p)%nat with (2 * Pos.to_nat p)%nat by lia.
    rewrite <- Nat.iter_succ_r. reflexivity.
  - rewrite !IH. rewrite Pos2Nat.inj_xO.
    rewrite <- Nat.iter_add.
    replace (Pos.to_nat p + Pos.to_nat p)%nat with (2 * Pos.to_nat p)%nat by lia.
    reflexivity.
  - reflexivity.
Qed.

(** ** Shifting a mantissa keeps the location of the real *)

Lemma fexp_eq (z : Z) : fexp prec emax z = Z.max (z - 24) (-149).
Proof. reflexivity. Qed.

Lemma IZR_xO (p : positive) : IZR (Z.pos p~0) = (2 * IZR (Z.pos p))%R.
Proof. change (Z.pos p~0) with (2 * Z.pos p). now rewrite mult_IZR. Qed.

Lemma IZR_xI (p : positive) : IZR (Z.pos p~1) = (2 * IZR (Z.pos p) + 1)%R.
Proof.
  change (Z.pos p~1) with (2 * Z.pos p + 1). now rewrite plus_IZR, mult_IZR.
Qed.

Lemma shr_1_located (mrs : shr_record) (e : Z) (x : R) :
  0 <= shr_m mrs ->
  located (shr_m mrs) (loc_of_shr_record mrs) e x ->
  0 <= shr_m (shr_1 mrs) /\
  located (shr_m (shr_1 mrs)) (loc_of_shr_record (shr_1 mrs)) (e + 1) x.
Proof.
  destruct mrs as [m r s]. cbn [shr_m]. intros Hm H.
  pose proof (bpow_pos e) as Hb.
  destruct m as [| p | p]; [| | lia].
  - destruct r, s; cbn [shr_1 shr_m loc_of_shr_record located orb] in *;
      rewrite bpow_succ; (split; [lia |]); lra.
  - destruct p as [p | p |]; destruct r, s;
      cbn [shr_1 shr_m loc_of_shr_record located orb] in *;
      try rewrite (IZR_xI p) in H; try rewrite (IZR_xO p) in H;
      rewrite bpow_succ; (split; [lia |]); lra.
Qed.

Lemma shr_iter_located (n : nat) (mrs : shr_record) (e : Z) (x : R) :
  0 <= shr_m mrs ->
  located (shr_m mrs) (loc_of_shr_record mrs) e x ->
  0 <= shr_m (Nat.iter n shr_1 mrs) /\
  located (shr_m (Nat.iter n shr_1 mrs))
          (loc_of_shr_record (Nat.iter n shr_1 mrs)) (e + Z.of_nat n) x.
Proof.
  intros Hm H. induction n as [| n [IH1 IH2]].
  - cbn [Nat.iter]. replace (e + Z.of_nat 0) with e by lia. auto.
  - cbn [Nat.iter].
    replace (e + Z.of_nat (S n)) with (e + Z.of_nat n + 1) by lia.
    now apply shr_1_located.
Qed.

Lemma loc_of_record_of_loc (m : Z) (l : location) :
  loc_of_shr_record (shr_record_of_loc m l) = l /\
  shr_m (shr_record_of_loc m l) = m.
Proof. destruct l as [| [| |]]; split; reflexivity. Qed.

(** The first shift of [binary_round_aux] brings the mantissa to the
    exponent [fexp (digits m + e)]. *)
Lemma shr_fexp_located (m e : Z) (l : location) (x : R) :
  0 <= m -> located m l e x ->
  e <= fexp prec emax (Zdigits2 m + e) ->
  let '(mrs, E) := shr_fexp prec emax m e l in
  E = fexp prec emax (Zdigits2 m + e) /\
  0 <= shr_m mrs /\ located (shr_m mrs) (loc_of_shr_record mrs) E x.
Proof.
  intros Hm Hx He. unfold shr_fexp, shr.
  destruct (loc_of_record_of_loc m l) as [Hl Hr].
  remember (fexp prec emax (Zdigits2 m + e)) as E eqn:HE.
  destruct (E - e) as [| p | p] eqn:Hn; [| | lia].
  - assert (Heq : e = E) by lia. rewrite Hl, Hr.
    split; [exact Heq | split; [exact Hm | exact Hx]].
  - rewrite iter_pos_nat.
    destruct (shr_iter_located (Pos.to_nat p) (shr_record_of_loc m l) e x)
      as [H1 H2].
    + now rewrite Hr.
    + now rewrite Hl, Hr.
    + rewrite positive_nat_Z in H2.
      replace (e + Z.pos p) with E in * by lia. auto.
Qed.

Section Nearest.
Local Open Scope R_scope.

(** Rounding a located mantissa picks a nearest point, the even one. *)
Lemma round_nearest_even_spec (m : Z) (l : location) (E : Z) (x : R) :
  located m l E x ->
  nearest_even x (round_nearest_even m l) E.
Proof.
  pose proof (bpow_pos E) as Hb. unfold nearest_even.
  destruct l as [| [| |]]; cbn [located round_nearest_even].
  - intros ->. replace (IZR m * bpow E - IZR m * bpow E) with 0 by ring.
    rewrite Rabs_R0. split; [lra | intros; lra].
  - intros [[H1 H2] H3]. destruct (Z.even m) eqn:Hev.
    + subst x. replace ((IZR m + / 2) * bpow E - IZR m * bpow E)
        with (bpow E / 2) by field.
      rewrite Rabs_pos_eq by lra. split; [lra | auto].
    + subst x. rewrite plus_IZR.
      replace ((IZR m + / 2) * bpow E - (IZR m + 1) * bpow E)
        with (- (bpow E / 2)) by field.
      rewrite Rabs_Ropp, Rabs_pos_eq by lra. split; [lra |].
      intros _. rewrite Z.even_add, Hev. reflexivity.
  - intros [[H1 H2] H3]. rewrite Rabs_pos_eq by lra. split; [lra |].
    intros Heq. lra.
  - intros [[H1 H2] H3]. rewrite plus_IZR.
    rewrite Rabs_left by lra. split; [lra |].
    intros Heq. lra.
Qed.

Lemma round_nearest_even_nonneg (m : Z) (l : location) :
  (0 <= m)%Z -> (0 <= round_nearest_even m l)%Z.
Proof.
  intros Hm. destruct l as [| [| |]]; cbn; try lia.
  destruct (Z.even m); lia.
Qed.

Lemma Rabs_le_inv (x a : R) : Rabs x <= a -> - a <= x <= a.
Proof. unfold Rabs. destruct (Rcase_abs x); lra. Qed.

Lemma Rabs_le_intro (x a : R) : - a <= x <= a -> Rabs x <= a.
Proof. unfold Rabs. destruct (Rcase_abs x); lra. Qed.

(** A nearest point of the grid of [x] has at most 24 digits, or is [2^24];
    above the subnormals it has at least 24. *)
Lemma nearest_even_range (x : R) (k E : Z) :
  0 < x -> grid_exp x E -> nearest_even x k E ->
  (0 <= k <= 16777216)%Z /\ ((-149 < E)%Z -> (8388608 <= k)%Z).
Proof.
  intros Hx (HE & Hhi & Hlo) [Hn _].
  pose proof (bpow_pos E) as Hb.
  apply Rabs_le_inv in Hn.
  assert (H24 : bpow (E + 24) = 16777216 * bpow E).
  { rewrite Z.add_comm, bpow_add. rewrite (bpow_IZR 24) by lia. reflexivity. }
  assert (H23 : bpow (E + 23) = 8388608 * bpow E).
  { rewrite Z.add_comm, bpow_add. rewrite (bpow_IZR 23) by lia. reflexivity. }
  repeat split.
  - assert (-1 < IZR k) by nra.
    apply lt_IZR in H. lia.
  - assert (IZR k < 16777217) by nra.
    apply lt_IZR in H. lia.
  - intros HE'. specialize (Hlo HE').
    assert (8388607 < IZR k) by nra.
    apply lt_IZR in H. lia.
Qed.

End Nearest.

(** ** The rounding function of the format *)

Lemma second_shift (s : bool) (k E : Z) :
  -149 <= E -> 0 <= k <= 16777216 ->
  (let '(mrs, E') := shr_fexp prec emax k E loc_Exact in
   match shr_m mrs with
   | 0 => S754_zero s
   | Z.pos m => if E' <=? emax - prec then S754_finite s m E'
                else S754_infinity s
   | Z.neg _ => S754_nan
   end) = float_of s k E.
Proof.
  intros HE Hk. unfold shr_fexp. rewrite fexp_eq.
  destruct k as [| p | p]; [| | lia].
  - cbn [Zdigits2]. unfold shr.
    destruct (Z.max (0 + E - 24) (-149) - E) eqn:Hn; try lia; reflexivity.
  - cbn [Zdigits2]. unfold float_of.
    destruct (Z.eqb_spec (Z.pos p) 16777216) as [Heq | Hne].
    + injection Heq as ->. cbn [digits2_pos Pos.succ].
      replace (Z.max (25 + E - 24) (-149) - E) with 1 by lia.
      reflexivity.
    + pose proof (digits2_bounds p) as Hd.
      assert (Hd' : Z.pos (digits2_pos p) <= 24).
      { destruct (Z_le_gt_dec (Z.pos (digits2_pos p)) 24); [assumption |].
        assert (2 ^ 24 <= 2 ^ (Z.pos (digits2_pos p) - 1))
          by (apply Z.pow_le_mono_r; lia).
        change (2 ^ 24) with 16777216 in *. lia. }
      unfold shr.
      destruct (Z.max (Z.pos (digits2_pos p) + E - 24) (-149) - E)
        as [| q | q] eqn:Hn; try lia; cbn [shr_record_of_loc shr_m];
        reflexivity.
Qed.

Lemma located_bounds (m : Z) (l : location) (e : Z) (x : R) :
  located m l e x -> (IZR m * bpow e <= x < (IZR m + 1) * bpow e)%R.
Proof.
  pose proof (bpow_pos e).
  destruct l as [| c]; cbn [located]; [intros -> | intros [H1 _]]; lra.
Qed.

(** The exponent [binary_round_aux] computes from the digits of the mantissa
    is the exponent of the grid around the located real. *)
Lemma located_grid_exp (m e : Z) (l : location) (x : R) :
  0 <= m -> (0 < x)%R -> located m l e x ->
  e <= fexp prec emax (Zdigits2 m + e) ->
  grid_exp x (fexp prec emax (Zdigits2 m + e)).
Proof.
  intros Hm Hx Hloc He. apply located_bounds in Hloc.
  rewrite fexp_eq in *. pose proof (bpow_pos e) as Hb.
  destruct m as [| p | p]; [| | lia].
  - cbn [Zdigits2] in *.
    assert (Z.max (0 + e - 24) (-149) = -149) as -> by lia.
    assert (e <= -149) by lia.
    split; [lia |]. split; [| lia].
    pose proof (bpow_le e (-149) ltac:(lia)).
    pose proof (bpow_lt (-149) (-149 + 24) ltac:(lia)). lra.
  - cbn [Zdigits2] in *. pose proof (digits2_bounds p) as [Hd1 Hd2].
    set (d := Z.pos (digits2_pos p)) in *.
    assert (Hdpos : 0 < d) by (unfold d; lia).
    apply IZR_le in Hd1. apply IZR_lt in Hd2.
    rewrite <- bpow_IZR in Hd1, Hd2 by lia.
    assert (Hup : (IZR (Z.pos p) + 1 <= bpow d)%R).
    { rewrite bpow_IZR in * by lia. rewrite <- (plus_IZR _ 1).
      apply IZR_le. apply lt_IZR in Hd2. lia. }
    set (E := Z.max (d + e - 24) (-149)).
    split; [unfold E; lia |]. split.
    + apply Rlt_le_trans with (bpow (d + e)).
      * rewrite bpow_add. nra.
      * apply bpow_le. unfold E. lia.
    + intros HE. assert (E + 23 = (d - 1) + e) as -> by (unfold E in *; lia).
      rewrite bpow_add. nra.
Qed.

(** [binary_round_aux] rounds the real its arguments locate, as soon as the
    mantissa is given at an exponent that is not above the grid's. *)
Theorem binary_round_aux_pos (s : bool) (m e : Z) (l : location) (x : R) :
  0 <= m -> (0 < x)%R -> located m l e x ->
  e <= fexp prec emax (Zdigits2 m + e) ->
  exists k E,
    grid_exp x E /\ nearest_even x k E /\
    binary_round_aux prec emax s m e l = float_of s k E.
Proof.
  intros Hm Hx Hloc He.
  pose proof (shr_fexp_located m e l x Hm Hloc He) as H1.
  unfold binary_round_aux.
  destruct (shr_fexp prec emax m e l) as [mrs E].
  destruct H1 as (HE & Hm' & Hloc').
  set (k := round_nearest_even (shr_m mrs) (loc_of_shr_record mrs)).
  assert (Hgrid : grid_exp x E).
  { rewrite HE. now apply (located_grid_exp m e l). }
  assert (Hne : nearest_even x k E) by now apply round_nearest_even_spec.
  exists k, E. split; [exact Hgrid |]. split; [exact Hne |].
  destruct (nearest_even_range x k E Hx Hgrid Hne) as [Hk _].
  apply second_shift; [apply Hgrid | exact Hk].
Qed.

(** ** The order of the floats of the grid *)

Lemma scaled_le (k1 E1 k2 E2 : Z) :
  E2 <= E1 ->
  ((IZR k1 * bpow E1 <= IZR k2 * bpow E2)%R <-> k1 * 2 ^ (E1 - E2) <= k2).
Proof.
  intros HE. replace E1 with (E2 + (E1 - E2)) at 1 by lia.
  rewrite bpow_add, (bpow_IZR (E1 - E2)) by lia.
  pose proof (bpow_pos E2) as Hb.
  rewrite <- Rmult_assoc, (Rmult_comm (IZR k1)), Rmult_assoc, <- mult_IZR.
  split; intros H.
  - apply le_IZR. nra.
  - apply IZR_le in H. nra.
Qed.

Lemma scaled_le' (k1 E1 k2 E2 : Z) :
  E1 <= E2 ->
  ((IZR k1 * bpow E1 <= IZR k2 * bpow E2)%R <-> k1 <= k2 * 2 ^ (E2 - E1)).
Proof.
  intros HE. replace E2 with (E1 + (E2 - E1)) at 1 by lia.
  rewrite bpow_add, (bpow_IZR (E2 - E1)) by lia.
  pose proof (bpow_pos E1) as Hb.
  rewrite <- Rmult_assoc, (Rmult_comm (IZR k2)), Rmult_assoc, <- mult_IZR.
  split; intros H.
  - apply le_IZR. nra.
  - apply IZR_le in H. nra.
Qed.

Lemma pow2_ge_2 (n : Z) : 1 <= n -> 2 <= 2 ^ n.
Proof.
  intros H. change 2 with (2 ^ 1) at 1. apply Z.pow_le_mono_r; lia.
Qed.

Lemma pow2_ge_4 (n : Z) : 2 <= n -> 4 <= 2 ^ n.
Proof.
  intros H. change 4 with (2 ^ 2). apply Z.pow_le_mono_r; lia.
Qed.

Lemma leb_finite_or_inf (m1 m2 : positive) (e1 e2 : Z) :
  e1 < e2 \/ (e1 = e2 /\ Z.pos m1 <= Z.pos m2) ->
  leb (finite_or_inf false m1 e1) (finite_or_inf false m2 e2) = true.
Proof.
  intros H. unfold finite_or_inf, leb, SFleb.
  destruct (Z.leb_spec e1 104), (Z.leb_spec e2 104); cbn [SFcompare];
    try reflexivity; try lia.
  destruct (Z.compare_spec e1 e2); try reflexivity; try lia.
  change (Pos.compare_cont Eq m1 m2) with (Pos.compare m1 m2).
  destruct (Pos.compare_spec m1 m2); try reflexivity; lia.
Qed.

Lemma leb_zero_float_of (k E : Z) : leb (S754_zero false) (float_of false k E) = true.
Proof.
  unfold float_of, finite_or_inf.
  destruct k; try reflexivity.
  destruct (_ =? _); destruct (_ <=? _); reflexivity.
Qed.

(** On the grid the order of the floats is the order of the reals. *)
Lemma float_of_le (k1 E1 k2 E2 : Z) :
  grid_pair k1 E1 -> grid_pair k2 E2 ->
  (IZR k1 * bpow E1 <= IZR k2 * bpow E2)%R ->
  leb (float_of false k1 E1) (float_of false k2 E2) = true.
Proof.
  intros (HE1 & Hk1 & Hn1) (HE2 & Hk2 & Hn2) Hle.
  destruct k1 as [| p1 | p1]; [apply leb_zero_float_of | | lia].
  assert (Hk2pos : 0 < k2).
  { destruct (Z_lt_le_dec 0 k2); [assumption |].
    assert (k2 = 0) by lia. subst k2. rewrite Rmult_0_l in Hle.
    pose proof (bpow_pos E1). pose proof (IZR_lt 0 (Z.pos p1) ltac:(lia)).
    nra. }
  destruct k2 as [| p2 | p2]; try lia.
  unfold float_of.
  destruct (Z.lt_trichotomy E1 E2) as [Hlt | [Heq | Hgt]].
  - (* a lower grid *)
    specialize (Hn2 ltac:(lia)). clear Hle.
    destruct (Z.eqb_spec (Z.pos p1) 16777216), (Z.eqb_spec (Z.pos p2) 16777216);
      apply leb_finite_or_inf; lia.
  - (* the same grid *)
    subst E2. apply scaled_le in Hle; [| lia].
    rewrite Z.sub_diag, Z.pow_0_r, Z.mul_1_r in Hle.
    destruct (Z.eqb_spec (Z.pos p1) 16777216), (Z.eqb_spec (Z.pos p2) 16777216);
      apply leb_finite_or_inf; lia.
  - (* a higher grid: both are the same power of two *)
    specialize (Hn1 ltac:(lia)).
    apply scaled_le in Hle; [| lia].
    pose proof (pow2_ge_2 (E1 - E2) ltac:(lia)) as H2.
    assert (HE : E1 - E2 = 1).
    { destruct (Z_le_gt_dec (E1 - E2) 1); [lia |].
      pose proof (pow2_ge_4 (E1 - E2) ltac:(lia)). nia. }
    rewrite HE in *. change (2 ^ 1) with 2 in *.
    destruct (Z.eqb_spec (Z.pos p1) 16777216), (Z.eqb_spec (Z.pos p2) 16777216);
      try lia.
    apply leb_finite_or_inf. right. split; [lia |].
    assert (Z.pos p1 = 8388608) as -> by lia. lia.
Qed.

(** ** Rounding is monotone *)

Lemma rounds_pos_grid_pair (x : R) (k E : Z) :
  (0 < x)%R -> grid_exp x E -> nearest_even x k E -> grid_pair k E.
Proof.
  intros Hx Hg Hn. destruct (nearest_even_range x k E Hx Hg Hn) as [H1 H2].
  split; [apply Hg | split; assumption].
Qed.

Lemma bpow_24 (E : Z) : bpow (E + 24) = (16777216 * bpow E)%R.
Proof. rewrite Z.add_comm, bpow_add, (bpow_IZR 24) by lia. reflexivity. Qed.

Lemma bpow_23 (E : Z) : bpow (E + 23) = (8388608 * bpow E)%R.
Proof. rewrite Z.add_comm, bpow_add, (bpow_IZR 23) by lia. reflexivity. Qed.

Section Monotone.
Local Open Scope R_scope.

(** Two nearest points of one grid are in the order of the reals. *)
Lemma nearest_even_mono (x y : R) (k1 k2 E : Z) :
  x <= y -> nearest_even x k1 E -> nearest_even y k2 E -> (k1 <= k2)%Z.
Proof.
  intros Hxy [Hn1 Ht1] [Hn2 Ht2].
  pose proof (bpow_pos E) as Hb.
  destruct (Z_le_gt_dec k1 k2) as [| Hgt]; [assumption | exfalso].
  assert (Hk : IZR k2 + 1 <= IZR k1).
  { rewrite <- (plus_IZR k2 1). apply IZR_le. lia. }
  pose proof (Rabs_le_inv _ _ Hn1) as Hx.
  pose proof (Rabs_le_inv _ _ Hn2) as Hy.
  assert (Hk' : IZR k1 = IZR k2 + 1) by nra.
  assert (Hx' : x - IZR k1 * bpow E = - (bpow E / 2)) by nra.
  assert (Hy' : y - IZR k2 * bpow E = bpow E / 2) by nra.
  rewrite Hx', Rabs_Ropp, Rabs_pos_eq in Ht1 by lra.
  rewrite Hy', Rabs_pos_eq in Ht2 by lra.
  specialize (Ht1 eq_refl). specialize (Ht2 eq_refl).
  assert (k1 = k2 + 1)%Z.
  { apply eq_IZR. rewrite plus_IZR. exact Hk'. }
  subst k1. rewrite Z.even_add, Ht2 in Ht1. discriminate.
Qed.

Lemma grid_exp_mono (x y : R) (E1 E2 : Z) :
  0 < x <= y -> grid_exp x E1 -> grid_exp y E2 -> (E1 <= E2)%Z.
Proof.
  intros Hxy (HE1 & Hhi1 & Hlo1) (HE2 & Hhi2 & Hlo2).
  destruct (Z_le_gt_dec E1 E2) as [| Hgt]; [assumption | exfalso].
  specialize (Hlo1 ltac:(lia)).
  pose proof (bpow_le (E2 + 24) (E1 + 23) ltac:(lia)). lra.
Qed.

Lemma rounds_pos_values (x y : R) (k1 E1 k2 E2 : Z) :
  0 < x <= y ->
  grid_exp x E1 -> nearest_even x k1 E1 ->
  grid_exp y E2 -> nearest_even y k2 E2 ->
  IZR k1 * bpow E1 <= IZR k2 * bpow E2.
Proof.
  intros Hxy Hg1 Hn1 Hg2 Hn2.
  pose proof (grid_exp_mono x y E1 E2 Hxy Hg1 Hg2) as HE.
  destruct (rounds_pos_grid_pair x k1 E1 ltac:(lra) Hg1 Hn1) as (HE1 & Hk1 & _).
  destruct (rounds_pos_grid_pair y k2 E2 ltac:(lra) Hg2 Hn2) as (_ & Hk2 & Hlo2).
  destruct (Z.eq_dec E1 E2) as [-> | Hne].
  - pose proof (nearest_even_mono x y k1 k2 E2 ltac:(lra) Hn1 Hn2) as Hk.
    apply IZR_le in Hk. pose proof (bpow_pos E2). nra.
  - specialize (Hlo2 ltac:(lia)).
    pose proof (bpow_le (E1 + 24) (E2 + 23) ltac:(lia)) as Hb.
    rewrite bpow_24, bpow_23 in Hb.
    pose proof (bpow_pos E1). pose proof (bpow_pos E2).
    assert (IZR k1 <= 16777216) by (apply IZR_le; lia).
    assert (8388608 <= IZR k2) by (apply IZR_le; lia).
    nra.
Qed.

Lemma rounds_pos_mono (x y : R) (f g : float) :
  0 < x <= y -> rounds_pos x f -> rounds_pos y g -> leb f g = true.
Proof.
  intros Hxy (k1 & E1 & Hg1 & Hn1 & ->) (k2 & E2 & Hg2 & Hn2 & ->).
  apply float_of_le.
  - apply (rounds_pos_grid_pair x); [lra | assumption..].
  - apply (rounds_pos_grid_pair y); [lra | assumption..].
  - now apply (rounds_pos_values x y).
Qed.

End Monotone.

(** ** Valid floats and the grid *)

Lemma digits2_unique (m : positive) (n : Z) :
  2 ^ (n - 1) <= Z.pos m < 2 ^ n -> Z.pos (digits2_pos m) = n.
Proof.
  intros [H1 H2]. pose proof (digits2_bounds m) as [D1 D2].
  set (d := Z.pos (digits2_pos m)) in *.
  assert (0 < d) by (unfold d; lia).
  assert (Hn : 0 < n).
  { destruct (Z_lt_le_dec 0 n); [assumption |].
    rewrite (Z.pow_neg_r 2 (n - 1)) in H1 by lia.
    destruct (Z.eq_dec n 0) as [-> | ]; [simpl in H2; lia |].
    rewrite (Z.pow_neg_r 2 n) in H2 by lia. lia. }
  destruct (Z.lt_trichotomy d n) as [Hlt | [Heq | Hgt]]; [| assumption |].
  - pose proof (Z.pow_le_mono_r 2 d (n - 1)). lia.
  - pose proof (Z.pow_le_mono_r 2 n (d - 1)). lia.
Qed.

Lemma digits2_le_24 (m : positive) :
  Z.pos m < 16777216 -> Z.pos (digits2_pos m) <= 24.
Proof.
  intros H. pose proof (digits2_bounds m) as [D1 _].
  destruct (Z_le_gt_dec (Z.pos (digits2_pos m)) 24); [assumption |].
  pose proof (Z.pow_le_mono_r 2 24 (Z.pos (digits2_pos m) - 1)).
  change (2 ^ 24) with 16777216 in *. lia.
Qed.

Lemma valid_finite_iff (s : bool) (m : positive) (e : Z) :
  valid (S754_finite s m e) = true <->
  grid_pair (Z.pos m) e /\ Z.pos m < 16777216 /\ e <= 104.
Proof.
  unfold valid, valid_binary, SpecFloat.bounded, SpecFloat.canonical_mantissa.
  rewrite fexp_eq, andb_true_iff, Z.eqb_eq, Z.leb_le.
  change (emax - prec) with 104.
  pose proof (digits2_bounds m) as [D1 D2].
  set (d := Z.pos (digits2_pos m)) in *.
  assert (0 < d) by (unfold d; lia).
  unfold grid_pair. split.
  - intros [Hc He].
    assert (Hd : d <= 24) by lia.
    assert (Hm : Z.pos m < 16777216).
    { pose proof (Z.pow_le_mono_r 2 d 24).
      change (2 ^ 24) with 16777216 in *. lia. }
    repeat split; try lia.
    intros He'. assert (d = 24) by lia.
    assert (d - 1 = 23) as Hd' by lia. rewrite Hd' in D1.
    change (2 ^ 23) with 8388608 in D1. exact D1.
  - intros [(HE & Hk & Hn) [Hm He]]. split; [| exact He].
    pose proof (digits2_le_24 m Hm). fold d in H0.
    destruct (Z.eq_dec e (-149)) as [-> | Hne]; [lia |].
    specialize (Hn ltac:(lia)).
    assert (d = 24).
    { unfold d. apply digits2_unique.
      change (2 ^ (24 - 1)) with 8388608. change (2 ^ 24) with 16777216. lia. }
    lia.
Qed.

Lemma float_of_valid_finite (s : bool) (m : positive) (e : Z) :
  valid (S754_finite s m e) = true ->
  float_of s (Z.pos m) e = S754_finite s m e.
Proof.
  intros H. apply valid_finite_iff in H. destruct H as (_ & Hm & He).
  unfold float_of, finite_or_inf.
  destruct (Z.eqb_spec (Z.pos m) 16777216); [lia |].
  destruct (Z.leb_spec e 104); [reflexivity | lia].
Qed.

Lemma valid_finite_or_inf (s : bool) (m : positive) (e : Z) :
  grid_pair (Z.pos m) e -> Z.pos m < 16777216 ->
  valid (finite_or_inf s m e) = true.
Proof.
  intros Hg Hm. unfold finite_or_inf.
  destruct (Z.leb_spec e 104); [| reflexivity].
  apply valid_finite_iff. auto.
Qed.

Lemma valid_float_of (s : bool) (k E : Z) :
  grid_pair k E -> valid (float_of s k E) = true.
Proof.
  intros (HE & Hk & Hn). unfold float_of.
  destruct k as [| m | m]; try reflexivity.
  destruct (Z.eqb_spec (Z.pos m) 16777216).
  - apply valid_finite_or_inf; [| lia]. unfold grid_pair. lia.
  - apply valid_finite_or_inf; [| lia]. unfold grid_pair. auto.
Qed.

Lemma is_nan_float_of (s : bool) (k E : Z) : is_nan (float_of s k E) = false.
Proof.
  unfold float_of, finite_or_inf. destruct k; try reflexivity.
  destruct (_ =? _); destruct (_ <=? _); reflexivity.
Qed.

Lemma opp_float_of (s : bool) (k E : Z) :
  opp (float_of s k E) = float_of (negb s) k E.
Proof.
  unfold float_of, finite_or_inf. destruct k; try reflexivity.
  destruct (_ =? _); destruct (_ <=? _); reflexivity.
Qed.

Section Values.
Local Open Scope R_scope.

Lemma F2R_finite_or_inf (s : bool) (m : positive) (e : Z) :
  is_finite (finite_or_inf s m e) = true ->
  F2R (finite_or_inf s m e) =
  (if s then - IZR (Z.pos m) else IZR (Z.pos m)) * bpow e.
Proof.
  unfold finite_or_inf. destruct (e <=? 104)%Z; [reflexivity | discriminate].
Qed.

(** The real a float of the grid stands for. *)
Lemma F2R_float_of (s : bool) (k E : Z) :
  (0 <= k)%Z -> is_finite (float_of s k E) = true ->
  F2R (float_of s k E) = (if s then - IZR k else IZR k) * bpow E.
Proof.
  intros Hk. unfold float_of.
  destruct k as [| m | m]; [destruct s; cbn; lra | | lia].
  destruct (Z.eqb_spec (Z.pos m) 16777216) as [Heq | Hne]; intros Hf;
    rewrite F2R_finite_or_inf by assumption; [| reflexivity].
  rewrite Heq, bpow_succ. destruct s; lra.
Qed.

(** A valid positive float is the rounding of the real it stands for. *)
Lemma rounds_pos_exact (m : positive) (e : Z) :
  valid (S754_finite false m e) = true ->
  rounds_pos (F2R (S754_finite false m e)) (S754_finite false m e).
Proof.
  intros Hv. pose proof (float_of_valid_finite _ _ _ Hv) as Hf.
  apply valid_finite_iff in Hv. destruct Hv as ((HE & Hk & Hn) & Hm & He).
  exists (Z.pos m), e. cbn [F2R]. pose proof (bpow_pos e) as Hb.
  split; [| split].
  - split; [exact HE |]. rewrite bpow_24, bpow_23. split.
    + apply IZR_lt in Hm. nra.
    + intros He'. specialize (Hn He'). apply IZR_le in Hn. nra.
  - unfold nearest_even.
    replace (IZR (Z.pos m) * bpow e - IZR (Z.pos m) * bpow e) with 0 by ring.
    rewrite Rabs_R0. split; [lra | intros; lra].
  - symmetry. exact Hf.
Qed.

(** Lexicographic comparison of two valid positive floats. *)
Lemma compare_pos_spec (m1 m2 : positive) (e1 e2 : Z) :
  valid (S754_finite false m1 e1) = true ->
  valid (S754_finite false m2 e2) = true ->
  match (match (e1 ?= e2)%Z with
         | Lt => Lt | Gt => Gt | Eq => Pos.compare_cont Eq m1 m2
         end) with
  | Lt => IZR (Z.pos m1) * bpow e1 < IZR (Z.pos m2) * bpow e2
  | Eq => m1 = m2 /\ e1 = e2
  | Gt => IZR (Z.pos m2) * bpow e2 < IZR (Z.pos m1) * bpow e1
  end.
Proof.
  intros H1 H2. apply valid_finite_iff in H1, H2.
  destruct H1 as ((HE1 & Hk1 & Hn1) & Hm1 & He1).
  destruct H2 as ((HE2 & Hk2 & Hn2) & Hm2 & He2).
  pose proof (bpow_pos e1). pose proof (bpow_pos e2).
  destruct (Z.compare_spec e1 e2) as [Heq | Hlt | Hgt].
  - subst e2. change (Pos.compare_cont Eq m1 m2) with (Pos.compare m1 m2).
    destruct (Pos.compare_spec m1 m2) as [Hm | Hm | Hm].
    + auto.
    + apply Rmult_lt_compat_r; [assumption |]. apply IZR_lt. lia.
    + apply Rmult_lt_compat_r; [assumption |]. apply IZR_lt. lia.
  - specialize (Hn2 ltac:(lia)).
    pose proof (bpow_le (e1 + 24) (e2 + 23) ltac:(lia)) as Hb.
    rewrite bpow_24, bpow_23 in Hb.
    apply IZR_lt in Hm1. apply IZR_le in Hn2. nra.
  - specialize (Hn1 ltac:(lia)).
    pose proof (bpow_le (e2 + 24) (e1 + 23) ltac:(lia)) as Hb.
    rewrite bpow_24, bpow_23 in Hb.
    apply IZR_lt in Hm2. apply IZR_le in Hn1. nra.
Qed.

Lemma IZR_pos_gt_0 (m : positive) : 0 < IZR (Z.pos m).
Proof. apply IZR_lt. lia. Qed.

(** The comparison of two valid finite floats is that of their reals. *)
Lemma SFcompare_spec (a b : float) :
  valid a = true -> valid b = true ->
  is_finite a = true -> is_finite b = true ->
  match SFcompare a b with
  | Some Lt => F2R a < F2R b
  | Some Eq => F2R a = F2R b
  | Some Gt => F2R b < F2R a
  | None => False
  end.
Proof.
  intros Va Vb Fa Fb.
  destruct a as [sa | sa | | sa m1 e1]; try discriminate;
    destruct b as [sb | sb | | sb m2 e2]; try discriminate.
  - cbn. reflexivity.
  - pose proof (IZR_pos_gt_0 m2). pose proof (bpow_pos e2).
    destruct sb; cbn; nra.
  - pose proof (IZR_pos_gt_0 m1). pose proof (bpow_pos e1).
    destruct sa; cbn; nra.
  - pose proof (IZR_pos_gt_0 m1). pose proof (bpow_pos e1).
    pose proof (IZR_pos_gt_0 m2). pose proof (bpow_pos e2).
    destruct sa, sb; cbn [SFcompare F2R]; try nra.
    + pose proof (compare_pos_spec m1 m2 e1 e2 Va Vb) as Hc.
      destruct (e1 ?= e2)%Z; [destruct (Pos.compare_cont Eq m1 m2) | |];
        cbn [CompOpp]; try lra.
      destruct Hc as [-> ->]. reflexivity.
    + pose proof (compare_pos_spec m1 m2 e1 e2 Va Vb) as Hc.
      destruct (e1 ?= e2)%Z; [destruct (Pos.compare_cont Eq m1 m2) | |];
        try lra.
      destruct Hc as [-> ->]. reflexivity.
Qed.

Lemma leb_F2R (a b : float) :
  valid a = true -> valid b = true ->
  is_finite a = true -> is_finite b = true ->
  (leb a b = true <-> F2R a <= F2R b).
Proof.
  intros Va Vb Fa Fb. pose proof (SFcompare_spec a b Va Vb Fa Fb) as H.
  unfold leb, SFleb. destruct (SFcompare a b) as [[| |] |];
    split; intros; try reflexivity; try discriminate; try lra; tauto.
Qed.

Lemma ltb_F2R (a b : float) :
  valid a = true -> valid b = true ->
  is_finite a = true -> is_finite b = true ->
  (ltb a b = true <-> F2R a < F2R b).
Proof.
  intros Va Vb Fa Fb. pose proof (SFcompare_spec a b Va Vb Fa Fb) as H.
  unfold ltb, SFltb. destruct (SFcompare a b) as [[| |] |];
    split; intros; try reflexivity; try discriminate; try lra; tauto.
Qed.

End Values.

(** ** The rounding of a signed real *)

Lemma rounds_cases (x : R) (f : float) :
  rounds x f ->
  (x = 0%R /\ (f = S754_zero false \/ f = S754_zero true)) \/
  ((0 < x)%R /\ exists k E,
      grid_exp x E /\ nearest_even x k E /\ f = float_of false k E) \/
  ((x < 0)%R /\ exists k E,
      grid_exp (- x) E /\ nearest_even (- x) k E /\ f = float_of true k E).
Proof.
  intros (H0 & Hp & Hn).
  destruct (Rtotal_order x 0) as [Hlt | [Heq | Hgt]].
  - right. right. split; [assumption |].
    destruct (Hn Hlt) as (k & E & Hg & Hne & Hf).
    exists k, E. split; [exact Hg |]. split; [exact Hne |].
    pose proof (opp_float_of false k E) as Ho. rewrite <- Hf in Ho.
    cbn [negb] in Ho. rewrite <- Ho.
    now destruct f as [[|] | [|] | | [|] ? ?].
  - left. auto.
  - right. left. split; [assumption |]. exact (Hp Hgt).
Qed.

Lemma rounds_valid (x : R) (f : float) :
  rounds x f -> valid f = true /\ is_nan f = false.
Proof.
  intros H. destruct (rounds_cases x f H)
    as [[_ [-> | ->]] | [[Hx (k & E & Hg & Hn & ->)]
                        | [Hx (k & E & Hg & Hn & ->)]]];
    try (split; reflexivity).
  - split; [apply valid_float_of | apply is_nan_float_of].
    apply (rounds_pos_grid_pair x); assumption.
  - split; [apply valid_float_of | apply is_nan_float_of].
    apply (rounds_pos_grid_pair (- x)%R); [lra | assumption..].
Qed.

Lemma nonneg_float_of (k E : Z) : nonneg (float_of false k E) = true.
Proof.
  unfold float_of, finite_or_inf. destruct k; try reflexivity.
  destruct (_ =? _); destruct (_ <=? _); reflexivity.
Qed.

Lemma nonpos_float_of (k E : Z) : nonpos (float_of true k E) = true.
Proof.
  unfold float_of, finite_or_inf. destruct k; try reflexivity.
  destruct (_ =? _); destruct (_ <=? _); reflexivity.
Qed.

Lemma leb_nonpos_nonneg (f g : float) :
  nonpos f = true -> nonneg g = true -> leb f g = true.
Proof.
  destruct f as [[|] | [|] | | [|] m1 e1], g as [[|] | [|] | | [|] m2 e2];
    cbn; congruence.
Qed.

Lemma compare_cont_swap (m1 m2 : positive) :
  Pos.compare_cont Eq m2 m1 = CompOpp (Pos.compare_cont Eq m1 m2).
Proof. exact (Pos.compare_antisym m1 m2). Qed.

Lemma leb_opp (f g : float) : leb (opp g) (opp f) = leb f g.
Proof.
  unfold leb, SFleb.
  destruct f as [[|] | [|] | | [|] m1 e1], g as [[|] | [|] | | [|] m2 e2];
    try reflexivity; cbn [opp SFopp negb SFcompare];
    rewrite (Z.compare_antisym e1 e2);
    destruct (e1 ?= e2); cbn [CompOpp]; try reflexivity;
    rewrite (compare_cont_swap m1 m2);
    destruct (Pos.compare_cont Eq m1 m2); reflexivity.
Qed.

Lemma nonneg_zero (f : float) :
  f = S754_zero false \/ f = S754_zero true -> nonneg f = true /\ nonpos f = true.
Proof. intros [-> | ->]; split; reflexivity. Qed.

(** Rounding is monotone: the roundings of two reals are in their order. *)
Theorem rounds_mono (x y : R) (f g : float) :
  rounds x f -> rounds y g -> (x <= y)%R -> leb f g = true.
Proof.
  intros Hf Hg Hxy.
  destruct (rounds_cases x f Hf)
    as [[Hx Zf] | [[Hx (k1 & E1 & Hg1 & Hn1 & ->)]
                  | [Hx (k1 & E1 & Hg1 & Hn1 & ->)]]];
  destruct (rounds_cases y g Hg)
    as [[Hy Zg] | [[Hy (k2 & E2 & Hg2 & Hn2 & ->)]
                  | [Hy (k2 & E2 & Hg2 & Hn2 & ->)]]];
    try lra.
  - apply leb_nonpos_nonneg; [apply (nonneg_zero f Zf) | apply (nonneg_zero g Zg)].
  - apply leb_nonpos_nonneg; [apply (nonneg_zero f Zf) | apply nonneg_float_of].
  - apply float_of_le.
    + apply (rounds_pos_grid_pair x); assumption.
    + apply (rounds_pos_grid_pair y); assumption.
    + apply (rounds_pos_values x y); try assumption. lra.
  - apply leb_nonpos_nonneg; [apply nonpos_float_of | apply (nonneg_zero g Zg)].
  - apply leb_nonpos_nonneg; [apply nonpos_float_of | apply nonneg_float_of].
  - rewrite <- leb_opp, !opp_float_of. cbn [negb].
    apply float_of_le.
    + apply (rounds_pos_grid_pair (- y)%R); [lra | assumption..].
    + apply (rounds_pos_grid_pair (- x)%R); [lra | assumption..].
    + apply (rounds_pos_values (- y)%R (- x)%R); try assumption. lra.
Qed.

(** A valid finite float is the rounding of the real it stands for. *)
Theorem rounds_exact (f : float) :
  valid f = true -> is_finite f = true -> rounds (F2R f) f.
Proof.
  intros Vf Ff. destruct f as [s | s | | s m e]; try discriminate.
  - cbn [F2R]. split; [| split]; intros; try lra.
    destruct s; auto.
  - pose proof (IZR_pos_gt_0 m). pose proof (bpow_pos e).
    destruct s; cbn [F2R]; (split; [| split]); intros; try nra.
    + replace (- (- IZR (Z.pos m) * bpow e))%R
        with (F2R (S754_finite false m e)) by (cbn [F2R]; ring).
      apply rounds_pos_exact. exact Vf.
    + apply (rounds_pos_exact m e). exact Vf.
Qed.

Lemma leb_finite_between (lo f hi : float) :
  is_finite lo = true -> is_finite hi = true ->
  leb lo f = true -> leb f hi = true -> is_finite f = true.
Proof.
  destruct lo as [? | ? | | ? ? ?]; try discriminate;
    destruct hi as [? | ? | | ? ? ?]; try discriminate;
    destruct f as [? | [|] | | ? ? ?]; try reflexivity; cbn;
    try discriminate;
    repeat match goal with b : bool |- _ => destruct b end; cbn;
    discriminate.
Qed.

(** A rounded real stays between the valid floats that bound the real. *)
Theorem rounds_between (x : R) (f lo hi : float) :
  rounds x f ->
  valid lo = true -> is_finite lo = true ->
  valid hi = true -> is_finite hi = true ->
  (F2R lo <= x <= F2R hi)%R ->
  valid f = true /\ is_finite f = true /\ (F2R lo <= F2R f <= F2R hi)%R.
Proof.
  intros Hf Vlo Flo Vhi Fhi [H1 H2].
  destruct (rounds_valid x f Hf) as [Vf _].
  pose proof (rounds_mono _ _ _ _ (rounds_exact lo Vlo Flo) Hf H1) as L1.
  pose proof (rounds_mono _ _ _ _ Hf (rounds_exact hi Vhi Fhi) H2) as L2.
  pose proof (leb_finite_between lo f hi Flo Fhi L1 L2) as Ff.
  split; [exact Vf |]. split; [exact Ff |].
  split; apply leb_F2R; assumption.
Qed.

(** ** The operations round the exact result *)

Lemma digits2_ge (m : positive) (n : Z) :
  2 ^ (n - 1) <= Z.pos m -> n <= Z.pos (digits2_pos m).
Proof.
  intros H. pose proof (digits2_bounds m) as [_ D2].
  destruct (Z_le_gt_dec n (Z.pos (digits2_pos m))); [assumption |].
  pose proof (Z.pow_le_mono_r 2 (Z.pos (digits2_pos m)) (n - 1)). lia.
Qed.

Lemma digits2_shift (m : positive) (d : positive) :
  Z.pos (digits2_pos (shift_pos d m)) = Z.pos (digits2_pos m) + Z.pos d.
Proof.
  apply digits2_unique. rewrite shift_pos_correct.
  change (Z.pow_pos 2 d) with (2 ^ Z.pos d).
  pose proof (digits2_bounds m) as [D1 D2].
  set (n := Z.pos (digits2_pos m)) in *.
  assert (0 < n) by (unfold n; lia).
  replace (n + Z.pos d - 1) with (Z.pos d + (n - 1)) by lia.
  rewrite (Z.add_comm n), !Z.pow_add_r by lia.
  pose proof (Z.pow_pos_nonneg 2 (Z.pos d)). nia.
Qed.

Lemma float_of_sign (s : bool) (k E : Z) :
  float_of s k E = if s then opp (float_of false k E) else float_of false k E.
Proof. destruct s; [| reflexivity]. now rewrite opp_float_of. Qed.

Lemma opp_opp (f : float) : opp (opp f) = f.
Proof. now destruct f as [[|] | [|] | | [|] ? ?]. Qed.

(** The float a positive rounding returns, with the sign put back. *)
Lemma rounds_of_pos (s : bool) (x : R) (k E : Z) :
  (0 < x)%R -> grid_exp x E -> nearest_even x k E ->
  rounds (if s then - x else x)%R (float_of s k E).
Proof.
  intros Hx Hg Hn. destruct s.
  - split; [| split]; intros; try lra.
    exists k, E. rewrite opp_float_of, Ropp_involutive. auto.
  - split; [| split]; intros; try lra.
    exists k, E. auto.
Qed.

Lemma binary_round_rounds (s : bool) (m : positive) (e : Z) :
  rounds (if s then - (IZR (Z.pos m) * bpow e) else IZR (Z.pos m) * bpow e)%R
         (binary_round prec emax s m e).
Proof.
  pose proof (IZR_pos_gt_0 m) as Hm. pose proof (bpow_pos e) as Hb.
  set (x := (IZR (Z.pos m) * bpow e)%R).
  assert (Hx : (0 < x)%R) by (unfold x; nra).
  unfold binary_round, shl_align.
  set (E := fexp prec emax (Z.pos (digits2_pos m) + e)).
  destruct (E - e) as [| d | d] eqn:Hd.
  - destruct (binary_round_aux_pos s (Z.pos m) e loc_Exact x)
      as (k & E' & Hg & Hn & ->); try lia; try assumption.
    + reflexivity.
    + cbn [Zdigits2]. fold E. lia.
    + now apply rounds_of_pos.
  - destruct (binary_round_aux_pos s (Z.pos m) e loc_Exact x)
      as (k & E' & Hg & Hn & ->); try lia; try assumption.
    + reflexivity.
    + cbn [Zdigits2]. fold E. lia.
    + now apply rounds_of_pos.
  - change (Pos.iter xO m d) with (shift_pos d m).
    destruct (binary_round_aux_pos s (Z.pos (shift_pos d m)) E loc_Exact x)
      as (k & E' & Hg & Hn & ->); try lia; try assumption.
    + cbn [located]. unfold x. rewrite shift_pos_correct.
      change (Z.pow_pos 2 d) with (2 ^ Z.pos d).
      rewrite mult_IZR, <- bpow_IZR by lia.
      replace e with (E + Z.pos d) at 1 by lia. rewrite bpow_add. ring.
    + cbn [Zdigits2]. rewrite digits2_shift.
      replace (Z.pos (digits2_pos m) + Z.pos d + E)
        with (Z.pos (digits2_pos m) + e) by lia.
      fold E. lia.
    + now apply rounds_of_pos.
Qed.

(** The float of an integer mantissa and an exponent. *)
Lemma binary_normalize_rounds (z e : Z) :
  rounds (IZR z * bpow e)%R (binary_normalize prec emax z e false).
Proof.
  destruct z as [| m | m]; cbn [binary_normalize].
  - rewrite Rmult_0_l. split; [| split]; intros; try lra. auto.
  - exact (binary_round_rounds false m e).
  - change (Z.neg m) with (- Z.pos m). rewrite opp_IZR.
    replace (- IZR (Z.pos m) * bpow e)%R with (- (IZR (Z.pos m) * bpow e))%R
      by ring.
    exact (binary_round_rounds true m e).
Qed.

(** [(float) n] is the rounding of [n]. *)
Theorem of_Z_rounds (n : Z) : rounds (IZR n) (of_Z n).
Proof.
  unfold of_Z. replace (IZR n) with (IZR n * bpow 0)%R by (rewrite bpow_0; ring).
  apply binary_normalize_rounds.
Qed.

Lemma shl_align_value (m : positive) (e ez : Z) :
  ez <= e ->
  Z.pos (fst (shl_align m e ez)) = Z.pos m * 2 ^ (e - ez).
Proof.
  intros H. unfold shl_align.
  destruct (ez - e) as [| d | d] eqn:Hd; cbn [fst]; try lia.
  - replace (e - ez) with 0 by lia. lia.
  - change (Pos.iter xO m d) with (shift_pos d m).
    rewrite shift_pos_correct. change (Z.pow_pos 2 d) with (2 ^ Z.pos d).
    replace (e - ez) with (Z.pos d) by lia. lia.
Qed.

Lemma cond_Zopp_signed (s : bool) (z : Z) : cond_Zopp s z = signed s z.
Proof. reflexivity. Qed.

Lemma F2R_aligned (s : bool) (m : positive) (e ez : Z) :
  ez <= e ->
  F2R (S754_finite s m e) =
  (IZR (signed s (Z.pos (fst (shl_align m e ez)))) * bpow ez)%R.
Proof.
  intros H. rewrite shl_align_value by assumption. cbn [F2R].
  replace e with (ez + (e - ez)) at 1 by lia.
  rewrite bpow_add, (bpow_IZR (e - ez)) by lia.
  destruct s; unfold signed; rewrite ?opp_IZR, mult_IZR; ring.
Qed.

(** Addition rounds the sum of the reals. *)
Theorem add_rounds (a b : float) :
  valid a = true -> valid b = true ->
  is_finite a = true -> is_finite b = true ->
  rounds (F2R a + F2R b) (add a b).
Proof.
  intros Va Vb Fa Fb.
  destruct a as [sa | sa | | sa ma ea]; try discriminate;
    destruct b as [sb | sb | | sb mb eb]; try discriminate.
  - cbn [F2R]. rewrite Rplus_0_l. split; [| split]; intros; try lra.
    destruct sa, sb; cbn; auto.
  - replace (F2R (S754_zero sa) + F2R (S754_finite sb mb eb))%R
      with (F2R (S754_finite sb mb eb)) by (cbn [F2R]; ring).
    now apply rounds_exact.
  - replace (F2R (S754_finite sa ma ea) + F2R (S754_zero sb))%R
      with (F2R (S754_finite sa ma ea)) by (cbn [F2R]; ring).
    now apply rounds_exact.
  - unfold add, SFadd. cbv zeta.
    pose proof (F2R_aligned sa ma ea (Z.min ea eb) ltac:(lia)) as Ha.
    pose proof (F2R_aligned sb mb eb (Z.min ea eb) ltac:(lia)) as Hb.
    rewrite Ha, Hb, <- Rmult_plus_distr_r, <- plus_IZR.
    apply binary_normalize_rounds.
Qed.

(** Subtraction rounds the difference of the reals. *)
Theorem sub_rounds (a b : float) :
  valid a = true -> valid b = true ->
  is_finite a = true -> is_finite b = true ->
  rounds (F2R a - F2R b) (sub a b).
Proof.
  intros Va Vb Fa Fb.
  destruct a as [sa | sa | | sa ma ea]; try discriminate;
    destruct b as [sb | sb | | sb mb eb]; try discriminate.
  - cbn [F2R]. rewrite Rminus_0_r. split; [| split]; intros; try lra.
    destruct sa, sb; cbn; auto.
  - replace (F2R (S754_zero sa) - F2R (S754_finite sb mb eb))%R
      with (F2R (S754_finite (negb sb) mb eb))
      by (destruct sb; cbn [F2R negb]; ring).
    apply (rounds_exact (S754_finite (negb sb) mb eb)); [| reflexivity].
    apply valid_finite_iff. now apply valid_finite_iff in Vb.
  - replace (F2R (S754_finite sa ma ea) - F2R (S754_zero sb))%R
      with (F2R (S754_finite sa ma ea)) by (cbn [F2R]; ring).
    now apply rounds_exact.
  - unfold sub, SFsub. cbv zeta.
    pose proof (F2R_aligned sa ma ea (Z.min ea eb) ltac:(lia)) as Ha.
    pose proof (F2R_aligned sb mb eb (Z.min ea eb) ltac:(lia)) as Hb.
    rewrite Ha, Hb, <- Rmult_minus_distr_r, <- minus_IZR.
    apply binary_normalize_rounds.
Qed.

(** Multiplication rounds the product of the reals. *)
Theorem mul_rounds (a b : float) :
  valid a = true -> valid b = true ->
  is_finite a = true -> is_finite b = true ->
  rounds (F2R a * F2R b) (mul a b).
Proof.
  intros Va Vb Fa Fb.
  assert (Hz : forall s, rounds 0 (S754_zero s)).
  { intros s. split; [| split]; intros; try lra. destruct s; auto. }
  destruct a as [sa | sa | | sa ma ea]; try discriminate;
    destruct b as [sb | sb | | sb mb eb]; try discriminate.
  1-3: cbn [F2R mul SFmul]; rewrite ?Rmult_0_l, ?Rmult_0_r; apply Hz.
  unfold mul, SFmul.
  apply valid_finite_iff in Va, Vb.
  destruct Va as ((HEa & Hka & Hna) & Hma & Hea).
  destruct Vb as ((HEb & Hkb & Hnb) & Hmb & Heb).
  pose proof (IZR_pos_gt_0 ma). pose proof (IZR_pos_gt_0 mb).
  pose proof (bpow_pos ea). pose proof (bpow_pos eb).
  set (x := (IZR (Z.pos (ma * mb)) * bpow (ea + eb))%R).
  assert (Hx : (0 < x)%R).
  { unfold x. pose proof (IZR_pos_gt_0 (ma * mb)).
    pose proof (bpow_pos (ea + eb)). nra. }
  destruct (binary_round_aux_pos (xorb sa sb) (Z.pos (ma * mb)) (ea + eb)
              loc_Exact x) as (k & E & Hg & Hn & ->);
    try lia; try assumption.
  - reflexivity.
  - cbn [Zdigits2]. rewrite fexp_eq.
    destruct (Z_le_gt_dec (ea + eb) (-149)); [lia |].
    assert (8388608 <= Z.pos (ma * mb)).
    { rewrite Pos2Z.inj_mul.
      destruct (Z.eq_dec ea (-149)).
      - specialize (Hnb ltac:(lia)). nia.
      - specialize (Hna ltac:(lia)). nia. }
    pose proof (digits2_ge (ma * mb) 24 H3). lia.
  - replace (F2R (S754_finite sa ma ea) * F2R (S754_finite sb mb eb))%R
      with (if xorb sa sb then - x else x)%R.
    + now apply rounds_of_pos.
    + unfold x. cbn [F2R]. rewrite Pos2Z.inj_mul, mult_IZR, bpow_add.
      destruct sa, sb; cbn [xorb]; ring.
Qed.

(** ** Division *)

Section Division.
Local Open Scope R_scope.

(** The location of a quotient with remainder [k] out of [nb]. *)
Lemma new_location_located (nb k q e : Z) :
  (0 <= k < nb)%Z ->
  located q (new_location nb k) e ((IZR q + IZR k / IZR nb) * bpow e).
Proof.
  intros Hk. pose proof (bpow_pos e) as Hb.
  assert (Hnb : 0 < IZR nb) by (apply IZR_lt; lia).
  assert (Hk0 : 0 <= IZR k) by (apply IZR_le; lia).
  assert (Hk1 : IZR k < IZR nb) by (apply IZR_lt; lia).
  assert (Hfrac : 0 <= IZR k / IZR nb < 1).
  { split.
    - apply Rmult_le_pos; [lra |]. apply Rlt_le, Rinv_0_lt_compat. lra.
    - apply (Rmult_lt_reg_r (IZR nb)); [lra |]. field_simplify; lra. }
  assert (Hhalf : forall c, (2 * k ?= nb)%Z = c ->
            match c with
            | Lt => IZR k / IZR nb < / 2
            | Eq => IZR k / IZR nb = / 2
            | Gt => / 2 < IZR k / IZR nb
            end).
  { intros c Hc. destruct c.
    - apply Z.compare_eq in Hc. apply (f_equal IZR) in Hc.
      rewrite mult_IZR in Hc. field_simplify_eq; lra.
    - apply Z.compare_lt_iff in Hc. apply IZR_lt in Hc.
      rewrite mult_IZR in Hc.
      apply (Rmult_lt_reg_r (IZR nb)); [lra |]. field_simplify; lra.
    - apply Z.compare_gt_iff in Hc. apply IZR_lt in Hc.
      rewrite mult_IZR in Hc.
      apply (Rmult_lt_reg_r (IZR nb)); [lra |]. field_simplify; lra. }
  unfold new_location.
  destruct (Z.eq_dec k 0) as [-> | Hk'].
  - assert (Hz : located q loc_Exact e ((IZR q + 0 / IZR nb) * bpow e)).
    { cbn [located]. unfold Rdiv. ring. }
    destruct (Z.even nb); unfold new_location_even, new_location_odd;
      cbn [Z.eqb]; exact Hz.
  - assert (Hkpos : 0 < IZR k) by (apply IZR_lt; lia).
    assert (Hfpos : 0 < IZR k / IZR nb).
    { apply Rmult_lt_0_compat; [lra |]. apply Rinv_0_lt_compat. lra. }
    destruct (Z.even nb) eqn:Hev;
      unfold new_location_even, new_location_odd;
      destruct (Z.eqb_spec k 0); try lia; cbn [located].
    + split; [nra |].
      specialize (Hhalf _ eq_refl). destruct (2 * k ?= nb)%Z; nra.
    + split; [nra |].
      assert (Hodd : (2 * k <> nb)%Z).
      { intros <-. rewrite Z.even_mul in Hev. discriminate. }
      destruct (Z.compare_spec (2 * k + 1) nb).
      * specialize (Hhalf Lt ltac:(apply Z.compare_lt_iff; lia)). cbn in Hhalf. nra.
      * specialize (Hhalf Lt ltac:(apply Z.compare_lt_iff; lia)). cbn in Hhalf. nra.
      * specialize (Hhalf Gt ltac:(apply Z.compare_gt_iff; lia)). cbn in Hhalf. nra.
Qed.

Lemma bpow_sub (a b : Z) : bpow (a - b) = bpow a / bpow b.
Proof.
  pose proof (bpow_pos b).
  replace a with ((a - b) + b)%Z at 2 by lia. rewrite bpow_add.
  field. lra.
Qed.

(** The quotient of two positive mantissas, as [SFdiv] prepares it for
    rounding. *)
Lemma div_core_rounds (s : bool) (m1 m2 : positive) (e1 e2 : Z) :
  let x := IZR (Z.pos m1) * bpow e1 / (IZR (Z.pos m2) * bpow e2) in
  let '(q, e', l) := SFdiv_core_binary prec emax (Z.pos m1) e1 (Z.pos m2) e2 in
  rounds (if s then - x else x) (binary_round_aux prec emax s q e' l).
Proof.
  intros x. unfold SFdiv_core_binary. cbn [Zdigits2]. rewrite fexp_eq.
  pose proof (digits2_bounds m1) as [D1l D1u].
  pose proof (digits2_bounds m2) as [D2l D2u].
  set (d1 := Z.pos (digits2_pos m1)) in *.
  set (d2 := Z.pos (digits2_pos m2)) in *.
  assert (Hd1 : (0 < d1)%Z) by (unfold d1; lia).
  assert (Hd2 : (0 < d2)%Z) by (unfold d2; lia).
  set (D := (d1 + e1 - (d2 + e2))%Z).
  set (e' := Z.min (Z.max (D - 24) (-149)) (e1 - e2)).
  set (sh := (e1 - e2 - e')%Z).
  assert (Hsh : (0 <= sh)%Z) by (unfold sh, e'; lia).
  set (m' := match sh with
             | 0%Z => Z.pos m1
             | Z.pos _ => Z.shiftl (Z.pos m1) sh
             | Z.neg _ => 0%Z
             end).
  assert (Hm' : m' = (Z.pos m1 * 2 ^ sh)%Z).
  { unfold m'. destruct sh as [| p | p] eqn:Hp; try lia.
    now rewrite Z.shiftl_mul_pow2 by lia. }
  pose proof (Z_div_mod m' (Z.pos m2) ltac:(lia)) as Hdiv.
  destruct (Z.div_eucl m' (Z.pos m2)) as [q r].
  destruct Hdiv as [Hq Hr].
  pose proof (bpow_pos e1) as B1. pose proof (bpow_pos e2) as B2.
  pose proof (bpow_pos e') as B'.
  pose proof (IZR_pos_gt_0 m1) as M1. pose proof (IZR_pos_gt_0 m2) as M2.
  assert (Hx : 0 < x).
  { unfold x. apply Rmult_lt_0_compat; [nra |].
    apply Rinv_0_lt_compat. nra. }
  assert (Hxq : x = (IZR q + IZR r / IZR (Z.pos m2)) * bpow e').
  { unfold x. replace e1 with (sh + e' + e2)%Z by (unfold sh; lia).
    rewrite !bpow_add, (bpow_IZR sh) by lia.
    assert (Hm : IZR (Z.pos m1) * IZR (2 ^ sh) =
                 IZR (Z.pos m2) * IZR q + IZR r).
    { rewrite <- !mult_IZR, <- plus_IZR, <- Hm', <- Hq. reflexivity. }
    field_simplify; [| lra | lra].
    replace (IZR (Z.pos m1) * IZR (2 ^ sh) * bpow e')
      with ((IZR (Z.pos m1) * IZR (2 ^ sh)) * bpow e') by ring.
    rewrite Hm. field. lra. }
  assert (Hq0 : (0 <= q)%Z).
  { assert (0 <= m')%Z.
    { rewrite Hm'. pose proof (Z.pow_pos_nonneg 2 sh). nia. }
    nia. }
  assert (Hlow : bpow (D - 1) < x).
  { unfold x, D.
    replace (d1 + e1 - (d2 + e2) - 1)%Z
      with ((d1 - 1 + e1) - (d2 + e2))%Z by lia.
    rewrite bpow_sub, !bpow_add.
    rewrite (bpow_IZR (d1 - 1)), (bpow_IZR d2) by lia.
    apply IZR_le in D1l. apply IZR_lt in D2u.
    assert (HP1 : 0 < IZR (2 ^ (d1 - 1))).
    { apply IZR_lt. apply Z.pow_pos_nonneg; lia. }
    set (P1 := IZR (2 ^ (d1 - 1))) in *. set (P2 := IZR (2 ^ d2)) in *.
    assert (Hden1 : 0 < IZR (Z.pos m2) * bpow e2) by nra.
    assert (Hden2 : 0 < P2 * bpow e2) by nra.
    assert (Hinv : / (P2 * bpow e2) < / (IZR (Z.pos m2) * bpow e2)).
    { apply Rinv_lt_contravar; nra. }
    assert (Hi1 : 0 < / (P2 * bpow e2)) by now apply Rinv_0_lt_compat.
    unfold Rdiv. set (i1 := / (P2 * bpow e2)) in *.
    set (i2 := / (IZR (Z.pos m2) * bpow e2)) in *.
    assert (P1 * bpow e1 <= IZR (Z.pos m1) * bpow e1) by nra.
    assert (0 < P1 * bpow e1) by nra.
    nra. }
  destruct (binary_round_aux_pos s q e' (new_location (Z.pos m2) r) x)
    as (k & E & Hg & Hn & ->); try assumption.
  - rewrite Hxq. apply new_location_located. lia.
  - rewrite fexp_eq.
    assert (Hfrac : IZR r / IZR (Z.pos m2) < 1).
    { apply (Rmult_lt_reg_r (IZR (Z.pos m2))); [lra |].
      unfold Rdiv. rewrite Rmult_assoc, Rinv_l, Rmult_1_r, Rmult_1_l by lra.
      apply IZR_lt. lia. }
    destruct q as [| pq | pq]; [| | lia].
    + cbn [Zdigits2].
      assert (x < bpow e') by (rewrite Hxq; nra).
      assert (D - 1 < e')%Z by (apply bpow_lt_inv; lra).
      unfold e' in *. lia.
    + cbn [Zdigits2].
      pose proof (digits2_bounds pq) as [_ Dq].
      set (dq := Z.pos (digits2_pos pq)) in *.
      assert (0 < dq)%Z by (unfold dq; lia).
      assert (IZR (Z.pos pq) + 1 <= bpow dq).
      { rewrite bpow_IZR by lia. rewrite <- (plus_IZR _ 1).
        apply IZR_le. lia. }
      assert (x < bpow (dq + e')).
      { rewrite Hxq, bpow_add. nra. }
      assert (D - 1 < dq + e')%Z by (apply bpow_lt_inv; lra).
      unfold e' in *. lia.
  - now apply rounds_of_pos.
Qed.

(** Division rounds the quotient of the reals. *)
Theorem div_rounds (a b : float) :
  valid a = true -> valid b = true ->
  is_finite a = true -> is_finite b = true ->
  F2R b <> 0 ->
  rounds (F2R a / F2R b) (div a b).
Proof.
  intros Va Vb Fa Fb Hb.
  destruct b as [sb | sb | | sb mb eb]; try discriminate.
  { cbn [F2R] in Hb. lra. }
  destruct a as [sa | sa | | sa ma ea]; try discriminate.
  - cbn [F2R div SFdiv]. unfold Rdiv. rewrite Rmult_0_l.
    split; [| split]; intros; try lra. destruct (xorb sa sb); auto.
  - unfold div, SFdiv.
    pose proof (div_core_rounds (xorb sa sb) ma mb ea eb) as H.
    cbv zeta in H.
    destruct (SFdiv_core_binary prec emax (Z.pos ma) ea (Z.pos mb) eb)
      as [[q e'] l].
    replace (F2R (S754_finite sa ma ea) / F2R (S754_finite sb mb eb))
      with (if xorb sa sb
            then - (IZR (Z.pos ma) * bpow ea / (IZR (Z.pos mb) * bpow eb))
            else IZR (Z.pos ma) * bpow ea / (IZR (Z.pos mb) * bpow eb)).
    + exact H.
    + pose proof (bpow_pos eb). pose proof (IZR_pos_gt_0 mb).
      cbn [F2R]. destruct sa, sb; cbn [xorb]; field; nra.
Qed.

End Division.

(** ** Order lemmas on all floats *)

Lemma SFcompare_swap (a b : float) :
  SFcompare b a = option_map CompOpp (SFcompare a b).
Proof.
  destruct a as [[|]|[|]| |[|] m1 e1], b as [[|]|[|]| |[|] m2 e2];
    try reflexivity; cbn [SFcompare option_map];
    rewrite (Z.compare_antisym e1 e2);
    destruct (e1 ?= e2); cbn [CompOpp]; try reflexivity;
    rewrite compare_cont_swap; destruct (Pos.compare_cont Eq m1 m2);
    reflexivity.
Qed.

Lemma SFcompare_nan (a b : float) :
  is_nan a = false -> is_nan b = false -> SFcompare a b <> None.
Proof.
  destruct a as [[|]|[|]| |[|] m1 e1], b as [[|]|[|]| |[|] m2 e2];
    cbn; congruence.
Qed.

(** For numbers, [not (b < a)] is [a <= b]. *)
Lemma not_ltb_leb (a b : float) :
  is_nan a = false -> is_nan b = false ->
  ltb b a = false -> leb a b = true.
Proof.
  intros Ha Hb. unfold ltb, leb, SFltb, SFleb.
  rewrite (SFcompare_swap a b).
  pose proof (SFcompare_nan a b Ha Hb) as Hn.
  destruct (SFcompare a b) as [[| |]|]; cbn; congruence.
Qed.

Lemma ltb_leb (a b : float) : ltb a b = true -> leb a b = true.
Proof.
  unfold ltb, leb, SFltb, SFleb.
  destruct (SFcompare a b) as [[| |]|]; congruence.
Qed.

Lemma leb_not_nan (a b : float) :
  leb a b = true -> is_nan a = false /\ is_nan b = false.
Proof.
  destruct a as [[|]|[|]| |[|] m1 e1], b as [[|]|[|]| |[|] m2 e2];
    cbn; auto; discriminate.
Qed.

Lemma leb_refl (a : float) : is_nan a = false -> leb a a = true.
Proof.
  destruct a as [[|]|[|]| |[|] m e]; cbn; try congruence;
    intros _; unfold leb, SFleb; cbn [SFcompare];
    rewrite Z.compare_refl;
    change (Pos.compare_cont Eq m m) with (Pos.compare m m);
    rewrite Pos.compare_refl; reflexivity.
Qed.

Lemma is_nan_abs (x : float) : is_nan (abs x) = is_nan x.
Proof. now destruct x. Qed.

Lemma leb_inf (a : float) :
  is_nan a = false -> leb a (S754_infinity false) = true.
Proof. destruct a as [[|]|[|]| |[|] m e]; cbn; congruence. Qed.

Lemma leb_neg_inf (a : float) :
  is_nan a = false -> leb (S754_infinity true) a = true.
Proof. destruct a as [[|]|[|]| |[|] m e]; cbn; congruence. Qed.

Lemma leb_inf_l (a : float) :
  leb (S754_infinity false) a = true -> a = S754_infinity false.
Proof. destruct a as [[|]|[|]| |[|] m e]; cbn; congruence. Qed.

Lemma leb_neg_inf_r (a : float) :
  leb a (S754_infinity true) = true -> a = S754_infinity true.
Proof. destruct a as [[|]|[|]| |[|] m e]; cbn; congruence. Qed.

Lemma finite_cases (a : float) :
  is_nan a = false ->
  is_finite a = true \/ a = S754_infinity false \/ a = S754_infinity true.
Proof. destruct a as [[|]|[|]| |[|] m e]; cbn; auto; discriminate. Qed.

(** [<=] is transitive on the values of the format. *)
Lemma leb_trans (a b c : float) :
  valid a = true -> valid b = true -> valid c = true ->
  leb a b = true -> leb b c = true -> leb a c = true.
Proof.
  intros Va Vb Vc Hab Hbc.
  destruct (leb_not_nan a b Hab) as [Na Nb].
  destruct (leb_not_nan b c Hbc) as [_ Nc].
  destruct (finite_cases c Nc) as [Fc | [-> | ->]].
  2: now apply leb_inf.
  2: { apply leb_neg_inf_r in Hbc. subst b.
       apply leb_neg_inf_r in Hab. subst a. reflexivity. }
  destruct (finite_cases a Na) as [Fa | [-> | ->]].
  2: { apply leb_inf_l in Hab. subst b. exact Hbc. }
  2: now apply leb_neg_inf.
  destruct (finite_cases b Nb) as [Fb | [-> | ->]].
  2: { apply leb_inf_l in Hbc. subst c. discriminate. }
  2: { apply leb_neg_inf_r in Hab. subst a. discriminate. }
  apply leb_F2R in Hab, Hbc; try assumption.
  apply leb_F2R; try assumption. lra.
Qed.

(** ** Validity of the results *)

Lemma valid_opp (a : float) : valid (opp a) = valid a.
Proof. now destruct a as [[|]|[|]| |[|] m e]. Qed.

Lemma valid_abs (a : float) : valid (abs a) = valid a.
Proof. now destruct a as [[|]|[|]| |[|] m e]. Qed.

Lemma mul_valid (a b : float) :
  valid a = true -> valid b = true -> valid (mul a b) = true.
Proof.
  intros Va Vb.
  destruct (is_finite a) eqn:Fa, (is_finite b) eqn:Fb.
  - exact (proj1 (rounds_valid _ _ (mul_rounds a b Va Vb Fa Fb))).
  - destruct a as [?|?| |? ? ?], b as [?|?| |? ? ?]; try discriminate; reflexivity.
  - destruct a as [?|?| |? ? ?], b as [?|?| |? ? ?]; try discriminate; reflexivity.
  - destruct a as [?|?| |? ? ?], b as [?|?| |? ? ?]; try discriminate; reflexivity.
Qed.

Lemma add_valid (a b : float) :
  valid a = true -> valid b = true -> valid (add a b) = true.
Proof.
  intros Va Vb.
  destruct (is_finite a) eqn:Fa, (is_finite b) eqn:Fb.
  - exact (proj1 (rounds_valid _ _ (add_rounds a b Va Vb Fa Fb))).
  - destruct a as [?|?| |? ? ?], b as [?|[|]| |? ? ?]; try discriminate; reflexivity.
  - destruct a as [?|[|]| |? ? ?], b as [?|?| |? ? ?]; try discriminate; reflexivity.
  - destruct a as [?|[|]| |? ? ?], b as [?|[|]| |? ? ?]; try discriminate; reflexivity.
Qed.

Lemma sub_valid (a b : float) :
  valid a = true -> valid b = true -> valid (sub a b) = true.
Proof.
  intros Va Vb.
  destruct (is_finite a) eqn:Fa, (is_finite b) eqn:Fb.
  - exact (proj1 (rounds_valid _ _ (sub_rounds a b Va Vb Fa Fb))).
  - destruct a as [?|?| |? ? ?], b as [?|[|]| |? ? ?]; try discriminate; reflexivity.
  - destruct a as [?|[|]| |? ? ?], b as [?|?| |? ? ?]; try discriminate; reflexivity.
  - destruct a as [?|[|]| |? ? ?], b as [?|[|]| |? ? ?]; try discriminate; reflexivity.
Qed.

Lemma F2R_zero_iff (a : float) :
  is_finite a = true ->
  (F2R a = 0%R <-> exists s, a = S754_zero s).
Proof.
  intros Fa. destruct a as [s|s| |s m e]; try discriminate.
  - split; [eauto | reflexivity].
  - pose proof (IZR_pos_gt_0 m). pose proof (bpow_pos e).
    split; [| intros [s' H']; discriminate].
    destruct s; cbn [F2R]; intros; nra.
Qed.

Lemma div_valid (a b : float) :
  valid a = true -> valid b = true -> valid (div a b) = true.
Proof.
  intros Va Vb.
  destruct (is_finite a) eqn:Fa, (is_finite b) eqn:Fb.
  - destruct b as [sb|sb| |sb mb eb]; try discriminate.
    + destruct a as [?|?| |? ? ?]; try discriminate; reflexivity.
    + apply (proj1 (rounds_valid _ _ (div_rounds a _ Va Vb Fa Fb
        ltac:(intros H; apply F2R_zero_iff in H; [destruct H; discriminate | reflexivity])))).
  - destruct a as [?|?| |? ? ?], b as [?|?| |? ? ?]; try discriminate; reflexivity.
  - destruct a as [?|?| |? ? ?], b as [?|?| |? ? ?]; try discriminate; reflexivity.
  - destruct a as [?|?| |? ? ?], b as [?|?| |? ? ?]; try discriminate; reflexivity.
Qed.

Lemma of_Z_valid (n : Z) : valid (of_Z n) = true.
Proof. exact (proj1 (rounds_valid _ _ (of_Z_rounds n))). Qed.

(** ** Interval reasoning on the operations *)

Lemma finb_iff (x : float) :
  finb x = true <-> valid x = true /\ is_finite x = true.
Proof. unfold finb. now rewrite andb_true_iff. Qed.

Section Intervals.
Local Open Scope R_scope.

(** A rounding between two roundings. *)
Lemma rounds_within (x xl xh : R) (f fl fh : float) :
  rounds x f -> rounds xl fl -> rounds xh fh ->
  xl <= x <= xh ->
  is_finite fl = true -> is_finite fh = true ->
  within fl fh f.
Proof.
  intros Hf Hl Hh [H1 H2] Fl Fh.
  destruct (rounds_valid x f Hf) as [Vf _].
  destruct (rounds_valid xl fl Hl) as [Vl _].
  destruct (rounds_valid xh fh Hh) as [Vh _].
  pose proof (rounds_mono _ _ _ _ Hl Hf H1) as L1.
  pose proof (rounds_mono _ _ _ _ Hf Hh H2) as L2.
  pose proof (leb_finite_between fl f fh Fl Fh L1 L2) as Ff.
  split; [apply finb_iff; auto |].
  split; apply leb_F2R; assumption.
Qed.

Lemma within_fin (lo hi f : float) : within lo hi f -> finb f = true.
Proof. now intros [H _]. Qed.

Lemma leb_zero_F2R (c : float) :
  finb c = true -> leb zero c = true -> 0 <= F2R c.
Proof.
  intros Hc H. apply finb_iff in Hc.
  apply leb_F2R in H; try tauto; reflexivity.
Qed.

Lemma within_mul_r (lo hi a c : float) :
  finb lo = true -> finb hi = true -> finb c = true -> leb zero c = true ->
  finb (mul lo c) = true -> finb (mul hi c) = true ->
  within lo hi a -> within (mul lo c) (mul hi c) (mul a c).
Proof.
  intros Hlo Hhi Hc Hc0 Hl Hh [Ha [H1 H2]].
  apply leb_zero_F2R in Hc0; [| assumption].
  apply finb_iff in Hlo, Hhi, Hc, Hl, Hh, Ha.
  apply (rounds_within (F2R a * F2R c) (F2R lo * F2R c) (F2R hi * F2R c));
    try (apply mul_rounds; tauto); try tauto.
  split; nra.
Qed.

Lemma within_sub_l (lo hi a c : float) :
  finb lo = true -> finb hi = true -> finb c = true ->
  finb (sub lo c) = true -> finb (sub hi c) = true ->
  within lo hi a -> within (sub lo c) (sub hi c) (sub a c).
Proof.
  intros Hlo Hhi Hc Hl Hh [Ha [H1 H2]].
  apply finb_iff in Hlo, Hhi, Hc, Hl, Hh, Ha.
  apply (rounds_within (F2R a - F2R c) (F2R lo - F2R c) (F2R hi - F2R c));
    try (apply sub_rounds; tauto); try tauto.
  split; lra.
Qed.

Lemma within_sub_r (lo hi a c : float) :
  finb lo = true -> finb hi = true -> finb c = true ->
  finb (sub c hi) = true -> finb (sub c lo) = true ->
  within lo hi a -> within (sub c hi) (sub c lo) (sub c a).
Proof.
  intros Hlo Hhi Hc Hl Hh [Ha [H1 H2]].
  apply finb_iff in Hlo, Hhi, Hc, Hl, Hh, Ha.
  apply (rounds_within (F2R c - F2R a) (F2R c - F2R hi) (F2R c - F2R lo));
    try (apply sub_rounds; tauto); try tauto.
  split; lra.
Qed.

Lemma within_add_r (lo hi a c : float) :
  finb lo = true -> finb hi = true -> finb c = true ->
  finb (add c lo) = true -> finb (add c hi) = true ->
  within lo hi a -> within (add c lo) (add c hi) (add c a).
Proof.
  intros Hlo Hhi Hc Hl Hh [Ha [H1 H2]].
  apply finb_iff in Hlo, Hhi, Hc, Hl, Hh, Ha.
  apply (rounds_within (F2R c + F2R a) (F2R c + F2R lo) (F2R c + F2R hi));
    try (apply add_rounds; tauto); try tauto.
  split; lra.
Qed.

(** The bounds of an interval may be relaxed to floats that compare so. *)
Lemma within_weaken (lo hi lo' hi' f : float) :
  finb lo = true -> finb hi = true -> finb lo' = true -> finb hi' = true ->
  leb lo' lo = true -> leb hi hi' = true ->
  within lo hi f -> within lo' hi' f.
Proof.
  intros Hlo Hhi Hlo' Hhi' L1 L2 [Hf [H1 H2]].
  apply finb_iff in Hlo, Hhi, Hlo', Hhi'.
  apply leb_F2R in L1, L2; try tauto.
  split; [assumption | lra].
Qed.

Lemma within_leb (lo hi f : float) :
  finb lo = true -> finb hi = true -> within lo hi f ->
  leb lo f = true /\ leb f hi = true.
Proof.
  intros Hlo Hhi [Hf [H1 H2]]. apply finb_iff in Hlo, Hhi, Hf.
  split; apply leb_F2R; tauto.
Qed.

Lemma leb_within (lo hi f : float) :
  finb lo = true -> finb hi = true -> valid f = true ->
  leb lo f = true -> leb f hi = true -> within lo hi f.
Proof.
  intros Hlo Hhi Vf L1 L2. apply finb_iff in Hlo, Hhi.
  assert (Ff : is_finite f = true)
    by (apply (leb_finite_between lo f hi); tauto).
  split; [apply finb_iff; auto |].
  split; apply leb_F2R; tauto.
Qed.

End Intervals.

Section MoreIntervals.
Local Open Scope R_scope.

Lemma ltb_zero_F2R (c : float) :
  finb c = true -> ltb zero c = true -> 0 < F2R c.
Proof.
  intros Hc H. apply finb_iff in Hc.
  apply ltb_F2R in H; try tauto; reflexivity.
Qed.

Lemma within_div_r (lo hi a c : float) :
  finb lo = true -> finb hi = true -> finb c = true ->
  ltb zero lo = true -> leb zero c = true ->
  finb (div c hi) = true -> finb (div c lo) = true ->
  within lo hi a -> within (div c hi) (div c lo) (div c a).
Proof.
  intros Hlo Hhi Hc Hlo0 Hc0 Hl Hh [Ha [H1 H2]].
  apply ltb_zero_F2R in Hlo0; [| assumption].
  apply leb_zero_F2R in Hc0; [| assumption].
  apply finb_iff in Hlo, Hhi, Hc, Hl, Hh, Ha.
  apply (rounds_within (F2R c / F2R a) (F2R c / F2R hi) (F2R c / F2R lo));
    try (apply div_rounds; try tauto; lra); try tauto.
  assert (/ F2R hi <= / F2R a) by (apply Rinv_le_contravar; lra).
  assert (/ F2R a <= / F2R lo) by (apply Rinv_le_contravar; lra).
  unfold Rdiv. split; nra.
Qed.

Lemma within_max_float (f : float) :
  finb f = true -> within (opp max_float) max_float f.
Proof.
  intros Hf. split; [assumption |].
  apply finb_iff in Hf. destruct Hf as [Vf Ff].
  destruct f as [s | s | | s m e]; try discriminate.
  - unfold max_float, opp. cbn [SFopp F2R negb]. pose proof (bpow_pos 104). lra.
  - apply valid_finite_iff in Vf. destruct Vf as (_ & Hm & He).
    pose proof (bpow_le e 104 He) as Hb. pose proof (bpow_pos e).
    assert (IZR (Z.pos m) <= 16777215) by (apply IZR_le; lia).
    pose proof (IZR_pos_gt_0 m).
    unfold max_float, opp. cbn [SFopp F2R negb]. destruct s; nra.
Qed.

Lemma within_abs (f : float) :
  finb f = true -> within zero max_float (abs f).
Proof.
  intros Hf. destruct (within_max_float f Hf) as [_ [H1 H2]].
  apply finb_iff in Hf. destruct Hf as [Vf Ff].
  destruct f as [s | s | | s m e]; try discriminate.
  - split; [reflexivity |]. unfold max_float, abs, zero. cbn [SFabs F2R].
    pose proof (bpow_pos 104). lra.
  - split; [apply finb_iff; split; [now rewrite valid_abs | reflexivity] |].
    pose proof (bpow_pos e). pose proof (IZR_pos_gt_0 m).
    unfold max_float, abs, opp, zero in *. cbn [SFabs SFopp F2R negb] in *.
    destruct s; split; nra.
Qed.

Lemma rounds_zero (s : bool) : rounds 0 (S754_zero s).
Proof. split; [| split]; intros; try lra. destruct s; auto. Qed.

Lemma F2R_one : F2R one = 1.
Proof.
  change one with (S754_finite false 8388608 (-23)). cbn [F2R].
  replace (IZR (Z.pos 8388608)) with (bpow 23)
    by (rewrite bpow_IZR by lia; reflexivity).
  rewrite <- bpow_add. reflexivity.
Qed.

(** The product of two floats of the unit interval is in the unit interval. *)
Lemma within_mul_unit (a b : float) :
  within zero one a -> within zero one b -> within zero one (mul a b).
Proof.
  intros [Ha [A1 A2]] [Hb [B1 B2]].
  apply finb_iff in Ha, Hb. rewrite F2R_one in *.
  change (F2R zero) with 0 in *.
  apply (rounds_within (F2R a * F2R b) 0 1).
  - apply mul_rounds; tauto.
  - apply (rounds_zero false).
  - rewrite <- F2R_one. now apply rounds_exact.
  - split; nra.
  - reflexivity.
  - reflexivity.
Qed.

End MoreIntervals.

(** ** Rounding error and first-order smoothing *)

Section Smoothing.
Local Open Scope R_scope.

Lemma finite_float_of_grid (s : bool) (k E : Z) :
  is_finite (float_of s k E) = true -> (0 <= k)%Z ->
  F2R (float_of s k E) = (if s then - IZR k else IZR k) * bpow E.
Proof. intros Hf Hk. now apply F2R_float_of. Qed.

Lemma nearest_error (x : R) (k E : Z) :
  0 < x -> grid_exp x E -> nearest_even x k E ->
  Rabs (IZR k * bpow E - x) <= bpow (-24) * x + bpow (-150).
Proof.
  intros Hx (HE & Hhi & Hlo) [Hn _].
  rewrite Rabs_minus_sym.
  pose proof (bpow_pos E) as Hb. pose proof (bpow_pos (-24)) as H24.
  pose proof (bpow_pos (-150)) as H150.
  destruct (Z.eq_dec E (-149)) as [-> | Hne].
  - replace (bpow (-149) / 2) with (bpow (-150)) in Hn.
    + nra.
    + rewrite <- bpow_pred. reflexivity.
  - specialize (Hlo ltac:(lia)).
    assert (bpow E / 2 = bpow (E + 23) * bpow (-24)).
    { rewrite <- bpow_add, <- bpow_pred. f_equal. lia. }
    nra.
Qed.

(** The error of a rounding that did not overflow. *)
Lemma rounds_error (x : R) (f : float) :
  rounds x f -> is_finite f = true ->
  Rabs (F2R f - x) <= bpow (-24) * Rabs x + bpow (-150).
Proof.
  intros Hr Hf.
  pose proof (bpow_pos (-24)) as H24. pose proof (bpow_pos (-150)) as H150.
  destruct (rounds_cases x f Hr)
    as [[Hx [-> | ->]] | [[Hx (k & E & Hg & Hn & ->)]
                         | [Hx (k & E & Hg & Hn & ->)]]].
  - subst x. cbn [F2R]. rewrite Rminus_0_r, Rabs_R0. lra.
  - subst x. cbn [F2R]. rewrite Rminus_0_r, Rabs_R0. lra.
  - destruct (nearest_even_range x k E Hx Hg Hn) as [[Hk _] _].
    rewrite finite_float_of_grid by assumption.
    rewrite (Rabs_pos_eq x) by lra. now apply nearest_error.
  - destruct (nearest_even_range (- x) k E ltac:(lra) Hg Hn) as [[Hk _] _].
    rewrite finite_float_of_grid by assumption.
    rewrite (Rabs_left x) by lra.
    replace (- IZR k * bpow E - x) with (- (IZR k * bpow E - - x)) by ring.
    rewrite Rabs_Ropp. apply nearest_error; [lra | assumption..].
Qed.

(** Every finite value of the format is a multiple of [2^-149]. *)
Lemma valid_on_grid (f : float) :
  finb f = true -> exists n : Z, F2R f = IZR n * bpow (-149).
Proof.
  intros Hf. apply finb_iff in Hf. destruct Hf as [Vf Ff].
  destruct f as [s | s | | s m e]; try discriminate.
  - exists 0%Z. cbn [F2R]. lra.
  - apply valid_finite_iff in Vf. destruct Vf as ((He & _) & _).
    exists ((if s then - Z.pos m else Z.pos m) * 2 ^ (e + 149))%Z.
    cbn [F2R]. replace e with ((e + 149) + -149)%Z at 1 by lia.
    rewrite bpow_add, (bpow_IZR (e + 149)) by lia.
    rewrite mult_IZR. destruct s; rewrite ?opp_IZR; ring.
Qed.

Lemma grid_positive (n : Z) :
  0 < IZR n * bpow (-149) -> 2 * bpow (-150) <= IZR n * bpow (-149).
Proof.
  intros H. pose proof (bpow_pos (-149)) as Hb.
  assert (H150 : 2 * bpow (-150) = bpow (-149)).
  { rewrite <- bpow_succ. reflexivity. }
  rewrite H150.
  assert (0 < IZR n) by nra.
  apply lt_IZR in H0. assert (1 <= IZR n) by (apply IZR_le; lia). nra.
Qed.

(** The increment of a smoothing step is at most the distance to cover. *)
Lemma increment_bound (delta D P K : R) :
  0 <= K <= / 4 -> 0 <= D -> 0 <= P ->
  2 * bpow (-150) <= delta ->
  Rabs (D - delta) <= bpow (-24) * Rabs delta + bpow (-150) ->
  Rabs (P - D * K) <= bpow (-24) * Rabs (D * K) + bpow (-150) ->
  P <= delta.
Proof.
  intros HK HD HP Hd E1 E2.
  pose proof (bpow_pos (-150)) as H150.
  assert (Hu : 0 < bpow (-24) <= / 16).
  { split; [apply bpow_pos |].
    replace (/ 16) with (bpow (-4)).
    - apply bpow_le. lia.
    - unfold bpow. simpl. lra. }
  set (u := bpow (-24)) in *. set (eta := bpow (-150)) in *.
  rewrite (Rabs_pos_eq delta) in E1 by lra.
  assert (0 <= D * K) by nra.
  rewrite (Rabs_pos_eq (D * K)) in E2 by assumption.
  apply Rabs_le_inv in E1, E2.
  assert (HD' : D <= delta * (17 / 16) + delta / 2) by nra.
  assert (HDK : D * K <= D / 4) by nra.
  assert (HP' : P <= (D / 4) * (17 / 16) + delta / 2) by nra.
  nra.
Qed.

Lemma F2R_two_101 : F2R two_101 = bpow 101.
Proof.
  unfold two_101. cbn [F2R].
  replace (IZR (Z.pos 8388608)) with (bpow 23)
    by (rewrite bpow_IZR by lia; reflexivity).
  rewrite <- bpow_add. reflexivity.
Qed.

Lemma F2R_two_100 : F2R two_100 = bpow 100.
Proof.
  unfold two_100. cbn [F2R].
  replace (IZR (Z.pos 8388608)) with (bpow 23)
    by (rewrite bpow_IZR by lia; reflexivity).
  rewrite <- bpow_add. reflexivity.
Qed.

Lemma rounds_zero_F2R (f : float) : rounds 0 f -> F2R f = 0.
Proof.
  intros (H & _ & _). destruct (H eq_refl) as [-> | ->]; reflexivity.
Qed.

Lemma moderate_iff (x : float) :
  moderate x = true <-> finb x = true /\ Rabs (F2R x) <= bpow 100.
Proof.
  unfold moderate. rewrite andb_true_iff. split; intros [Hf H]; split;
    try assumption.
  - pose proof (within_abs x Hf) as [Ha [A1 _]].
    pose proof Ha as Ha'. apply finb_iff in Ha'.
    apply leb_F2R in H; try tauto; try reflexivity.
    rewrite F2R_two_100 in H.
    apply finb_iff in Hf. destruct Hf as [_ Ff].
    destruct x as [s | s | | s m e]; try discriminate.
    + cbn [F2R]. rewrite Rabs_R0. pose proof (bpow_pos 100). lra.
    + pose proof (IZR_pos_gt_0 m). pose proof (bpow_pos e).
      unfold abs in H. cbn [SFabs F2R] in *.
      destruct s; apply Rabs_le_intro; nra.
  - pose proof (within_abs x Hf) as [Ha _].
    pose proof Ha as Ha'. apply finb_iff in Ha'.
    apply leb_F2R; try tauto; try reflexivity.
    rewrite F2R_two_100.
    apply finb_iff in Hf. destruct Hf as [_ Ff].
    apply Rabs_le_inv in H.
    destruct x as [s | s | | s m e]; try discriminate.
    + cbn [abs SFabs F2R]. pose proof (bpow_pos 100). lra.
    + pose proof (IZR_pos_gt_0 m). pose proof (bpow_pos e).
      unfold abs. cbn [SFabs F2R] in *. destruct s; nra.
Qed.

(** One smoothing step toward a larger target stays between the current
    value and the target. *)
Lemma smooth_up (c t k : float) :
  moderate c = true -> moderate t = true ->
  finb k = true -> 0 <= F2R k <= / 4 ->
  F2R c <= F2R t ->
  within c t (smooth c t k).
Proof.
  intros Mc Mt Hk HK Hct.
  apply moderate_iff in Mc, Mt. destruct Mc as [Hc Bc], Mt as [Ht Bt].
  pose proof Hc as Hc'. pose proof Ht as Ht'. pose proof Hk as Hk'.
  apply finb_iff in Hc', Ht', Hk'.
  destruct Hc' as [Vc Fc], Ht' as [Vt Ft], Hk' as [Vk Fk].
  apply Rabs_le_inv in Bc, Bt.
  assert (B101 : bpow 101 = 2 * bpow 100).
  { rewrite <- bpow_succ. reflexivity. }
  pose proof (bpow_pos 100) as H100.
  unfold smooth.
  (* the difference *)
  pose proof (sub_rounds t c Vt Vc Ft Fc) as Rd.
  assert (Wd : within zero two_101 (sub t c)).
  { apply (rounds_within (F2R t - F2R c) 0 (F2R two_101));
      try assumption; try reflexivity.
    - apply (rounds_zero false).
    - now apply rounds_exact.
    - rewrite F2R_two_101. lra. }
  destruct Wd as [Hd [D0 D1]]. change (F2R zero) with 0 in D0.
  pose proof Hd as Hd'. apply finb_iff in Hd'. destruct Hd' as [Vd Fd].
  (* the increment *)
  pose proof (mul_rounds (sub t c) k Vd Vk Fd Fk) as Rp.
  assert (Wp : within zero two_101 (mul (sub t c) k)).
  { apply (rounds_within (F2R (sub t c) * F2R k) 0 (F2R two_101));
      try assumption; try reflexivity.
    - apply (rounds_zero false).
    - now apply rounds_exact.
    - rewrite F2R_two_101 in *. nra. }
  destruct Wp as [Hp [P0 P1]]. change (F2R zero) with 0 in P0.
  pose proof Hp as Hp'. apply finb_iff in Hp'. destruct Hp' as [Vp Fp].
  (* the increment does not exceed the distance *)
  assert (HP : F2R (mul (sub t c) k) <= F2R t - F2R c).
  { destruct (Req_dec (F2R t - F2R c) 0) as [Hz | Hnz].
    - rewrite Hz in Rd. apply rounds_zero_F2R in Rd.
      rewrite Rd, Rmult_0_l in Rp. apply rounds_zero_F2R in Rp. lra.
    - destruct (valid_on_grid t Ht) as [nt Et].
      destruct (valid_on_grid c Hc) as [nc Ec].
      assert (Eg : F2R t - F2R c = IZR (nt - nc) * bpow (-149)).
      { rewrite minus_IZR, Et, Ec. ring. }
      assert (Hpos : 0 < IZR (nt - nc) * bpow (-149)) by (rewrite <- Eg; lra).
      apply grid_positive in Hpos. rewrite <- Eg in Hpos.
      apply (increment_bound _ (F2R (sub t c)) _ (F2R k)); try assumption.
      + now apply rounds_error.
      + now apply rounds_error. }
  (* the new value *)
  pose proof (add_rounds c (mul (sub t c) k) Vc Vp Fc Fp) as Ra.
  apply (rounds_within (F2R c + F2R (mul (sub t c) k)) (F2R c) (F2R t));
    try assumption.
  - now apply rounds_exact.
  - now apply rounds_exact.
  - lra.
Qed.

(** One smoothing step toward a smaller target stays between the target and
    the current value. *)
Lemma smooth_down (c t k : float) :
  moderate c = true -> moderate t = true ->
  finb k = true -> 0 <= F2R k <= / 4 ->
  F2R t <= F2R c ->
  within t c (smooth c t k).
Proof.
  intros Mc Mt Hk HK Hct.
  apply moderate_iff in Mc, Mt. destruct Mc as [Hc Bc], Mt as [Ht Bt].
  pose proof Hc as Hc'. pose proof Ht as Ht'. pose proof Hk as Hk'.
  apply finb_iff in Hc', Ht', Hk'.
  destruct Hc' as [Vc Fc], Ht' as [Vt Ft], Hk' as [Vk Fk].
  apply Rabs_le_inv in Bc, Bt.
  assert (B101 : bpow 101 = 2 * bpow 100).
  { rewrite <- bpow_succ. reflexivity. }
  pose proof (bpow_pos 100) as H100.
  unfold smooth.
  assert (Hm : finb (opp two_101) = true) by reflexivity.
  assert (Fm : F2R (opp two_101) = - bpow 101).
  { rewrite <- F2R_two_101. unfold two_101, opp. cbn [SFopp F2R negb]. ring. }
  (* the difference *)
  pose proof (sub_rounds t c Vt Vc Ft Fc) as Rd.
  assert (Wd : within (opp two_101) zero (sub t c)).
  { apply (rounds_within (F2R t - F2R c) (F2R (opp two_101)) 0);
      try assumption; try reflexivity.
    - now apply rounds_exact.
    - apply (rounds_zero false).
    - rewrite Fm. lra. }
  destruct Wd as [Hd [D0 D1]]. change (F2R zero) with 0 in D1.
  rewrite Fm in D0.
  pose proof Hd as Hd'. apply finb_iff in Hd'. destruct Hd' as [Vd Fd].
  (* the increment *)
  pose proof (mul_rounds (sub t c) k Vd Vk Fd Fk) as Rp.
  assert (Wp : within (opp two_101) zero (mul (sub t c) k)).
  { apply (rounds_within (F2R (sub t c) * F2R k) (F2R (opp two_101)) 0);
      try assumption; try reflexivity.
    - now apply rounds_exact.
    - apply (rounds_zero false).
    - rewrite Fm. nra. }
  destruct Wp as [Hp [P0 P1]]. change (F2R zero) with 0 in P1.
  pose proof Hp as Hp'. apply finb_iff in Hp'. destruct Hp' as [Vp Fp].
  (* the increment does not exceed the distance *)
  assert (HP : F2R t - F2R c <= F2R (mul (sub t c) k)).
  { destruct (Req_dec (F2R t - F2R c) 0) as [Hz | Hnz].
    - rewrite Hz in Rd. apply rounds_zero_F2R in Rd.
      rewrite Rd, Rmult_0_l in Rp. apply rounds_zero_F2R in Rp. lra.
    - destruct (valid_on_grid t Ht) as [nt Et].
      destruct (valid_on_grid c Hc) as [nc Ec].
      assert (Eg : F2R c - F2R t = IZR (nc - nt) * bpow (-149)).
      { rewrite minus_IZR, Et, Ec. ring. }
      assert (Hpos : 0 < IZR (nc - nt) * bpow (-149)) by (rewrite <- Eg; lra).
      apply grid_positive in Hpos. rewrite <- Eg in Hpos.
      pose proof (rounds_error _ _ Rd Fd) as E1.
      pose proof (rounds_error _ _ Rp Fp) as E2.
      assert (- F2R (mul (sub t c) k) <= F2R c - F2R t); [| lra].
      apply (increment_bound _ (- F2R (sub t c)) _ (F2R k));
        try assumption; try lra.
      + replace (- F2R (sub t c) - (F2R c - F2R t))
          with (- (F2R (sub t c) - (F2R t - F2R c))) by ring.
        rewrite Rabs_Ropp.
        replace (F2R c - F2R t) with (- (F2R t - F2R c)) by ring.
        rewrite Rabs_Ropp. exact E1.
      + replace (- F2R (mul (sub t c) k) - - F2R (sub t c) * F2R k)
          with (- (F2R (mul (sub t c) k) - F2R (sub t c) * F2R k)) by ring.
        rewrite Rabs_Ropp.
        replace (- F2R (sub t c) * F2R k) with (- (F2R (sub t c) * F2R k))
          by ring.
        rewrite Rabs_Ropp. exact E2. }
  (* the new value *)
  pose proof (add_rounds c (mul (sub t c) k) Vc Vp Fc Fp) as Ra.
  apply (rounds_within (F2R c + F2R (mul (sub t c) k)) (F2R t) (F2R c));
    try assumption.
  - now apply rounds_exact.
  - now apply rounds_exact.
  - lra.
Qed.

End Smoothing.

(** * Properties of the program *)

(** ** Scheduler *)

Section Schedule.

Variable fpf : Z.
Hypothesis fpf_pos : 0 < fpf.

Lemma boundaries_step (n : Z) :
  0 <= n ->
  boundaries fpf (n + 1) =
  if Z.rem n fpf =? 0 then boundaries fpf n + 1 else boundaries fpf n.
Proof.
  intros Hn. unfold boundaries.
  rewrite Z.rem_mod_nonneg by lia.
  pose proof (Z.div_mod n fpf ltac:(lia)) as Hdm.
  pose proof (Z.mod_pos_bound n fpf fpf_pos) as Hr.
  set (q := n / fpf) in *. set (r := n mod fpf) in *.
  destruct (Z.eqb_spec r 0) as [Hr0 | Hr0].
  - assert (E1 : (n + fpf - 1) / fpf = q).
    { symmetry. apply (Z.div_unique _ _ q (fpf - 1)); lia. }
    assert (E2 : (n + 1 + fpf - 1) / fpf = q + 1).
    { symmetry. apply (Z.div_unique _ _ (q + 1) 0); lia. }
    lia.
  - assert (E1 : (n + fpf - 1) / fpf = q + 1).
    { symmetry. apply (Z.div_unique _ _ (q + 1) (r - 1)); lia. }
    assert (E2 : (n + 1 + fpf - 1) / fpf = q + 1).
    { symmetry. apply (Z.div_unique _ _ (q + 1) r); lia. }
    lia.
Qed.

Lemma boundaries_multiple (q : Z) : boundaries fpf (q * fpf) = q.
Proof.
  unfold boundaries. symmetry.
  apply (Z.div_unique _ _ q (fpf - 1)); lia.
Qed.

Lemma timer_step (b : Z) :
  0 <= b ->
  (if b mod 6 + 1 >=? 6 then 0 else b mod 6 + 1) = (b + 1) mod 6.
Proof.
  intros Hb.
  pose proof (Z.mod_pos_bound b 6 ltac:(lia)) as Hm.
  pose proof (Z.div_mod b 6 ltac:(lia)) as Hd.
  destruct (Z.geb_spec (b mod 6 + 1) 6).
  - apply (Z.mod_unique _ _ (b / 6 + 1)); lia.
  - apply (Z.mod_unique _ _ (b / 6)); lia.
Qed.

Lemma count_step (b : Z) :
  0 <= b ->
  (b + 1) / 6 = if b mod 6 + 1 >=? 6 then b / 6 + 1 else b / 6.
Proof.
  intros Hb.
  pose proof (Z.mod_pos_bound b 6 ltac:(lia)) as Hm.
  pose proof (Z.div_mod b 6 ltac:(lia)) as Hd.
  destruct (Z.geb_spec (b mod 6 + 1) 6).
  - symmetry. apply (Z.div_unique _ _ _ 0); lia.
  - symmetry. apply (Z.div_unique _ _ _ (b mod 6 + 1)); lia.
Qed.

Lemma boundaries_nonneg (n : Z) : 0 <= n -> 0 <= boundaries fpf n.
Proof. intros; unfold boundaries; apply Z.div_pos; lia. Qed.

(** After [n] frames the fragment counter is the number of boundaries seen,
    modulo 6, and one type change happened for every six of them. *)
Lemma run_sched_invariant (start : Z) (n : nat) :
  algo_timer (fst (run_sched fpf start n)) = boundaries fpf (Z.of_nat n) mod 6 /\
  Z.of_nat (snd (run_sched fpf start n)) = boundaries fpf (Z.of_nat n) / 6.
Proof.
  induction n as [| k [IHt IHc]].
  - simpl. unfold boundaries.
    replace (0 + fpf - 1) with (fpf - 1) by lia.
    rewrite Z.div_small by lia. split; reflexivity.
  - rewrite Nat2Z.inj_succ, <- Z.add_1_r.
    rewrite boundaries_step by lia.
    pose proof (boundaries_nonneg (Z.of_nat k) ltac:(lia)) as Hb.
    cbn [run_sched]. destruct (run_sched fpf start k) as [s c].
    cbn [fst snd] in *.
    unfold type_change, sched_frame, cycle_step.
    destruct (Z.rem (Z.of_nat k) fpf =? 0); cbn [andb].
    + rewrite IHt. rewrite <- timer_step by lia. rewrite count_step by lia.
      destruct (boundaries fpf (Z.of_nat k) mod 6 + 1 >=? 6); cbn [algo_timer snd fst];
        split; try reflexivity; lia.
    + cbn [algo_timer]. split; [exact IHt | exact IHc].
Qed.

Lemma type_change_effect (frame : Z) (s : Sched) :
  type_change fpf frame s = true ->
  Z.rem frame fpf = 0 /\
  cycle_step fpf frame s =
  {| current_type := Z.rem (current_type s + 1) 5;
     previous_type := current_type s;
     algo_timer := 0;
     transition_blend := zero |}.
Proof.
  unfold type_change, cycle_step. intros H.
  apply andb_true_iff in H. destruct H as [H1 H2].
  rewrite H1, H2. split; [now apply Z.eqb_eq | reflexivity].
Qed.

Lemma no_type_change_effect (frame : Z) (s : Sched) :
  type_change fpf frame s = false ->
  current_type (cycle_step fpf frame s) = current_type s /\
  previous_type (cycle_step fpf frame s) = previous_type s /\
  transition_blend (cycle_step fpf frame s) = transition_blend s.
Proof.
  unfold type_change, cycle_step. intros H.
  destruct (Z.rem frame fpf =? 0); [| now repeat split].
  cbn [andb] in H. rewrite H. now repeat split.
Qed.

(** Along a run, the type changes exactly at the frames [(6k + 5) * fpf]. *)
Lemma type_change_frames (start : Z) (n : nat) :
  type_change fpf (Z.of_nat n) (fst (run_sched fpf start n)) = true <->
  exists k, 0 <= k /\ Z.of_nat n = (6 * k + 5) * fpf.
Proof.
  destruct (run_sched_invariant start n) as [Ht _].
  unfold type_change. rewrite Ht. clear Ht.
  rewrite andb_true_iff, Z.eqb_eq, Z.geb_le.
  rewrite Z.rem_mod_nonneg by lia.
  set (f := Z.of_nat n). assert (Hf : 0 <= f) by (unfold f; lia).
  clearbody f. split.
  - intros [Hr Hm].
    apply Z.mod_divide in Hr; [| lia]. destruct Hr as [q Hq]. subst f.
    rewrite boundaries_multiple in Hm.
    assert (0 <= q) by nia.
    pose proof (Z.mod_pos_bound q 6 ltac:(lia)).
    pose proof (Z.div_mod q 6 ltac:(lia)).
    exists (q / 6). split; [apply Z.div_pos; lia |].
    replace (6 * (q / 6) + 5) with q by lia. reflexivity.
  - intros [k [Hk Hfk]]. subst f. split.
    + apply Z.mod_mul. lia.
    + rewrite boundaries_multiple.
      replace (6 * k + 5) with (5 + k * 6) by lia.
      rewrite Z.mod_add by lia. rewrite Z.mod_small; lia.
Qed.

End Schedule.

(** C4. The scheduler changes the type only at a fragment boundary, as the
    counter of boundaries reaches 6: the change sets [previous_type] to the old
    [current_type], [current_type] to [(current_type + 1) % 5] and the blend
    to 0, and no other frame touches them.  From the initial state the changes
    are at the frames [(6k + 5) * fpf] (the sixth boundary, then every sixth),
    so that two changes are at least 6 fragments apart and exactly one falls
    in the first [6 * fpf] frames. *)
Theorem type_cycling_schedule (fpf start : Z) (Hfpf : 0 < fpf) :
  (forall frame s,
      type_change fpf frame s = true ->
      Z.rem frame fpf = 0 /\
      cycle_step fpf frame s =
      {| current_type := Z.rem (current_type s + 1) 5;
         previous_type := current_type s;
         algo_timer := 0;
         transition_blend := zero |}) /\
  (forall frame s,
      type_change fpf frame s = false ->
      current_type (cycle_step fpf frame s) = current_type s /\
      previous_type (cycle_step fpf frame s) = previous_type s /\
      transition_blend (cycle_step fpf frame s) = transition_blend s) /\
  (forall n,
      type_change fpf (Z.of_nat n) (fst (run_sched fpf start n)) = true <->
      exists k, 0 <= k /\ Z.of_nat n = (6 * k + 5) * fpf) /\
  (forall n1 n2,
      (n1 < n2)%nat ->
      type_change fpf (Z.of_nat n1) (fst (run_sched fpf start n1)) = true ->
      type_change fpf (Z.of_nat n2) (fst (run_sched fpf start n2)) = true ->
      6 * fpf <= Z.of_nat n2 - Z.of_nat n1) /\
  snd (run_sched fpf start (Z.to_nat (6 * fpf))) = 1%nat.
Proof.
  split; [| split; [| split; [| split]]].
  - intros frame s. apply type_change_effect.
  - intros frame s. apply no_type_change_effect.
  - intros n. now apply type_change_frames.
  - intros n1 n2 Hlt H1 H2.
    apply (type_change_frames fpf Hfpf) in H1, H2.
    destruct H1 as [k1 [Hk1 E1]], H2 as [k2 [Hk2 E2]].
    assert (k1 < k2) by nia. nia.
  - destruct (run_sched_invariant fpf Hfpf start (Z.to_nat (6 * fpf))) as [_ Hc].
    rewrite Z2Nat.id in Hc by lia.
    replace (6 * fpf) with (6 * fpf)%Z in Hc by reflexivity.
    rewrite (boundaries_multiple fpf Hfpf 6) in Hc.
    change (6 / 6) with 1 in Hc. lia.
Qed.

Lemma type_cycling_schedule_witness :
  snd (run_sched 300 0 (Z.to_nat (6 * 300))) = 1%nat.
Proof.
  exact (proj2 (proj2 (proj2 (proj2
           (type_cycling_schedule 300 0 ltac:(lia)))))).
Defined.

(** ** Respawn position *)

Lemma respawn_coord_rem (i : Z) :
  respawn_coord i = coord_of_rem (Z.rem (wrap_int (i * 1327)) 1000).
Proof. reflexivity. Qed.

Lemma Z_range_In (lo : Z) (len : nat) (z : Z) :
  lo <= z < lo + Z.of_nat len -> In z (Z_range lo len).
Proof.
  intros H. unfold Z_range. apply in_map_iff.
  exists (Z.to_nat (z - lo)). split; [lia |].
  apply in_seq. lia.
Qed.

Lemma coord_of_rem_checked :
  forallb (fun r => negb (is_nan (coord_of_rem r)) &&
                    leb (abs (coord_of_rem r)) MAX_COORD)
          (Z_range (-999) 1999) = true.
Proof. vm_compute. reflexivity. Qed.

Lemma coord_of_rem_nonneg_checked :
  forallb (fun r => leb (opp (of_Z 2)) (coord_of_rem r) &&
                    leb (coord_of_rem r) (of_Z 2))
          (Z_range 0 1000) = true.
Proof. vm_compute. reflexivity. Qed.

(** Whatever the index, wrapped or not, the respawn coordinate is a number
    within the bound. *)
Lemma respawn_coord_bounded (i : Z) :
  is_nan (respawn_coord i) = false /\
  leb (abs (respawn_coord i)) MAX_COORD = true.
Proof.
  rewrite respawn_coord_rem.
  set (r := Z.rem (wrap_int (i * 1327)) 1000).
  assert (Hr : -999 <= r <= 999).
  { assert (H1000 : 1000 <> 0) by lia.
    pose proof (Z.rem_bound_abs (wrap_int (i * 1327)) 1000 H1000).
    unfold r. lia. }
  assert (Hin : In r (Z_range (-999) 1999)) by (apply Z_range_In; lia).
  pose proof (proj1 (forallb_forall _ _) coord_of_rem_checked r Hin) as H.
  apply andb_true_iff in H. destruct H as [H1 H2].
  split; [now apply negb_true_iff in H1 | exact H2].
Qed.

Lemma wrap_int_small (z : Z) : - 2 ^ 31 <= z < 2 ^ 31 -> wrap_int z = z.
Proof.
  intros H. unfold wrap_int. rewrite Z.mod_small; lia.
Qed.

(** While [i * 1327] fits an [int], the respawn coordinate is in [-2, 2]. *)
Lemma respawn_coord_in_range (i : Z) :
  0 <= i <= 1618299 ->
  leb (opp (of_Z 2)) (respawn_coord i) = true /\
  leb (respawn_coord i) (of_Z 2) = true.
Proof.
  intros Hi. rewrite respawn_coord_rem.
  rewrite wrap_int_small by lia.
  set (r := Z.rem (i * 1327) 1000).
  assert (Hr : 0 <= r < 1000) by (apply Z.rem_bound_pos; lia).
  assert (Hin : In r (Z_range 0 1000)) by (apply Z_range_In; lia).
  pose proof (proj1 (forallb_forall _ _) coord_of_rem_nonneg_checked r Hin)
    as H.
  now apply andb_true_iff in H.
Qed.

(** ** Recovery rule *)

Lemma escaped_false (x y z : float) :
  escaped x y z = false ->
  gtb (abs x) MAX_COORD = false /\ gtb (abs y) MAX_COORD = false /\
  gtb (abs z) MAX_COORD = false /\ is_nan x = false.
Proof.
  unfold escaped. intros H.
  repeat (apply orb_false_iff in H; destruct H as [H ?]). auto.
Qed.

(** After the recovery rule the [x] coordinate is a number within the bound,
    and so are [y] and [z] unless they are NaN. *)
Lemma recover_bounded (i : Z) (x y z dx dy dz : float) :
  let q := recover i x y z dx dy dz in
  (is_nan (px q) = false /\ leb (abs (px q)) MAX_COORD = true) /\
  (is_nan (py q) = false -> leb (abs (py q)) MAX_COORD = true) /\
  (is_nan (pz q) = false -> leb (abs (pz q)) MAX_COORD = true).
Proof.
  unfold recover. destruct (escaped x y z) eqn:He; cbn [px py pz].
  - destruct (respawn_coord_bounded i) as [H1 H2]. auto.
  - apply escaped_false in He. destruct He as (Hx & Hy & Hz & Hn).
    unfold gtb in *. repeat split.
    + exact Hn.
    + apply not_ltb_leb; auto. now rewrite is_nan_abs.
    + intros Hy'. apply not_ltb_leb; auto. now rewrite is_nan_abs.
    + intros Hz'. apply not_ltb_leb; auto. now rewrite is_nan_abs.
Qed.

(** The test of the rule looks at [x] alone for NaN: at the position
    [(0, NaN, 0)] no respawn happens and the stored [y] is NaN.  The Euler
    step reaches no such position from finite data. *)
Lemma recover_misses_nan :
  escaped zero S754_nan zero = false /\
  is_nan (py (recover 0 zero S754_nan zero zero zero zero)) = true /\
  escaped zero zero S754_nan = false /\
  is_nan (pz (recover 0 zero zero S754_nan zero zero zero)) = true.
Proof. repeat split. Qed.

(** C9. For particle 1618300 the product [i * 1327] leaves the range of
    [int]; with the wrapped product the respawn coordinate is
    [-11676942 * 2^-22], about -2.784, below -2. *)
Theorem respawn_outside_range :
  wrap_int (1618300 * 1327) = -2147483196 /\
  recover 1618300 (of_Z 1000) zero zero zero zero zero =
  (let c := S754_finite true 11676942 (-22) in
   mkParticle c c c zero zero zero) /\
  ltb (S754_finite true 11676942 (-22)) (opp (of_Z 2)) = true.
Proof. repeat split. Qed.

(** A particle out of bound is respawned at a position that depends on its
    index alone, the same on the three axes, with zero velocity; the
    coordinate is in [-2, 2] as long as [i * 1327] fits an [int]. *)
Lemma respawn_deterministic (i : Z) (x y z dx dy dz : float) :
  escaped x y z = true ->
  0 <= i <= 1618299 ->
  let q := recover i x y z dx dy dz in
  px q = respawn_coord i /\ py q = px q /\ pz q = px q /\
  leb (opp (of_Z 2)) (px q) = true /\ leb (px q) (of_Z 2) = true /\
  vx q = zero /\ vy q = zero /\ vz q = zero.
Proof.
  intros He Hi. unfold recover. rewrite He. cbn.
  destruct (respawn_coord_in_range i Hi) as [H1 H2].
  repeat split; assumption.
Qed.

(** ** Statistics *)

Section StrideLoop.

Context {A : Type}.
Variable body : Z -> A -> A.

(** The indices collected onto an accumulator are those collected onto the
    empty list, followed by the accumulator. *)
Lemma stride_loop_cons (fuel : nat) (i n s : Z) (l : list Z) :
  stride_loop fuel i n s (fun j acc => j :: acc) l =
  stride_loop fuel i n s (fun j acc => j :: acc) [] ++ l.
Proof.
  revert i l. induction fuel as [| k IH]; intros i l; cbn [stride_loop].
  - reflexivity.
  - destruct (i <? n); [| reflexivity].
    rewrite (IH (i + s) (i :: l)), (IH (i + s) [i]), <- app_assoc.
    reflexivity.
Qed.

(** A strided loop is the fold of its body over the indices it visits. *)
Lemma stride_loop_fold (fuel : nat) (i n s : Z) (acc : A) :
  stride_loop fuel i n s body acc =
  fold_left (fun a j => body j a)
            (rev (stride_loop fuel i n s (fun j acc => j :: acc) [])) acc.
Proof.
  revert i acc. induction fuel as [| k IH]; intros i acc; cbn [stride_loop].
  - reflexivity.
  - destruct (i <? n); [| reflexivity].
    rewrite (stride_loop_cons k (i + s) n s [i]), rev_app_distr.
    cbn [rev app fold_left]. apply IH.
Qed.

End StrideLoop.

(** The loops visit [ceil (n / 100)] indices. *)
Lemma stride_loop_length (fuel : nat) (i n : Z) :
  (n - i + 99) / 100 <= Z.of_nat fuel ->
  length (stride_loop fuel i n sample_stride (fun j acc => j :: acc) []) =
  Z.to_nat ((n - i + 99) / 100).
Proof.
  revert i. induction fuel as [| k IH]; intros i Hf; cbn [stride_loop].
  - cbn [length]. change (Z.of_nat 0) with 0 in Hf. lia.
  - destruct (i <? n) eqn:Hi.
    + apply Z.ltb_lt in Hi.
      assert (Hd : (n - (i + 100) + 99) / 100 = (n - i + 99) / 100 - 1).
      { replace (n - (i + 100) + 99) with (n - i + 99 + (-1) * 100) by lia.
        rewrite Z.div_add by lia. lia. }
      assert (Hp : 1 <= (n - i + 99) / 100).
      { apply Z.div_le_lower_bound; lia. }
      unfold sample_stride. rewrite stride_loop_cons, length_app.
      change sample_stride with 100 in IH.
      rewrite (IH (i + 100)) by lia.
      rewrite Hd. cbn [length]. lia.
    + apply Z.ltb_ge in Hi. cbn [length].
      assert ((n - i + 99) / 100 <= 0).
      { assert ((n - i + 99) / 100 < 1); [| lia].
        apply Z.div_lt_upper_bound; lia. }
      lia.
Qed.

Lemma sampled_indices_length (n : Z) :
  0 <= n -> length (sampled_indices n) = Z.to_nat ((n + 99) / 100).
Proof.
  intros Hn. unfold sampled_indices. rewrite length_rev.
  rewrite stride_loop_length.
  - f_equal. f_equal. lia.
  - replace (n - 0 + 99) with (n + 99) by lia.
    rewrite Z2Nat.id by lia.
    destruct (Z.eq_dec n 0) as [-> | Hz]; [reflexivity |].
    assert ((n + 99) / 100 < n + 1); [| lia].
    apply Z.div_lt_upper_bound; lia.
Qed.

Lemma pass1_fold (cos_t sin_t : float) (ps : list Particle) (l : list Z)
    (sx sy mx : float) :
  let r := fold_left
             (fun (a : float * float * float) (i : Z) =>
                let '(sum_x, sum_y, m) := a in
                let q := particle_at ps i in
                let spd := speed q in
                (add sum_x (rot_x cos_t sin_t q), add sum_y (rot_y q),
                 if gtb spd m then spd else m))
             l (sx, sy, mx) in
  fst (fst r) =
    fold_left add (map (fun i => rot_x cos_t sin_t (particle_at ps i)) l) sx /\
  snd (fst r) =
    fold_left add (map (fun i => rot_y (particle_at ps i)) l) sy.
Proof.
  revert sx sy mx. induction l as [| j l IH]; intros sx sy mx;
    cbn [fold_left map].
  - split; reflexivity.
  - apply IH.
Qed.

(** The first component of the first pass is the sum of the rotated [x] of
    the sampled particles, the second the sum of their [y]. *)
Lemma stats_pass1_sums (cos_t sin_t : float) (ps : list Particle) (n : Z) :
  fst (fst (stats_pass1 cos_t sin_t ps n)) =
    fold_left add (map (fun i => rot_x cos_t sin_t (particle_at ps i))
                       (sampled_indices n)) zero /\
  snd (fst (stats_pass1 cos_t sin_t ps n)) =
    fold_left add (map (fun i => rot_y (particle_at ps i))
                       (sampled_indices n)) zero.
Proof.
  unfold stats_pass1, sampled_indices. rewrite stride_loop_fold.
  apply (pass1_fold cos_t sin_t ps).
Qed.

(** The centroid is the sum over the sampled particles divided by
    [num_particles / 100]. *)
Lemma centroid_quotient (cos_t sin_t : float) (ps : list Particle) (n : Z) :
  center_x (statistics cos_t sin_t ps n) =
    div (fold_left add (map (fun i => rot_x cos_t sin_t (particle_at ps i))
                            (sampled_indices n)) zero)
        (of_Z (num_samples n)) /\
  center_y (statistics cos_t sin_t ps n) =
    div (fold_left add (map (fun i => rot_y (particle_at ps i))
                            (sampled_indices n)) zero)
        (of_Z (num_samples n)).
Proof.
  destruct (stats_pass1_sums cos_t sin_t ps n) as [Hx Hy].
  unfold statistics.
  destruct (stats_pass1 cos_t sin_t ps n) as [[sum_x sum_y] mx].
  cbn [fst snd] in Hx, Hy.
  destruct (stats_pass2 _ _ _ _ _ _) as [sdx sdy]. cbn [center_x center_y].
  rewrite Hx, Hy. split; reflexivity.
Qed.

(** X15. When the particle count is a multiple of 100, as the default 2000000 is,
    the divisor is the number of sampled particles and the centroid is their
    mean. *)
Lemma centroid_mean_multiple (cos_t sin_t : float) (ps : list Particle)
    (n : Z) :
  0 <= n -> Z.rem n 100 = 0 ->
  center_x (statistics cos_t sin_t ps n) =
    mean (map (fun i => rot_x cos_t sin_t (particle_at ps i))
              (sampled_indices n)) /\
  center_y (statistics cos_t sin_t ps n) =
    mean (map (fun i => rot_y (particle_at ps i)) (sampled_indices n)).
Proof.
  intros Hn Hr.
  assert (Hc : Z.of_nat (length (sampled_indices n)) = num_samples n).
  { rewrite sampled_indices_length by lia. unfold num_samples, sample_stride.
    rewrite Z.rem_mod_nonneg in Hr by lia.
    rewrite Z.quot_div_nonneg by lia.
    assert (0 <= (n + 99) / 100) by (apply Z.div_pos; lia).
    rewrite Z2Nat.id by lia.
    pose proof (Z.div_mod n 100 ltac:(lia)) as Hd. rewrite Hr in Hd.
    replace (n + 99) with (99 + (n / 100) * 100) by lia.
    rewrite Z.div_add by lia. reflexivity. }
  destruct (centroid_quotient cos_t sin_t ps n) as [Hx Hy].
  unfold mean. rewrite !length_map, Hc. split; assumption.
Qed.

(** The number of sampled particles against the divisor: they differ as soon
    as the count is not a multiple of 100. *)
Lemma sample_count_mismatch (n : Z) :
  0 <= n -> Z.rem n 100 <> 0 ->
  Z.of_nat (length (sampled_indices n)) = num_samples n + 1.
Proof.
  intros Hn Hr.
  rewrite sampled_indices_length by lia. unfold num_samples, sample_stride.
  rewrite Z.rem_mod_nonneg in Hr by lia.
  rewrite Z.quot_div_nonneg by lia.
  assert (0 <= (n + 99) / 100) by (apply Z.div_pos; lia).
  rewrite Z2Nat.id by lia.
  pose proof (Z.div_mod n 100 ltac:(lia)) as Hd.
  pose proof (Z.mod_pos_bound n 100 ltac:(lia)) as Hb.
  symmetry. apply Z.div_unique with (r := n mod 100 - 1); lia.
Qed.

(** C3. With 150 particles the loops sample the indices 0 and 100, and the
    sums are divided by [150 / 100 = 1]: the centroid of a cloud whose
    particles all sit at [x = 1] comes out as 2, not as the mean 1. *)
Theorem centroid_not_mean :
  sampled_indices 150 = [0; 100] /\
  num_samples 150 = 1 /\
  center_x (statistics one zero cloud150 150) = of_Z 2 /\
  mean (map (fun i => rot_x one zero (particle_at cloud150 i))
            (sampled_indices 150)) = one.
Proof. repeat split. Qed.

(** ** Heatmap at its breakpoints *)

Lemma bpow_neg_inv (p : positive) :
  bpow (Z.neg p) = (/ IZR (Z.pow_pos 2 p))%R.
Proof.
  change (Z.neg p) with (- Z.pos p). unfold bpow.
  rewrite powerRZ_neg'. f_equal. symmetry. apply Zpower_pos_powerRZ.
Qed.

Ltac bpow_compute :=
  repeat match goal with
    | |- context [bpow (Z.neg ?p)] =>
        let v := eval vm_compute in (Z.pow_pos 2 p) in
        rewrite (bpow_neg_inv p); change (Z.pow_pos 2 p) with v
    end.

(** Replaces the reals of closed floats by their numerals. *)
Ltac F2R_compute :=
  repeat match goal with
    | |- context [F2R ?f] =>
        let v := eval vm_compute in f in
        change (F2R f) with (F2R v); cbn [F2R]
    end;
  bpow_compute.

Lemma close_to_intro (tol : R) (x y : float) :
  is_finite x = true -> is_finite y = true ->
  (- tol <= F2R x - F2R y <= tol)%R -> close_to tol x y.
Proof.
  intros Fx Fy H. split; [assumption |]. split; [assumption |].
  now apply Rabs_le_intro.
Qed.

Lemma close_to_same (x : float) : is_finite x = true -> close_to 0 x x.
Proof.
  intros Fx. apply close_to_intro; try assumption.
  rewrite Rminus_diag. lra.
Qed.

(** C2, as the code has it.  A breakpoint belongs to the branch above it.
    At 0.2 the two branches return the same color.  At 0.5 they agree on red
    and green, and the blue of the branch below is [10737408 * 2^-30], just
    under 0.01, against 0; at 0.8 they agree on green and blue, and the red
    of the branch below is [16609444 * 2^-24], just over 0.99, against 1.
    So the branches agree to within 0.01 at the three breakpoints. *)
Theorem heatmap_breakpoints :
  (get_heatmap_color (lit 2 10) = heat_branch2 (lit 2 10) /\
   get_heatmap_color (lit 5 10) = heat_branch3 (lit 5 10) /\
   get_heatmap_color (lit 8 10) = heat_branch4 (lit 8 10)) /\
  heat_branch1 (lit 2 10) = heat_branch2 (lit 2 10) /\
  colors_agree 0 (heat_branch1 (lit 2 10)) (heat_branch2 (lit 2 10)) /\
  (blue (heat_branch2 (lit 5 10)) = S754_finite false 10737408 (-30) /\
   blue (heat_branch3 (lit 5 10)) = zero /\
   colors_agree (1 / 100) (heat_branch2 (lit 5 10)) (heat_branch3 (lit 5 10))) /\
  (red (heat_branch3 (lit 8 10)) = S754_finite false 16609444 (-24) /\
   red (heat_branch4 (lit 8 10)) = one /\
   colors_agree (1 / 100) (heat_branch3 (lit 8 10)) (heat_branch4 (lit 8 10))).
Proof.
  split; [repeat split |]. split; [reflexivity |].
  split; [| split].
  - repeat split; try reflexivity; apply Rabs_le_intro; F2R_compute; lra.
  - split; [reflexivity |]. split; [reflexivity |].
    repeat split; try reflexivity; apply Rabs_le_intro; F2R_compute; lra.
  - split; [reflexivity |]. split; [reflexivity |].
    repeat split; try reflexivity; apply Rabs_le_intro; F2R_compute; lra.
Qed.

(** At 0.5 the two branches do not agree to within a thousandth, let alone
    to within rounding error. *)
Lemma heatmap_jump_at_half :
  ~ colors_agree (1 / 1000) (heat_branch2 (lit 5 10)) (heat_branch3 (lit 5 10)).
Proof.
  intros (_ & _ & _ & _ & H). apply Rabs_le_inv in H.
  revert H. F2R_compute. lra.
Qed.

(** ** Type blend *)












(** ** Heatmap *)

Lemma within_in_unit (x : float) : within zero one x -> in_unit x.
Proof. intros H. apply (within_leb zero one x); auto. Qed.

(** An interval is cut in two by a comparison with a float. *)
Lemma within_split (lo hi c t : float) :
  finb c = true -> within lo hi t ->
  (ltb t c = true -> within lo c t) /\ (ltb t c = false -> within c hi t).
Proof.
  intros Hc [Ht [H1 H2]]. pose proof Hc as Hc'. pose proof Ht as Ht'.
  apply finb_iff in Hc', Ht'. destruct Hc' as [Vc Fc], Ht' as [Vt Ft].
  split; intros Hlt.
  - apply ltb_F2R in Hlt; try assumption. split; [assumption | lra].
  - apply not_ltb_leb in Hlt.
    + apply leb_F2R in Hlt; try assumption. split; [assumption | lra].
    + now destruct c.
    + now destruct t.
Qed.

Lemma heat_clamp_within (t : float) :
  valid t = true -> is_nan t = false -> within zero one (heat_clamp t).
Proof.
  intros Vt Nt. unfold heat_clamp.
  destruct (ltb t zero) eqn:H0.
  - change (gtb zero one) with false. cbv iota.
    apply leb_within; reflexivity.
  - apply not_ltb_leb in H0; [| reflexivity | assumption].
    destruct (gtb t one) eqn:H1.
    + apply leb_within; reflexivity.
    + apply not_ltb_leb in H1; [| assumption | reflexivity].
      apply leb_within; auto.
Qed.

Lemma heat_branch1_unit (t : float) :
  within zero (lit 2 10) t ->
  in_unit (red (heat_branch1 t)) /\ in_unit (green (heat_branch1 t)) /\
  in_unit (blue (heat_branch1 t)).
Proof.
  intros Ht. cbn [heat_branch1 red green blue].
  split; [split; reflexivity |]. split; [| split; reflexivity].
  apply within_in_unit.
  apply (within_mul_r zero (lit 2 10) t (of_Z 5)) in Ht;
    try reflexivity. exact Ht.
Qed.

Lemma heat_branch2_unit (t : float) :
  within (lit 2 10) (lit 5 10) t ->
  in_unit (red (heat_branch2 t)) /\ in_unit (green (heat_branch2 t)) /\
  in_unit (blue (heat_branch2 t)).
Proof.
  intros Ht. cbn [heat_branch2 red green blue].
  split; [split; reflexivity |]. split; [split; reflexivity |].
  apply within_in_unit.
  apply (within_sub_l _ _ t (lit 2 10)) in Ht; try reflexivity.
  apply (within_mul_r _ _ _ (lit 33 10)) in Ht; try reflexivity.
  apply (within_sub_r _ _ _ one) in Ht; try reflexivity.
  revert Ht. apply within_weaken; reflexivity.
Qed.

Lemma heat_branch3_unit (t : float) :
  within (lit 5 10) (lit 8 10) t ->
  in_unit (red (heat_branch3 t)) /\ in_unit (green (heat_branch3 t)) /\
  in_unit (blue (heat_branch3 t)).
Proof.
  intros Ht. cbn [heat_branch3 red green blue].
  split; [| split; split; reflexivity].
  apply within_in_unit.
  apply (within_sub_l _ _ t (lit 5 10)) in Ht; try reflexivity.
  apply (within_mul_r _ _ _ (lit 33 10)) in Ht; try reflexivity.
  revert Ht. apply within_weaken; reflexivity.
Qed.

Lemma heat_branch4_unit (t : float) :
  within (lit 8 10) one t ->
  in_unit (red (heat_branch4 t)) /\ in_unit (green (heat_branch4 t)) /\
  in_unit (blue (heat_branch4 t)).
Proof.
  intros Ht. cbn [heat_branch4 red green blue].
  split; [split; reflexivity |].
  apply (within_sub_l _ _ t (lit 8 10)) in Ht; try reflexivity.
  apply (within_mul_r _ _ _ (of_Z 5)) in Ht; try reflexivity.
  split.
  - apply within_in_unit.
    apply (within_sub_r _ _ _ one) in Ht; try reflexivity.
    revert Ht. apply within_weaken; reflexivity.
  - apply within_in_unit.
    revert Ht. apply within_weaken; reflexivity.
Qed.

(** The three channels of the heatmap are in the unit interval. *)
Lemma heatmap_unit (t : float) :
  valid t = true -> is_nan t = false ->
  in_unit (red (get_heatmap_color t)) /\
  in_unit (green (get_heatmap_color t)) /\
  in_unit (blue (get_heatmap_color t)).
Proof.
  intros Vt Nt. unfold get_heatmap_color.
  pose proof (heat_clamp_within t Vt Nt) as Hc.
  set (t' := heat_clamp t) in *.
  destruct (within_split zero one (lit 2 10) t' eq_refl Hc) as [A1 B1].
  destruct (ltb t' (lit 2 10)); [apply heat_branch1_unit; exact (A1 eq_refl) |].
  specialize (B1 eq_refl).
  destruct (within_split _ _ (lit 5 10) t' eq_refl B1) as [A2 B2].
  destruct (ltb t' (lit 5 10)); [apply heat_branch2_unit; exact (A2 eq_refl) |].
  specialize (B2 eq_refl).
  destruct (within_split _ _ (lit 8 10) t' eq_refl B2) as [A3 B3].
  destruct (ltb t' (lit 8 10)); [apply heat_branch3_unit; exact (A3 eq_refl) |].
  apply heat_branch4_unit. exact (B3 eq_refl).
Qed.

(** ** Rasterizer contribution *)

Lemma depth_fade_inf (s : bool) : depth_fade (S754_infinity s) = zero.
Proof. destruct s; reflexivity. Qed.

(** For a finite depth the fade factor is positive and at most 1. *)
Lemma depth_fade_finite (rz : float) :
  finb rz = true ->
  within (div one (add one (mul max_float (lit 1 100)))) one (depth_fade rz).
Proof.
  intros Hrz. unfold depth_fade.
  pose proof (within_abs rz Hrz) as H.
  apply (within_mul_r _ _ _ (lit 1 100)) in H; try reflexivity.
  apply (within_add_r _ _ _ one) in H; try reflexivity.
  apply (within_div_r _ _ _ one) in H; try reflexivity.
  exact H.
Qed.

Lemma in_unit_zero_sign (s : bool) : in_unit (S754_zero s).
Proof. destruct s; split; reflexivity. Qed.

Lemma in_unit_within (x : float) :
  valid x = true -> in_unit x -> within zero one x.
Proof. intros Vx [H1 H2]. apply leb_within; auto. Qed.

Lemma mul_zero_r (x : float) :
  is_finite x = true -> exists s, mul x zero = S754_zero s.
Proof.
  destruct x as [s | s | | s m e]; try discriminate; intros _; cbn; eauto.
Qed.

(** A channel of the heatmap scaled by the depth fade stays in the unit
    interval. *)
Lemma channel_contribution_unit (c rz : float) :
  valid c = true -> in_unit c ->
  valid rz = true -> is_nan rz = false ->
  in_unit (mul c (depth_fade rz)).
Proof.
  intros Vc Hc Vrz Nrz.
  pose proof (in_unit_within c Vc Hc) as Wc.
  destruct (finite_cases rz Nrz) as [Frz | [-> | ->]].
  - apply within_in_unit. apply within_mul_unit; [exact Wc |].
    assert (Hrz : finb rz = true) by (apply finb_iff; auto).
    pose proof (depth_fade_finite rz Hrz) as H.
    revert H. apply within_weaken; reflexivity.
  - rewrite depth_fade_inf.
    destruct (mul_zero_r c) as [s ->]; [| apply in_unit_zero_sign].
    apply finb_iff. exact (within_fin _ _ _ Wc).
  - rewrite depth_fade_inf.
    destruct (mul_zero_r c) as [s ->]; [| apply in_unit_zero_sign].
    apply finb_iff. exact (within_fin _ _ _ Wc).
Qed.

Lemma heatmap_valid (t : float) :
  valid t = true -> is_nan t = false ->
  valid (red (get_heatmap_color t)) = true /\
  valid (green (get_heatmap_color t)) = true /\
  valid (blue (get_heatmap_color t)) = true.
Proof.
  intros Vt Nt.
  assert (Vc : valid (heat_clamp t) = true).
  { pose proof (heat_clamp_within t Vt Nt) as [H _].
    now apply finb_iff in H. }
  unfold get_heatmap_color. set (t' := heat_clamp t) in *.
  destruct (ltb t' (lit 2 10)); [| destruct (ltb t' (lit 5 10));
    [| destruct (ltb t' (lit 8 10))]];
    cbn [heat_branch1 heat_branch2 heat_branch3 heat_branch4 red green blue];
    repeat split; try reflexivity;
    repeat first [apply mul_valid | apply sub_valid | assumption | reflexivity].
Qed.

(** C10. For every number [t], also below 0 or above 1, the heatmap returns
    red, green and blue in [0, 1]; for a finite depth the fade factor is in
    (0, 1]; and whatever the depth, each channel added to the accumulation
    buffer is in [0, 1]. *)
Theorem heatmap_contribution_unit (t rz : float)
    (Vt : valid t = true) (Nt : is_nan t = false)
    (Vrz : valid rz = true) (Nrz : is_nan rz = false) :
  (in_unit (red (get_heatmap_color t)) /\
   in_unit (green (get_heatmap_color t)) /\
   in_unit (blue (get_heatmap_color t))) /\
  (is_finite rz = true ->
   ltb zero (depth_fade rz) = true /\ leb (depth_fade rz) one = true) /\
  (in_unit (red (contribution t rz)) /\
   in_unit (green (contribution t rz)) /\
   in_unit (blue (contribution t rz))).
Proof.
  pose proof (heatmap_unit t Vt Nt) as (Hr & Hg & Hb).
  pose proof (heatmap_valid t Vt Nt) as (Vr & Vg & Vb).
  split; [auto |]. split.
  - intros Frz.
    assert (Hrz : finb rz = true) by (apply finb_iff; auto).
    pose proof (depth_fade_finite rz Hrz) as H.
    pose proof (within_fin _ _ _ H) as Hf.
    assert (L2 : leb (depth_fade rz) one = true).
    { apply (within_leb (div one (add one (mul max_float (lit 1 100)))) one);
        [reflexivity | reflexivity | exact H]. }
    split; [| exact L2].
    apply finb_iff in Hf. apply ltb_F2R; try tauto; try reflexivity.
    destruct H as [_ [H1 _]].
    pose proof (ltb_zero_F2R (div one (add one (mul max_float (lit 1 100))))
                  eq_refl eq_refl).
    change (F2R zero) with 0%R. lra.
  - unfold contribution. cbn [red green blue].
    repeat split; apply channel_contribution_unit; assumption.
Qed.

Lemma heatmap_contribution_unit_witness :
  in_unit (green (get_heatmap_color (lit 1 10))) /\
  in_unit (blue (contribution (lit 1 10) (of_Z 3))).
Proof.
  pose proof (heatmap_contribution_unit (lit 1 10) (of_Z 3)
                eq_refl eq_refl eq_refl eq_refl) as [[_ [Hg _]] [_ [_ [_ Hb]]]].
  exact (conj Hg Hb).
Defined.

(** ** Parameter interpolation *)

Section Rates.
Local Open Scope R_scope.

Lemma F2R_quarter : F2R (lit 1 4) = / 4.
Proof.
  change (lit 1 4) with (S754_finite false 8388608 (-25)). cbn [F2R].
  replace (IZR (Z.pos 8388608)) with (bpow 23)
    by (rewrite bpow_IZR by lia; reflexivity).
  rewrite <- bpow_add. unfold bpow. simpl. lra.
Qed.

(** A rate between 0 and 1/4, as the comparisons of floats see it. *)
Lemma rate_bounds (k : float) :
  finb k = true -> leb zero k = true -> leb k (lit 1 4) = true ->
  0 <= F2R k <= / 4.
Proof.
  intros Hk H0 H1. split; [now apply leb_zero_F2R |].
  apply finb_iff in Hk. rewrite <- F2R_quarter.
  apply leb_F2R; try tauto; reflexivity.
Qed.

Lemma within_moderate (lo hi x : float) :
  moderate lo = true -> moderate hi = true -> within lo hi x ->
  moderate x = true.
Proof.
  intros Mlo Mhi [Hx [H1 H2]]. apply moderate_iff in Mlo, Mhi.
  destruct Mlo as [_ Blo], Mhi as [_ Bhi].
  apply Rabs_le_inv in Blo, Bhi.
  apply moderate_iff. split; [assumption |]. apply Rabs_le_intro. lra.
Qed.

(** One smoothing step ends between the current value and the target. *)
Lemma smooth_between (c t k : float) :
  moderate c = true -> moderate t = true ->
  finb k = true -> leb zero k = true -> leb k (lit 1 4) = true ->
  finb (smooth c t k) = true /\
  (F2R c <= F2R t -> F2R c <= F2R (smooth c t k) <= F2R t) /\
  (F2R t <= F2R c -> F2R t <= F2R (smooth c t k) <= F2R c).
Proof.
  intros Mc Mt Hk H0 H1. pose proof (rate_bounds k Hk H0 H1) as HK.
  destruct (Rle_or_lt (F2R c) (F2R t)) as [Hle | Hgt].
  - destruct (smooth_up c t k Mc Mt Hk HK Hle) as [Hf Hb].
    split; [assumption |]. split; intros; lra.
  - destruct (smooth_down c t k Mc Mt Hk HK ltac:(lra)) as [Hf Hb].
    split; [assumption |]. split; intros; lra.
Qed.

End Rates.

Lemma lerp_field (c t : float) :
  moderate c = true -> moderate t = true ->
  approaches c t (smooth c t lerp_rate).
Proof.
  intros Mc Mt.
  destruct (smooth_between c t lerp_rate Mc Mt eq_refl eq_refl eq_refl)
    as (Hf & Hup & Hdown).
  pose proof Mc as Mc'. pose proof Mt as Mt'.
  apply moderate_iff in Mc', Mt'.
  destruct Mc' as [Hc _], Mt' as [Ht _].
  pose proof Hf as Hf'. apply finb_iff in Hc, Ht, Hf'.
  set (c' := smooth c t lerp_rate) in *.
  split; [exact Hf |]. split; [| split; [| split]].
  - intros H. apply leb_F2R in H; try tauto.
    destruct (Hup H). split; apply leb_F2R; tauto.
  - intros H. apply leb_F2R in H; try tauto.
    destruct (Hdown H). split; apply leb_F2R; tauto.
  - destruct (Rle_or_lt (F2R c) (F2R t)) as [Hle | Hgt].
    + destruct (Hup Hle). rewrite !Rabs_pos_eq by lra. lra.
    + destruct (Hdown ltac:(lra)). rewrite !Rabs_left1 by lra. lra.
  - destruct (Rle_or_lt (F2R c) (F2R t)) as [Hle | Hgt].
    + destruct (Hup Hle). rewrite !Rabs_pos_eq by lra. lra.
    + destruct (Hdown ltac:(lra)). rewrite !Rabs_left1 by lra. lra.
Qed.

(** The step does not always decrease the distance: with [b = 28] and a
    target [24 * 2^-19] (about 4.6e-5) above it, the increment is less than
    half a unit in the last place of 28 and the stored value stays 28. *)
Lemma lerp_stalls :
  valid (p_b lorenz_target) = true /\
  ltb (p_b lorenz_cur) (p_b lorenz_target) = true /\
  sub (p_b lorenz_target) (p_b lorenz_cur) = S754_finite false 12582912 (-38) /\
  ltb (S754_finite false 8388608 (-46)) (S754_finite false 12582912 (-38)) = true /\
  p_b (lerp_params lorenz_cur lorenz_target) = p_b lorenz_cur.
Proof. repeat split. Qed.

(** ** Camera zoom *)

Lemma config_ok_inv (cfg : Config) :
  config_ok cfg = true ->
  finb (cfg_screen_fill_factor cfg) = true /\
  ltb zero (cfg_screen_fill_factor cfg) = true /\
  leb (cfg_screen_fill_factor cfg) two_100 = true /\
  moderate (cfg_min_zoom cfg) = true /\
  moderate (cfg_max_zoom cfg) = true /\
  leb (cfg_min_zoom cfg) (cfg_max_zoom cfg) = true.
Proof.
  unfold config_ok. intros H.
  do 5 (apply andb_true_iff in H; destruct H as [H ?]). tauto.
Qed.

(** The floor at 1.0 leaves a NaN as it is and makes any number at least 1,
    so it never returns a zero. *)
Lemma floor_one_spec (x : float) :
  (is_nan x = true /\ floor_one x = x) \/
  (is_nan x = false /\ leb one (floor_one x) = true).
Proof.
  unfold floor_one. destruct (is_nan x) eqn:Hn.
  - left. split; [reflexivity |]. destruct x; try discriminate. reflexivity.
  - right. split; [reflexivity |]. destruct (ltb x one) eqn:Hlt.
    + reflexivity.
    + apply not_ltb_leb; auto.
Qed.

Lemma floor_one_valid (x : float) : valid x = true -> valid (floor_one x) = true.
Proof. intros H. unfold floor_one. now destruct (ltb x one). Qed.

Lemma leb_one_nonzero (x : float) :
  leb one x = true -> forall s, x <> S754_zero s.
Proof. intros H s ->. destruct s; discriminate. Qed.

Section Camera.
Local Open Scope R_scope.

Lemma within_mul_l (lo hi a c : float) :
  finb lo = true -> finb hi = true -> finb c = true -> leb zero c = true ->
  finb (mul c lo) = true -> finb (mul c hi) = true ->
  within lo hi a -> within (mul c lo) (mul c hi) (mul c a).
Proof.
  intros Hlo Hhi Hc Hc0 Hl Hh [Ha [H1 H2]].
  apply leb_zero_F2R in Hc0; [| assumption].
  apply finb_iff in Hlo, Hhi, Hc, Hl, Hh, Ha.
  apply (rounds_within (F2R c * F2R a) (F2R c * F2R lo) (F2R c * F2R hi));
    try (apply mul_rounds; tauto); try tauto.
  split; nra.
Qed.

(** A finite numerator over a denominator that is at least 1. *)
Lemma div_by_ge_one (n d : float) :
  finb n = true -> valid d = true -> leb one d = true ->
  valid (div n d) = true /\ is_nan (div n d) = false.
Proof.
  intros Hn Vd Hd. apply finb_iff in Hn. destruct Hn as [Vn Fn].
  destruct (leb_not_nan _ _ Hd) as [_ Nd].
  destruct (finite_cases d Nd) as [Fd | [-> | ->]].
  - apply leb_F2R in Hd; try assumption; try reflexivity.
    rewrite F2R_one in Hd.
    apply (rounds_valid (F2R n / F2R d)).
    apply div_rounds; try assumption. lra.
  - destruct n as [? | ? | | ? ? ?]; try discriminate; split; reflexivity.
  - discriminate.
Qed.

Lemma screen_extent_finite (n : Z) (fill : float) :
  (0 <= n <= 4096)%Z ->
  finb fill = true -> ltb zero fill = true -> leb fill two_100 = true ->
  finb (mul (of_Z n) fill) = true.
Proof.
  intros Hn Hf H0 H1.
  assert (Wf : within zero two_100 fill).
  { pose proof Hf as Hf'. apply finb_iff in Hf'.
    apply leb_within; try reflexivity; try tauto. now apply ltb_leb. }
  pose proof (of_Z_rounds n) as Rn.
  assert (Wn : within zero (of_Z 4096) (of_Z n)).
  { apply (rounds_within (IZR n) 0 (IZR 4096)); try assumption;
      try reflexivity.
    - apply (rounds_zero false).
    - apply of_Z_rounds.
    - split; apply IZR_le; lia. }
  destruct Wn as [Hfn [N0 N1]]. destruct Wf as [_ [F0 F1]].
  change (F2R zero) with 0 in *.
  pose proof Hfn as Hfn'. pose proof Hf as Hf'.
  apply finb_iff in Hfn', Hf'.
  assert (W : within zero (mul (of_Z 4096) two_100) (mul (of_Z n) fill)).
  { apply (rounds_within (F2R (of_Z n) * F2R fill) 0
             (F2R (of_Z 4096) * F2R two_100)); try reflexivity.
    - apply mul_rounds; tauto.
    - apply (rounds_zero false).
    - apply mul_rounds; reflexivity.
    - split; nra. }
  exact (within_fin _ _ _ W).
Qed.

End Camera.

(** The scale asked for is a number as soon as the vertical extent is. *)
Lemma raw_target_scale_number (cfg : Config) (mdx mdy mult : float) :
  config_ok cfg = true -> frame_ok (mdx, mdy, mult) ->
  valid (raw_target_scale cfg mdx mdy mult) = true /\
  is_nan (raw_target_scale cfg mdx mdy mult) = false.
Proof.
  unfold frame_ok. intros Hcfg (Vx & Vy & Vm & Ny).
  apply config_ok_inv in Hcfg.
  destruct Hcfg as (Hcfg & Hpos & Hbig & Mmin & Mmax & Hle).
  unfold raw_target_scale.
  set (target_w := floor_one (mul mdx mult)).
  set (target_h := floor_one (mul mdy mult)).
  set (fill := cfg_screen_fill_factor cfg) in *.
  assert (Hh : valid (div (mul (of_Z HEIGHT) fill) target_h) = true /\
               is_nan (div (mul (of_Z HEIGHT) fill) target_h) = false).
  { apply div_by_ge_one.
    - apply screen_extent_finite; try assumption. unfold HEIGHT. lia.
    - apply floor_one_valid. now apply mul_valid.
    - destruct (floor_one_spec (mul mdy mult)) as [[Hn _] | [_ Hge]];
        [congruence | exact Hge]. }
  assert (Vw : valid (div (mul (of_Z WIDTH) fill) target_w) = true).
  { apply div_valid.
    - apply mul_valid; [apply of_Z_valid |].
      apply finb_iff in Hcfg. tauto.
    - apply floor_one_valid. now apply mul_valid. }
  destruct (ltb (div (mul (of_Z WIDTH) fill) target_w)
                (div (mul (of_Z HEIGHT) fill) target_h)) eqn:Hlt;
    [| exact Hh].
  split; [exact Vw |]. apply ltb_leb in Hlt.
  now destruct (leb_not_nan _ _ Hlt).
Qed.

(** Clamping a number into a non-empty range gives a value of the range. *)
Lemma clamp_zoom_in_range (cfg : Config) (s : float) :
  config_ok cfg = true -> valid s = true -> is_nan s = false ->
  in_zoom_range cfg (clamp_zoom cfg s).
Proof.
  intros Hcfg Vs Ns. apply config_ok_inv in Hcfg.
  destruct Hcfg as (Hcfg & Hpos & Hbig & Mmin & Mmax & Hle).
  assert (Hmin : finb (cfg_min_zoom cfg) = true).
  { now apply moderate_iff in Mmin. }
  assert (Hmax : finb (cfg_max_zoom cfg) = true).
  { now apply moderate_iff in Mmax. }
  apply finb_iff in Hmin, Hmax. destruct Hmin as [Vmin Fmin], Hmax as [Vmax Fmax].
  assert (Nmin : is_nan (cfg_min_zoom cfg) = false)
    by (destruct (cfg_min_zoom cfg); try discriminate; reflexivity).
  assert (Nmax : is_nan (cfg_max_zoom cfg) = false)
    by (destruct (cfg_max_zoom cfg); try discriminate; reflexivity).
  unfold clamp_zoom, in_zoom_range.
  set (s1 := if ltb s (cfg_min_zoom cfg) then cfg_min_zoom cfg else s).
  assert (H1' : valid s1 = true /\ is_nan s1 = false /\
                leb (cfg_min_zoom cfg) s1 = true).
  { unfold s1. destruct (ltb s (cfg_min_zoom cfg)) eqn:Hlt.
    - repeat split; try assumption. now apply leb_refl.
    - repeat split; try assumption. now apply not_ltb_leb. }
  destruct H1' as (V1 & N1 & L1).
  destruct (gtb s1 (cfg_max_zoom cfg)) eqn:Hgt.
  - repeat split; try assumption. now apply leb_refl.
  - repeat split; try assumption. now apply not_ltb_leb.
Qed.

Lemma in_zoom_range_within (cfg : Config) (s : float) :
  config_ok cfg = true -> in_zoom_range cfg s ->
  within (cfg_min_zoom cfg) (cfg_max_zoom cfg) s /\ moderate s = true.
Proof.
  intros Hcfg (Vs & L1 & L2). apply config_ok_inv in Hcfg.
  destruct Hcfg as (Hcfg & Hpos & Hbig & Mmin & Mmax & Hle).
  assert (W : within (cfg_min_zoom cfg) (cfg_max_zoom cfg) s).
  { apply leb_within; try assumption.
    - now apply moderate_iff in Mmin.
    - now apply moderate_iff in Mmax. }
  split; [exact W |]. now apply (within_moderate _ _ _ Mmin Mmax).
Qed.

(** One frame keeps the camera scale within the zoom range. *)
Lemma cam_scale_step_in_range (cfg : Config) (cam mdx mdy mult : float) :
  config_ok cfg = true -> in_zoom_range cfg cam ->
  frame_ok (mdx, mdy, mult) ->
  in_zoom_range cfg (target_scale cfg mdx mdy mult) /\
  in_zoom_range cfg (cam_scale_step cfg cam mdx mdy mult).
Proof.
  intros Hcfg Hcam Hfr.
  destruct (raw_target_scale_number cfg mdx mdy mult Hcfg Hfr) as [Vr Nr].
  pose proof (clamp_zoom_in_range cfg _ Hcfg Vr Nr) as Ht.
  fold (target_scale cfg mdx mdy mult) in Ht.
  split; [exact Ht |].
  destruct (in_zoom_range_within cfg _ Hcfg Hcam) as [[_ [C1 C2]] Mc].
  destruct (in_zoom_range_within cfg _ Hcfg Ht) as [[_ [T1 T2]] Mt].
  unfold cam_scale_step.
  destruct (smooth_between cam (target_scale cfg mdx mdy mult) cam_rate
              Mc Mt eq_refl eq_refl eq_refl) as (Hf & Hup & Hdown).
  apply config_ok_inv in Hcfg.
  destruct Hcfg as (Hcfg & Hpos & Hbig & Mmin & Mmax & Hle).
  apply moderate_iff in Mmin, Mmax.
  destruct Mmax as [Hmax _], Mmin as [Hmin _].
  pose proof Hf as Hf'. apply finb_iff in Hf', Hmax, Hmin.
  split; [tauto |].
  destruct (Rle_or_lt (F2R cam) (F2R (target_scale cfg mdx mdy mult)))
    as [Hct | Hgt].
  - destruct (Hup Hct). split; apply leb_F2R; try tauto; lra.
  - destruct (Hdown ltac:(lra)). split; apply leb_F2R; try tauto; lra.
Qed.

(** C6, as the code has it.  The floor at 1.0 turns every extent that is a
    number into one that is at least 1, so the division never has a zero
    divisor.  For a configuration with [min_zoom <= max_zoom], the target
    scale is clamped into the zoom range whenever the vertical extent is a
    number, and a camera scale that starts within the range stays within it
    at every frame. *)
Theorem cam_scale_stays_in_range (cfg : Config)
    (frames : list (float * float * float)) (cam : float)
    (Hcfg : config_ok cfg = true)
    (Hcam : in_zoom_range cfg cam)
    (Hframes : Forall frame_ok frames) :
  (forall x, is_nan x = false ->
             leb one (floor_one x) = true /\
             forall s, floor_one x <> S754_zero s) /\
  Forall (fun '(mdx, mdy, mult) =>
            in_zoom_range cfg (target_scale cfg mdx mdy mult)) frames /\
  in_zoom_range cfg (cam_scale_run cfg frames cam).
Proof.
  split; [| split].
  - intros x Hx. destruct (floor_one_spec x) as [[Hn _] | [_ Hge]];
      [congruence |].
    split; [exact Hge | now apply leb_one_nonzero].
  - clear cam Hcam. induction Hframes as [| [[mdx mdy] mult] rest Hfr _ IH].
    + constructor.
    + constructor; [| exact IH].
      destruct (clamp_zoom_in_range cfg (raw_target_scale cfg mdx mdy mult))
        as (V & L1 & L2); try assumption;
        try apply (raw_target_scale_number cfg mdx mdy mult Hcfg Hfr).
      repeat split; assumption.
  - revert cam Hcam.
    induction Hframes as [| [[mdx mdy] mult] rest Hfr _ IH]; intros cam Hcam.
    + exact Hcam.
    + cbn [cam_scale_run]. apply IH.
      now apply cam_scale_step_in_range.
Qed.

(** Degenerate input: every particle at one point, both deviations 0. *)
Lemma cam_scale_stays_in_range_witness :
  in_zoom_range default_config
    (cam_scale_run default_config [(zero, zero, one); (zero, zero, one)]
                   (initial_cam_scale default_config)).
Proof.
  refine (proj2 (proj2 (cam_scale_stays_in_range default_config
            [(zero, zero, one); (zero, zero, one)]
            (initial_cam_scale default_config) eq_refl _ _))).
  - repeat split.
  - repeat constructor.
Defined.

(** Only the target is clamped.  With a configured initial scale of 10,
    below [min_zoom = 60], the camera scale is still below [min_zoom] after
    the first frame; and a vertical deviation that is NaN makes the camera
    scale NaN, which is in no range. *)
Lemma cam_scale_out_of_range :
  config_ok config_zoomed_out = true /\
  initial_cam_scale config_zoomed_out = of_Z 10 /\
  ltb (cam_scale_step config_zoomed_out
         (initial_cam_scale config_zoomed_out) zero zero one)
      (cfg_min_zoom config_zoomed_out) = true /\
  is_nan (cam_scale_step default_config (initial_cam_scale default_config)
            zero S754_nan one) = true.
Proof. repeat split. Qed.

(** ** Tone mapper *)

Lemma leb_zero_not_ltb (x : float) : leb zero x = true -> ltb x zero = false.
Proof. destruct x as [[|] | [|] | | [|] m e]; cbn; congruence. Qed.

Lemma ltb_zero_finite (c : float) :
  finb c = true -> ltb zero c = true -> exists m e, c = S754_finite false m e.
Proof.
  destruct c as [[|] | [|] | | [|] m e]; cbn; try discriminate.
  intros _ _. eauto.
Qed.

Section ToneOrder.
Local Open Scope R_scope.

(** Multiplying by a positive constant keeps the order of two non-negative
    values, infinite ones included. *)
Lemma mul_pos_const_mono (a b c : float) :
  valid a = true -> valid b = true ->
  finb c = true -> ltb zero c = true ->
  leb zero a = true -> leb a b = true ->
  leb zero (mul a c) = true /\ leb (mul a c) (mul b c) = true.
Proof.
  intros Va Vb Hc Hc0 Ha Hab.
  pose proof (ltb_zero_F2R c Hc Hc0) as Cpos.
  destruct (ltb_zero_finite c Hc Hc0) as (mc & ec & Ec).
  apply finb_iff in Hc. destruct Hc as [Vc Fc].
  destruct (leb_not_nan _ _ Hab) as [Na Nb].
  assert (Hb : leb zero b = true) by (apply (leb_trans zero a b); auto).
  assert (Hinf : mul (S754_infinity false) c = S754_infinity false)
    by (subst c; reflexivity).
  assert (Hfin : forall x, valid x = true -> is_finite x = true ->
                   leb zero x = true -> leb zero (mul x c) = true).
  { intros x Vx Fx Hx. apply leb_F2R in Hx; try assumption; try reflexivity.
    change (F2R zero) with 0 in Hx.
    apply (rounds_mono 0 (F2R x * F2R c)).
    - apply (rounds_zero false).
    - now apply mul_rounds.
    - nra. }
  destruct (finite_cases a Na) as [Fa | [-> | ->]]; [| | discriminate Ha].
  - destruct (finite_cases b Nb) as [Fb | [-> | ->]]; [| | discriminate Hb].
    + split; [now apply Hfin |].
      apply leb_F2R in Hab; try assumption.
      apply leb_F2R in Ha; try assumption; try reflexivity.
      change (F2R zero) with 0 in Ha.
      apply (rounds_mono (F2R a * F2R c) (F2R b * F2R c));
        try (now apply mul_rounds). nra.
    + split; [now apply Hfin |]. rewrite Hinf. apply leb_inf.
      exact (proj2 (leb_not_nan _ _ (Hfin a Va Fa Ha))).
  - apply leb_inf_l in Hab. subst b. rewrite Hinf. split; reflexivity.
Qed.

(** Adding a non-negative value to 1 gives at least 1, in order. *)
Lemma add_one_mono (a b : float) :
  valid a = true -> valid b = true ->
  leb zero a = true -> leb a b = true ->
  leb one (add one a) = true /\ leb (add one a) (add one b) = true.
Proof.
  intros Va Vb Ha Hab.
  destruct (leb_not_nan _ _ Hab) as [Na Nb].
  assert (Hb : leb zero b = true) by (apply (leb_trans zero a b); auto).
  assert (Hfin : forall x, valid x = true -> is_finite x = true ->
                   leb zero x = true -> leb one (add one x) = true).
  { intros x Vx Fx Hx. apply leb_F2R in Hx; try assumption; try reflexivity.
    change (F2R zero) with 0 in Hx.
    apply (rounds_mono (F2R one) (F2R one + F2R x)).
    - now apply rounds_exact.
    - now apply add_rounds.
    - lra. }
  destruct (finite_cases a Na) as [Fa | [-> | ->]]; [| | discriminate Ha].
  - destruct (finite_cases b Nb) as [Fb | [-> | ->]]; [| | discriminate Hb].
    + split; [now apply Hfin |].
      apply leb_F2R in Hab; try assumption.
      apply (rounds_mono (F2R one + F2R a) (F2R one + F2R b));
        try (now apply add_rounds). lra.
    + split; [now apply Hfin |]. change (add one (S754_infinity false))
        with (S754_infinity false). apply leb_inf.
      exact (proj2 (leb_not_nan _ _ (Hfin a Va Fa Ha))).
  - apply leb_inf_l in Hab. subst b. split; reflexivity.
Qed.

Lemma F2R_255 : F2R (of_Z 255) = 255.
Proof.
  change (of_Z 255) with (S754_finite false 16711680 (-16)). cbn [F2R].
  replace 255 with (255 * (bpow 16 * bpow (-16))).
  - rewrite (bpow_IZR 16) by lia. change (2 ^ 16)%Z with 65536%Z. lra.
  - rewrite <- bpow_add. change (16 + -16)%Z with 0%Z. rewrite bpow_0. ring.
Qed.

(** The truncation of a non-negative finite float is the integer part of
    its real. *)
Lemma trunc_spec (x : float) :
  finb x = true -> 0 <= F2R x ->
  exists v, trunc x = Some v /\ IZR v <= F2R x < IZR v + 1.
Proof.
  intros Hx H0. apply finb_iff in Hx. destruct Hx as [Vx Fx].
  destruct x as [s | s | | s m e]; try discriminate.
  - exists 0%Z. cbn [trunc F2R]. split; [reflexivity | lra].
  - pose proof (IZR_pos_gt_0 m). pose proof (bpow_pos e).
    destruct s; [cbn [F2R] in H0; nra |].
    cbn [trunc F2R].
    destruct e as [| p | p].
    + exists (Z.pos m). rewrite Z.shiftl_0_r, bpow_0. split; [reflexivity | lra].
    + exists (Z.pos m * 2 ^ Z.pos p)%Z.
      rewrite Z.shiftl_mul_pow2 by lia. split; [reflexivity |].
      rewrite mult_IZR, <- bpow_IZR by lia. lra.
    + exists (Z.pos m / 2 ^ Z.pos p)%Z.
      rewrite Z.shiftr_div_pow2 by lia. split; [reflexivity |].
      assert (Hp : (0 < 2 ^ Z.pos p)%Z) by (apply Z.pow_pos_nonneg; lia).
      pose proof (Z.div_mod (Z.pos m) (2 ^ Z.pos p) ltac:(lia)) as Hdm.
      pose proof (Z.mod_pos_bound (Z.pos m) (2 ^ Z.pos p) Hp) as Hr.
      set (q := (Z.pos m / 2 ^ Z.pos p)%Z) in *.
      set (r := (Z.pos m mod 2 ^ Z.pos p)%Z) in *.
      assert (Hb : bpow (Z.neg p) * IZR (2 ^ Z.pos p) = 1).
      { rewrite <- bpow_IZR by lia. rewrite <- bpow_add.
        replace (Z.neg p + Z.pos p)%Z with 0%Z by lia. apply bpow_0. }
      assert (Hm : IZR (Z.pos m) = IZR (2 ^ Z.pos p) * IZR q + IZR r).
      { rewrite <- mult_IZR, <- plus_IZR. now f_equal. }
      assert (Hr0 : 0 <= IZR r) by (apply IZR_le; lia).
      assert (Hr1 : IZR r < IZR (2 ^ Z.pos p)) by (apply IZR_lt; lia).
      assert (HP : 0 < IZR (2 ^ Z.pos p)) by (apply IZR_lt; lia).
      set (B := bpow (Z.neg p)) in *. set (P := IZR (2 ^ Z.pos p)) in *.
      rewrite Hm.
      assert (E1 : (P * IZR q + IZR r) * B = IZR q + IZR r * B) by nra.
      rewrite E1.
      assert (0 <= IZR r * B) by nra.
      assert (IZR r * B < 1) by nra.
      lra.
Qed.

End ToneOrder.

Lemma ltb_not_leb (a b : float) : ltb a b = true -> leb b a = false.
Proof.
  unfold ltb, leb, SFltb, SFleb. rewrite (SFcompare_swap a b).
  destruct (SFcompare a b) as [[| |] |]; cbn; congruence.
Qed.

Lemma ltb_leb_trans (a b c : float) :
  valid a = true -> valid b = true -> valid c = true ->
  ltb a b = true -> leb b c = true -> ltb a c = true.
Proof.
  intros Va Vb Vc Hab Hbc.
  destruct (ltb a c) eqn:Hac; [reflexivity | exfalso].
  destruct (leb_not_nan _ _ Hbc) as [_ Nc].
  destruct (leb_not_nan _ _ (ltb_leb _ _ Hab)) as [Na _].
  apply not_ltb_leb in Hac; try assumption.
  pose proof (leb_trans b c a Vb Vc Va Hbc Hac) as Hba.
  rewrite (ltb_not_leb a b Hab) in Hba. discriminate.
Qed.

Lemma to_uchar_255 : to_uchar (of_Z 255) = Some 255.
Proof. reflexivity. Qed.

Section ToneMapProofs.

Variable logf : float -> float.

(** What is assumed of the C library's [logf]: it returns values of the
    format, it is non-decreasing from 1 on, and [logf 1] is not negative. *)
Hypothesis logf_valid : forall x, valid x = true -> valid (logf x) = true.
Hypothesis logf_mono :
  forall x y, valid x = true -> valid y = true ->
              leb one x = true -> leb x y = true ->
              leb (logf x) (logf y) = true.
Hypothesis logf_one : leb zero (logf one) = true.

Lemma tone_raw_mono (a1 a2 : float) :
  valid a1 = true -> valid a2 = true ->
  leb zero a1 = true -> leb a1 a2 = true ->
  valid (tone_raw logf a1) = true /\ valid (tone_raw logf a2) = true /\
  leb zero (tone_raw logf a1) = true /\ leb (tone_raw logf a1) (tone_raw logf a2) = true.
Proof.
  intros V1 V2 H0 H12. unfold tone_raw.
  destruct (mul_pos_const_mono a1 a2 EXPOSURE V1 V2 eq_refl eq_refl H0 H12)
    as [X0 X12].
  assert (VX1 : valid (mul a1 EXPOSURE) = true) by (now apply mul_valid).
  assert (VX2 : valid (mul a2 EXPOSURE) = true) by (now apply mul_valid).
  destruct (add_one_mono _ _ VX1 VX2 X0 X12) as [Y1 Y12].
  assert (VY1 : valid (add one (mul a1 EXPOSURE)) = true)
    by (now apply add_valid).
  assert (VY2 : valid (add one (mul a2 EXPOSURE)) = true)
    by (now apply add_valid).
  pose proof (logf_mono _ _ VY1 VY2 Y1 Y12) as L12.
  pose proof (logf_mono one _ eq_refl VY1 eq_refl Y1) as L1.
  assert (L0 : leb zero (logf (add one (mul a1 EXPOSURE))) = true).
  { apply (leb_trans zero (logf one)); auto. }
  destruct (mul_pos_const_mono _ _ (of_Z 45) (logf_valid _ VY1)
              (logf_valid _ VY2) eq_refl eq_refl L0 L12) as [Z0 Z12].
  repeat split; try assumption; apply mul_valid; auto.
Qed.

Lemma tone_value_within (a : float) :
  valid a = true -> leb zero a = true ->
  within zero (of_Z 255) (tone_value logf a).
Proof.
  intros Va H0.
  destruct (tone_raw_mono a a Va Va H0 (leb_refl a (proj2 (leb_not_nan _ _ H0))))
    as (Vr & _ & R0 & _).
  unfold tone_value. fold (tone_raw logf a).
  destruct (gtb (tone_raw logf a) (of_Z 255)) eqn:Hgt.
  - apply leb_within; reflexivity.
  - apply leb_within; try reflexivity; try assumption.
    apply not_ltb_leb; try assumption; try reflexivity.
    exact (proj2 (leb_not_nan _ _ R0)).
Qed.

Lemma tone_value_mono (a1 a2 : float) :
  valid a1 = true -> valid a2 = true ->
  leb zero a1 = true -> leb a1 a2 = true ->
  leb (tone_value logf a1) (tone_value logf a2) = true.
Proof.
  intros V1 V2 H0 H12.
  destruct (tone_raw_mono a1 a2 V1 V2 H0 H12) as (Vr1 & Vr2 & R0 & R12).
  destruct (leb_not_nan _ _ R12) as [N1 N2].
  unfold tone_value. fold (tone_raw logf a1) (tone_raw logf a2).
  destruct (gtb (tone_raw logf a1) (of_Z 255)) eqn:G1.
  - change (ltb (of_Z 255) (tone_raw logf a1) = true) in G1.
    pose proof (ltb_leb_trans (of_Z 255) (tone_raw logf a1) (tone_raw logf a2)
                  eq_refl Vr1 Vr2 G1 R12) as G2.
    change (gtb (tone_raw logf a2) (of_Z 255) = true) in G2.
    rewrite G2. reflexivity.
  - apply not_ltb_leb in G1; try assumption; try reflexivity.
    destruct (gtb (tone_raw logf a2) (of_Z 255)) eqn:G2; assumption.
Qed.

Lemma tone_formula_eq (a : float) :
  valid a = true -> leb zero a = true ->
  tone_formula logf a = tone_map logf a.
Proof.
  intros Va H0.
  destruct (tone_raw_mono a a Va Va H0 (leb_refl a (proj2 (leb_not_nan _ _ H0))))
    as (_ & _ & R0 & _).
  unfold tone_formula, tone_map, tone_value. fold (tone_raw logf a).
  cbv zeta. now rewrite (leb_zero_not_ltb _ R0).
Qed.

Lemma tone_map_byte (a : float) :
  valid a = true -> leb zero a = true ->
  exists v, tone_map logf a = Some v /\ 0 <= v <= 255 /\
            (IZR v <= F2R (tone_value logf a) < IZR v + 1)%R.
Proof.
  intros Va H0. destruct (tone_value_within a Va H0) as [Hf [B0 B1]].
  change (F2R zero) with 0%R in B0. rewrite F2R_255 in B1.
  destruct (trunc_spec _ Hf B0) as (v & Hv & Hlo & Hhi).
  assert (Hrange : 0 <= v <= 255).
  { split.
    - assert (-1 < IZR v)%R by lra. apply lt_IZR in H. lia.
    - apply le_IZR. lra. }
  exists v. split; [| split; [exact Hrange | split; assumption]].
  unfold tone_map, to_uchar. rewrite Hv.
  destruct (Z.leb_spec 0 v); [| lia].
  destruct (Z.leb_spec v 255); [reflexivity | lia].
Qed.

End ToneMapProofs.

(** * Properties of the rest of the program *)

(** ** Exact results and intervals *)

Section Exactness.
Local Open Scope R_scope.

Lemma F2R_opp (x : float) : F2R (opp x) = - F2R x.
Proof.
  destruct x as [s | s | | s m e]; unfold opp; cbn [SFopp F2R]; try lra.
  destruct s; cbn [negb]; lra.
Qed.

Lemma finb_opp (x : float) : finb (opp x) = finb x.
Proof.
  unfold finb. rewrite valid_opp. destruct x as [s | s | | s m e]; reflexivity.
Qed.

(** The rounding of a real that is a value of the format is that value. *)
Lemma rounds_representable (x : R) (f g : float) :
  rounds x f -> finb g = true -> F2R g = x -> finb f = true /\ F2R f = x.
Proof.
  intros Hf Hg Hx. apply finb_iff in Hg. destruct Hg as [Vg Fg].
  pose proof (rounds_exact g Vg Fg) as Rg. rewrite Hx in Rg.
  destruct (rounds_valid x f Hf) as [Vf _].
  pose proof (rounds_mono x x f g Hf Rg ltac:(lra)) as L1.
  pose proof (rounds_mono x x g f Rg Hf ltac:(lra)) as L2.
  pose proof (leb_finite_between g f g Fg Fg L2 L1) as Ff.
  split; [apply finb_iff; auto |].
  apply leb_F2R in L1, L2; try assumption. lra.
Qed.

Lemma of_Z_within (lo n hi : Z) :
  (lo <= n <= hi)%Z ->
  is_finite (of_Z lo) = true -> is_finite (of_Z hi) = true ->
  within (of_Z lo) (of_Z hi) (of_Z n).
Proof.
  intros Hn Fl Fh.
  apply (rounds_within (IZR n) (IZR lo) (IZR hi));
    try apply of_Z_rounds; try assumption.
  split; apply IZR_le; lia.
Qed.

(** Twice a float of moderate size is a value of the format. *)
Lemma double_representable (x : float) :
  moderate x = true -> exists g, finb g = true /\ F2R g = 2 * F2R x.
Proof.
  intros Mx. apply moderate_iff in Mx. destruct Mx as [Hx Bx].
  apply finb_iff in Hx. destruct Hx as [Vx Fx].
  destruct x as [s | s | | s m e]; try discriminate.
  - exists zero. split; [reflexivity |]. cbn [F2R zero]. lra.
  - pose proof Vx as Vx'. apply valid_finite_iff in Vx'.
    destruct Vx' as ((He & Hm & Hn) & Hm24 & He104).
    pose proof (IZR_pos_gt_0 m) as Hm0. pose proof (bpow_pos e) as He0.
    destruct (Z_lt_le_dec (Z.pos m) 8388608) as [Hsub | Hnorm].
    + assert (e = (-149)%Z) by lia. subst e.
      exists (S754_finite s (m~0) (-149)). split.
      * apply finb_iff. split; [| reflexivity].
        apply valid_finite_iff. unfold grid_pair. lia.
      * cbn [F2R]. rewrite IZR_xO. destruct s; lra.
    + assert (He77 : (e <= 77)%Z).
      { assert (bpow (e + 23) <= bpow 100); [| apply bpow_le_inv in H; lia].
        apply Rabs_le_inv in Bx. rewrite bpow_23.
        apply IZR_le in Hnorm. cbn [F2R] in Bx. destruct s; nra. }
      exists (S754_finite s m (e + 1)). split.
      * apply finb_iff. split; [| reflexivity].
        apply valid_finite_iff. unfold grid_pair. lia.
      * cbn [F2R]. rewrite bpow_succ. destruct s; lra.
Qed.

Lemma sub_opp_double (m : float) :
  moderate m = true ->
  finb (sub m (opp m)) = true /\ F2R (sub m (opp m)) = 2 * F2R m.
Proof.
  intros Mm. destruct (double_representable m Mm) as (g & Hg & Eg).
  pose proof Mm as Mm'. apply moderate_iff in Mm'. destruct Mm' as [Hm _].
  apply finb_iff in Hm. destruct Hm as [Vm Fm].
  apply (rounds_representable _ _ g); try assumption.
  replace (2 * F2R m) with (F2R m - F2R (opp m)) by (rewrite F2R_opp; lra).
  apply sub_rounds; try assumption.
  - now rewrite valid_opp.
  - destruct m as [? | ? | | ? ? ?]; try discriminate; reflexivity.
Qed.

(** [(float)r / RAND_MAX] is in the unit interval. *)
Lemma rand_ratio_unit (r M : Z) :
  (0 <= r <= M)%Z -> (1 <= M <= 2147483647)%Z ->
  within zero one (div (of_Z r) (of_Z M)).
Proof.
  intros Hr HM.
  destruct (of_Z_within 0 r 2147483647 ltac:(lia) eq_refl eq_refl)
    as [Ha [A0 _]].
  destruct (of_Z_within 1 M 2147483647 ltac:(lia) eq_refl eq_refl)
    as [Hb [B0 _]].
  change (F2R (of_Z 0)) with 0 in A0.
  change (of_Z 1) with one in B0. rewrite F2R_one in B0.
  pose proof Ha as Ha'. pose proof Hb as Hb'.
  apply finb_iff in Ha', Hb'. destruct Ha' as [Va Fa], Hb' as [Vb Fb].
  assert (Hab : F2R (of_Z r) <= F2R (of_Z M)).
  { apply leb_F2R; try assumption.
    apply (rounds_mono (IZR r) (IZR M)); try apply of_Z_rounds.
    apply IZR_le; lia. }
  apply (rounds_within (F2R (of_Z r) / F2R (of_Z M)) 0 1).
  - apply div_rounds; try assumption. lra.
  - apply (rounds_zero false).
  - rewrite <- F2R_one. now apply rounds_exact.
  - split.
    + apply Rmult_le_pos; [lra |].
      apply Rlt_le, Rinv_0_lt_compat. lra.
    + apply Rmult_le_reg_r with (F2R (of_Z M)); [lra |].
      unfold Rdiv. rewrite Rmult_assoc, Rinv_l by lra. lra.
  - reflexivity.
  - reflexivity.
Qed.

(** [min + u * (max - min)] for a symmetric range and [u] in the unit
    interval. *)
Lemma symmetric_range (u m : float) :
  within zero one u -> moderate m = true -> leb zero m = true ->
  within (opp m) m (add (opp m) (mul u (sub m (opp m)))).
Proof.
  intros [Hu [U0 U1]] Mm Hm0.
  change (F2R zero) with 0 in U0. rewrite F2R_one in U1.
  destruct (sub_opp_double m Mm) as [Hd Ed].
  pose proof Mm as Mm'. apply moderate_iff in Mm'. destruct Mm' as [Hm _].
  pose proof (leb_zero_F2R m Hm Hm0) as Hm0'.
  pose proof Hu as Hu'. pose proof Hd as Hd'. pose proof Hm as Hm'.
  apply finb_iff in Hu', Hd', Hm'.
  destruct Hu' as [Vu Fu], Hd' as [Vd Fd], Hm' as [Vm Fm].
  set (d := sub m (opp m)) in *.
  assert (Wp : within zero d (mul u d)).
  { apply (rounds_within (F2R u * F2R d) 0 (F2R d)); try assumption.
    - now apply mul_rounds.
    - apply (rounds_zero false).
    - now apply rounds_exact.
    - nra.
    - reflexivity. }
  destruct Wp as [Hp [P0 P1]]. change (F2R zero) with 0 in P0.
  pose proof Hp as Hp'. apply finb_iff in Hp'. destruct Hp' as [Vp Fp].
  assert (Vo : valid (opp m) = true) by now rewrite valid_opp.
  assert (Fo : is_finite (opp m) = true).
  { destruct m as [? | ? | | ? ? ?]; try discriminate; reflexivity. }
  apply (rounds_within (F2R (opp m) + F2R (mul u d)) (F2R (opp m)) (F2R m));
    try assumption.
  - now apply add_rounds.
  - now apply rounds_exact.
  - now apply rounds_exact.
  - rewrite F2R_opp in *. lra.
Qed.

End Exactness.

(** ** Square root *)

Section SquareRoot.
Local Open Scope R_scope.

Lemma sqrt_scaled (a b : R) :
  0 <= a -> 0 <= b -> R_sqrt.sqrt (a * (b * b)) = R_sqrt.sqrt a * b.
Proof.
  intros Ha Hb. rewrite sqrt_mult by nra. now rewrite sqrt_square.
Qed.

Lemma sqrt_between (y : R) (q r : Z) :
  (0 < q)%Z -> (0 <= r <= 2 * q)%Z -> y = IZR (q * q + r) ->
  let Y := R_sqrt.sqrt y in
  (r = 0%Z -> Y = IZR q) /\
  (r <> 0%Z -> IZR q < Y < IZR q + 1) /\
  ((r <= q)%Z -> Y < IZR q + / 2) /\
  ((q < r)%Z -> IZR q + / 2 < Y).
Proof.
  intros Hq Hr Hy Y.
  assert (Hq' : 0 < IZR q) by now apply IZR_lt.
  assert (Hy0 : 0 <= y).
  { rewrite Hy. apply IZR_le. nia. }
  assert (HY0 : 0 <= Y) by apply sqrt_pos.
  assert (HY : Y * Y = IZR q * IZR q + IZR r).
  { unfold Y. rewrite sqrt_sqrt by assumption.
    rewrite Hy, plus_IZR, mult_IZR. reflexivity. }
  assert (Hr0 : 0 <= IZR r) by (apply IZR_le; lia).
  assert (Hr2 : IZR r <= 2 * IZR q).
  { rewrite <- mult_IZR. apply IZR_le. lia. }
  split; [| split; [| split]].
  - intros ->. nra.
  - intros Hne. assert (1 <= IZR r) by (apply IZR_le; lia). split; nra.
  - intros Hle. apply IZR_le in Hle. nra.
  - intros Hlt. assert (IZR q + 1 <= IZR r).
    { rewrite <- plus_IZR. apply IZR_le. lia. }
    nra.
Qed.

End SquareRoot.

Lemma sqrt_core_spec (m : positive) (e : Z) :
  let '(q, e', l) := SFsqrt_core_binary prec emax (Z.pos m) e in
  0 < q /\
  located q l e' (R_sqrt.sqrt (IZR (Z.pos m) * bpow e)) /\
  e' <= fexp prec emax (Zdigits2 q + e').
Proof.
  unfold SFsqrt_core_binary. cbv zeta.
  set (d := Zdigits2 (Z.pos m)).
  set (e' := Z.min (fexp prec emax (Z.div2 (d + e + 1))) (Z.div2 e)).
  assert (Hd : d = Z.pos (digits2_pos m)) by reflexivity.
  pose proof (digits2_bounds m) as [D1 D2]. rewrite <- Hd in D1, D2.
  assert (Hd0 : 0 < d) by (rewrite Hd; lia).
  assert (He2 : 2 * Z.div2 e <= e).
  { rewrite Z.div2_div. pose proof (Z.mul_div_le e 2 ltac:(lia)). lia. }
  assert (Hs : 0 <= e - 2 * e') by (unfold e'; lia).
  remember (e - 2 * e') as s eqn:Es.
  set (m' := match s with
             | 0 => Z.pos m
             | Z.pos _ => Z.shiftl (Z.pos m) s
             | Z.neg _ => 0
             end).
  assert (Hm' : m' = Z.pos m * 2 ^ s).
  { unfold m'. clear Es. destruct s as [| p | p]; try lia.
    now rewrite Z.shiftl_mul_pow2 by lia. }
  clearbody m'.
  assert (Hpow : 0 < 2 ^ s) by (apply Z.pow_pos_nonneg; lia).
  assert (Hm0 : 0 < m') by nia.
  pose proof (Z.sqrtrem_spec m' ltac:(lia)) as Hsq.
  destruct (Z.sqrtrem m') as [q r]. destruct Hsq as [Hqr Hr].
  assert (Hq : 0 < q) by nia.
  split; [exact Hq |].
  split.
  - (* the location *)
    assert (Hx : (IZR (Z.pos m) * bpow e =
                  IZR (q * q + r) * (bpow e' * bpow e'))%R).
    { rewrite <- Hqr, Hm', mult_IZR, <- bpow_add.
      rewrite <- (bpow_IZR s) by lia. rewrite Rmult_assoc, <- bpow_add.
      f_equal. f_equal. lia. }
    rewrite Hx.
    pose proof (bpow_pos e') as Hb.
    rewrite sqrt_scaled; [| apply IZR_le; nia | lra].
    destruct (sqrt_between (IZR (q * q + r)) q r Hq Hr eq_refl)
      as (S0 & S1 & S2 & S3).
    set (Y := R_sqrt.sqrt (IZR (q * q + r))) in *.
    destruct (Z.eqb_spec r 0) as [Hr0 | Hr0].
    + cbn [located]. rewrite (S0 Hr0). reflexivity.
    + specialize (S1 Hr0). cbn [located].
      split; [split; nra |].
      destruct (Z.leb_spec r q) as [Hle | Hgt].
      * specialize (S2 Hle). nra.
      * specialize (S3 Hgt). nra.
  - (* the exponent *)
    rewrite fexp_eq.
    destruct (Z_le_gt_dec e' (-149)) as [Hlow | Hhigh]; [lia |].
    assert (He' : e' <= Z.div2 (d + e + 1) - 24).
    { unfold e' in *. rewrite fexp_eq in *. lia. }
    assert (H2 : 2 * Z.div2 (d + e + 1) <= d + e + 1).
    { rewrite Z.div2_div. pose proof (Z.mul_div_le (d + e + 1) 2 ltac:(lia)).
      lia. }
    assert (Hds : 47 <= d + s) by lia.
    assert (Hbig : 2 ^ 46 <= m').
    { rewrite Hm'.
      assert (2 ^ 46 <= 2 ^ (d - 1) * 2 ^ s).
      { rewrite <- Z.pow_add_r by lia. apply Z.pow_le_mono_r; lia. }
      nia. }
    assert (Hq23 : 2 ^ 23 <= q).
    { destruct (Z_le_gt_dec (2 ^ 23) q) as [| Hlt]; [assumption |].
      change (2 ^ 46) with (2 ^ 23 * 2 ^ 23) in Hbig.
      assert (q + 1 <= 2 ^ 23) by lia. nia. }
    destruct q as [| pq | pq]; try lia.
    pose proof (digits2_ge pq 24 Hq23) as Hdq.
    change (Zdigits2 (Z.pos pq)) with (Z.pos (digits2_pos pq)). lia.
Qed.

(** The square root of a positive finite float is the rounding of the real
    square root. *)
Theorem sqrt_rounds (m : positive) (e : Z) :
  rounds (R_sqrt.sqrt (F2R (S754_finite false m e)))
         (sqrt (S754_finite false m e)).
Proof.
  unfold sqrt, SFsqrt. cbn [F2R].
  pose proof (sqrt_core_spec m e) as H.
  destruct (SFsqrt_core_binary prec emax (Z.pos m) e) as [[q e'] l].
  destruct H as (Hq & Hloc & He).
  pose proof (IZR_pos_gt_0 m) as Hm. pose proof (bpow_pos e) as Hb.
  assert (Hx : (0 < R_sqrt.sqrt (IZR (Z.pos m) * bpow e))%R).
  { apply sqrt_lt_R0. nra. }
  destruct (binary_round_aux_pos false q e' l _ ltac:(lia) Hx Hloc He)
    as (k & E & Hg & Hn & ->).
  exact (rounds_of_pos false _ k E Hx Hg Hn).
Qed.

(** The square root of a value of the format is one; it is never negative,
    and it is a number when its argument is a number that is not
    negative. *)
Lemma sqrt_valid (x : float) :
  valid (sqrt x) = true /\
  (is_nan (sqrt x) = false -> leb zero (sqrt x) = true) /\
  (leb zero x = true -> is_nan (sqrt x) = false).
Proof.
  destruct x as [s | [|] | | [|] m e]; try (repeat split; try reflexivity;
    try discriminate; destruct s; reflexivity).
  pose proof (sqrt_rounds m e) as H.
  destruct (rounds_valid _ _ H) as [V N].
  split; [exact V |]. split; [| intros _; exact N].
  intros _.
  apply (rounds_mono 0 (R_sqrt.sqrt (F2R (S754_finite false m e))));
    [apply (rounds_zero false) | exact H | apply sqrt_pos].
Qed.

(** ** Type indices along a run *)

Lemma sched_frame_types (fpf frame : Z) (s : Sched) :
  current_type (sched_frame fpf frame s) =
    (if type_change fpf frame s then Z.rem (current_type s + 1) NUM_TYPES
     else current_type s) /\
  previous_type (sched_frame fpf frame s) =
    (if type_change fpf frame s then current_type s else previous_type s).
Proof.
  unfold sched_frame, cycle_step, type_change.
  destruct (Z.rem frame fpf =? 0); cbn [andb]; [| split; reflexivity].
  destruct (algo_timer s + 1 >=? 6); split; reflexivity.
Qed.

(** The types after [n] frames, from the number of changes so far. *)
Lemma run_sched_types (fpf start : Z) (n : nat) :
  0 <= start < NUM_TYPES ->
  let s := fst (run_sched fpf start n) in
  let c := Z.of_nat (snd (run_sched fpf start n)) in
  current_type s = (start + c) mod 5 /\
  previous_type s = (if c =? 0 then start else (start + c - 1) mod 5).
Proof.
  unfold NUM_TYPES. intros Hs. induction n as [| k IH].
  - cbn. rewrite Z.add_0_r, Z.mod_small by lia. split; reflexivity.
  - cbn [run_sched]. destruct (run_sched fpf start k) as [s c].
    cbn [fst snd] in *. destruct IH as [IC IP].
    destruct (sched_frame_types fpf (Z.of_nat k) s) as [EC EP].
    rewrite EC, EP. clear EC EP.
    destruct (type_change fpf (Z.of_nat k) s).
    + rewrite Nat2Z.inj_succ. unfold NUM_TYPES.
      pose proof (Z.mod_pos_bound (start + Z.of_nat c) 5 ltac:(lia)) as Hb.
      rewrite Z.rem_mod_nonneg by lia. rewrite IC. split.
      * rewrite Z.add_mod_idemp_l by lia. f_equal. lia.
      * destruct (Z.eqb_spec (Z.succ (Z.of_nat c)) 0); [lia |].
        f_equal. lia.
    + split; assumption.
Qed.

(** X1. From a start type in 0..4, the current and the previous type are
    indices in 0..4 at every frame, and they are given by the number [c] of
    type changes so far, [c = ceil (n / fpf) / 6] after [n] frames: the
    current type is [(start + c) mod 5], the previous one the start type
    before the first change and [(start + c - 1) mod 5] after it. *)
Theorem type_indices_valid (fpf start : Z) (n : nat)
    (Hfpf : 0 < fpf) (Hstart : 0 <= start < NUM_TYPES) :
  let s := fst (run_sched fpf start n) in
  let c := boundaries fpf (Z.of_nat n) / 6 in
  current_type s = (start + c) mod 5 /\
  previous_type s = (if c =? 0 then start else (start + c - 1) mod 5) /\
  0 <= current_type s < NUM_TYPES /\
  0 <= previous_type s < NUM_TYPES.
Proof.
  cbv zeta.
  destruct (run_sched_types fpf start n Hstart) as [HC HP].
  destruct (run_sched_invariant fpf Hfpf start n) as [_ Hc].
  rewrite Hc in HC, HP. unfold NUM_TYPES in *.
  split; [exact HC |]. split; [exact HP |].
  rewrite HC, HP.
  split; [apply Z.mod_pos_bound; lia |].
  destruct (boundaries fpf (Z.of_nat n) / 6 =? 0);
    [lia | apply Z.mod_pos_bound; lia].
Qed.

Lemma type_indices_valid_witness :
  let s := fst (run_sched 300 3 4000) in
  current_type s = 0 /\ previous_type s = 4.
Proof.
  destruct (type_indices_valid 300 3 4000 ltac:(lia) ltac:(unfold NUM_TYPES; lia))
    as (HC & HP & _).
  split; [exact HC | exact HP].
Defined.

(** ** The types shown by a run *)

Lemma boundaries_mono (fpf a b : Z) :
  0 < fpf -> a <= b -> boundaries fpf a <= boundaries fpf b.
Proof.
  intros Hf Hab. unfold boundaries. apply Z.div_le_mono; lia.
Qed.

Lemma boundaries_one (fpf : Z) : 0 < fpf -> boundaries fpf 1 = 1.
Proof.
  intros Hf. unfold boundaries. replace (1 + fpf - 1) with (1 * fpf) by lia.
  apply Z.div_mul. lia.
Qed.

(** The current type during frame [n], after the update at its top. *)
Lemma current_type_during (fpf start : Z) (n : nat) :
  0 < fpf -> 0 <= start < NUM_TYPES ->
  current_type (fst (run_sched fpf start (S n))) =
  (start + boundaries fpf (Z.of_nat (S n)) / 6) mod 5.
Proof.
  intros Hf Hs.
  destruct (run_sched_types fpf start (S n) Hs) as [HC _].
  destruct (run_sched_invariant fpf Hf start (S n)) as [_ Hc].
  rewrite HC, Hc. reflexivity.
Qed.

(** X2. A run of [fragments] fragments from a start type in 0..4 has
    [fragments / 6] type changes (rounded down); the types that are current
    during some frame are the start type and its [fragments / 6] successors
    modulo 5; so all five types are shown exactly when there are at least 24
    fragments (the default 20 fragments show four). *)
Theorem types_shown (fpf start fragments : Z)
    (Hfpf : 0 < fpf) (Hfr : 0 <= fragments)
    (Hstart : 0 <= start < NUM_TYPES) :
  let total := Z.to_nat (fragments * fpf) in
  let shown t :=
    exists n, (n < total)%nat /\
              current_type (fst (run_sched fpf start (S n))) = t in
  Z.of_nat (snd (run_sched fpf start total)) = fragments / 6 /\
  (forall t, shown t <->
             0 < fragments /\
             exists c, 0 <= c <= fragments / 6 /\ t = (start + c) mod 5) /\
  ((forall t, 0 <= t < NUM_TYPES -> shown t) <-> 24 <= fragments).
Proof.
  cbv zeta.
  assert (Htot : Z.of_nat (Z.to_nat (fragments * fpf)) = fragments * fpf)
    by (apply Z2Nat.id; nia).
  assert (H6 : 0 <= fragments / 6) by (apply Z.div_pos; lia).
  assert (Hshown : forall t,
    (exists n, (n < Z.to_nat (fragments * fpf))%nat /\
               current_type (fst (run_sched fpf start (S n))) = t) <->
    0 < fragments /\
    exists c, 0 <= c <= fragments / 6 /\ t = (start + c) mod 5).
  { intros t. split.
    - intros (n & Hn & <-).
      assert (Hpos : 0 < fragments) by nia.
      split; [exact Hpos |].
      exists (boundaries fpf (Z.of_nat (S n)) / 6).
      split; [| now apply current_type_during].
      split.
      + apply Z.div_pos; [| lia]. apply boundaries_nonneg; lia.
      + apply Z.div_le_mono; [lia |].
        rewrite <- (boundaries_multiple fpf Hfpf fragments).
        apply boundaries_mono; lia.
    - intros (Hpos & c & Hc & ->).
      destruct (Z.eq_dec c 0) as [-> | Hc0].
      + exists 0%nat. split; [nia |].
        rewrite current_type_during by assumption.
        change (Z.of_nat 1) with 1. rewrite boundaries_one by lia.
        reflexivity.
      + assert (H6c : 6 * c <= fragments).
        { pose proof (Z.mul_div_le fragments 6 ltac:(lia)). lia. }
        exists (Z.to_nat (6 * c * fpf - 1)). split; [nia |].
        rewrite current_type_during by assumption.
        replace (Z.of_nat (S (Z.to_nat (6 * c * fpf - 1))))
          with (6 * c * fpf) by nia.
        rewrite (boundaries_multiple fpf Hfpf (6 * c)).
        replace (6 * c) with (c * 6) by lia.
        rewrite Z.div_mul by lia. reflexivity. }
  split; [| split; [exact Hshown |]].
  - destruct (run_sched_invariant fpf Hfpf start
                (Z.to_nat (fragments * fpf))) as [_ Hc].
    rewrite Hc, Htot. now rewrite boundaries_multiple.
  - unfold NUM_TYPES in *. split.
    + intros Hall.
      pose proof (Z.mod_pos_bound (start + 4) 5 ltac:(lia)) as Hb.
      destruct (proj1 (Hshown ((start + 4) mod 5)) (Hall _ Hb))
        as (_ & c & Hc & E).
      assert (Hc4 : 4 <= c).
      { pose proof (Z.div_mod (start + 4) 5 ltac:(lia)) as D1.
        pose proof (Z.div_mod (start + c) 5 ltac:(lia)) as D2.
        rewrite <- E in D2. lia. }
      pose proof (Z.mul_div_le fragments 6 ltac:(lia)). lia.
    + intros H24 t Ht. apply Hshown. split; [lia |].
      exists ((t - start) mod 5).
      pose proof (Z.mod_pos_bound (t - start) 5 ltac:(lia)) as Hb.
      split.
      * split; [lia |].
        assert (4 <= fragments / 6) by (apply Z.div_le_lower_bound; lia).
        lia.
      * rewrite Z.add_mod_idemp_r by lia.
        replace (start + (t - start)) with t by lia.
        now rewrite Z.mod_small by lia.
Qed.

Lemma types_shown_witness :
  Z.of_nat (snd (run_sched 300 0 (Z.to_nat (20 * 300)))) = 20 / 6.
Proof.
  exact (proj1 (types_shown 300 0 20 ltac:(lia) ltac:(lia)
                  ltac:(unfold NUM_TYPES; lia))).
Defined.

(** ** Random parameters *)

Lemma within_const (lo hi f : float) :
  finb lo = true -> finb hi = true -> valid f = true ->
  leb lo f = true -> leb f hi = true -> within lo hi f.
Proof. apply leb_within. Qed.

Section RandomProofs.

Variable RAND_MAX : Z.
Context {RandState : Type}.
Variable rand : RandState -> Z * RandState.

Hypothesis RAND_MAX_range : 1 <= RAND_MAX <= 2147483647.
Hypothesis rand_range : forall g, 0 <= fst (rand g) <= RAND_MAX.

(** One draw: the value and the generator after it. *)
Lemma rand_range_step (m : float) (g : RandState) :
  moderate m = true -> leb zero m = true ->
  exists r, rand_range_cpu RAND_MAX rand (opp m) m g = (r, snd (rand g)) /\
            within (opp m) m r.
Proof.
  intros Hm Hm0. unfold rand_range_cpu. pose proof (rand_range g) as Hr.
  destruct (rand g) as [r g']. cbn [fst snd] in *.
  eexists. split; [reflexivity |].
  apply symmetric_range; try assumption.
  apply rand_ratio_unit; assumption.
Qed.

(** X4. For a symmetric range [-m, m] ([m >= 0] finite, at most [2^100]) the
    value drawn is a finite number with [-m <= value <= m], whatever [rand]
    returns in [0, RAND_MAX]: the rounding of the quotient, of the product
    and of the sum never takes it out of the range. *)
Theorem rand_range_symmetric (m : float) (g : RandState)
    (Hm : moderate m = true) (Hm0 : leb zero m = true) :
  within (opp m) m (fst (rand_range_cpu RAND_MAX rand (opp m) m g)).
Proof.
  unfold rand_range_cpu. pose proof (rand_range g) as Hr.
  destruct (rand g) as [r g']. cbn [fst] in *.
  apply symmetric_range; try assumption.
  apply rand_ratio_unit; assumption.
Qed.

(** The parameters drawn for a type are those of its specification. *)
Lemma target_params_in_spec (type : Z) (g : RandState) :
  target_spec type (fst (get_target_params RAND_MAX rand type g)).
Proof.
  unfold target_spec, get_target_params.
  destruct (type =? TYPE_AIZAWA) eqn:E0.
  { apply Z.eqb_eq in E0. subst type.
    destruct (rand_range_step (lit 5 10) g eq_refl eq_refl) as (r & -> & W).
    cbn [fst snd p_a p_b p_c p_d p_e p_f].
    pose proof (within_add_r (opp (lit 5 10)) (lit 5 10) r (lit 35 10) eq_refl eq_refl eq_refl
             eq_refl eq_refl W) as W'.
    repeat split; try reflexivity; apply W'. }
  destruct (type =? TYPE_THOMAS) eqn:E1.
  { apply Z.eqb_eq in E1. subst type.
    destruct (rand_range_step (lit 2 100) g eq_refl eq_refl) as (r & -> & W).
    cbn [fst snd p_a p_b p_c p_d p_e p_f].
    pose proof (within_add_r (opp (lit 2 100)) (lit 2 100) r (lit 19 100) eq_refl eq_refl eq_refl
             eq_refl eq_refl W) as W'.
    repeat split; try reflexivity; apply W'. }
  destruct (type =? TYPE_LORENZ) eqn:E2.
  { apply Z.eqb_eq in E2. subst type.
    destruct (rand_range_step (of_Z 5) g eq_refl eq_refl) as (r & -> & W).
    cbn [fst snd p_a p_b p_c p_d p_e p_f].
    pose proof (within_add_r (opp (of_Z 5)) (of_Z 5) r (of_Z 28) eq_refl eq_refl eq_refl
             eq_refl eq_refl W) as W'.
    repeat split; try reflexivity; apply W'. }
  destruct (type =? TYPE_HALVORSEN) eqn:E3.
  { apply Z.eqb_eq in E3. subst type.
    destruct (rand_range_step (lit 2 10) g eq_refl eq_refl) as (r & -> & W).
    cbn [fst snd p_a p_b p_c p_d p_e p_f].
    pose proof (within_add_r (opp (lit 2 10)) (lit 2 10) r (lit 14 10) eq_refl eq_refl eq_refl
             eq_refl eq_refl W) as W'.
    repeat split; try reflexivity; apply W'. }
  destruct (type =? TYPE_CHEN); reflexivity.
Qed.

(** X5. The parameters [get_target_params] returns: the fixed values of each
    type, the perturbed one within its range ([d] in [3, 4] for Aizawa, [b]
    in [0.17, 0.21] for Thomas, [b] in [23, 33] for Lorenz, [a] between
    [1.4f - 0.2f], one unit in the last place below [1.2f], and [1.6f] for
    Halvorsen), all six at 0 for a type outside 0..4; the generator is
    advanced once for the types 0..3 and not at all for Chen or a type
    outside 0..4. *)
Theorem target_params_spec (type : Z) (g : RandState) :
  target_spec type (fst (get_target_params RAND_MAX rand type g)) /\
  (snd (get_target_params RAND_MAX rand type g) =
   if (0 <=? type) && (type <=? 3) then snd (rand g) else g).
Proof.
  split; [apply target_params_in_spec |].
  unfold get_target_params.
  destruct (type =? TYPE_AIZAWA) eqn:E0.
  { apply Z.eqb_eq in E0. subst type.
    destruct (rand_range_step (lit 5 10) g eq_refl eq_refl) as (r & -> & _).
    reflexivity. }
  destruct (type =? TYPE_THOMAS) eqn:E1.
  { apply Z.eqb_eq in E1. subst type.
    destruct (rand_range_step (lit 2 100) g eq_refl eq_refl) as (r & -> & _).
    reflexivity. }
  destruct (type =? TYPE_LORENZ) eqn:E2.
  { apply Z.eqb_eq in E2. subst type.
    destruct (rand_range_step (of_Z 5) g eq_refl eq_refl) as (r & -> & _).
    reflexivity. }
  destruct (type =? TYPE_HALVORSEN) eqn:E3.
  { apply Z.eqb_eq in E3. subst type.
    destruct (rand_range_step (lit 2 10) g eq_refl eq_refl) as (r & -> & _).
    reflexivity. }
  apply Z.eqb_neq in E0, E1, E2, E3.
  unfold TYPE_AIZAWA, TYPE_THOMAS, TYPE_LORENZ, TYPE_HALVORSEN in *.
  assert (Hb : (0 <=? type) && (type <=? 3) = false).
  { destruct (Z.leb_spec 0 type), (Z.leb_spec type 3); try reflexivity. lia. }
  rewrite Hb.
  destruct (type =? TYPE_CHEN); reflexivity.
Qed.

Lemma target_params_bounded (type : Z) (g : RandState) :
  params_within zero (of_Z 40) (fst (get_target_params RAND_MAX rand type g)).
Proof.
  pose proof (target_params_in_spec type g) as H. unfold target_spec in H.
  set (p := fst (get_target_params RAND_MAX rand type g)) in *. clearbody p.
  assert (Hc : forall f, finb f = true -> leb zero f = true ->
                         leb f (of_Z 40) = true -> within zero (of_Z 40) f).
  { intros f Hf H0 H1. apply leb_within; try reflexivity; try assumption.
    now apply finb_iff in Hf. }
  assert (Hw : forall lo hi f, finb lo = true -> finb hi = true ->
                 leb zero lo = true -> leb hi (of_Z 40) = true ->
                 within lo hi f -> within zero (of_Z 40) f).
  { intros lo hi f Hlo Hhi H0 H1 W.
    apply (within_weaken lo hi); try assumption; reflexivity. }
  unfold params_within.
  destruct (type =? TYPE_AIZAWA).
  { destruct H as (-> & -> & -> & W & -> & ->).
    repeat (split; [first [apply Hc; reflexivity
                          | refine (Hw _ _ _ _ _ _ _ W); reflexivity] |]).
    apply Hc; reflexivity. }
  destruct (type =? TYPE_THOMAS).
  { destruct H as (-> & W & -> & -> & -> & ->).
    repeat (split; [first [apply Hc; reflexivity
                          | refine (Hw _ _ _ _ _ _ _ W); reflexivity] |]).
    apply Hc; reflexivity. }
  destruct (type =? TYPE_LORENZ).
  { destruct H as (-> & W & -> & -> & -> & ->).
    repeat (split; [first [apply Hc; reflexivity
                          | refine (Hw _ _ _ _ _ _ _ W); reflexivity] |]).
    apply Hc; reflexivity. }
  destruct (type =? TYPE_HALVORSEN).
  { destruct H as (W & -> & -> & -> & -> & ->).
    repeat (split; [first [apply Hc; reflexivity
                          | refine (Hw _ _ _ _ _ _ _ W); reflexivity] |]).
    apply Hc; reflexivity. }
  destruct (type =? TYPE_CHEN); subst p; cbn [p_a p_b p_c p_d p_e p_f zero_params];
    repeat split; reflexivity || (apply Hc; reflexivity).
Qed.

(** One interpolation step keeps parameters that are between [lo] and [hi],
    as their targets are, between [lo] and [hi]. *)
Lemma lerp_params_within (lo hi : float) (cur target : Params) :
  moderate lo = true -> moderate hi = true ->
  params_within lo hi cur -> params_within lo hi target ->
  params_within lo hi (lerp_params cur target).
Proof.
  intros Mlo Mhi Hc Ht.
  assert (Hs : forall c t, within lo hi c -> within lo hi t ->
                           within lo hi (smooth c t lerp_rate)).
  { intros c t Wc Wt.
    pose proof (within_moderate lo hi c Mlo Mhi Wc) as Mc.
    pose proof (within_moderate lo hi t Mlo Mhi Wt) as Mt.
    destruct (smooth_between c t lerp_rate Mc Mt eq_refl eq_refl eq_refl)
      as (Hf & Hup & Hdown).
    destruct Wc as [_ [C1 C2]], Wt as [_ [T1 T2]].
    split; [exact Hf |].
    destruct (Rle_or_lt (F2R c) (F2R t)) as [Hle | Hgt].
    - destruct (Hup Hle). lra.
    - destruct (Hdown ltac:(lra)). lra. }
  unfold params_within in *. unfold lerp_params. cbn [p_a p_b p_c p_d p_e p_f].
  destruct Hc as (C1 & C2 & C3 & C4 & C5 & C6).
  destruct Ht as (T1 & T2 & T3 & T4 & T5 & T6).
  repeat split; apply Hs; assumption.
Qed.

(** One frame keeps the current and the target parameters in [0, 40]. *)
Lemma params_frame_within (fpf frame : Z) (s : Sched)
    (st : ParamState (RandState := RandState)) :
  params_within zero (of_Z 40) (ps_cur st) ->
  params_within zero (of_Z 40) (ps_target st) ->
  params_within zero (of_Z 40)
    (ps_cur (params_frame RAND_MAX rand fpf frame s st)) /\
  params_within zero (of_Z 40)
    (ps_target (params_frame RAND_MAX rand fpf frame s st)).
Proof.
  intros IC IT. unfold params_frame.
  assert (Ht : params_within zero (of_Z 40)
                 (fst (if type_change fpf frame s
                       then get_target_params RAND_MAX rand
                              (current_type (cycle_step fpf frame s))
                              (ps_rand st)
                       else (ps_target st, ps_rand st)))).
  { destruct (type_change fpf frame s);
      [apply target_params_bounded | exact IT]. }
  destruct (if type_change fpf frame s then _ else _) as [t g'].
  cbn [fst ps_cur ps_target] in *.
  split; [| exact Ht].
  apply lerp_params_within; try assumption; reflexivity.
Qed.

(** X7. At every frame of a run, whatever the start type and the values
    [rand] returns, the six current parameters and the six target parameters
    are finite numbers in [0, 40]: the interpolation never leaves the range
    the targets span. *)
Theorem params_bounded (fpf start_type : Z) (g : RandState) (n : nat) :
  let st := snd (run_params RAND_MAX rand fpf start_type g n) in
  params_within zero (of_Z 40) (ps_cur st) /\
  params_within zero (of_Z 40) (ps_target st).
Proof.
  cbv zeta. induction n as [| k IH].
  - cbn [run_params snd]. unfold initial_params.
    pose proof (target_params_bounded start_type g) as H.
    destruct (get_target_params RAND_MAX rand start_type g) as [p g'].
    cbn [fst ps_cur ps_target] in *. split; exact H.
  - cbn [run_params].
    destruct (run_params RAND_MAX rand fpf start_type g k) as [s st].
    cbn [snd] in *. destruct IH as [IC IT].
    now apply params_frame_within.
Qed.

(** X6. Every coordinate of the initial random box is a finite number in
    [-5, 5], and the box has one position per particle. *)
Theorem initial_box (n : nat) (g : RandState) :
  length (fst (init_positions RAND_MAX rand n g)) = n /\
  Forall (fun '(x, y, z) =>
            within (opp (of_Z 5)) (of_Z 5) x /\
            within (opp (of_Z 5)) (of_Z 5) y /\
            within (opp (of_Z 5)) (of_Z 5) z)
         (fst (init_positions RAND_MAX rand n g)).
Proof.
  revert g. induction n as [| k IH]; intros g; cbn [init_positions].
  - split; [reflexivity | constructor].
  - unfold init_position.
    destruct (rand_range_step (of_Z 5) g eq_refl eq_refl) as (x & -> & Wx).
    destruct (rand_range_step (of_Z 5) (snd (rand g)) eq_refl eq_refl)
      as (y & -> & Wy).
    destruct (rand_range_step (of_Z 5) (snd (rand (snd (rand g))))
                eq_refl eq_refl) as (z & -> & Wz).
    specialize (IH (snd (rand (snd (rand (snd (rand g))))))).
    destruct (init_positions RAND_MAX rand k _) as [ps g2].
    cbn [fst length] in *. destruct IH as [IL IF].
    split; [now rewrite IL |].
    constructor; [repeat split; apply Wx || apply Wy || apply Wz | exact IF].
Qed.

End RandomProofs.

Lemma lcg_rand_range (g : Z) : 0 <= fst (lcg_rand g) <= 32767.
Proof.
  unfold lcg_rand. cbn [fst].
  pose proof (Z.mod_pos_bound (Z.quot ((g * 1103515245 + 12345) mod 2147483648) 65536)
                32768 ltac:(lia)).
  lia.
Qed.

Lemma rand_range_symmetric_witness :
  within (opp (of_Z 5)) (of_Z 5)
         (fst (rand_range_cpu 32767 lcg_rand (opp (of_Z 5)) (of_Z 5) 1)).
Proof.
  apply (rand_range_symmetric 32767 lcg_rand ltac:(lia) lcg_rand_range
           (of_Z 5) 1 eq_refl eq_refl).
Defined.

Lemma target_params_spec_witness :
  target_spec 2 (fst (get_target_params 32767 lcg_rand 2 1)).
Proof.
  exact (proj1 (target_params_spec 32767 lcg_rand ltac:(lia) lcg_rand_range
                  2 1)).
Defined.

Lemma params_bounded_witness :
  params_within zero (of_Z 40)
    (ps_cur (snd (run_params 32767 lcg_rand 300 0 1 3))).
Proof.
  exact (proj1 (params_bounded 32767 lcg_rand ltac:(lia) lcg_rand_range
                  300 0 1 3)).
Defined.

Lemma initial_box_witness :
  length (fst (init_positions 32767 lcg_rand 4 1)) = 4%nat.
Proof.
  exact (proj1 (initial_box 32767 lcg_rand ltac:(lia) lcg_rand_range 4 1)).
Defined.

(** ** Configuration file *)

Lemma streq_eq (a b : text) : streq a b = true <-> a = b.
Proof.
  revert b. induction a as [| x a IH]; intros [| y b]; cbn [streq];
    try (split; [discriminate | discriminate]); [tauto |].
  rewrite andb_true_iff, Ascii.eqb_eq, IH. split.
  - intros [-> ->]. reflexivity.
  - intros H. injection H as -> ->. split; reflexivity.
Qed.

Lemma streq_refl (a : text) : streq a a = true.
Proof. now apply streq_eq. Qed.

Lemma streq_neq (a b : text) : a <> b -> streq a b = false.
Proof.
  intros H. destruct (streq a b) eqn:E; [| reflexivity].
  apply streq_eq in E. contradiction.
Qed.

Lemma array_set_length {A : Type} (l : list A) (i : nat) (v : A) :
  length (array_set l i v) = length l.
Proof.
  revert i. induction l as [| x l IH]; intros [| i]; cbn; try reflexivity.
  now rewrite IH.
Qed.

Lemma array_set_same {A : Type} (l : list A) (i : nat) (v w : A) :
  array_set (array_set l i w) i v = array_set l i v.
Proof.
  revert i. induction l as [| x l IH]; intros [| i]; cbn; try reflexivity.
  now rewrite IH.
Qed.

Lemma array_set_comm {A : Type} (l : list A) (i j : nat) (v w : A) :
  i <> j ->
  array_set (array_set l i v) j w = array_set (array_set l j w) i v.
Proof.
  revert i j. induction l as [| x l IH]; intros [| i] [| j] H; cbn;
    try reflexivity; try congruence.
  rewrite IH by congruence. reflexivity.
Qed.

Lemma array_set_read {A : Type} (l : list A) (i : nat) (v : A) :
  (i < length l)%nat -> nth_error (array_set l i v) i = Some v.
Proof.
  revert i. induction l as [| x l IH]; intros [| i] H; cbn in *;
    try lia; try reflexivity.
  apply IH. lia.
Qed.

Lemma array_set_other {A : Type} (l : list A) (i j : nat) (v : A) :
  i <> j -> nth_error (array_set l i v) j = nth_error l j.
Proof.
  revert i j. induction l as [| x l IH]; intros [| i] [| j] H; cbn;
    try reflexivity; try congruence.
  apply IH. congruence.
Qed.

(** A key that is none of the eleven leaves the settings as they are. *)
Lemma apply_setting_unknown (key : text) (v : float) (s : Settings) :
  ~ In key known_keys -> apply_setting key v s = s.
Proof.
  intros H. unfold apply_setting.
  repeat match goal with
         | |- context [streq key ?k] =>
             rewrite (streq_neq key k)
               by (intros ->; apply H; cbn; tauto)
         end.
  reflexivity.
Qed.

Ltac known_key H :=
  cbn [known_keys map In] in H;
  repeat (destruct H as [H | H]; [subst |]); [.. | contradiction].

(** X8. The settings as a store keyed by the eleven names: a key that is
    none of them (names are compared exactly, so also a name in another
    case) changes nothing; two assignments to different keys commute; of two
    assignments to the same key the later one stands; and no assignment
    changes the length of the multiplier array. *)
Theorem apply_setting_store :
  (forall key v s, ~ In key known_keys -> apply_setting key v s = s) /\
  (forall k1 k2 v1 v2 s,
      k1 <> k2 ->
      apply_setting k1 v1 (apply_setting k2 v2 s) =
      apply_setting k2 v2 (apply_setting k1 v1 s)) /\
  (forall k v1 v2 s,
      apply_setting k v1 (apply_setting k v2 s) = apply_setting k v1 s) /\
  (forall k v s,
      length (ATTRACTOR_BASE_MULTIPLIERS (apply_setting k v s)) =
      length (ATTRACTOR_BASE_MULTIPLIERS s)).
Proof.
  split; [exact apply_setting_unknown |]. split; [| split].
  - intros k1 k2 v1 v2 s Hne.
    destruct (in_dec (list_eq_dec ascii_dec) k1 known_keys) as [H1 | H1];
      [| now rewrite !(apply_setting_unknown k1) by assumption].
    destruct (in_dec (list_eq_dec ascii_dec) k2 known_keys) as [H2 | H2];
      [| now rewrite !(apply_setting_unknown k2) by assumption].
    destruct s as [m o d [z1 z2 z3 z4]].
    known_key H1; known_key H2; try congruence;
      cbn; unfold set_multiplier, set_zoom; cbn; try reflexivity;
      f_equal; apply array_set_comm; discriminate.
  - intros k v1 v2 s.
    destruct (in_dec (list_eq_dec ascii_dec) k known_keys) as [H | H];
      [| now rewrite !(apply_setting_unknown k) by assumption].
    destruct s as [m o d [z1 z2 z3 z4]].
    known_key H; cbn; unfold set_multiplier, set_zoom; cbn; try reflexivity;
      f_equal; apply array_set_same.
  - intros k v s.
    destruct (in_dec (list_eq_dec ascii_dec) k known_keys) as [H | H];
      [| now rewrite (apply_setting_unknown k) by assumption].
    destruct s as [m o d [z1 z2 z3 z4]].
    known_key H; cbn; try reflexivity; apply array_set_length.
Qed.

(** *** The scanner *)

Lemma skip_space_app (ws l : text) :
  forallb isspace ws = true -> skip_space (ws ++ l) = skip_space l.
Proof.
  induction ws as [| c ws IH]; cbn [forallb app skip_space]; [reflexivity |].
  intros H. apply andb_true_iff in H. destruct H as [Hc Hws].
  rewrite Hc. now apply IH.
Qed.

Lemma skip_space_split (l : text) :
  exists ws, l = ws ++ skip_space l /\ forallb isspace ws = true.
Proof.
  induction l as [| c l (ws & E & H)]; cbn [skip_space].
  - exists nil. split; reflexivity.
  - destruct (isspace c) eqn:Hc.
    + exists (c :: ws). cbn [app forallb]. rewrite Hc, H, <- E.
      split; reflexivity.
    + exists nil. split; reflexivity.
Qed.

Lemma skip_space_head (c : ascii) (l : text) :
  isspace c = false -> skip_space (c :: l) = c :: l.
Proof. intros H. cbn [skip_space]. now rewrite H. Qed.

Lemma scan_key_split (w : nat) (l k rest : text) :
  scan_key w l = (k, rest) ->
  l = k ++ rest /\ forallb key_char k = true /\ (length k <= w)%nat.
Proof.
  revert l k rest. induction w as [| w IH]; intros l k rest H.
  - destruct l; injection H as <- <-; repeat split; cbn; lia.
  - destruct l as [| c l]; cbn [scan_key] in H.
    + injection H as <- <-. repeat split. cbn. lia.
    + destruct (key_char c) eqn:Hc.
      * destruct (scan_key w l) as [k' rest'] eqn:E.
        injection H as <- <-. destruct (IH _ _ _ E) as (-> & Hk & Hl).
        cbn [app forallb length]. rewrite Hc, Hk. repeat split. lia.
      * injection H as <- <-. repeat split. cbn. lia.
Qed.

Lemma scan_key_app (w : nat) (k l : text) :
  forallb key_char k = true -> (length k <= w)%nat ->
  scan_key w (k ++ l) =
  (k ++ fst (scan_key (w - length k) l), snd (scan_key (w - length k) l)).
Proof.
  revert w. induction k as [| c k IH]; intros w Hk Hl.
  - cbn [app length]. rewrite Nat.sub_0_r. now destruct (scan_key w l).
  - cbn [forallb length] in *. apply andb_true_iff in Hk.
    destruct Hk as [Hc Hk]. destruct w as [| w]; [lia |].
    cbn [app scan_key]. rewrite Hc, (IH w Hk) by lia.
    reflexivity.
Qed.

(** A key followed by a space or by [=] is scanned as it is. *)
Lemma scan_key_stop (w : nat) (k : text) (c : ascii) (l : text) :
  forallb key_char k = true -> (length k <= w)%nat ->
  key_char c = false ->
  scan_key w (k ++ c :: l) = (k, c :: l).
Proof.
  intros Hk Hl Hc. rewrite scan_key_app by assumption.
  destruct (w - length k)%nat; cbn [scan_key fst snd]; rewrite ?Hc;
    cbn [fst snd]; rewrite app_nil_r; reflexivity.
Qed.

Section ConfigProofs.

Variable scan_float : text -> option float.

(** X9. What the scanner accepts, and only that: the line is white space, a
    key of 1 to 63 characters other than [=] and the space, white space,
    [=], and a text of which the number parser, after white space, reads
    the value. *)
Theorem scan_setting_sound (line key : text) (v : float) :
  scan_setting scan_float line = Some (key, v) ->
  key <> nil /\ (length key <= 63)%nat /\ forallb key_char key = true /\
  exists ws1 ws2 rest,
    line = ws1 ++ key ++ ws2 ++ "="%char :: rest /\
    forallb isspace ws1 = true /\ forallb isspace ws2 = true /\
    scan_float (skip_space rest) = Some v.
Proof.
  unfold scan_setting. intros H.
  destruct (skip_space_split line) as (ws1 & E1 & H1).
  destruct (scan_key 63 (skip_space line)) as [k rest] eqn:Ek.
  destruct (scan_key_split _ _ _ _ Ek) as (E2 & Hk & Hl).
  destruct k as [| c k]; [discriminate |].
  destruct (skip_space_split rest) as (ws2 & E3 & H2).
  destruct (skip_space rest) as [| c' rest'] eqn:Er; [discriminate |].
  destruct (Ascii.eqb c' "=") eqn:Hc; [| discriminate].
  apply Ascii.eqb_eq in Hc. subst c'.
  destruct (scan_float (skip_space rest')) as [v' |] eqn:Ev; [| discriminate].
  injection H as <- <-.
  split; [discriminate |]. split; [exact Hl |]. split; [exact Hk |].
  exists ws1, ws2, rest'. repeat split; try assumption.
  rewrite E1 at 1. rewrite E2, E3. reflexivity.
Qed.

(** A line of that shape is accepted, when the white space between the key
    and [=] is empty or starts with a space (another white-space character
    right after the key would be taken as part of the key). *)
Lemma scan_setting_complete (ws1 key ws2 rest : text) :
  forallb isspace ws1 = true ->
  key <> nil -> (length key <= 63)%nat -> forallb key_char key = true ->
  (exists c, hd_error key = Some c /\ isspace c = false) ->
  forallb isspace ws2 = true ->
  (ws2 = nil \/ hd_error ws2 = Some " "%char) ->
  scan_setting scan_float (ws1 ++ key ++ ws2 ++ "="%char :: rest) =
  match scan_float (skip_space rest) with
  | Some v => Some (key, v)
  | None => None
  end.
Proof.
  intros H1 Hne Hl Hk (c & Hc & Hcs) H2 Hws2.
  unfold scan_setting. rewrite skip_space_app by assumption.
  destruct key as [| c0 key]; [contradiction |].
  cbn [hd_error] in Hc. injection Hc as ->.
  cbn [app]. rewrite skip_space_head by assumption.
  change (c :: key ++ ws2 ++ "="%char :: rest)
    with ((c :: key) ++ ws2 ++ "="%char :: rest).
  assert (Es : scan_key 63 ((c :: key) ++ ws2 ++ "="%char :: rest) =
               (c :: key, ws2 ++ "="%char :: rest)).
  { destruct Hws2 as [-> | Hh].
    - exact (scan_key_stop 63 (c :: key) "=" rest Hk Hl eq_refl).
    - destruct ws2 as [| c2 ws2]; [discriminate |].
      cbn [hd_error] in Hh. injection Hh as ->.
      exact (scan_key_stop 63 (c :: key) " " (ws2 ++ "="%char :: rest)
               Hk Hl eq_refl). }
  rewrite Es. rewrite skip_space_app by assumption.
  rewrite skip_space_head by reflexivity.
  rewrite Ascii.eqb_refl. reflexivity.
Qed.

End ConfigProofs.

(** *** Lines *)

Lemma c_str_app (p l : text) :
  forallb (fun c => negb (Ascii.eqb c Ascii.zero)) p = true ->
  c_str (p ++ l) = p ++ c_str l.
Proof.
  induction p as [| c p IH]; cbn [forallb app c_str]; [reflexivity |].
  intros H. apply andb_true_iff in H. destruct H as [Hc Hp].
  apply negb_true_iff in Hc. rewrite Hc, IH by assumption. reflexivity.
Qed.

Lemma forallb_weaken {A : Type} (p q : A -> bool) (l : list A) :
  (forall x, p x = true -> q x = true) ->
  forallb p l = true -> forallb q l = true.
Proof.
  intros H. induction l as [| x l IH]; cbn [forallb]; [reflexivity |].
  intros Hl. apply andb_true_iff in Hl. destruct Hl as [Hx Hl].
  rewrite (H x Hx), IH by assumption. reflexivity.
Qed.

Lemma blank_facts (c : ascii) :
  blank c = true ->
  isspace c = true /\ Ascii.eqb c Ascii.zero = false /\
  Ascii.eqb c "#" = false /\ Ascii.eqb c "010" = false /\
  Ascii.eqb c "013" = false.
Proof.
  unfold blank. intros H. apply orb_true_iff in H.
  destruct H as [H | H]; apply Ascii.eqb_eq in H; subst c;
    repeat split; reflexivity.
Qed.

Lemma plain_char_facts (c : ascii) :
  plain_char c = true ->
  key_char c = true /\ isspace c = false /\
  Ascii.eqb c Ascii.zero = false /\ Ascii.eqb c "#" = false.
Proof.
  unfold plain_char. intros H.
  repeat (apply andb_true_iff in H; destruct H as [H ?]).
  repeat split; try assumption; now apply negb_true_iff.
Qed.

Lemma plain_key_facts (k : text) :
  plain_key k = true ->
  forallb plain_char k = true /\ (1 <= length k <= 63)%nat.
Proof.
  unfold plain_key. intros H.
  repeat (apply andb_true_iff in H; destruct H as [H ?]).
  split; [assumption |]. split; [now apply Nat.leb_le | now apply Nat.leb_le].
Qed.

Lemma known_keys_plain (k : text) : In k known_keys -> plain_key k = true.
Proof. intros H. known_key H; reflexivity. Qed.

Lemma known_keys_short (k : text) : In k known_keys -> (length k <= 18)%nat.
Proof. intros H. known_key H; cbn; lia. Qed.

(** No known key is a proper prefix of another one. *)
Lemma known_keys_prefix_free (k : text) (c : ascii) (more : text) :
  In k known_keys -> ~ In (k ++ c :: more) known_keys.
Proof.
  intros H1 H2. known_key H1; known_key H2; cbn [str list_ascii_of_string app] in *;
    congruence.
Qed.

Section LineProofs.

Variable scan_float : text -> option float.

(** X10. A line [key = value], with blanks (spaces or tabs) before the key,
    blanks between the key and [=] that are none or start with a space, and
    a key of 1 to 63 plain characters, assigns the value the number parser
    reads after [=] to that key, and changes nothing when the parser reads
    no number. *)
Theorem config_line_assigns (ws1 key ws2 rest : text) (s : Settings)
    (Hws1 : forallb blank ws1 = true)
    (Hkey : plain_key key = true)
    (Hws2 : forallb blank ws2 = true)
    (Hsp : ws2 = nil \/ hd_error ws2 = Some " "%char) :
  config_line scan_float (ws1 ++ key ++ ws2 ++ "="%char :: rest) s =
  match scan_float (skip_space (c_str rest)) with
  | Some v => apply_setting key v s
  | None => s
  end.
Proof.
  destruct (plain_key_facts key Hkey) as [Hk Hl].
  assert (Hk1 : forallb key_char key = true).
  { revert Hk. apply forallb_weaken. intros c Hc.
    now apply plain_char_facts in Hc. }
  assert (Hk0 : forallb (fun c => negb (Ascii.eqb c Ascii.zero)) key = true).
  { revert Hk. apply forallb_weaken. intros c Hc.
    apply plain_char_facts in Hc. apply negb_true_iff. tauto. }
  assert (Hb0 : forall ws, forallb blank ws = true ->
            forallb (fun c => negb (Ascii.eqb c Ascii.zero)) ws = true).
  { intros ws. apply forallb_weaken. intros c Hc.
    apply blank_facts in Hc. apply negb_true_iff. tauto. }
  assert (Hbs : forall ws, forallb blank ws = true ->
            forallb isspace ws = true).
  { intros ws. apply forallb_weaken. intros c Hc.
    now apply blank_facts in Hc. }
  destruct key as [| c key]; [cbn in Hl; lia |].
  pose proof Hk as Hc. cbn [forallb] in Hc. apply andb_true_iff in Hc.
  destruct Hc as [Hc _]. apply plain_char_facts in Hc.
  destruct Hc as (Hc1 & Hc2 & Hc3 & Hc4).
  assert (Hfirst : exists c0 tl,
             ws1 ++ (c :: key) ++ ws2 ++ "="%char :: rest = c0 :: tl /\
             Ascii.eqb c0 "#" || Ascii.eqb c0 "010" || Ascii.eqb c0 "013"
             = false).
  { destruct ws1 as [| b ws1].
    - exists c, (key ++ ws2 ++ "="%char :: rest). split; [reflexivity |].
      rewrite Hc4. cbn [orb].
      destruct (Ascii.eqb_spec c "010") as [-> | _]; [discriminate |].
      destruct (Ascii.eqb_spec c "013") as [-> | _]; [discriminate |].
      reflexivity.
    - exists b, (ws1 ++ (c :: key) ++ ws2 ++ "="%char :: rest).
      split; [reflexivity |].
      cbn [forallb] in Hws1. apply andb_true_iff in Hws1.
      destruct Hws1 as [Hb _]. apply blank_facts in Hb.
      destruct Hb as (_ & _ & -> & -> & ->). reflexivity. }
  destruct Hfirst as (c0 & tl & E & Hc0).
  unfold config_line. rewrite E, Hc0, <- E.
  rewrite c_str_app by auto. rewrite c_str_app by assumption.
  rewrite c_str_app by auto.
  change (c_str ("="%char :: rest)) with ("="%char :: c_str rest).
  rewrite (scan_setting_complete scan_float ws1 (c :: key) ws2 (c_str rest));
    try assumption; auto.
  - destruct (scan_float (skip_space (c_str rest))); reflexivity.
  - discriminate.
  - lia.
  - exists c. split; [reflexivity | assumption].
Qed.

(** X11. A known key directly followed by a character other than [=] and
    the space (a tab, a letter, a digit) is not recognised: the character
    is scanned as part of the key, and the line changes nothing. *)
Theorem config_line_glued (key : text) (c : ascii) (rest : text)
    (s : Settings)
    (Hkey : In key known_keys) (Hc : key_char c = true) :
  config_line scan_float (key ++ c :: rest) s = s.
Proof.
  pose proof (known_keys_plain key Hkey) as Hp.
  pose proof (known_keys_short key Hkey) as Hshort.
  destruct (plain_key_facts key Hp) as [Hk Hl].
  assert (Hk1 : forallb key_char key = true).
  { revert Hk. apply forallb_weaken. intros x Hx.
    now apply plain_char_facts in Hx. }
  assert (Hk0 : forallb (fun c => negb (Ascii.eqb c Ascii.zero)) key = true).
  { revert Hk. apply forallb_weaken. intros x Hx.
    apply plain_char_facts in Hx. apply negb_true_iff. tauto. }
  unfold config_line.
  destruct (key ++ c :: rest) as [| c0 tl] eqn:E; [reflexivity |].
  destruct (Ascii.eqb c0 "#" || Ascii.eqb c0 "010" || Ascii.eqb c0 "013");
    [reflexivity |].
  rewrite <- E. clear E c0 tl.
  destruct (scan_setting scan_float (c_str (key ++ c :: rest)))
    as [[k v] |] eqn:Es; [| reflexivity].
  apply apply_setting_unknown.
  rewrite c_str_app in Es by assumption.
  unfold scan_setting in Es.
  destruct key as [| k0 key]; [cbn in Hl; lia |].
  pose proof Hk as Hk'. cbn [forallb] in Hk'. apply andb_true_iff in Hk'.
  destruct Hk' as [Hk0' _]. apply plain_char_facts in Hk0'.
  destruct Hk0' as (_ & Hsp & _ & _).
  change ((k0 :: key) ++ c_str (c :: rest))
    with (k0 :: (key ++ c_str (c :: rest))) in Es.
  rewrite skip_space_head in Es by assumption.
  change (k0 :: (key ++ c_str (c :: rest)))
    with ((k0 :: key) ++ c_str (c :: rest)) in Es.
  rewrite scan_key_app in Es by (try assumption; lia).
  cbn [c_str] in Es.
  destruct (Ascii.eqb c Ascii.zero) eqn:Hz.
  - destruct (63 - length (k0 :: key))%nat; cbn [scan_key fst snd] in Es;
      rewrite app_nil_r in Es; cbn [app skip_space] in Es; discriminate.
  - destruct (63 - length (k0 :: key))%nat as [| w] eqn:Ew;
      [cbn [length] in *; lia |].
    cbn [scan_key] in Es. rewrite Hc in Es.
    destruct (scan_key w (c_str rest)) as [k2 r2].
    cbn [fst snd] in Es.
    assert (Ek : k = (k0 :: key) ++ c :: k2).
    { destruct ((k0 :: key) ++ c :: k2) eqn:E'; [discriminate |].
      destruct (skip_space r2) as [| x r3]; [discriminate |].
      destruct (Ascii.eqb x "="); [| discriminate].
      destruct (scan_float (skip_space r3)); [| discriminate].
      now injection Es as <- _. }
    subst k. now apply known_keys_prefix_free.
Qed.

End LineProofs.

(** *** Reading the file *)

Lemma fgets_line (n : nat) (l rest : text) :
  no_newline l = true -> (length l < n)%nat ->
  fgets n (l ++ "010"%char :: rest) = (l ++ ["010"%char], rest).
Proof.
  revert n. induction l as [| c l IH]; intros n Hl Hn;
    (destruct n as [| n]; [cbn in Hn; lia |]); cbn [app fgets].
  - reflexivity.
  - cbn [no_newline forallb] in Hl. apply andb_true_iff in Hl.
    destruct Hl as [Hc Hl]. apply negb_true_iff in Hc. rewrite Hc.
    rewrite (IH n Hl) by (cbn in Hn; lia). reflexivity.
Qed.

Lemma fgets_full (n : nat) (l rest : text) :
  no_newline l = true -> length l = n -> fgets n (l ++ rest) = (l, rest).
Proof.
  revert n. induction l as [| c l IH]; intros n Hl Hn; cbn in Hn; subst n.
  - reflexivity.
  - cbn [app fgets].
    cbn [no_newline forallb] in Hl. apply andb_true_iff in Hl.
    destruct Hl as [Hc Hl]. apply negb_true_iff in Hc. rewrite Hc.
    rewrite (IH (length l) Hl eq_refl). reflexivity.
Qed.

Lemma fgets_last (n : nat) (l : text) :
  no_newline l = true -> (length l <= n)%nat -> fgets n l = (l, nil).
Proof.
  revert n. induction l as [| c l IH]; intros n Hl Hn.
  - destruct n; reflexivity.
  - destruct n as [| n]; [cbn in Hn; lia |]. cbn [fgets].
    cbn [no_newline forallb] in Hl. apply andb_true_iff in Hl.
    destruct Hl as [Hc Hl]. apply negb_true_iff in Hc. rewrite Hc.
    rewrite (IH n Hl) by (cbn in Hn; lia). reflexivity.
Qed.

Lemma fgets_rest (n : nat) (input : text) :
  (length (snd (fgets n input)) <= length input)%nat /\
  (input <> nil -> (0 < n)%nat ->
   (length (snd (fgets n input)) < length input)%nat).
Proof.
  revert input. induction n as [| n IH]; intros [| c l]; cbn [fgets snd];
    try (split; [lia | intros; try contradiction; lia]).
  destruct (Ascii.eqb c "010"); cbn [snd length].
  - split; [lia | intros; lia].
  - specialize (IH l). destruct (fgets n l) as [l' r]. cbn [snd] in *.
    split; [lia | intros; lia].
Qed.

Section ReadProofs.

Variable scan_float : text -> option float.

(** The bound on the number of iterations is never reached. *)
Lemma load_lines_fuel (fuel : nat) (input : text) (s : Settings) :
  (length input <= fuel)%nat ->
  load_lines scan_float fuel input s =
  load_lines scan_float (length input) input s.
Proof.
  remember (length input) as m eqn:Em.
  revert fuel input s Em.
  induction m as [m IH] using lt_wf_ind. intros fuel input s Em Hf.
  destruct input as [| c l].
  - cbn in Em. subst m. destruct fuel; reflexivity.
  - cbn [length] in Em. destruct fuel as [| fuel]; [lia |].
    subst m. cbn [load_lines].
    destruct (fgets_rest 255 (c :: l)) as [_ Hlt].
    specialize (Hlt ltac:(discriminate) ltac:(lia)).
    destruct (fgets 255 (c :: l)) as [line rest]. cbn [snd length] in Hlt.
    rewrite (IH (length rest) ltac:(lia) fuel rest _ eq_refl ltac:(lia)).
    rewrite (IH (length rest) ltac:(lia) (length l) rest _ eq_refl ltac:(lia)).
    reflexivity.
Qed.

Lemma load_config_step (input line rest : text) (s : Settings) :
  input <> nil -> fgets 255 input = (line, rest) ->
  load_config scan_float (Some input) s =
  load_config scan_float (Some rest) (config_line scan_float line s).
Proof.
  intros Hne Hg. unfold load_config.
  destruct input as [| c l]; [contradiction |].
  cbn [length load_lines]. rewrite Hg.
  apply load_lines_fuel.
  pose proof (fgets_rest 255 (c :: l)) as [_ Hlt].
  specialize (Hlt ltac:(discriminate) ltac:(lia)).
  rewrite Hg in Hlt. cbn [snd length] in Hlt. lia.
Qed.

(** X12. How the file is cut into lines.  A line of at most 254 bytes and
    its newline are handed to the line parser together; of a longer line
    the first 255 bytes are parsed as one line and the rest as a new one, so
    that the tail of a comment longer than that is parsed as a setting; a
    last line without newline is parsed as well; a file that cannot be
    opened changes nothing. *)
Theorem load_config_lines :
  (forall l rest s,
      no_newline l = true -> (length l <= 254)%nat ->
      load_config scan_float (Some (l ++ "010"%char :: rest)) s =
      load_config scan_float (Some rest)
                  (config_line scan_float (l ++ ["010"%char]) s)) /\
  (forall l rest s,
      no_newline l = true -> length l = 255%nat ->
      load_config scan_float (Some (l ++ rest)) s =
      load_config scan_float (Some rest) (config_line scan_float l s)) /\
  (forall pad rest s,
      no_newline pad = true -> length pad = 254%nat ->
      load_config scan_float (Some ("#"%char :: pad ++ rest)) s =
      load_config scan_float (Some rest) s) /\
  (forall l s,
      no_newline l = true -> (length l <= 255)%nat ->
      load_config scan_float (Some l) s = config_line scan_float l s) /\
  (forall s, load_config scan_float None s = s).
Proof.
  split; [| split; [| split; [| split]]].
  - intros l rest s Hl Hn. apply load_config_step.
    + destruct l; discriminate.
    + apply fgets_line; [assumption | lia].
  - intros l rest s Hl Hn. apply load_config_step.
    + destruct l; [discriminate | discriminate].
    + now apply fgets_full.
  - intros pad rest s Hl Hn.
    rewrite (load_config_step ("#"%char :: pad ++ rest) ("#"%char :: pad) rest).
    + reflexivity.
    + discriminate.
    + apply (fgets_full 255 ("#"%char :: pad) rest).
      * cbn [no_newline forallb]. exact Hl.
      * cbn [length]. lia.
  - intros l s Hl Hn. destruct l as [| c l]; [reflexivity |].
    rewrite (load_config_step (c :: l) (c :: l) nil).
    + reflexivity.
    + discriminate.
    + now apply fgets_last.
  - reflexivity.
Qed.

End ReadProofs.

Lemma scan_setting_sound_witness :
  let line := str "min_zoom = 5" in
  exists ws1 ws2 rest,
    line = ws1 ++ str "min_zoom" ++ ws2 ++ "="%char :: rest /\
    forallb isspace ws1 = true /\ forallb isspace ws2 = true /\
    scan_digit (skip_space rest) = Some (of_Z 5).
Proof.
  exact (proj2 (proj2 (proj2
    (scan_setting_sound scan_digit (str "min_zoom = 5") (str "min_zoom")
       (of_Z 5) eq_refl)))).
Defined.

Lemma config_line_assigns_witness :
  cfg_min_zoom (cfg_zoom
    (config_line scan_digit (str "  min_zoom  = 5") default_settings))
  = of_Z 5.
Proof.
  exact (f_equal (fun s => cfg_min_zoom (cfg_zoom s))
           (config_line_assigns scan_digit (str "  ") (str "min_zoom")
              (str "  ") (str " 5") default_settings
              eq_refl eq_refl eq_refl (or_intror eq_refl))).
Defined.

Lemma config_line_glued_witness :
  config_line scan_digit (str "min_zoom" ++ "009"%char :: str "= 5")
              default_settings = default_settings.
Proof.
  apply (config_line_glued scan_digit (str "min_zoom") "009" (str "= 5")
           default_settings);
    [cbn; tauto | reflexivity].
Defined.

Lemma load_config_lines_witness :
  load_config scan_digit
    (Some (str "# zoom" ++ "010"%char :: str "min_zoom = 5"))
    default_settings =
  load_config scan_digit (Some (str "min_zoom = 5"))
    (config_line scan_digit (str "# zoom" ++ ["010"%char]) default_settings).
Proof.
  exact (proj1 (load_config_lines scan_digit) (str "# zoom")
           (str "min_zoom = 5") default_settings eq_refl
           ltac:(vm_compute; lia)).
Defined.

(** ** Rasterizer *)

(** On the screen the index is computed without overflow. *)
Lemma pixel_index_on_screen (px py : Z) :
  on_screen px py = true ->
  0 <= px < 1920 /\ 0 <= py < 1080 /\
  pixel_index px py = (py * 1920 + px) * 3.
Proof.
  intros Hs. unfold on_screen, WIDTH, HEIGHT in Hs.
  repeat (apply andb_true_iff in Hs; destruct Hs as [Hs ?]).
  assert (0 <= px < 1920 /\ 0 <= py < 1080) as [Hx Hy] by lia.
  repeat split; try lia.
  unfold pixel_index, WIDTH.
  rewrite (wrap_int_small (py * 1920)) by lia.
  rewrite (wrap_int_small (py * 1920 + px)) by lia.
  rewrite wrap_int_small by lia. reflexivity.
Qed.

(** The three floats of a pixel on the screen are inside the buffer. *)
Lemma pixel_index_inside (px py : Z) :
  on_screen px py = true ->
  0 <= pixel_index px py /\ pixel_index px py + 2 < buffer_size.
Proof.
  intros Hs. destruct (pixel_index_on_screen px py Hs) as (Hx & Hy & E).
  unfold buffer_size, WIDTH, HEIGHT. rewrite E. lia.
Qed.

(** X21. A pixel of the frame has its three floats inside the accumulation
    buffer: the index is computed without overflow, it is a multiple of 3
    between 0 and [WIDTH * HEIGHT * 3 - 3], and two writes go to the same
    float only for the same pixel and the same channel. *)
Theorem pixel_index_safe :
  (forall px py,
      on_screen px py = true ->
      pixel_index px py = (py * WIDTH + px) * 3 /\
      0 <= pixel_index px py /\
      pixel_index px py + 2 < buffer_size /\
      Z.rem (pixel_index px py) 3 = 0) /\
  (forall px py px' py' c c',
      on_screen px py = true -> on_screen px' py' = true ->
      0 <= c <= 2 -> 0 <= c' <= 2 ->
      pixel_index px py + c = pixel_index px' py' + c' ->
      px = px' /\ py = py' /\ c = c').
Proof.
  split.
  - intros px py Hs.
    destruct (pixel_index_on_screen px py Hs) as (Hx & Hy & E).
    unfold buffer_size, WIDTH, HEIGHT. rewrite E.
    repeat split; try lia.
    rewrite Z.rem_mod_nonneg by lia. apply Z.mod_mul. lia.
  - intros px py px' py' c c' Hs Hs' Hc Hc' E.
    destruct (pixel_index_on_screen px py Hs) as (Hx & Hy & E1).
    destruct (pixel_index_on_screen px' py' Hs') as (Hx' & Hy' & E2).
    rewrite E1, E2 in E. lia.
Qed.

Section Accumulation.
Local Open Scope R_scope.

Lemma F2R_two_24 : F2R two_24 = 16777216.
Proof.
  change two_24 with (S754_finite false 8388608 1). cbn [F2R].
  rewrite bpow_1. lra.
Qed.

(** Adding a contribution of the unit interval to a sum below [2^24] gives a
    sum below [2^24]: at [2^24] the sum with 1 is a tie, rounded back to
    [2^24]. *)
Lemma accum_step (a c : float) :
  within zero two_24 a -> within zero one c -> within zero two_24 (add a c).
Proof.
  intros [Ha [A0 A1]] [Hc [C0 C1]].
  change (F2R zero) with 0 in *. rewrite F2R_one in C1.
  apply finb_iff in Ha, Hc.
  apply (rounds_within (F2R a + F2R c) 0 (F2R two_24 + F2R one)
           (add a c) zero (add two_24 one)).
  - apply add_rounds; tauto.
  - apply (rounds_zero false).
  - apply add_rounds; reflexivity.
  - rewrite F2R_one. lra.
  - reflexivity.
  - reflexivity.
Qed.

End Accumulation.

Lemma depth_fade_valid (rz : float) :
  valid rz = true -> valid (depth_fade rz) = true.
Proof.
  intros V. unfold depth_fade.
  apply div_valid; [reflexivity |].
  apply add_valid; [reflexivity |].
  apply mul_valid; [| reflexivity]. now rewrite valid_abs.
Qed.

(** The three channels a renderable particle adds are in the unit interval. *)
Lemma contribution_within (t rz : float) :
  valid t = true -> is_nan t = false ->
  valid rz = true -> is_nan rz = false ->
  within zero one (red (contribution t rz)) /\
  within zero one (green (contribution t rz)) /\
  within zero one (blue (contribution t rz)).
Proof.
  intros Vt Nt Vrz Nrz.
  destruct (heatmap_unit t Vt Nt) as (Ur & Ug & Ub).
  destruct (heatmap_valid t Vt Nt) as (Vr & Vg & Vb).
  pose proof (depth_fade_valid rz Vrz) as Vf.
  unfold contribution. cbn [red green blue].
  repeat split; apply in_unit_within;
    try (apply mul_valid; assumption);
    apply channel_contribution_unit; assumption.
Qed.

Lemma clear_buffer_ok : buffer_ok clear_buffer.
Proof.
  intros j. split; [| reflexivity].
  unfold clear_buffer. apply leb_within; reflexivity.
Qed.

Lemma accum_add_ok (buf : Buffer) (idx : Z) (c : float) :
  buffer_ok buf -> 0 <= idx < buffer_size -> within zero one c ->
  buffer_ok (accum_add buf idx c).
Proof.
  intros Hb Hi Hc j. destruct (Hb j) as [Hw Hz]. unfold accum_add.
  destruct (Z.eqb_spec j idx) as [-> | Hne].
  - split; [now apply accum_step | lia].
  - split; assumption.
Qed.

Lemma render_particle_ok (v : View) (q : Particle) (buf buf' : Buffer) :
  renderable v q -> buffer_ok buf ->
  render_particle v q buf = Some buf' -> buffer_ok buf'.
Proof.
  intros (Vt & Nt & Vz & Nz) Hb. unfold render_particle.
  destruct (screen_coord _ _ _ WIDTH) as [px |]; [| discriminate].
  destruct (screen_coord _ _ _ HEIGHT) as [py |]; [| discriminate].
  destruct (on_screen px py) eqn:Hs; intros H; injection H as <-;
    [| exact Hb].
  destruct (pixel_index_inside px py Hs) as [H0 H1].
  destruct (contribution_within _ _ Vt Nt Vz Nz) as (Wr & Wg & Wb).
  repeat apply accum_add_ok; try assumption; lia.
Qed.

Lemma render_particle_defined (v : View) (q : Particle) (buf : Buffer) :
  render_particle v q buf <> None <-> projects v q.
Proof.
  unfold render_particle, projects.
  destruct (screen_coord _ _ _ WIDTH) as [px |];
    destruct (screen_coord _ _ _ HEIGHT) as [py |];
    try destruct (on_screen px py); split; intros H;
    try (split; discriminate); try discriminate;
    try (destruct H as [H1 H2]; congruence); congruence.
Qed.

Lemma render_defined (v : View) (ps : list Particle) (buf : Buffer) :
  render v ps buf <> None <-> Forall (projects v) ps.
Proof.
  revert buf. induction ps as [| q ps IH]; intros buf; cbn [render].
  - split; [constructor | discriminate].
  - pose proof (render_particle_defined v q buf) as Hq.
    destruct (render_particle v q buf) as [buf' |].
    + rewrite IH. split.
      * intros H. constructor; [apply Hq; discriminate | exact H].
      * intros H. now inversion H.
    + split; [congruence |].
      intros H. inversion H as [| ? ? Hp _]. apply Hq in Hp. congruence.
Qed.

Lemma render_ok (v : View) (ps : list Particle) (b buf : Buffer) :
  Forall (renderable v) ps -> buffer_ok b ->
  render v ps b = Some buf -> buffer_ok buf.
Proof.
  intros Hps. revert b.
  induction Hps as [| q ps Hq _ IH]; intros b Hb; cbn [render].
  - intros H. now injection H as <-.
  - destruct (render_particle v q b) as [b' |] eqn:E; [| discriminate].
    apply IH. exact (render_particle_ok v q b b' Hq Hb E).
Qed.

(** X22. The render loop has a result exactly when the two conversions to
    [int] of every particle are defined; and after rendering particles whose
    heat and depth are numbers onto the cleared buffer, every float of the
    buffer is a finite number between 0 and [2^24], whatever the number and
    the order of the particles, and nothing was written outside the
    buffer. *)
Theorem render_buffer_bounded (v : View) (ps : list Particle)
    (Hps : Forall (renderable v) ps) :
  (render v ps clear_buffer <> None <-> Forall (projects v) ps) /\
  (forall buf, render v ps clear_buffer = Some buf -> buffer_ok buf).
Proof.
  split; [apply render_defined |].
  intros buf. apply (render_ok v ps clear_buffer buf Hps clear_buffer_ok).
Qed.

Lemma example_renderable : renderable example_view example_particle.
Proof.
  unfold renderable.
  split; [vm_compute; reflexivity |]. split; [vm_compute; reflexivity |].
  split; vm_compute; reflexivity.
Qed.

Lemma example_render :
  render example_view [example_particle] clear_buffer = Some example_buffer.
Proof.
  unfold render, render_particle.
  assert (E1 : screen_coord
                 (rot_x (v_cos example_view) (v_sin example_view)
                        example_particle)
                 (v_cx example_view) (v_scale example_view) WIDTH
               = Some 1060) by (vm_compute; reflexivity).
  assert (E2 : screen_coord (rot_y example_particle)
                 (v_cy example_view) (v_scale example_view) HEIGHT
               = Some 640) by (vm_compute; reflexivity).
  rewrite E1, E2. reflexivity.
Qed.

Lemma render_buffer_bounded_witness : buffer_ok example_buffer.
Proof.
  exact (proj2 (render_buffer_bounded example_view [example_particle]
                  (Forall_cons _ example_renderable (Forall_nil _)))
               example_buffer example_render).
Defined.

Section FrameBytes.

Variable logf : float -> float.
Hypothesis logf_valid : forall x, valid x = true -> valid (logf x) = true.
Hypothesis logf_mono :
  forall x y, valid x = true -> valid y = true ->
              leb one x = true -> leb x y = true ->
              leb (logf x) (logf y) = true.
Hypothesis logf_one : leb zero (logf one) = true.

(** X23. Rasterizer and tone mapper together: after rendering particles
    whose heat and depth are numbers, the conversion to [unsigned char] is
    defined for every float of the buffer and gives a byte in 0..255. *)
Theorem frame_bytes_defined (v : View) (ps : list Particle) (buf : Buffer)
    (Hps : Forall (renderable v) ps)
    (Hr : render v ps clear_buffer = Some buf) :
  forall j, exists b, tone_map logf (buf j) = Some b /\ 0 <= b <= 255.
Proof.
  intros j.
  destruct (render_ok v ps clear_buffer buf Hps clear_buffer_ok Hr j)
    as [W _].
  destruct (within_leb zero two_24 (buf j) eq_refl eq_refl W) as [L0 _].
  destruct W as [Hf _]. apply finb_iff in Hf. destruct Hf as [Vf _].
  destruct (tone_map_byte logf logf_valid logf_mono logf_one (buf j) Vf L0)
    as (b & Hb & Hr' & _).
  exists b. split; assumption.
Qed.

End FrameBytes.

Lemma frame_bytes_defined_witness :
  exists b,
    tone_map (fun x => x) (example_buffer (pixel_index 1060 640 + 2))
    = Some b /\ 0 <= b <= 255.
Proof.
  exact (frame_bytes_defined (fun x => x)
           (fun x H => H) (fun x y _ _ _ H => H) eq_refl
           example_view [example_particle] example_buffer
           (Forall_cons _ example_renderable (Forall_nil _))
           example_render (pixel_index 1060 640 + 2)).
Defined.

Lemma pixel_index_safe_witness :
  pixel_index 1919 1079 = (1079 * WIDTH + 1919) * 3 /\
  pixel_index 1919 1079 + 2 < buffer_size.
Proof.
  pose proof (proj1 pixel_index_safe 1919 1079 eq_refl) as H.
  exact (conj (proj1 H) (proj1 (proj2 (proj2 H)))).
Defined.

(** ** Statistics: the samples *)

Lemma stride_loop_indices (fuel : nat) (i n : Z) :
  (n - i + 99) / 100 <= Z.of_nat fuel ->
  rev (stride_loop fuel i n sample_stride (fun j acc => j :: acc) []) =
  map (fun k => i + 100 * Z.of_nat k)
      (seq 0 (Z.to_nat ((n - i + 99) / 100))).
Proof.
  revert i. induction fuel as [| k IH]; intros i Hf; cbn [stride_loop].
  - change (Z.of_nat 0) with 0 in Hf.
    replace (Z.to_nat ((n - i + 99) / 100)) with 0%nat by lia. reflexivity.
  - destruct (i <? n) eqn:Hi.
    + apply Z.ltb_lt in Hi.
      assert (Hd : (n - (i + 100) + 99) / 100 = (n - i + 99) / 100 - 1).
      { replace (n - (i + 100) + 99) with (n - i + 99 + (-1) * 100) by lia.
        rewrite Z.div_add by lia. lia. }
      assert (Hp : 1 <= (n - i + 99) / 100).
      { apply Z.div_le_lower_bound; lia. }
      unfold sample_stride in *.
      rewrite stride_loop_cons, rev_app_distr. cbn [rev app].
      rewrite (IH (i + 100)) by lia. rewrite Hd.
      replace (Z.to_nat ((n - i + 99) / 100))
        with (S (Z.to_nat ((n - i + 99) / 100 - 1))) by lia.
      cbn [seq map]. rewrite <- seq_shift, map_map.
      f_equal; [lia |]. apply map_ext. intros a. lia.
    + apply Z.ltb_ge in Hi.
      assert ((n - i + 99) / 100 <= 0).
      { assert ((n - i + 99) / 100 < 1); [| lia].
        apply Z.div_lt_upper_bound; lia. }
      replace (Z.to_nat ((n - i + 99) / 100)) with 0%nat by lia. reflexivity.
Qed.

(** The sampled indices, in the order of the loop. *)
Lemma sampled_indices_eq (n : Z) :
  sampled_indices n =
    map (fun k => 100 * Z.of_nat k) (seq 0 (Z.to_nat ((n + 99) / 100))).
Proof.
  unfold sampled_indices. rewrite stride_loop_indices.
  - replace (n - 0 + 99) with (n + 99) by lia. apply map_ext. intros; lia.
  - replace (n - 0 + 99) with (n + 99) by lia.
    destruct (Z_le_gt_dec n 0) as [Hn | Hn].
    + assert ((n + 99) / 100 < 1) by (apply Z.div_lt_upper_bound; lia).
      lia.
    + rewrite Z2Nat.id by lia.
      assert ((n + 99) / 100 < n + 1); [| lia].
      apply Z.div_lt_upper_bound; lia.
Qed.

(** X14. The particles the statistics loops sample, for every particle
    count: the indices [0, 100, 200, ...] below the count, in increasing
    order, [ceil (n / 100)] of them, and none for a count that is not
    positive. *)
Theorem sampled_indices_multiples (n : Z) :
  sampled_indices n =
    map (fun k => 100 * Z.of_nat k) (seq 0 (Z.to_nat ((n + 99) / 100))) /\
  (forall i, In i (sampled_indices n) <-> 0 <= i < n /\ Z.rem i 100 = 0).
Proof.
  pose proof (sampled_indices_eq n) as E.
  split; [exact E |].
  intros i. rewrite E, in_map_iff. split.
  - intros (k & <- & Hk). apply in_seq in Hk.
    assert (Hlt : Z.of_nat k < (n + 99) / 100) by lia.
    assert (100 * (Z.of_nat k + 1) <= n + 99).
    { etransitivity; [| apply (Z.mul_div_le (n + 99) 100); lia].
      apply Z.mul_le_mono_nonneg_l; lia. }
    split; [lia |].
    rewrite Z.rem_mod_nonneg by lia.
    rewrite Z.mul_comm. apply Z.mod_mul. lia.
  - intros [Hi Hr]. rewrite Z.rem_mod_nonneg in Hr by lia.
    pose proof (Z.div_mod i 100 ltac:(lia)) as Hd. rewrite Hr in Hd.
    exists (Z.to_nat (i / 100)).
    assert (0 <= i / 100) by (apply Z.div_pos; lia).
    split; [lia |]. apply in_seq.
    assert (i / 100 < (n + 99) / 100); [| lia].
    apply Z.div_lt_upper_bound; [lia |].
    assert (i / 100 + 1 <= (n + 99) / 100); [| nia].
    apply Z.div_le_lower_bound; lia.
Qed.

Lemma centroid_mean_multiple_witness :
  center_x (statistics one zero cloud150 100) =
  mean (map (fun i => rot_x one zero (particle_at cloud150 i))
            (sampled_indices 100)).
Proof.
  exact (proj1 (centroid_mean_multiple one zero cloud150 100
                  ltac:(lia) eq_refl)).
Defined.

(** ** Statistics: the maximal speed *)

Lemma speed_valid (q : Particle) : valid (speed q) = true.
Proof. unfold speed. apply sqrt_valid. Qed.

Lemma ltb_not_nan (a b : float) :
  ltb a b = true -> is_nan a = false /\ is_nan b = false.
Proof. intros H. apply leb_not_nan. now apply ltb_leb. Qed.

Lemma running_max_cons (x : float) (l : list float) (m : float) :
  running_max (x :: l) m = running_max l (if gtb x m then x else m).
Proof. reflexivity. Qed.

(** The running maximum of valid floats, from a start that is a number. *)
Lemma running_max_spec (l : list float) (m : float) :
  Forall (fun x => valid x = true) l ->
  valid m = true -> is_nan m = false ->
  valid (running_max l m) = true /\ is_nan (running_max l m) = false /\
  leb m (running_max l m) = true /\
  (forall x, In x l -> is_nan x = false -> leb x (running_max l m) = true) /\
  (running_max l m = m \/ In (running_max l m) l).
Proof.
  intros Hl. revert m. induction Hl as [| x l Vx _ IH]; intros m Vm Nm.
  - cbn. repeat split; auto. now apply leb_refl.
  - rewrite running_max_cons.
    destruct (gtb x m) eqn:Hg.
    + change (ltb m x = true) in Hg.
      destruct (ltb_not_nan m x Hg) as [_ Nx].
      destruct (IH x Vx Nx) as (Vr & Nr & Lr & Hub & Hin).
      split; [exact Vr |]. split; [exact Nr |].
      split; [apply (leb_trans m x); auto; now apply ltb_leb |].
      split.
      * intros y [<- | Hy] Ny; [exact Lr | now apply Hub].
      * right. destruct Hin as [-> | Hin]; [left; reflexivity | now right].
    + change (ltb m x = false) in Hg.
      destruct (IH m Vm Nm) as (Vr & Nr & Lr & Hub & Hin).
      split; [exact Vr |]. split; [exact Nr |].
      split; [exact Lr |]. split.
      * intros y [<- | Hy] Ny; [| now apply Hub].
        apply (leb_trans x m); auto. now apply not_ltb_leb.
      * destruct Hin as [-> | Hin]; [now left | right; now right].
Qed.

Lemma pass1_max (cos_t sin_t : float) (ps : list Particle) (l : list Z)
    (sx sy mx : float) :
  snd (fold_left
         (fun (a : float * float * float) (i : Z) =>
            let '(sum_x, sum_y, m) := a in
            let q := particle_at ps i in
            let spd := speed q in
            (add sum_x (rot_x cos_t sin_t q), add sum_y (rot_y q),
             if gtb spd m then spd else m))
         l (sx, sy, mx)) =
  running_max (map (fun i => speed (particle_at ps i)) l) mx.
Proof.
  revert sx sy mx. induction l as [| j l IH]; intros sx sy mx;
    cbn [fold_left map running_max]; [reflexivity |].
  apply IH.
Qed.

Lemma stats_max_spd (cos_t sin_t : float) (ps : list Particle) (n : Z) :
  max_spd (statistics cos_t sin_t ps n) =
  running_max (sampled_speeds ps n) zero.
Proof.
  unfold statistics, sampled_speeds.
  assert (H : snd (stats_pass1 cos_t sin_t ps n) =
              running_max (map (fun i => speed (particle_at ps i))
                               (sampled_indices n)) zero).
  { unfold stats_pass1, sampled_indices. rewrite stride_loop_fold.
    apply (pass1_max cos_t sin_t ps). }
  destruct (stats_pass1 cos_t sin_t ps n) as [[sum_x sum_y] mx].
  cbn [snd] in H.
  destruct (stats_pass2 _ _ _ _ _ _) as [sdx sdy]. cbn [max_spd]. exact H.
Qed.

(** X16. The maximal speed of the statistics, whatever the particles hold
    (also infinities and NaN): it is a number, never negative; it is at
    least every sampled speed that is a number; and it is 0 or the speed of
    a sampled particle.  A speed that is NaN is skipped. *)
Theorem stats_max_speed (cos_t sin_t : float) (ps : list Particle) (n : Z) :
  let m := max_spd (statistics cos_t sin_t ps n) in
  valid m = true /\ is_nan m = false /\ leb zero m = true /\
  (forall x, In x (sampled_speeds ps n) -> is_nan x = false ->
             leb x m = true) /\
  (m = zero \/ In m (sampled_speeds ps n)).
Proof.
  cbv zeta. rewrite stats_max_spd.
  apply running_max_spec; try reflexivity.
  unfold sampled_speeds. apply Forall_forall. intros x Hx.
  apply in_map_iff in Hx. destruct Hx as (i & <- & _). apply speed_valid.
Qed.

(** ** Statistics: the mean absolute deviations *)

Lemma nan_or_nonneg_cases (x : float) :
  nan_or_nonneg x = true <-> is_nan x = true \/ leb zero x = true.
Proof. unfold nan_or_nonneg. apply orb_true_iff. Qed.

Lemma abs_nonneg (x : float) : nan_or_nonneg (abs x) = true.
Proof. destruct x as [[|] | [|] | | [|] m e]; reflexivity. Qed.

Lemma add_nan_l (b : float) : add S754_nan b = S754_nan.
Proof. destruct b as [? | ? | | ? ? ?]; reflexivity. Qed.

Lemma add_nan_r (a : float) : add a S754_nan = S754_nan.
Proof. destruct a as [? | ? | | ? ? ?]; reflexivity. Qed.

Lemma is_nan_true (x : float) : is_nan x = true -> x = S754_nan.
Proof. destruct x; try discriminate; reflexivity. Qed.

(** The sum of two floats that are not negative is not negative. *)
Lemma add_nonneg (a b : float) :
  valid a = true -> valid b = true ->
  nan_or_nonneg a = true -> nan_or_nonneg b = true ->
  nan_or_nonneg (add a b) = true.
Proof.
  intros Va Vb Ha Hb.
  apply nan_or_nonneg_cases in Ha, Hb.
  destruct Ha as [Ha | Ha];
    [apply is_nan_true in Ha; subst a; now rewrite add_nan_l |].
  destruct Hb as [Hb | Hb];
    [apply is_nan_true in Hb; subst b; now rewrite add_nan_r |].
  destruct (leb_not_nan _ _ Ha) as [_ Na].
  destruct (leb_not_nan _ _ Hb) as [_ Nb].
  destruct (finite_cases a Na) as [Fa | [-> | ->]]; [| | discriminate].
  - destruct (finite_cases b Nb) as [Fb | [-> | ->]]; [| | discriminate].
    + apply nan_or_nonneg_cases. right.
      apply (rounds_mono 0 (F2R a + F2R b));
        [apply (rounds_zero false) | now apply add_rounds |].
      pose proof (leb_zero_F2R a ltac:(apply finb_iff; auto) Ha).
      pose proof (leb_zero_F2R b ltac:(apply finb_iff; auto) Hb).
      lra.
    + destruct a as [? | ? | | ? ? ?]; try discriminate; reflexivity.
  - destruct b as [? | [|] | | ? ? ?]; try discriminate; reflexivity.
Qed.

Lemma sum_nonneg (l : list float) (acc : float) :
  Forall (fun x => valid x = true /\ nan_or_nonneg x = true) l ->
  valid acc = true -> nan_or_nonneg acc = true ->
  valid (fold_left add l acc) = true /\
  nan_or_nonneg (fold_left add l acc) = true.
Proof.
  intros Hl. revert acc.
  induction Hl as [| x l [Vx Nx] _ IH]; intros acc Va Na; cbn [fold_left].
  - split; assumption.
  - apply IH; [now apply add_valid | now apply add_nonneg].
Qed.

Lemma sum_valid (l : list float) (acc : float) :
  Forall (fun x => valid x = true) l -> valid acc = true ->
  valid (fold_left add l acc) = true.
Proof.
  intros Hl. revert acc.
  induction Hl as [| x l Vx _ IH]; intros acc Va; cbn [fold_left];
    [assumption |].
  apply IH. now apply add_valid.
Qed.

(** A sum that is not negative divided by a count that is not negative. *)
Lemma div_nonneg (a : float) (k : Z) :
  valid a = true -> nan_or_nonneg a = true -> 0 <= k ->
  nan_or_nonneg (div a (of_Z k)) = true.
Proof.
  intros Va Ha Hk. apply nan_or_nonneg_cases in Ha.
  destruct Ha as [Ha | Ha];
    [apply is_nan_true in Ha; subst a;
     destruct (of_Z k) as [? | ? | | ? ? ?]; reflexivity |].
  destruct (leb_not_nan _ _ Ha) as [_ Na].
  destruct (Z.eq_dec k 0) as [-> | Hk0].
  { change (of_Z 0) with zero.
    destruct a as [? | [|] | | [|] ? ?]; try discriminate; reflexivity. }
  pose proof (of_Z_rounds k) as Rk.
  destruct (rounds_valid _ _ Rk) as [Vk Nk].
  assert (Lk : leb one (of_Z k) = true).
  { apply (rounds_mono 1 (IZR k)); [| exact Rk | apply IZR_le; lia].
    rewrite <- F2R_one. now apply rounds_exact. }
  destruct (finite_cases (of_Z k) Nk) as [Fk | [Ek | Ek]].
  - assert (Hb : (1 <= F2R (of_Z k))%R).
    { rewrite <- F2R_one. apply leb_F2R; auto. }
    destruct (finite_cases a Na) as [Fa | [-> | ->]]; [| | discriminate].
    + apply nan_or_nonneg_cases. right.
      pose proof (leb_zero_F2R a ltac:(apply finb_iff; auto) Ha) as Ha0.
      apply (rounds_mono 0 (F2R a / F2R (of_Z k)));
        [apply (rounds_zero false) | apply div_rounds; auto; lra |].
      apply Rmult_le_pos; [lra |]. apply Rlt_le, Rinv_0_lt_compat. lra.
    + destruct (of_Z k) as [[|] | ? | | [|] ? ?]; try discriminate;
        reflexivity.
  - rewrite Ek.
    destruct a as [? | [|] | | [|] ? ?]; try discriminate; reflexivity.
  - rewrite Ek in Lk. discriminate.
Qed.

(** Zero divided by anything is NaN or a zero. *)
Lemma div_zero_l (b : float) : nan_or_nonneg (div zero b) = true.
Proof. destruct b as [[|] | [|] | | [|] m e]; reflexivity. Qed.

Lemma pass2_fold (cos_t sin_t : float) (ps : list Particle) (l : list Z)
    (cx cy sdx sdy : float) :
  fold_left
    (fun (a : float * float) (i : Z) =>
       let '(sdx, sdy) := a in
       let q := particle_at ps i in
       (add sdx (abs (sub (rot_x cos_t sin_t q) cx)),
        add sdy (abs (sub (rot_y q) cy))))
    l (sdx, sdy) =
  (fold_left add
     (map (fun i => abs (sub (rot_x cos_t sin_t (particle_at ps i)) cx)) l)
     sdx,
   fold_left add
     (map (fun i => abs (sub (rot_y (particle_at ps i)) cy)) l) sdy).
Proof.
  revert sdx sdy. induction l as [| j l IH]; intros sdx sdy;
    cbn [fold_left map]; [reflexivity |].
  apply IH.
Qed.

(** The mean absolute deviations as sums over the sampled particles. *)
Lemma deviation_quotient (cos_t sin_t : float) (ps : list Particle) (n : Z) :
  let st := statistics cos_t sin_t ps n in
  mean_dist_x st =
    div (fold_left add
           (map (fun i => abs (sub (rot_x cos_t sin_t (particle_at ps i))
                                   (center_x st)))
                (sampled_indices n)) zero)
        (of_Z (num_samples n)) /\
  mean_dist_y st =
    div (fold_left add
           (map (fun i => abs (sub (rot_y (particle_at ps i)) (center_y st)))
                (sampled_indices n)) zero)
        (of_Z (num_samples n)).
Proof.
  cbv zeta. unfold statistics.
  destruct (stats_pass1 cos_t sin_t ps n) as [[sum_x sum_y] mx].
  set (cx := div sum_x (of_Z (num_samples n))).
  set (cy := div sum_y (of_Z (num_samples n))).
  assert (H : stats_pass2 cos_t sin_t ps n cx cy =
    (fold_left add
       (map (fun i => abs (sub (rot_x cos_t sin_t (particle_at ps i)) cx))
            (sampled_indices n)) zero,
     fold_left add
       (map (fun i => abs (sub (rot_y (particle_at ps i)) cy))
            (sampled_indices n)) zero)).
  { unfold stats_pass2, sampled_indices. rewrite stride_loop_fold.
    apply (pass2_fold cos_t sin_t ps). }
  rewrite H. cbn [mean_dist_x mean_dist_y center_x center_y].
  split; reflexivity.
Qed.

(** X17. The mean absolute deviations are never negative: for every
    particle count and all particle data of the format (also infinities
    and NaN), each of the two is NaN or at least 0, and it is the sum of the
    absolute deviations of the sampled particles from the centroid divided
    by [num_particles / 100]. *)
Theorem mean_deviation_sign (cos_t sin_t : float) (ps : list Particle)
    (n : Z)
    (Hcos : valid cos_t = true) (Hsin : valid sin_t = true)
    (Hps : forallb valid_particle ps = true) :
  let st := statistics cos_t sin_t ps n in
  (mean_dist_x st =
     div (fold_left add
            (map (fun i => abs (sub (rot_x cos_t sin_t (particle_at ps i))
                                    (center_x st)))
                 (sampled_indices n)) zero)
         (of_Z (num_samples n)) /\
   mean_dist_y st =
     div (fold_left add
            (map (fun i => abs (sub (rot_y (particle_at ps i))
                                    (center_y st)))
                 (sampled_indices n)) zero)
         (of_Z (num_samples n))) /\
  nan_or_nonneg (mean_dist_x st) = true /\
  nan_or_nonneg (mean_dist_y st) = true.
Proof.
  cbv zeta. pose proof (deviation_quotient cos_t sin_t ps n) as [Ex Ey].
  cbv zeta in Ex, Ey. split; [split; assumption |].
  rewrite Ex, Ey.
  assert (Hq : forall i, valid_particle (particle_at ps i) = true).
  { intros i. unfold particle_at.
    destruct (nth_in_or_default (Z.to_nat i) ps
                (mkParticle zero zero zero zero zero zero)) as [Hin | ->];
      [| reflexivity].
    rewrite forallb_forall in Hps. now apply Hps. }
  assert (Vq : forall i,
             valid (rot_x cos_t sin_t (particle_at ps i)) = true /\
             valid (rot_y (particle_at ps i)) = true).
  { intros i. specialize (Hq i). unfold valid_particle in Hq.
    repeat (apply andb_true_iff in Hq; destruct Hq as [Hq ?]).
    split; [| assumption]. unfold rot_x.
    apply sub_valid; apply mul_valid; assumption. }
  assert (Vc : valid (center_x (statistics cos_t sin_t ps n)) = true /\
               valid (center_y (statistics cos_t sin_t ps n)) = true).
  { destruct (centroid_quotient cos_t sin_t ps n) as [-> ->].
    split; apply div_valid; try apply of_Z_valid;
      apply sum_valid; try reflexivity;
      apply Forall_forall; intros x Hx; apply in_map_iff in Hx;
      destruct Hx as (i & <- & _); apply Vq. }
  set (st := statistics cos_t sin_t ps n) in *. clearbody st.
  destruct (Z_le_gt_dec n 0) as [Hn | Hn].
  - assert (E : sampled_indices n = nil).
    { rewrite (sampled_indices_eq n).
      assert ((n + 99) / 100 < 1) by (apply Z.div_lt_upper_bound; lia).
      replace (Z.to_nat ((n + 99) / 100)) with 0%nat by lia. reflexivity. }
    rewrite E. cbn [map fold_left]. split; apply div_zero_l.
  - assert (Hk : 0 <= num_samples n).
    { unfold num_samples, sample_stride. apply Z.quot_pos; lia. }
    assert (Hsum : forall f : Z -> float,
               (forall i, valid (f i) = true) ->
               nan_or_nonneg
                 (div (fold_left add (map (fun i => abs (f i))
                                          (sampled_indices n)) zero)
                      (of_Z (num_samples n))) = true).
    { intros f Hf.
      destruct (sum_nonneg (map (fun i => abs (f i)) (sampled_indices n))
                  zero) as [Vs Ns]; try reflexivity.
      - apply Forall_forall. intros x Hx. apply in_map_iff in Hx.
        destruct Hx as (i & <- & _). rewrite valid_abs.
        split; [apply Hf | apply abs_nonneg].
      - now apply div_nonneg. }
    split.
    + apply (Hsum (fun i => sub (rot_x cos_t sin_t (particle_at ps i))
                                (center_x st))).
      intros i. apply sub_valid; [apply Vq | tauto].
    + apply (Hsum (fun i => sub (rot_y (particle_at ps i)) (center_y st))).
      intros i. apply sub_valid; [apply Vq | tauto].
Qed.

Lemma mean_deviation_sign_witness :
  nan_or_nonneg (mean_dist_x (statistics one zero cloud150 150)) = true.
Proof.
  exact (proj1 (proj2 (mean_deviation_sign one zero cloud150 150
                         eq_refl eq_refl eq_refl))).
Defined.

(** ** Equality of floats from their order *)

Lemma SFcompare_eq (a b : float) :
  SFcompare a b = Some Eq ->
  a = b \/ (is_finite a = true /\ F2R a = 0%R /\ F2R b = 0%R).
Proof.
  destruct a as [s1 | [|] | | [|] m1 e1], b as [s2 | [|] | | [|] m2 e2];
    cbn [SFcompare]; try discriminate; intros H;
    try (right; repeat split; reflexivity); try (left; reflexivity).
  - left. destruct (Z.compare_spec e1 e2) as [-> | |]; try discriminate.
    cbn [CompOpp] in H. rewrite Pos.compare_cont_spec in H.
    cbn [Pos.switch_Eq] in H.
    destruct (Pos.compare_spec m1 m2) as [-> | |]; try discriminate.
    reflexivity.
  - left. destruct (Z.compare_spec e1 e2) as [-> | |]; try discriminate.
    rewrite Pos.compare_cont_spec in H. cbn [Pos.switch_Eq] in H.
    destruct (Pos.compare_spec m1 m2) as [-> | |]; try discriminate.
    reflexivity.
Qed.

Section ExactProducts.
Local Open Scope R_scope.

(** Two finite values of the format that stand for the same real, not 0,
    are the same float. *)
Lemma finite_eq (a b : float) :
  finb a = true -> finb b = true -> F2R a = F2R b -> F2R a <> 0 -> a = b.
Proof.
  intros Ha Hb E Hne. apply finb_iff in Ha, Hb.
  destruct Ha as [Va Fa], Hb as [Vb Fb].
  pose proof (SFcompare_spec a b Va Vb Fa Fb) as H.
  destruct (SFcompare a b) as [[| |] |] eqn:Ec; try lra; try contradiction.
  destruct (SFcompare_eq a b Ec) as [-> | (_ & H0 & _)];
    [reflexivity | contradiction].
Qed.

(** Multiplying a finite float by 1.0 leaves it as it is. *)
Lemma mul_one_r (x : float) : finb x = true -> mul x one = x.
Proof.
  intros Hx. pose proof Hx as Hx'. apply finb_iff in Hx'.
  destruct Hx' as [Vx Fx].
  assert (Hc : (exists s, x = S754_zero s) \/ F2R x <> 0).
  { destruct x as [s | s | | s m e]; try discriminate.
    - left. now exists s.
    - right. cbn [F2R].
      pose proof (IZR_pos_gt_0 m). pose proof (bpow_pos e).
      destruct s; nra. }
  destruct Hc as [[s ->] | Hne]; [destruct s; reflexivity |].
  assert (R : rounds (F2R x) (mul x one)).
  { replace (F2R x) with (F2R x * F2R one) by (rewrite F2R_one; lra).
    apply mul_rounds; auto. }
  destruct (rounds_representable _ _ x R Hx eq_refl) as [Hf E].
  apply finite_eq; try assumption. now rewrite E.
Qed.

(** Subtracting 1.0 from a finite float gives a finite float. *)
Lemma sub_one_finite (a : float) : finb a = true -> finb (sub a one) = true.
Proof.
  intros Ha. destruct (within_max_float a Ha) as [_ [A1 A2]].
  apply finb_iff in Ha. destruct Ha as [Va Fa].
  apply (within_fin (sub (opp max_float) one) max_float).
  apply (rounds_within (F2R a - F2R one)
           (F2R (opp max_float) - F2R one) (F2R max_float)).
  - now apply sub_rounds.
  - apply sub_rounds; reflexivity.
  - apply rounds_exact; reflexivity.
  - rewrite F2R_one. lra.
  - reflexivity.
  - reflexivity.
Qed.

End ExactProducts.

Lemma add_one_zero (s : bool) : add one (S754_zero s) = one.
Proof. destruct s; reflexivity. Qed.

(** ** Zoom multiplier *)

Lemma dynamic_factor_clamped (s : Settings) (m sm : float) :
  is_nan (dynamic_factor s m sm) = true \/
  (leb (lit 85 100) (dynamic_factor s m sm) = true /\
   leb (dynamic_factor s m sm) (lit 115 100) = true).
Proof.
  unfold dynamic_factor.
  set (d := add one (mul (sub (velocity_ratio m sm) one)
                         (cfg_dynamic_adjustment s))).
  destruct (is_nan d) eqn:Nd.
  - left. destruct d; try discriminate. reflexivity.
  - right. destruct (ltb d (lit 85 100)) eqn:H1.
    + split; reflexivity.
    + assert (L1 : leb (lit 85 100) d = true)
        by (apply not_ltb_leb; auto).
      destruct (gtb d (lit 115 100)) eqn:H2.
      * split; reflexivity.
      * split; [exact L1 |]. apply not_ltb_leb; auto.
Qed.

Lemma dynamic_factor_default (s : Settings) (m sm : float) :
  cfg_dynamic_adjustment s = zero ->
  finb (velocity_ratio m sm) = true ->
  dynamic_factor s m sm = one.
Proof.
  intros Hd Hr. unfold dynamic_factor. rewrite Hd.
  pose proof (sub_one_finite _ Hr) as Hs. apply finb_iff in Hs.
  destruct (mul_zero_r _ (proj2 Hs)) as [z ->].
  rewrite add_one_zero. reflexivity.
Qed.

Lemma sinusoidal_factor_default (s : Settings) (wave : float) :
  cfg_zoom_oscillation s = zero -> is_finite wave = true ->
  sinusoidal_factor s wave = one.
Proof.
  intros Hz Hw. unfold sinusoidal_factor. rewrite Hz.
  destruct (mul_zero_r _ Hw) as [z ->]. apply add_one_zero.
Qed.

(** X20. The zoom multiplier.  For any settings the velocity-based factor
    is NaN or within [0.85, 1.15].  With the two amplitudes at 0, as by
    default, that factor and the oscillation factor are exactly 1 and the
    combined multiplier is exactly the smoothed base multiplier, as long as
    the velocity ratio, the sine and the base multiplier are finite. *)
Theorem zoom_multiplier :
  (forall s m sm,
      is_nan (dynamic_factor s m sm) = true \/
      (leb (lit 85 100) (dynamic_factor s m sm) = true /\
       leb (dynamic_factor s m sm) (lit 115 100) = true)) /\
  (forall s base m sm wave,
      cfg_dynamic_adjustment s = zero -> cfg_zoom_oscillation s = zero ->
      finb (velocity_ratio m sm) = true -> is_finite wave = true ->
      finb base = true ->
      dynamic_factor s m sm = one /\ sinusoidal_factor s wave = one /\
      combined_multiplier s base m sm wave = base).
Proof.
  split; [exact dynamic_factor_clamped |].
  intros s base m sm wave Hd Hz Hr Hw Hb.
  pose proof (dynamic_factor_default s m sm Hd Hr) as E1.
  pose proof (sinusoidal_factor_default s wave Hz Hw) as E2.
  split; [exact E1 |]. split; [exact E2 |].
  unfold combined_multiplier. rewrite E1, E2.
  rewrite (mul_one_r base Hb). exact (mul_one_r base Hb).
Qed.

(** ** Smoothed maximal speed *)

Lemma floor_one_within (m : float) :
  speed_ok m -> within one two_100 (floor_one m).
Proof.
  intros [Vm Lm]. destruct (leb_not_nan _ _ Lm) as [Nm _].
  unfold floor_one. destruct (ltb m one) eqn:Hlt.
  - apply leb_within; reflexivity.
  - apply leb_within; try reflexivity; try assumption.
    apply not_ltb_leb; auto.
Qed.

Lemma max_spd_step_within (sm m : float) :
  within one two_100 sm -> speed_ok m ->
  within one two_100 (max_spd_step sm m).
Proof.
  intros Ws Hm. pose proof (floor_one_within m Hm) as Wf.
  pose proof (within_moderate one two_100 sm eq_refl eq_refl Ws) as Ms.
  pose proof (within_moderate one two_100 _ eq_refl eq_refl Wf) as Mf.
  unfold max_spd_step.
  destruct (smooth_between sm (floor_one m) cam_rate Ms Mf
              eq_refl eq_refl eq_refl) as (Hf & Hup & Hdown).
  destruct Ws as [_ [S1 S2]], Wf as [_ [F1 F2]].
  split; [exact Hf |].
  destruct (Rle_or_lt (F2R sm) (F2R (floor_one m))) as [Hle | Hgt].
  - destruct (Hup Hle). lra.
  - destruct (Hdown ltac:(lra)). lra.
Qed.

(** X18. The smoothed maximal speed never falls below its initial value
    1.0: for maximal speeds that are numbers of at most [2^100], it is a
    finite number in [1, 2^100] after every frame, so that the heat
    [spd / smooth_max_spd] of a particle with a finite speed is a number:
    the division is never by zero. *)
Theorem smooth_max_spd_floor (speeds : list float)
    (Hs : Forall speed_ok speeds) :
  within one two_100 (max_spd_run speeds) /\
  (forall q, is_finite (speed q) = true ->
             valid (heat (max_spd_run speeds) q) = true /\
             is_nan (heat (max_spd_run speeds) q) = false).
Proof.
  assert (W : within one two_100 (max_spd_run speeds)).
  { unfold max_spd_run.
    assert (H1 : within one two_100 one) by (apply leb_within; reflexivity).
    revert H1. generalize one at 2 4 as sm.
    induction Hs as [| m l Hm _ IH]; intros sm Hsm; cbn [fold_left].
    - exact Hsm.
    - apply IH. now apply max_spd_step_within. }
  split; [exact W |].
  intros q Fq. unfold heat.
  destruct (within_leb one two_100 _ eq_refl eq_refl W) as [L1 _].
  destruct W as [Hf _]. apply finb_iff in Hf.
  apply div_by_ge_one; try tauto.
  apply finb_iff. split; [apply speed_valid | exact Fq].
Qed.

Lemma smooth_max_spd_floor_witness :
  within one two_100 (max_spd_run [zero; of_Z 3]).
Proof.
  refine (proj1 (smooth_max_spd_floor [zero; of_Z 3] _)).
  repeat constructor.
Defined.

(** ** Base multiplier *)

Lemma run_sched_current_range (fpf start : Z) (n : nat) :
  0 <= start < NUM_TYPES ->
  0 <= current_type (fst (run_sched fpf start n)) < NUM_TYPES.
Proof.
  intros Hs. destruct (run_sched_types fpf start n Hs) as [-> _].
  unfold NUM_TYPES. apply Z.mod_pos_bound. lia.
Qed.

Lemma multiplier_at_within (s : Settings) (lo hi : float) (type : Z) :
  length (ATTRACTOR_BASE_MULTIPLIERS s) = 5%nat ->
  Forall (within lo hi) (ATTRACTOR_BASE_MULTIPLIERS s) ->
  0 <= type < NUM_TYPES ->
  exists m, multiplier_at s type = Some m /\ within lo hi m.
Proof.
  intros Hl Hm Ht. unfold multiplier_at, NUM_TYPES in *.
  destruct (Z.ltb_spec type 0); [lia |].
  destruct (nth_error (ATTRACTOR_BASE_MULTIPLIERS s) (Z.to_nat type))
    as [m |] eqn:E.
  - exists m. split; [reflexivity |].
    rewrite Forall_forall in Hm. apply Hm. now apply nth_error_In in E.
  - apply nth_error_None in E. lia.
Qed.

(** X19. With a start type in 0..4 and the five multipliers between [lo]
    and [hi], the read of the multiplier array is within the array at every
    frame and the smoothed base multiplier stays a finite number between
    [lo] and [hi]. *)
Theorem base_multiplier_bounded (s : Settings) (fpf start : Z)
    (lo hi : float) (n : nat)
    (Hstart : 0 <= start < NUM_TYPES)
    (Hlen : length (ATTRACTOR_BASE_MULTIPLIERS s) = 5%nat)
    (Hlo : moderate lo = true) (Hhi : moderate hi = true)
    (Hm : Forall (within lo hi) (ATTRACTOR_BASE_MULTIPLIERS s)) :
  exists m, base_multiplier_run s fpf start n = Some m /\ within lo hi m.
Proof.
  induction n as [| k (m & E & W)].
  - cbn [base_multiplier_run]. now apply multiplier_at_within.
  - cbn [base_multiplier_run]. rewrite E. unfold base_multiplier_step.
    destruct (multiplier_at_within s lo hi
                (current_type (fst (run_sched fpf start (S k))))
                Hlen Hm (run_sched_current_range fpf start (S k) Hstart))
      as (t & -> & Wt).
    eexists. split; [reflexivity |].
    pose proof (within_moderate lo hi m Hlo Hhi W) as Mm.
    pose proof (within_moderate lo hi t Hlo Hhi Wt) as Mt.
    destruct (smooth_between m t lerp_rate Mm Mt eq_refl eq_refl eq_refl)
      as (Hf & Hup & Hdown).
    destruct W as [_ [S1 S2]], Wt as [_ [F1 F2]].
    split; [exact Hf |].
    destruct (Rle_or_lt (F2R m) (F2R t)) as [Hle | Hgt].
    + destruct (Hup Hle). lra.
    + destruct (Hdown ltac:(lra)). lra.
Qed.

Lemma base_multiplier_bounded_witness :
  exists m, base_multiplier_run default_settings 300 2 2000 = Some m /\
            within (lit 8 10) (lit 25 10) m.
Proof.
  apply (base_multiplier_bounded default_settings 300 2
           (lit 8 10) (lit 25 10) 2000).
  - unfold NUM_TYPES. lia.
  - reflexivity.
  - reflexivity.
  - reflexivity.
  - repeat (apply Forall_cons; [apply leb_within; reflexivity |]).
    apply Forall_nil.
Defined.

(** ** Start type *)

(** X3. The start type of the command line.  For an argument that is not
    negative it is an index in 0..4; for a negative argument that is not a
    multiple of 5 it is in -4..-1, outside the multiplier array, and for
    such a type the parameters are all 0, no random number is drawn, and
    the derivative is 0 at every point. *)
Theorem start_type_of_arg_range :
  (forall n, 0 <= n -> 0 <= start_type_of_arg n < NUM_TYPES) /\
  (forall n, n < 0 -> Z.rem n NUM_TYPES <> 0 ->
      -4 <= start_type_of_arg n <= -1 /\
      (forall s, multiplier_at s (start_type_of_arg n) = None) /\
      (forall RAND_MAX (RandState : Type)
              (rand : RandState -> Z * RandState) g,
          get_target_params RAND_MAX rand (start_type_of_arg n) g =
          (zero_params, g)) /\
      (forall sinf p x y z,
          field sinf (start_type_of_arg n) p x y z = (zero, zero, zero))).
Proof.
  unfold start_type_of_arg, NUM_TYPES. split.
  - intros n Hn. rewrite Z.rem_mod_nonneg by lia.
    apply Z.mod_pos_bound. lia.
  - intros n Hn Hr.
    pose proof (Z.rem_bound_pos_neg n 5) as Hb.
    assert (Hb' : - 5 < Z.rem n 5 <= 0) by (apply Hb; lia).
    assert (Ht : -4 <= Z.rem n 5 <= -1) by lia.
    set (t := Z.rem n 5) in *. clearbody t.
    split; [exact Ht |]. split; [| split].
    + intros s. unfold multiplier_at.
      destruct (Z.ltb_spec t 0); [reflexivity | lia].
    + intros RM RS rand g. unfold get_target_params.
      unfold TYPE_AIZAWA, TYPE_THOMAS, TYPE_LORENZ, TYPE_HALVORSEN, TYPE_CHEN.
      repeat match goal with
             | |- context [t =? ?k] =>
                 destruct (Z.eqb_spec t k); [lia |]
             end.
      reflexivity.
    + intros sinf p x y z. unfold field.
      unfold TYPE_AIZAWA, TYPE_THOMAS, TYPE_LORENZ, TYPE_HALVORSEN, TYPE_CHEN.
      repeat match goal with
             | |- context [t =? ?k] =>
                 destruct (Z.eqb_spec t k); [lia |]
             end.
      reflexivity.
Qed.

(** ** Chapter time stamps *)

(** X25. The time stamp of a frame: seconds in 0..59, minutes not
    negative, and together the number of whole seconds [frame / 60] at 60
    frames per second. *)
Theorem timestamp_spec (frame : Z) (Hframe : 0 <= frame) :
  let '(mins, secs) := timestamp frame in
  0 <= secs < 60 /\ 0 <= mins /\
  60 * mins + secs = frame / 60 /\
  60 * (60 * mins + secs) <= frame < 60 * (60 * mins + secs) + 60.
Proof.
  unfold timestamp, framerate.
  rewrite (Z.quot_div_nonneg frame 60) by lia.
  assert (H0 : 0 <= frame / 60) by (apply Z.div_pos; lia).
  rewrite Z.quot_div_nonneg, Z.rem_mod_nonneg by lia.
  pose proof (Z.div_mod frame 60 ltac:(lia)) as H1.
  pose proof (Z.mod_pos_bound frame 60 ltac:(lia)) as H2.
  pose proof (Z.div_mod (frame / 60) 60 ltac:(lia)) as H3.
  pose proof (Z.mod_pos_bound (frame / 60) 60 ltac:(lia)) as H4.
  assert (0 <= frame / 60 / 60) by (apply Z.div_pos; lia).
  repeat split; lia.
Qed.

Lemma timestamp_spec_witness :
  let '(mins, secs) := timestamp 4000 in
  0 <= secs < 60 /\ 0 <= mins /\
  60 * mins + secs = 4000 / 60 /\
  60 * (60 * mins + secs) <= 4000 < 60 * (60 * mins + secs) + 60.
Proof. exact (timestamp_spec 4000 ltac:(lia)). Defined.

Lemma zoom_multiplier_witness :
  combined_multiplier default_settings (lit 25 10) (of_Z 3) (of_Z 4) one =
  lit 25 10.
Proof.
  exact (proj2 (proj2 (proj2 zoom_multiplier default_settings (lit 25 10)
                         (of_Z 3) (of_Z 4) one
                         eq_refl eq_refl eq_refl eq_refl eq_refl))).
Defined.

Lemma start_type_of_arg_range_witness :
  -4 <= start_type_of_arg (-3) <= -1 /\
  multiplier_at default_settings (start_type_of_arg (-3)) = None.
Proof.
  pose proof (proj2 start_type_of_arg_range (-3) ltac:(lia)
                ltac:(vm_compute; discriminate)) as H.
  exact (conj (proj1 H) (proj1 (proj2 H) default_settings)).
Defined.

(** ** Integrator: the origin *)

Lemma is_zero_finite (x : float) : is_zero x = true -> is_finite x = true.
Proof. destruct x; try discriminate; reflexivity. Qed.

Lemma mul_zero_left (a b : float) :
  is_zero a = true -> is_finite b = true -> is_zero (mul a b) = true.
Proof.
  destruct a as [? | ? | | ? ? ?], b as [? | ? | | ? ? ?];
    try discriminate; reflexivity.
Qed.

Lemma mul_zero_right (a b : float) :
  is_finite a = true -> is_zero b = true -> is_zero (mul a b) = true.
Proof.
  destruct a as [? | ? | | ? ? ?], b as [? | ? | | ? ? ?];
    try discriminate; reflexivity.
Qed.

Lemma add_zeros (a b : float) :
  is_zero a = true -> is_zero b = true -> is_zero (add a b) = true.
Proof.
  destruct a as [[|] | ? | | ? ? ?], b as [[|] | ? | | ? ? ?];
    try discriminate; reflexivity.
Qed.

Lemma sub_zeros (a b : float) :
  is_zero a = true -> is_zero b = true -> is_zero (sub a b) = true.
Proof.
  destruct a as [[|] | ? | | ? ? ?], b as [[|] | ? | | ? ? ?];
    try discriminate; reflexivity.
Qed.

Lemma opp_finite (a : float) : is_finite a = true -> is_finite (opp a) = true.
Proof. destruct a; try discriminate; reflexivity. Qed.

Lemma add_zero_any (a : float) :
  is_zero a = true -> add zero a = zero.
Proof. destruct a as [[|] | ? | | ? ? ?]; try discriminate; reflexivity. Qed.

Lemma sub_finite_zero (b z : float) :
  is_finite b = true -> is_zero z = true -> is_finite (sub b z) = true.
Proof.
  destruct b as [[|] | ? | | ? ? ?], z as [[|] | ? | | ? ? ?];
    try discriminate; reflexivity.
Qed.

Create HintDb zeros.

#[local] Hint Resolve is_zero_finite mul_zero_left mul_zero_right add_zeros
  sub_zeros opp_finite sub_finite_zero : zeros.

Section Moderate.
Local Open Scope R_scope.

(** The difference of two floats of moderate size is finite. *)
Lemma sub_moderate (a b : float) :
  moderate a = true -> moderate b = true -> finb (sub a b) = true.
Proof.
  intros Ma Mb. apply moderate_iff in Ma, Mb.
  destruct Ma as [Ha Ba], Mb as [Hb Bb].
  apply finb_iff in Ha, Hb. apply Rabs_le_inv in Ba, Bb.
  assert (B101 : bpow 101 = 2 * bpow 100).
  { rewrite <- bpow_succ. reflexivity. }
  assert (Fm : F2R (opp two_101) = - bpow 101).
  { rewrite F2R_opp, F2R_two_101. reflexivity. }
  apply (within_fin (opp two_101) two_101).
  apply (rounds_within (F2R a - F2R b) (F2R (opp two_101)) (F2R two_101)).
  - apply sub_rounds; tauto.
  - apply rounds_exact; reflexivity.
  - apply rounds_exact; reflexivity.
  - rewrite Fm, F2R_two_101. lra.
  - reflexivity.
  - reflexivity.
Qed.

End Moderate.

Lemma moderate_finite (a : float) : moderate a = true -> is_finite a = true.
Proof.
  intros H. apply moderate_iff in H. destruct H as [H _].
  now apply finb_iff in H.
Qed.

Section Origin.

Variable sinf : float -> float.

(** At the origin the fields of Lorenz, Halvorsen and Chen are zero. *)
Lemma field_origin (type : Z) (p : Params) :
  origin_type type = true -> params_moderate p = true ->
  let '(dx, dy, dz) := field sinf type p zero zero zero in
  is_zero dx = true /\ is_zero dy = true /\ is_zero dz = true.
Proof.
  intros Ht Hp. unfold params_moderate in Hp.
  do 5 (apply andb_true_iff in Hp; destruct Hp as [Hp ?]).
  assert (Fa : is_finite (p_a p) = true) by now apply moderate_finite.
  assert (Fb : is_finite (p_b p) = true) by now apply moderate_finite.
  assert (Fc : is_finite (p_c p) = true) by now apply moderate_finite.
  assert (Fca : is_finite (sub (p_c p) (p_a p)) = true).
  { assert (Hs : finb (sub (p_c p) (p_a p)) = true)
      by now apply sub_moderate.
    now apply finb_iff in Hs. }
  assert (Z0 : is_zero zero = true) by reflexivity.
  assert (F4 : is_finite (of_Z 4) = true) by reflexivity.
  unfold origin_type in Ht. unfold field.
  unfold TYPE_AIZAWA, TYPE_THOMAS, TYPE_LORENZ, TYPE_HALVORSEN, TYPE_CHEN
    in *.
  destruct (Z.eqb_spec type 0) as [-> | _]; [discriminate |].
  destruct (Z.eqb_spec type 1) as [-> | _]; [discriminate |].
  destruct (Z.eqb_spec type 2) as [-> | _].
  { cbv beta iota zeta. repeat split; auto 8 with zeros. }
  destruct (Z.eqb_spec type 3) as [-> | _].
  { cbv beta iota zeta. repeat split; auto 8 with zeros. }
  destruct (Z.eqb_spec type 4) as [-> | _]; [| discriminate].
  cbv beta iota zeta. repeat split; auto 8 with zeros.
Qed.

(** X13. Particles stuck at the origin.  Every particle whose index is 500
    modulo 1000 (below the overflow of the hash) respawns exactly at the
    origin; and in a frame whose current and previous types are among
    Lorenz, Halvorsen and Chen, with parameters of moderate size and a
    finite blend, a particle at the origin stays exactly at the origin,
    whatever its index, with a stored velocity of zero. *)
Theorem origin_is_fixed :
  (forall k, 0 <= k <= 1617 -> respawn_coord (1000 * k + 500) = zero) /\
  (forall cur_type prev_type p blend i v1 v2 v3,
      origin_type cur_type = true -> origin_type prev_type = true ->
      params_moderate p = true -> is_finite blend = true ->
      let q := integrate_particle sinf cur_type prev_type p blend i
                 (mkParticle zero zero zero v1 v2 v3) in
      px q = zero /\ py q = zero /\ pz q = zero /\
      is_zero (vx q) = true /\ is_zero (vy q) = true /\
      is_zero (vz q) = true).
Proof.
  split.
  - intros k Hk. rewrite respawn_coord_rem.
    rewrite wrap_int_small by lia.
    replace ((1000 * k + 500) * 1327) with (500 + (1327 * k + 663) * 1000)
      by lia.
    rewrite Z.rem_mod_nonneg by lia.
    rewrite Z.mod_add by lia. reflexivity.
  - intros tc tp p blend i v1 v2 v3 Hc Hpv Hp Hb.
    pose proof (field_origin tc p Hc Hp) as H1.
    pose proof (field_origin tp p Hpv Hp) as H2.
    unfold integrate_particle. cbn [px py pz].
    destruct (field sinf tc p zero zero zero) as [[dxc dyc] dzc].
    destruct (field sinf tp p zero zero zero) as [[dxp dyp] dzp].
    destruct H1 as (C1 & C2 & C3), H2 as (P1 & P2 & P3).
    assert (Hd : forall dp dc, is_zero dp = true -> is_zero dc = true ->
               is_zero (add dp (mul (sub dc dp) blend)) = true).
    { intros dp dc Hdp Hdc. apply add_zeros; [exact Hdp |].
      apply mul_zero_left; [now apply sub_zeros | exact Hb]. }
    pose proof (Hd _ _ P1 C1) as D1.
    pose proof (Hd _ _ P2 C2) as D2.
    pose proof (Hd _ _ P3 C3) as D3.
    set (dx := add dxp (mul (sub dxc dxp) blend)) in *.
    set (dy := add dyp (mul (sub dyc dyp) blend)) in *.
    set (dz := add dzp (mul (sub dzc dzp) blend)) in *.
    assert (Hx : forall d, is_zero d = true -> add zero (mul d DT) = zero).
    { intros d Hz. apply add_zero_any. now apply mul_zero_left. }
    rewrite (Hx dx D1), (Hx dy D2), (Hx dz D3).
    unfold recover. change (escaped zero zero zero) with false.
    cbn [px py pz vx vy vz]. repeat split; assumption.
Qed.

End Origin.

Lemma origin_is_fixed_witness :
  let q := integrate_particle (fun _ => zero) TYPE_CHEN TYPE_LORENZ
             (fst (get_target_params 32767 lcg_rand TYPE_CHEN 1))
             (lit 5 10) 7 (mkParticle zero zero zero one one one) in
  px q = zero /\ py q = zero /\ pz q = zero /\
  is_zero (vx q) = true /\ is_zero (vy q) = true /\ is_zero (vz q) = true.
Proof.
  exact (proj2 (origin_is_fixed (fun _ => zero)) TYPE_CHEN TYPE_LORENZ
           (fst (get_target_params 32767 lcg_rand TYPE_CHEN 1))
           (lit 5 10) 7 one one one eq_refl eq_refl eq_refl eq_refl).
Defined.

(** ** Rendering particles inside the escape bound *)

Section Symmetric.
Local Open Scope R_scope.

Lemma rounds_opp (x : R) (f : float) : rounds x f -> rounds (- x) (opp f).
Proof.
  intros (H0 & Hp & Hn). split; [| split].
  - intros E. destruct (H0 ltac:(lra)) as [-> | ->];
      [right | left]; reflexivity.
  - intros Hx. apply Hn. lra.
  - intros Hx. rewrite Ropp_involutive, opp_opp. apply Hp. lra.
Qed.

Lemma bounded_abs (B x : float) :
  bounded B x -> finb x = true /\ Rabs (F2R x) <= F2R B.
Proof.
  intros [Hx [H1 H2]]. rewrite F2R_opp in H1.
  split; [exact Hx |]. apply Rabs_le_intro. lra.
Qed.

(** The rounding of a real of magnitude at most that of a rounding. *)
Lemma bounded_rounds (r R' : R) (x B : float) :
  rounds r x -> rounds R' B -> is_finite B = true -> Rabs r <= R' ->
  bounded B x.
Proof.
  intros Hx HB FB Hr. apply Rabs_le_inv in Hr.
  apply (rounds_within r (- R') R' x (opp B) B); try assumption.
  - now apply rounds_opp.
  - now destruct B.
Qed.

Lemma mul_bounded (A B a b : float) :
  finb A = true -> finb B = true -> is_finite (mul A B) = true ->
  bounded A a -> bounded B b -> bounded (mul A B) (mul a b).
Proof.
  intros HA HB HF Ha Hb.
  destruct (bounded_abs A a Ha) as [Fa Ba].
  destruct (bounded_abs B b Hb) as [Fb Bb].
  apply finb_iff in HA, HB, Fa, Fb.
  apply (bounded_rounds (F2R a * F2R b) (F2R A * F2R B)); try assumption.
  - apply mul_rounds; tauto.
  - apply mul_rounds; tauto.
  - rewrite Rabs_mult.
    pose proof (Rabs_pos (F2R a)). pose proof (Rabs_pos (F2R b)). nra.
Qed.

Lemma add_bounded (A B a b : float) :
  finb A = true -> finb B = true -> is_finite (add A B) = true ->
  bounded A a -> bounded B b -> bounded (add A B) (add a b).
Proof.
  intros HA HB HF Ha Hb.
  destruct (bounded_abs A a Ha) as [Fa Ba].
  destruct (bounded_abs B b Hb) as [Fb Bb].
  apply finb_iff in HA, HB, Fa, Fb.
  apply (bounded_rounds (F2R a + F2R b) (F2R A + F2R B)); try assumption.
  - apply add_rounds; tauto.
  - apply add_rounds; tauto.
  - pose proof (Rabs_triang (F2R a) (F2R b)). lra.
Qed.

Lemma sub_bounded (A B a b : float) :
  finb A = true -> finb B = true -> is_finite (add A B) = true ->
  bounded A a -> bounded B b -> bounded (add A B) (sub a b).
Proof.
  intros HA HB HF Ha Hb.
  destruct (bounded_abs A a Ha) as [Fa Ba].
  destruct (bounded_abs B b Hb) as [Fb Bb].
  apply finb_iff in HA, HB, Fa, Fb.
  apply (bounded_rounds (F2R a - F2R b) (F2R A + F2R B)); try assumption.
  - apply sub_rounds; tauto.
  - apply add_rounds; tauto.
  - pose proof (Rabs_triang (F2R a) (- F2R b)) as H.
    rewrite Rabs_Ropp in H. unfold Rminus. lra.
Qed.

Lemma bounded_weaken (A B x : float) :
  finb A = true -> finb B = true -> leb A B = true ->
  bounded A x -> bounded B x.
Proof.
  intros HA HB L [Hx [H1 H2]].
  apply finb_iff in HA, HB. apply leb_F2R in L; try tauto.
  split; [exact Hx |]. rewrite F2R_opp in *. lra.
Qed.

Lemma F2R_int_big : F2R int_big = 2147483520.
Proof.
  unfold int_big. cbn [F2R]. rewrite (bpow_IZR 7) by lia.
  change (2 ^ 7)%Z with 128%Z. lra.
Qed.

(** A float of magnitude below [2^31] converts to an [int]. *)
Lemma to_int_defined (x : float) :
  bounded int_big x -> exists v, to_int x = Some v.
Proof.
  intros Hb. destruct (bounded_abs _ _ Hb) as [Hx Ba].
  rewrite F2R_int_big in Ba.
  pose proof Hx as Hx'. apply finb_iff in Hx'. destruct Hx' as [Vx Fx].
  destruct x as [s | s | | s m e]; try discriminate.
  - exists 0%Z. reflexivity.
  - assert (Ha : finb (S754_finite false m e) = true).
    { apply finb_iff. split; [| reflexivity].
      apply valid_finite_iff in Vx. now apply valid_finite_iff. }
    pose proof (IZR_pos_gt_0 m) as Hm. pose proof (bpow_pos e) as He.
    assert (H0 : 0 <= F2R (S754_finite false m e)) by (cbn [F2R]; nra).
    destruct (trunc_spec _ Ha H0) as (a & Ea & A1 & A2).
    assert (Habs : F2R (S754_finite false m e) <= 2147483520).
    { apply Rabs_le_inv in Ba. cbn [F2R] in *. destruct s; lra. }
    assert (Hr : (0 <= a <= 2147483520)%Z).
    { split.
      - assert (H' : IZR (-1) < IZR a) by (change (IZR (-1)) with (-1); lra).
        apply lt_IZR in H'. lia.
      - apply le_IZR. lra. }
    unfold to_int. cbn [trunc] in *. injection Ea as Ea. rewrite Ea.
    unfold INT_MIN, INT_MAX.
    destruct s; eexists;
      match goal with
      | |- (if ?c then _ else _) = _ =>
          replace c with true; [reflexivity |]
      end; symmetry; apply andb_true_iff; split; apply Z.leb_le; lia.
Qed.

(** The square root of a finite float that is not negative, of magnitude
    at most [2^122], is finite. *)
Lemma sqrt_finite (x : float) :
  finb x = true -> leb zero x = true ->
  leb x (S754_finite false 8388608 99) = true ->
  finb (sqrt x) = true.
Proof.
  intros Hx H0 H1. pose proof Hx as Hx'. apply finb_iff in Hx'.
  destruct Hx' as [Vx Fx].
  destruct x as [s | s | | [|] m e]; try discriminate.
  - destruct s; reflexivity.
  - pose proof (sqrt_rounds m e) as Hr.
    apply leb_F2R in H1; try assumption; try reflexivity.
    set (r := F2R (S754_finite false m e)) in *.
    assert (Hr0 : 0 <= r).
    { unfold r. cbn [F2R]. pose proof (IZR_pos_gt_0 m).
      pose proof (bpow_pos e). nra. }
    assert (Hs : R_sqrt.sqrt r <= r + 1).
    { rewrite <- (sqrt_square (r + 1)) by lra.
      apply sqrt_le_1; nra. }
    assert (Hbig : F2R (S754_finite false 8388608 99) + 1
                   <= F2R (S754_finite false 8388608 100)).
    { cbn [F2R]. replace 100%Z with (99 + 1)%Z by lia.
      rewrite bpow_succ. pose proof (bpow_le 0 99 ltac:(lia)) as Hb.
      rewrite bpow_0 in Hb. nra. }
    apply (within_fin zero (S754_finite false 8388608 100)).
    apply (rounds_within (R_sqrt.sqrt r) 0
             (F2R (S754_finite false 8388608 100))).
    + exact Hr.
    + apply (rounds_zero false).
    + apply rounds_exact; reflexivity.
    + split; [apply sqrt_pos | lra].
    + reflexivity.
    + reflexivity.
Qed.

End Symmetric.

Lemma rot_x_bounded (c s : float) (q : Particle) :
  bounded one c -> bounded one s ->
  bounded MAX_COORD (px q) -> bounded MAX_COORD (pz q) ->
  bounded (of_Z 160) (rot_x c s q).
Proof.
  intros Hc Hs Hx Hz. unfold rot_x.
  exact (sub_bounded (mul MAX_COORD one) (mul MAX_COORD one) _ _
           eq_refl eq_refl eq_refl
           (mul_bounded MAX_COORD one _ _ eq_refl eq_refl eq_refl Hx Hc)
           (mul_bounded MAX_COORD one _ _ eq_refl eq_refl eq_refl Hz Hs)).
Qed.

Lemma rot_z_bounded (c s : float) (q : Particle) :
  bounded one c -> bounded one s ->
  bounded MAX_COORD (px q) -> bounded MAX_COORD (pz q) ->
  bounded (of_Z 160) (rot_z c s q).
Proof.
  intros Hc Hs Hx Hz. unfold rot_z.
  exact (add_bounded (mul MAX_COORD one) (mul MAX_COORD one) _ _
           eq_refl eq_refl eq_refl
           (mul_bounded MAX_COORD one _ _ eq_refl eq_refl eq_refl Hx Hs)
           (mul_bounded MAX_COORD one _ _ eq_refl eq_refl eq_refl Hz Hc)).
Qed.

(** The pixel coordinate of a point within 160 units of the origin, for a
    camera centre within 1000 units and a scale of at most [10^6], is of
    magnitude below [2^31]: its conversion to [int] is defined. *)
Lemma screen_coord_defined (c cam scale : float) (size : Z) :
  bounded (of_Z 160) c -> bounded (of_Z 1000) cam ->
  bounded (of_Z 1000000) scale ->
  bounded (of_Z 960) (of_Z (Z.quot size 2)) ->
  exists v, screen_coord c cam scale size = Some v.
Proof.
  intros Hc Hcam Hs Hh. unfold screen_coord.
  apply to_int_defined.
  pose proof (sub_bounded (of_Z 160) (of_Z 1000) c cam
                eq_refl eq_refl eq_refl Hc Hcam) as H1.
  pose proof (mul_bounded (add (of_Z 160) (of_Z 1000)) (of_Z 1000000)
                _ scale eq_refl eq_refl eq_refl H1 Hs) as H2.
  pose proof (add_bounded
                (mul (add (of_Z 160) (of_Z 1000)) (of_Z 1000000))
                (of_Z 960) _ _ eq_refl eq_refl eq_refl H2 Hh) as H3.
  revert H3. apply bounded_weaken; reflexivity.
Qed.

Section SpeedBound.
Local Open Scope R_scope.

Lemma square_nonneg (v : float) :
  finb v = true -> leb zero (mul v v) = true.
Proof.
  intros Hv. apply finb_iff in Hv. destruct Hv as [Vv Fv].
  apply (rounds_mono 0 (F2R v * F2R v));
    [apply (rounds_zero false) | now apply mul_rounds | nra].
Qed.

Lemma finite_nonneg (x : float) :
  is_finite x = true -> nan_or_nonneg x = true -> leb zero x = true.
Proof.
  intros Fx H. apply nan_or_nonneg_cases in H.
  destruct H as [H | H]; [| exact H].
  destruct x; discriminate.
Qed.

(** The speed of a particle whose velocity components are of magnitude at
    most [2^60] is finite. *)
Lemma speed_finite (q : Particle) :
  bounded two_60 (vx q) -> bounded two_60 (vy q) -> bounded two_60 (vz q) ->
  finb (speed q) = true.
Proof.
  intros Hx Hy Hz. unfold speed.
  set (S := mul two_60 two_60).
  assert (Hsq : forall v, bounded two_60 v ->
                bounded S (mul v v) /\ leb zero (mul v v) = true).
  { intros v Hv. split.
    - exact (mul_bounded two_60 two_60 v v eq_refl eq_refl eq_refl Hv Hv).
    - apply square_nonneg. exact (proj1 Hv). }
  destruct (Hsq _ Hx) as [Bx Nx].
  destruct (Hsq _ Hy) as [By Ny].
  destruct (Hsq _ Hz) as [Bz Nz].
  pose proof (add_bounded S S _ _ eq_refl eq_refl eq_refl Bx By) as Bxy.
  pose proof (add_bounded (add S S) S _ _ eq_refl eq_refl eq_refl Bxy Bz)
    as Bs.
  set (sum := add (add (mul (vx q) (vx q)) (mul (vy q) (vy q)))
                  (mul (vz q) (vz q))) in *.
  pose proof (proj1 Bs) as Hf. pose proof Hf as Hf'.
  apply finb_iff in Hf'. destruct Hf' as [Vs Fs].
  assert (Vxy : finb (add (mul (vx q) (vx q)) (mul (vy q) (vy q))) = true)
    by exact (proj1 Bxy).
  pose proof (proj1 Bx) as Fx. pose proof (proj1 By) as Fy.
  pose proof (proj1 Bz) as Fz.
  apply finb_iff in Vxy, Fx, Fy, Fz.
  assert (N0 : leb zero sum = true).
  { apply finite_nonneg; [exact Fs |].
    apply add_nonneg; try tauto.
    - apply add_nonneg; try tauto; apply nan_or_nonneg_cases; right;
        assumption.
    - apply nan_or_nonneg_cases. now right. }
  apply sqrt_finite; try assumption.
  destruct (within_leb (opp (add (add S S) S)) (add (add S S) S) sum
              eq_refl eq_refl Bs) as [_ L].
  apply (leb_trans sum (add (add S S) S)); try assumption; reflexivity.
Qed.

End SpeedBound.

(** Inside the bounds a particle is renderable and its conversions are
    defined. *)
Lemma particle_ok_renders (v : View) (q : Particle) :
  view_ok v -> particle_ok q -> renderable v q /\ projects v q.
Proof.
  intros (Hc & Hs & Hcx & Hcy & Hsc & Hm) (Hx & Hy & Hz & Vx & Vy & Vz).
  split.
  - pose proof (rot_z_bounded _ _ q Hc Hs Hx Hz) as [Hrz _].
    apply finb_iff in Hrz. destruct Hrz as [Vrz Frz].
    pose proof (speed_finite q Vx Vy Vz) as Hsp.
    destruct (within_leb one two_100 _ eq_refl eq_refl Hm) as [L1 _].
    destruct Hm as [Hmf _]. apply finb_iff in Hmf.
    destruct (div_by_ge_one (speed q) (v_max_spd v) Hsp (proj1 Hmf) L1)
      as [Vh Nh].
    unfold renderable, heat. repeat split; try assumption.
    destruct (rot_z (v_cos v) (v_sin v) q); try discriminate; reflexivity.
  - unfold projects. split.
    + destruct (screen_coord_defined
                  (rot_x (v_cos v) (v_sin v) q) (v_cx v) (v_scale v) WIDTH)
        as [px' ->]; try assumption; try discriminate.
      * now apply rot_x_bounded.
      * apply leb_within; reflexivity.
    + destruct (screen_coord_defined (rot_y q) (v_cy v) (v_scale v) HEIGHT)
        as [py' ->]; try assumption; try discriminate.
      * unfold rot_y. revert Hy. apply bounded_weaken; reflexivity.
      * apply leb_within; reflexivity.
Qed.

(** X24. No undefined conversion in the render loop.  For particles inside
    the escape bound (coordinates of magnitude at most 80, velocity
    components at most [2^60]) and a view with the camera centre within 1000
    units, a scale of at most [10^6] pixels per unit and a smoothed maximal
    speed in [1, 2^100], every conversion to [int] is defined, so the loop
    has a result, and in it every float of the buffer is a finite number
    between 0 and [2^24]. *)
Theorem render_total (v : View) (ps : list Particle)
    (Hv : view_ok v) (Hps : Forall particle_ok ps) :
  exists buf, render v ps clear_buffer = Some buf /\ buffer_ok buf.
Proof.
  assert (Hr : Forall (renderable v) ps).
  { apply Forall_forall. intros q Hq. rewrite Forall_forall in Hps.
    now apply particle_ok_renders, Hps. }
  assert (Hp : Forall (projects v) ps).
  { apply Forall_forall. intros q Hq. rewrite Forall_forall in Hps.
    now apply particle_ok_renders, Hps. }
  apply (proj2 (render_defined v ps clear_buffer)) in Hp.
  destruct (render v ps clear_buffer) as [buf |] eqn:E; [| contradiction].
  exists buf. split; [reflexivity |].
  exact (render_ok v ps clear_buffer buf Hr clear_buffer_ok E).
Qed.

Lemma example_view_ok : view_ok example_view.
Proof.
  unfold view_ok, bounded.
  repeat (split; [apply leb_within; reflexivity |]).
  apply leb_within; reflexivity.
Qed.

Lemma example_particle_ok : particle_ok example_particle.
Proof.
  unfold particle_ok, bounded.
  repeat (split; [apply leb_within; reflexivity |]).
  apply leb_within; reflexivity.
Qed.

Lemma render_total_witness :
  exists buf,
    render example_view [example_particle] clear_buffer = Some buf /\
    buffer_ok buf.
Proof.
  exact (render_total example_view [example_particle] example_view_ok
           (Forall_cons _ example_particle_ok (Forall_nil _))).
Defined.

(** ** The physics loop keeps the particles inside the escape bound *)

Section SymmetricOps.
Local Open Scope R_scope.

Lemma bounded_mul (A B a b : float) :
  bounded A a -> bounded B b ->
  finb A = true -> finb B = true -> is_finite (mul A B) = true ->
  bounded (mul A B) (mul a b).
Proof. intros; now apply mul_bounded. Qed.

Lemma bounded_add (A B a b : float) :
  bounded A a -> bounded B b ->
  finb A = true -> finb B = true -> is_finite (add A B) = true ->
  bounded (add A B) (add a b).
Proof. intros; now apply add_bounded. Qed.

Lemma bounded_sub (A B a b : float) :
  bounded A a -> bounded B b ->
  finb A = true -> finb B = true -> is_finite (add A B) = true ->
  bounded (add A B) (sub a b).
Proof. intros; now apply sub_bounded. Qed.

Lemma bounded_opp (A a : float) : bounded A a -> bounded A (opp a).
Proof.
  intros [Hx [H1 H2]]. split; [now rewrite finb_opp |].
  rewrite !F2R_opp in *. lra.
Qed.

Lemma bounded_const (c : float) :
  finb c = true -> leb zero c = true -> bounded c c.
Proof.
  intros Hc H0. pose proof (leb_zero_F2R c Hc H0).
  split; [exact Hc |]. rewrite F2R_opp. lra.
Qed.

Lemma bounded_le (B A x : float) :
  bounded A x -> finb A = true -> finb B = true -> leb A B = true ->
  bounded B x.
Proof. intros; now apply (bounded_weaken A B). Qed.

Lemma within_bounded (B x : float) : within zero B x -> bounded B x.
Proof.
  intros [Hx [H1 H2]]. change (F2R zero) with 0 in H1.
  split; [exact Hx |]. rewrite F2R_opp. lra.
Qed.

(** [a / 3.0f] is not larger in magnitude than a bound of [a]. *)
Lemma bounded_div_three (A a : float) :
  bounded A a -> finb A = true -> bounded A (div a (of_Z 3)).
Proof.
  intros Ha HA. destruct (bounded_abs A a Ha) as [Fa Ba].
  apply finb_iff in HA, Fa. destruct HA as [VA FA], Fa as [Va Fa].
  destruct (of_Z_within 1 3 3 ltac:(lia) eq_refl eq_refl) as [H3 [B3 _]].
  change (of_Z 1) with one in B3. rewrite F2R_one in B3.
  apply finb_iff in H3. destruct H3 as [V3 F3].
  apply (bounded_rounds (F2R a / F2R (of_Z 3)) (F2R A)); try assumption.
  - apply div_rounds; try assumption. lra.
  - now apply rounds_exact.
  - unfold Rdiv. rewrite Rabs_mult.
    assert (H : 0 < / F2R (of_Z 3) <= 1).
    { split; [apply Rinv_0_lt_compat; lra |].
      rewrite <- Rinv_1. apply Rinv_le_contravar; lra. }
    rewrite (Rabs_pos_eq (/ F2R (of_Z 3))) by lra.
    pose proof (Rabs_pos (F2R a)). nra.
Qed.

(** [fabs(x) > B] false for a finite [x]: [x] is within [-B, B]. *)
Lemma abs_leb_bounded (B x : float) :
  finb x = true -> finb B = true -> leb (abs x) B = true -> bounded B x.
Proof.
  intros Hx HB L. split; [exact Hx |].
  apply finb_iff in Hx, HB. destruct Hx as [Vx Fx], HB as [VB FB].
  apply leb_F2R in L; try assumption;
    [| now rewrite valid_abs | now destruct x].
  rewrite F2R_opp.
  destruct x as [s | s | | s m e]; try discriminate.
  - cbn [abs SFabs F2R] in *. lra.
  - pose proof (IZR_pos_gt_0 m). pose proof (bpow_pos e).
    unfold abs in L. cbn [SFabs F2R] in *. destruct s; nra.
Qed.

End SymmetricOps.

(** A bound for an arithmetic expression, from the bounds of its leaves. *)
Ltac leaf_bound :=
  first [ eassumption
        | apply bounded_const; reflexivity ].

Ltac expr_bound :=
  lazymatch goal with
  | |- bounded _ (mul _ _) =>
      eapply bounded_mul; [expr_bound | expr_bound | ..]
  | |- bounded _ (add _ _) =>
      eapply bounded_add; [expr_bound | expr_bound | ..]
  | |- bounded _ (sub _ _) =>
      eapply bounded_sub; [expr_bound | expr_bound | ..]
  | |- bounded _ (opp _) => eapply bounded_opp; expr_bound
  | |- bounded _ (div _ (of_Z 3)) =>
      eapply bounded_div_three; [expr_bound | ..]
  | |- _ => leaf_bound
  end.

(** The bound of an expression, weakened to [B]. *)
Ltac bound_by B :=
  eapply (bounded_le B); [expr_bound; vm_compute; reflexivity | ..];
  vm_compute; reflexivity.

(** The blend stays a finite number in [0, 1]. *)
Lemma blend_step_within (b : float) :
  within zero one b -> within zero one (blend_step b).
Proof.
  intros W. pose proof W as [Hb [B0 B1]].
  change (F2R zero) with 0%R in B0. rewrite F2R_one in B1.
  pose proof Hb as Hb'. apply finb_iff in Hb'. destruct Hb' as [Vb Fb].
  unfold blend_step. destruct (ltb b one); [| exact W]. cbv zeta.
  destruct (gtb (add b blend_increment) one) eqn:Hg;
    [apply leb_within; reflexivity |].
  assert (Wi : within zero one blend_increment)
    by (apply leb_within; reflexivity).
  destruct Wi as [Hi [I0 I1]].
  change (F2R zero) with 0%R in I0. rewrite F2R_one in I1.
  pose proof Hi as Hi'. apply finb_iff in Hi'. destruct Hi' as [Vi Fi].
  assert (W2 : within zero (of_Z 2) (add b blend_increment)).
  { apply (rounds_within (F2R b + F2R blend_increment) 0 2).
    - now apply add_rounds.
    - apply (rounds_zero false).
    - apply (of_Z_rounds 2).
    - lra.
    - reflexivity.
    - reflexivity. }
  destruct W2 as [H2 [L0 _]]. pose proof H2 as H2'.
  apply finb_iff in H2'. destruct H2' as [V2 F2].
  split; [exact H2 |]. split; [exact L0 |].
  apply leb_F2R; try assumption; try reflexivity.
  apply not_ltb_leb; [| reflexivity | exact Hg].
  now destruct (add b blend_increment).
Qed.

Lemma bounded_finite (B x : float) : bounded B x -> is_finite x = true.
Proof. intros [Hx _]. apply finb_iff in Hx. tauto. Qed.

Lemma coord_of_rem_finite :
  forallb (fun r => finb (coord_of_rem r)) (Z_range (-999) 1999) = true.
Proof. vm_compute. reflexivity. Qed.

Lemma respawn_coord_within (i : Z) : bounded MAX_COORD (respawn_coord i).
Proof.
  destruct (respawn_coord_bounded i) as [_ H].
  apply abs_leb_bounded; [| reflexivity | exact H].
  rewrite respawn_coord_rem.
  set (r := Z.rem (wrap_int (i * 1327)) 1000).
  assert (Hr : -999 <= r <= 999).
  { assert (H1000 : 1000 <> 0) by lia.
    pose proof (Z.rem_bound_abs (wrap_int (i * 1327)) 1000 H1000).
    unfold r. lia. }
  assert (Hin : In r (Z_range (-999) 1999)) by (apply Z_range_In; lia).
  exact (proj1 (forallb_forall _ _) coord_of_rem_finite r Hin).
Qed.

(** A finite advanced coordinate that passes the escape test is within the
    bound. *)
Lemma kept_coord_within (B x : float) :
  bounded B x -> gtb (abs x) MAX_COORD = false -> bounded MAX_COORD x.
Proof.
  intros [Hx _] Hg. apply abs_leb_bounded; [exact Hx | reflexivity |].
  apply finb_iff in Hx. destruct Hx as [_ Fx].
  apply not_ltb_leb; [| reflexivity | exact Hg].
  rewrite is_nan_abs. now destruct x.
Qed.

(** The recovery rule on a finite position stores a particle inside the
    bound. *)
Lemma recover_ok (B : float) (i : Z) (x y z dx dy dz : float) :
  bounded B x -> bounded B y -> bounded B z ->
  bounded two_60 dx -> bounded two_60 dy -> bounded two_60 dz ->
  particle_ok (recover i x y z dx dy dz).
Proof.
  intros Nx Ny Nz Dx Dy Dz. unfold recover.
  destruct (escaped _ _ _) eqn:He; unfold particle_ok; cbn [px py pz vx vy vz].
  - pose proof (respawn_coord_within i) as R.
    assert (Z0 : bounded two_60 zero)
      by (apply abs_leb_bounded; reflexivity).
    tauto.
  - apply escaped_false in He. destruct He as (Ex & Ey & Ez & _).
    pose proof (kept_coord_within _ _ Nx Ex).
    pose proof (kept_coord_within _ _ Ny Ey).
    pose proof (kept_coord_within _ _ Nz Ez).
    tauto.
Qed.

Lemma particle_position_ok (q : Particle) : particle_ok q -> position_ok q.
Proof. unfold particle_ok, position_ok. tauto. Qed.

Section PhysicsStep.

Variable sinf : float -> float.

(** [sinf] of a finite argument is a number in [-1, 1]. *)
Hypothesis sinf_range :
  forall x, is_finite x = true -> bounded one (sinf x).

(** The derivative of every type at a point inside the escape bound, for
    parameters in [0, 40], has components of magnitude at most [2^32]. *)
Lemma field_bounded (type : Z) (p : Params) (x y z : float) :
  params_within zero (of_Z 40) p ->
  bounded MAX_COORD x -> bounded MAX_COORD y -> bounded MAX_COORD z ->
  let B := S754_finite false 8388608 9 in
  bounded B (fst (fst (field sinf type p x y z))) /\
  bounded B (snd (fst (field sinf type p x y z))) /\
  bounded B (snd (field sinf type p x y z)).
Proof.
  intros (Ha & Hb & Hc & Hd & He & Hf) Hx Hy Hz B.
  apply within_bounded in Ha, Hb, Hc, Hd, He, Hf.
  pose proof (sinf_range x (bounded_finite _ _ Hx)) as Sx.
  pose proof (sinf_range y (bounded_finite _ _ Hy)) as Sy.
  pose proof (sinf_range z (bounded_finite _ _ Hz)) as Sz.
  unfold field. cbv zeta.
  destruct (type =? TYPE_AIZAWA);
    [cbn [fst snd]; (split; [| split]); bound_by B |].
  destruct (type =? TYPE_THOMAS);
    [cbn [fst snd]; (split; [| split]); bound_by B |].
  destruct (type =? TYPE_LORENZ);
    [cbn [fst snd]; (split; [| split]); bound_by B |].
  destruct (type =? TYPE_HALVORSEN);
    [cbn [fst snd]; (split; [| split]); bound_by B |].
  destruct (type =? TYPE_CHEN);
    [cbn [fst snd]; (split; [| split]); bound_by B |].
  cbn [fst snd]. (split; [| split]); bound_by B.
Qed.

(** The step before the recovery rule. *)
Lemma integrate_advance (cur_type prev_type : Z) (p : Params)
    (blend : float) (i : Z) (q : Particle) :
  integrate_particle sinf cur_type prev_type p blend i q =
  let '((x, y, z), (dx, dy, dz)) :=
    advance sinf cur_type prev_type p blend q in
  recover i x y z dx dy dz.
Proof.
  unfold integrate_particle, advance. cbv zeta.
  destruct (field sinf cur_type p (px q) (py q) (pz q)) as [[c1 c2] c3].
  destruct (field sinf prev_type p (px q) (py q) (pz q)) as [[p1 p2] p3].
  reflexivity.
Qed.

(** From a position inside the bound the Euler step reaches a finite
    position, of magnitude at most [2^63], with a blended derivative of
    magnitude at most [2^60]. *)
Lemma advance_ok (cur_type prev_type : Z) (p : Params) (blend : float)
    (q : Particle) :
  params_within zero (of_Z 40) p -> within zero one blend ->
  position_ok q ->
  let '((x, y, z), (dx, dy, dz)) :=
    advance sinf cur_type prev_type p blend q in
  let B := S754_finite false 8388608 40 in
  (bounded B x /\ bounded B y /\ bounded B z) /\
  (bounded two_60 dx /\ bounded two_60 dy /\ bounded two_60 dz).
Proof.
  intros Hp Hb (Hx & Hy & Hz).
  pose proof (field_bounded cur_type p _ _ _ Hp Hx Hy Hz) as Hc.
  pose proof (field_bounded prev_type p _ _ _ Hp Hx Hy Hz) as Hv.
  unfold advance. cbv zeta in *.
  destruct (field sinf cur_type p (px q) (py q) (pz q)) as [[c1 c2] c3].
  destruct (field sinf prev_type p (px q) (py q) (pz q)) as [[p1 p2] p3].
  cbn [fst snd] in Hc, Hv.
  destruct Hc as (C1 & C2 & C3), Hv as (P1 & P2 & P3).
  apply within_bounded in Hb.
  set (dx := add p1 (mul (sub c1 p1) blend)).
  set (dy := add p2 (mul (sub c2 p2) blend)).
  set (dz := add p3 (mul (sub c3 p3) blend)).
  assert (Dx : bounded two_60 dx) by (unfold dx; bound_by two_60).
  assert (Dy : bounded two_60 dy) by (unfold dy; bound_by two_60).
  assert (Dz : bounded two_60 dz) by (unfold dz; bound_by two_60).
  set (B := S754_finite false 8388608 40).
  assert (Nx : bounded B (add (px q) (mul dx DT))) by bound_by B.
  assert (Ny : bounded B (add (py q) (mul dy DT))) by bound_by B.
  assert (Nz : bounded B (add (pz q) (mul dz DT))) by bound_by B.
  tauto.
Qed.

(** One iteration of the physics loop, for a particle inside the bound:
    the stored position is inside the bound again and the stored velocity is
    finite. *)
Lemma integrate_particle_ok (cur_type prev_type : Z) (p : Params)
    (blend : float) (i : Z) (q : Particle) :
  params_within zero (of_Z 40) p -> within zero one blend ->
  position_ok q ->
  particle_ok (integrate_particle sinf cur_type prev_type p blend i q).
Proof.
  intros Hp Hb Hq. rewrite integrate_advance.
  pose proof (advance_ok cur_type prev_type p blend q Hp Hb Hq) as H.
  destruct (advance sinf cur_type prev_type p blend q)
    as [[[x y] z] [[dx dy] dz]].
  cbv zeta in H. destruct H as ((Nx & Ny & Nz) & (Dx & Dy & Dz)).
  now apply (recover_ok (S754_finite false 8388608 40)).
Qed.

(** The loop over the particles keeps the length of the arrays and stores
    particles inside the bound. *)
Lemma physics_from_ok (cur prev : Z) (p : Params) (blend : float)
    (ps : list Particle) (i : Z) :
  params_within zero (of_Z 40) p -> within zero one blend ->
  Forall position_ok ps ->
  length (physics_from sinf cur prev p blend i ps) = length ps /\
  Forall particle_ok (physics_from sinf cur prev p blend i ps).
Proof.
  intros Hp Hb. revert i. induction ps as [| q r IH]; intros i Hps.
  - split; [reflexivity | constructor].
  - inversion Hps as [| ? ? Hq Hr]; subst.
    destruct (IH (i + 1) Hr) as [IL IF]. cbn [physics_from length].
    split; [now rewrite IL |].
    constructor; [now apply integrate_particle_ok | exact IF].
Qed.

End PhysicsStep.

Section Physics.

Variable sinf : float -> float.
Variable RAND_MAX : Z.
Context {RandState : Type}.
Variable rand : RandState -> Z * RandState.

(** [sinf] of a finite argument is a number in [-1, 1]. *)
Hypothesis sinf_range :
  forall x, is_finite x = true -> bounded one (sinf x).

Hypothesis RAND_MAX_range : 1 <= RAND_MAX <= 2147483647.
Hypothesis rand_range : forall g, 0 <= fst (rand g) <= RAND_MAX.

(** The scheduler and the parameters of a run: the blend is in [0, 1] and
    the current parameters are in [0, 40] at every frame. *)
Lemma run_params_ok (fpf start_type : Z) (g : RandState) (n : nat) :
  within zero one
    (transition_blend (fst (run_params RAND_MAX rand fpf start_type g n))) /\
  params_within zero (of_Z 40)
    (ps_cur (snd (run_params RAND_MAX rand fpf start_type g n))) /\
  params_within zero (of_Z 40)
    (ps_target (snd (run_params RAND_MAX rand fpf start_type g n))).
Proof.
  induction n as [| k IH].
  - cbn [run_params fst snd]. unfold initial_params.
    pose proof (target_params_bounded RAND_MAX rand RAND_MAX_range rand_range
                  start_type g) as H.
    destruct (get_target_params RAND_MAX rand start_type g) as [p g'].
    cbn [fst ps_cur ps_target initial_sched transition_blend] in *.
    split; [apply leb_within; reflexivity | split; exact H].
  - cbn [run_params].
    destruct (run_params RAND_MAX rand fpf start_type g k) as [s st].
    cbn [fst snd] in *. destruct IH as (IB & IC & IT).
    split.
    + unfold sched_frame. cbn [transition_blend].
      apply blend_step_within. unfold cycle_step.
      destruct (Z.rem (Z.of_nat k) fpf =? 0); [| exact IB].
      cbv zeta. destruct (algo_timer s + 1 >=? 6); cbn [transition_blend];
        [apply leb_within; reflexivity | exact IB].
    + now apply (params_frame_within RAND_MAX rand RAND_MAX_range rand_range).
Qed.

(** A run from particles inside the bound. *)
Lemma run_physics_ok (fpf start_type : Z) (g : RandState)
    (ps0 : list Particle) (n : nat) :
  Forall position_ok ps0 ->
  length (run_physics sinf RAND_MAX rand fpf start_type g ps0 n)
  = length ps0 /\
  Forall position_ok (run_physics sinf RAND_MAX rand fpf start_type g ps0 n)
  /\
  ((0 < n)%nat ->
   Forall particle_ok (run_physics sinf RAND_MAX rand fpf start_type g ps0 n)).
Proof.
  intros H0. induction n as [| k IH].
  - cbn [run_physics]. split; [reflexivity |]. split; [exact H0 | lia].
  - cbn [run_physics].
    pose proof (run_params_ok fpf start_type g (S k)) as (HB & HC & _).
    destruct (run_params RAND_MAX rand fpf start_type g (S k)) as [s st].
    cbn [fst snd] in HB, HC. destruct IH as (IL & IP & _).
    destruct (physics_from_ok sinf sinf_range (current_type s)
                (previous_type s) (ps_cur st)
                (transition_blend s) _ 0 HC HB IP) as [L F].
    unfold physics_frame. split; [now rewrite L |].
    split; [| intros _; exact F].
    eapply Forall_impl; [| exact F]. exact particle_position_ok.
Qed.

(** X26. The physics loop keeps the particles finite and inside the escape
    bound, provided [sinf] of a finite number is a number in [-1, 1].  One
    iteration, for a particle whose coordinates are finite numbers of
    magnitude at most 80, parameters in [0, 40] and a blend in [0, 1],
    stores a position that is again finite and of magnitude at most 80 and a
    finite velocity (of magnitude at most [2^60]), for every pair of types,
    every particle index and whatever the stored velocity was.  So in a run
    that starts from particles inside the bound, such as the initial random
    box, the arrays keep their length and every particle is inside the
    bound at every frame, with a finite velocity from the first frame on:
    no NaN and no infinity ever enters the particle arrays. *)
Theorem physics_keeps_bounds :
  (forall cur_type prev_type p blend i q,
      params_within zero (of_Z 40) p -> within zero one blend ->
      position_ok q ->
      particle_ok (integrate_particle sinf cur_type prev_type p blend i q)) /\
  (forall fpf start_type g ps0 n,
      Forall position_ok ps0 ->
      let ps := run_physics sinf RAND_MAX rand fpf start_type g ps0 n in
      length ps = length ps0 /\ Forall position_ok ps /\
      ((0 < n)%nat -> Forall particle_ok ps)).
Proof.
  split.
  - intros cur_type prev_type p blend i q Hp Hb Hq.
    now apply (integrate_particle_ok sinf sinf_range).
  - intros fpf start_type g ps0 n H0. cbv zeta.
    now apply run_physics_ok.
Qed.

End Physics.

Lemma example_cloud_ok : Forall position_ok example_cloud.
Proof.
  unfold example_cloud, position_ok.
  repeat (apply Forall_cons;
          [cbn [px py pz];
           repeat (split; [apply abs_leb_bounded; reflexivity |]);
           apply abs_leb_bounded; reflexivity |]).
  apply Forall_nil.
Qed.

Lemma physics_keeps_bounds_witness :
  Forall particle_ok
    (run_physics (fun _ => zero) 32767 lcg_rand 300 0 1 example_cloud 2).
Proof.
  exact (proj2 (proj2
           (proj2 (physics_keeps_bounds (fun _ => zero) 32767 lcg_rand
                     (fun _ _ => abs_leb_bounded one zero
                                   eq_refl eq_refl eq_refl)
                     ltac:(lia) lcg_rand_range)
              300 0 1 example_cloud 2%nat example_cloud_ok))
           ltac:(lia)).
Defined.

(** ** Fewer than 100 particles *)

(** Infinities and NaN are absorbing for the arithmetic of the projection. *)
Lemma sub_not_finite_r (a c : float) :
  is_finite c = false -> is_finite (sub a c) = false.
Proof.
  destruct c as [[|] | [|] | | [|] m e]; try discriminate; intros _;
    destruct a as [[|] | [|] | | [|] ma ea]; reflexivity.
Qed.

Lemma sub_not_finite_l (a c : float) :
  is_finite a = false -> is_finite (sub a c) = false.
Proof.
  destruct a as [[|] | [|] | | [|] m e]; try discriminate; intros _;
    destruct c as [[|] | [|] | | [|] mc ec]; reflexivity.
Qed.

Lemma mul_not_finite_l (a c : float) :
  is_finite a = false -> is_finite (mul a c) = false.
Proof.
  destruct a as [[|] | [|] | | [|] m e]; try discriminate; intros _;
    destruct c as [[|] | [|] | | [|] mc ec]; reflexivity.
Qed.

Lemma add_not_finite_l (a c : float) :
  is_finite a = false -> is_finite (add a c) = false.
Proof.
  destruct a as [[|] | [|] | | [|] m e]; try discriminate; intros _;
    destruct c as [[|] | [|] | | [|] mc ec]; reflexivity.
Qed.

Lemma add_not_finite_r (a c : float) :
  is_finite c = false -> is_finite (add a c) = false.
Proof.
  destruct c as [[|] | [|] | | [|] m e]; try discriminate; intros _;
    destruct a as [[|] | [|] | | [|] ma ea]; reflexivity.
Qed.

(** A division by zero gives an infinity or NaN. *)
Lemma div_zero_not_finite (a : float) : is_finite (div a (of_Z 0)) = false.
Proof. destruct a as [[|] | [|] | | [|] m e]; reflexivity. Qed.

Lemma to_int_not_finite (x : float) : is_finite x = false -> to_int x = None.
Proof. destruct x; try discriminate; reflexivity. Qed.

(** With a camera centre that is not finite no particle has a pixel. *)
Lemma screen_coord_not_finite (c cam_c cam_scale : float) (size : Z) :
  is_finite cam_c = false -> screen_coord c cam_c cam_scale size = None.
Proof.
  intros H. unfold screen_coord. apply to_int_not_finite.
  apply add_not_finite_l, mul_not_finite_l, sub_not_finite_r, H.
Qed.

Lemma cam_centre_not_finite (cam centre : float) :
  is_finite centre = false -> is_finite (cam_centre_step cam centre) = false.
Proof.
  intros H. unfold cam_centre_step, smooth.
  apply add_not_finite_r, mul_not_finite_l, sub_not_finite_l, H.
Qed.

(** X27. Fewer than 100 particles.  For a particle count from 0 to 99 the
    divisor [num_particles / 100] of the statistics is 0, so the two
    coordinates of the centroid are infinities or NaN, whatever the
    particles hold; the camera centre moved toward that centroid is not
    finite either, whatever it was, and then both conversions to [int] of
    the render loop are undefined for every particle. *)
Theorem few_particles_undefined (cos_t sin_t : float) (ps : list Particle)
    (n : Z) (cam_cx cam_cy cam_scale smooth_max_spd : float)
    (Hn : 0 <= n < 100) :
  let st := statistics cos_t sin_t ps n in
  let v := frame_view cos_t sin_t st cam_cx cam_cy cam_scale smooth_max_spd in
  num_samples n = 0 /\
  is_finite (center_x st) = false /\ is_finite (center_y st) = false /\
  is_finite (v_cx v) = false /\ is_finite (v_cy v) = false /\
  (forall q,
      screen_coord (rot_x cos_t sin_t q) (v_cx v) cam_scale WIDTH = None /\
      screen_coord (rot_y q) (v_cy v) cam_scale HEIGHT = None) /\
  (forall q qs buf, render v (q :: qs) buf = None).
Proof.
  cbv zeta.
  assert (H0 : num_samples n = 0).
  { unfold num_samples, sample_stride. apply Z.quot_small. lia. }
  destruct (centroid_quotient cos_t sin_t ps n) as [Ex Ey].
  rewrite H0 in Ex, Ey.
  assert (Fx : is_finite (center_x (statistics cos_t sin_t ps n)) = false)
    by (rewrite Ex; apply div_zero_not_finite).
  assert (Fy : is_finite (center_y (statistics cos_t sin_t ps n)) = false)
    by (rewrite Ey; apply div_zero_not_finite).
  unfold frame_view. cbn [v_cx v_cy].
  pose proof (cam_centre_not_finite cam_cx _ Fx) as Cx.
  pose proof (cam_centre_not_finite cam_cy _ Fy) as Cy.
  repeat (split; [assumption |]).
  split.
  - intros q. split; now apply screen_coord_not_finite.
  - intros q qs buf. cbn [render]. unfold render_particle.
    cbn [v_cx v_cy v_cos v_sin v_scale].
    now rewrite (screen_coord_not_finite _ _ cam_scale WIDTH Cx).
Qed.

Lemma few_particles_undefined_witness :
  render (frame_view one zero (statistics one zero cloud150 50)
            zero zero (of_Z 100) one)
         [mkParticle one one zero zero zero zero] clear_buffer = None.
Proof.
  exact (proj2 (proj2 (proj2 (proj2 (proj2 (proj2
           (few_particles_undefined one zero cloud150 50
              zero zero (of_Z 100) one ltac:(lia)))))))
           (mkParticle one one zero zero zero zero) nil clear_buffer).
Defined.

(** ** The bounded-state invariant along a run *)

Lemma bounded_coord_ok (c : float) : bounded MAX_COORD c -> coord_ok c.
Proof.
  intros Hb. destruct (bounded_abs _ _ Hb) as [Hc Ba].
  pose proof Hc as Hc'. apply finb_iff in Hc'. destruct Hc' as [Vc Fc].
  split; [now destruct c |]. change (of_Z 80) with MAX_COORD.
  apply leb_F2R; try reflexivity;
    [now rewrite valid_abs | now destruct c |].
  destruct Hb as [_ [H1 H2]]. rewrite F2R_opp in H1.
  destruct c as [s | s | | s m e]; try discriminate.
  - cbn [abs SFabs F2R] in *. lra.
  - unfold abs. cbn [SFabs F2R] in *. destruct s; lra.
Qed.

Lemma position_stored_ok (q : Particle) : position_ok q -> stored_ok q.
Proof.
  intros (Hx & Hy & Hz). repeat split; now apply bounded_coord_ok.
Qed.

Section Invariant.

Variable sinf : float -> float.
Variable RAND_MAX : Z.
Context {RandState : Type}.
Variable rand : RandState -> Z * RandState.

(** [sinf] of a finite argument is a number in [-1, 1], and [rand] returns
    a value from 0 to [RAND_MAX]. *)
Hypothesis sinf_range :
  forall x, is_finite x = true -> bounded one (sinf x).
Hypothesis RAND_MAX_range : 1 <= RAND_MAX <= 2147483647.
Hypothesis rand_range : forall g, 0 <= fst (rand g) <= RAND_MAX.

(** The particles of the initial random box are inside the bound, whatever
    their velocities hold. *)
Lemma initial_box_ok (np : nat) (g : RandState) (ps0 : list Particle) :
  map position ps0 = fst (init_positions RAND_MAX rand np g) ->
  length ps0 = np /\ Forall position_ok ps0.
Proof.
  revert g ps0. induction np as [| k IH]; intros g ps0;
    cbn [init_positions].
  - cbn [fst]. intros H. apply map_eq_nil in H. subst ps0.
    split; [reflexivity | constructor].
  - unfold init_position.
    destruct (rand_range_step RAND_MAX rand RAND_MAX_range rand_range
                (of_Z 5) g eq_refl eq_refl) as (x & -> & Wx).
    destruct (rand_range_step RAND_MAX rand RAND_MAX_range rand_range
                (of_Z 5) (snd (rand g)) eq_refl eq_refl) as (y & -> & Wy).
    destruct (rand_range_step RAND_MAX rand RAND_MAX_range rand_range
                (of_Z 5) (snd (rand (snd (rand g)))) eq_refl eq_refl)
      as (z & -> & Wz).
    specialize (IH (snd (rand (snd (rand (snd (rand g))))))).
    destruct (init_positions RAND_MAX rand k _) as [ps g2].
    cbn [fst] in *. intros H.
    destruct ps0 as [| q r]; [discriminate |].
    cbn [map] in H. unfold position at 1 in H.
    injection H as Ex Ey Ez Hr. subst x y z.
    destruct (IH r Hr) as [IL IF].
    split; [cbn [length]; now rewrite IL |].
    constructor; [| exact IF].
    assert (W : forall c, within (opp (of_Z 5)) (of_Z 5) c ->
                          bounded MAX_COORD c).
    { intros c Wc. apply (bounded_weaken (of_Z 5)); try reflexivity.
      exact Wc. }
    repeat split; apply W; assumption.
Qed.

(** C1. The bounded-state invariant.  In a run that starts from the initial
    random box, for every particle count, every start type and every
    frame, each particle has, immediately after the integration pass,
    three coordinates that are numbers (not NaN) of magnitude at most 80;
    before the pass the particles are inside the bound, the current
    parameters are in [0, 40] and the blend is in [0, 1].  For such a
    particle the position the Euler step reaches is finite, so the
    recovery rule, which tests the three magnitudes and tests [x] alone
    for NaN, triggers exactly when a magnitude exceeds 80, and what it
    stores is inside the bound. *)
Theorem bounded_state_invariant :
  (forall fpf start_type g np ps0 n,
      map position ps0 = fst (init_positions RAND_MAX rand np g) ->
      let g0 := snd (init_positions RAND_MAX rand np g) in
      let before := run_physics sinf RAND_MAX rand fpf start_type g0 ps0 n in
      let after :=
        run_physics sinf RAND_MAX rand fpf start_type g0 ps0 (S n) in
      let '(s, st) := run_params RAND_MAX rand fpf start_type g0 (S n) in
      length after = np /\ Forall stored_ok after /\
      Forall position_ok before /\
      params_within zero (of_Z 40) (ps_cur st) /\
      within zero one (transition_blend s)) /\
  (forall cur_type prev_type p blend i q,
      params_within zero (of_Z 40) p -> within zero one blend ->
      position_ok q ->
      let '((x, y, z), (dx, dy, dz)) :=
        advance sinf cur_type prev_type p blend q in
      integrate_particle sinf cur_type prev_type p blend i q =
        recover i x y z dx dy dz /\
      is_finite x = true /\ is_finite y = true /\ is_finite z = true /\
      escaped x y z =
        gtb (abs x) (of_Z 80) || gtb (abs y) (of_Z 80)
        || gtb (abs z) (of_Z 80) /\
      stored_ok (recover i x y z dx dy dz)).
Proof.
  split.
  - intros fpf start_type g np ps0 n Hbox. cbv zeta.
    destruct (initial_box_ok np g ps0 Hbox) as [Hlen H0].
    set (g0 := snd (init_positions RAND_MAX rand np g)).
    pose proof (run_params_ok RAND_MAX rand RAND_MAX_range rand_range
                  fpf start_type g0 (S n)) as (HB & HC & _).
    destruct (run_physics_ok sinf RAND_MAX rand sinf_range RAND_MAX_range
                rand_range fpf start_type g0 ps0 n H0) as (_ & Pb & _).
    destruct (run_physics_ok sinf RAND_MAX rand sinf_range RAND_MAX_range
                rand_range fpf start_type g0 ps0 (S n) H0) as (La & Pa & _).
    destruct (run_params RAND_MAX rand fpf start_type g0 (S n)) as [s st].
    cbn [fst snd] in HB, HC.
    split; [now rewrite La |]. split; [| tauto].
    eapply Forall_impl; [| exact Pa]. exact position_stored_ok.
  - intros cur_type prev_type p blend i q Hp Hb Hq.
    pose proof (integrate_advance sinf cur_type prev_type p blend i q) as E.
    pose proof (advance_ok sinf sinf_range cur_type prev_type p blend q
                  Hp Hb Hq) as H.
    destruct (advance sinf cur_type prev_type p blend q)
      as [[[x y] z] [[dx dy] dz]].
    cbv zeta in H. destruct H as ((Nx & Ny & Nz) & (Dx & Dy & Dz)).
    pose proof (bounded_finite _ _ Nx) as Fx.
    split; [exact E |].
    split; [exact Fx |].
    split; [exact (bounded_finite _ _ Ny) |].
    split; [exact (bounded_finite _ _ Nz) |].
    split.
    + unfold escaped. replace (is_nan x) with false by (now destruct x).
      now rewrite orb_false_r.
    + apply position_stored_ok, particle_position_ok.
      now apply (recover_ok (S754_finite false 8388608 40)).
Qed.

End Invariant.

Lemma example_box_positions :
  map position example_box = fst (init_positions 32767 lcg_rand 2 1).
Proof. vm_compute. reflexivity. Qed.

Lemma bounded_state_invariant_witness :
  Forall stored_ok
    (run_physics (fun _ => zero) 32767 lcg_rand 300 0
       (snd (init_positions 32767 lcg_rand 2 1)) example_box 3).
Proof.
  pose proof (proj1 (bounded_state_invariant (fun _ => zero) 32767 lcg_rand
                       (fun _ _ => abs_leb_bounded one zero
                                     eq_refl eq_refl eq_refl)
                       ltac:(lia) lcg_rand_range)
                300 0 1 2%nat example_box 2%nat example_box_positions) as H.
  cbv zeta in H.
  destruct (run_params 32767 lcg_rand 300 0
              (snd (init_positions 32767 lcg_rand 2 1)) 3) as [s st].
  exact (proj1 (proj2 H)).
Defined.

(** ** Progress of the parameter interpolation *)

Section Progress.
Local Open Scope R_scope.

Lemma F2R_5_256 : F2R (lit 5 256) = 5 / 256.
Proof.
  change (lit 5 256) with (S754_finite false 10485760 (-29)). cbn [F2R].
  rewrite (bpow_neg_inv 29). change (Z.pow_pos 2 29) with 536870912%Z. lra.
Qed.

Lemma lerp_rate_bounds : 5 / 256 <= F2R lerp_rate <= / 4.
Proof.
  split.
  - rewrite <- F2R_5_256. apply leb_F2R; reflexivity.
  - apply (rate_bounds lerp_rate); reflexivity.
Qed.

Lemma lerp_progress_real (C T D P K C' : R) :
  5 / 256 <= K <= / 4 -> C < T ->
  bpow (-18) * Rabs C <= T - C -> bpow (-120) <= T - C ->
  Rabs (D - (T - C)) <= bpow (-24) * Rabs (T - C) + bpow (-150) ->
  Rabs (P - D * K) <= bpow (-24) * Rabs (D * K) + bpow (-150) ->
  Rabs (C' - (C + P)) <= bpow (-24) * Rabs (C + P) + bpow (-150) ->
  C < C'.
Proof.
  intros HK Hlt Hfar Hfloor E1 E2 E3.
  set (d := T - C) in *.
  assert (Hu : bpow (-24) = / 16777216).
  { rewrite (bpow_neg_inv 24). reflexivity. }
  assert (H18 : bpow (-18) = / 262144).
  { rewrite (bpow_neg_inv 18). reflexivity. }
  assert (Heta : bpow (-150) <= d / 1073741824).
  { replace (bpow (-150)) with (bpow (-120) * bpow (-30))
      by (rewrite <- bpow_add; reflexivity).
    rewrite (bpow_neg_inv 30). change (Z.pow_pos 2 30) with 1073741824%Z.
    pose proof (bpow_pos (-120)). nra. }
  pose proof (bpow_pos (-150)) as Hpos.
  rewrite Hu in *. rewrite H18 in Hfar. clear Hu H18.
  set (eta := bpow (-150)) in *.
  assert (Hd : 0 < d) by (unfold d; lra).
  rewrite (Rabs_pos_eq d) in E1 by lra.
  apply Rabs_le_inv in E1.
  assert (HD : d * (1 - / 8388608) <= D) by lra.
  assert (HD0 : 0 <= D) by nra.
  assert (HDK : D * (5 / 256) <= D * K) by nra.
  assert (HDK0 : 0 <= D * K) by nra.
  rewrite (Rabs_pos_eq (D * K)) in E2 by assumption.
  apply Rabs_le_inv in E2.
  assert (HP : d * (19 / 1024) <= P) by nra.
  assert (HC : Rabs C <= 262144 * d) by lra.
  assert (HCP : Rabs (C + P) <= Rabs C + P).
  { pose proof (Rabs_triang C P). rewrite (Rabs_pos_eq P) in H by lra. lra. }
  apply Rabs_le_inv in E3.
  nra.
Qed.

End Progress.

Section ProgressFloat.
Local Open Scope R_scope.

(** The three roundings of one interpolation step. *)
Lemma smooth_roundings (c t : float) :
  moderate c = true -> moderate t = true ->
  let d := sub t c in
  let p := mul d lerp_rate in
  Rabs (F2R d - (F2R t - F2R c))
    <= bpow (-24) * Rabs (F2R t - F2R c) + bpow (-150) /\
  Rabs (F2R p - F2R d * F2R lerp_rate)
    <= bpow (-24) * Rabs (F2R d * F2R lerp_rate) + bpow (-150) /\
  Rabs (F2R (smooth c t lerp_rate) - (F2R c + F2R p))
    <= bpow (-24) * Rabs (F2R c + F2R p) + bpow (-150).
Proof.
  intros Mc Mt d p.
  destruct (smooth_between c t lerp_rate Mc Mt eq_refl eq_refl eq_refl)
    as (Hf & _ & _).
  apply moderate_iff in Mc, Mt. destruct Mc as [Hc Bc], Mt as [Ht Bt].
  pose proof Hc as Hc'. pose proof Ht as Ht'.
  apply finb_iff in Hc', Ht'.
  destruct Hc' as [Vc Fc], Ht' as [Vt Ft].
  pose proof lerp_rate_bounds as HK.
  assert (B101 : bpow 101 = 2 * bpow 100).
  { rewrite <- bpow_succ. reflexivity. }
  pose proof (bpow_pos 100) as H100.
  pose proof (sub_rounds t c Vt Vc Ft Fc) as Rd. fold d in Rd.
  assert (Wd : bounded two_101 d).
  { apply (bounded_rounds (F2R t - F2R c) (F2R two_101));
      try assumption; try reflexivity.
    - now apply rounds_exact.
    - rewrite F2R_two_101.
      pose proof (Rabs_triang (F2R t) (- F2R c)) as H.
      rewrite Rabs_Ropp in H. unfold Rminus. lra. }
  destruct (bounded_abs _ _ Wd) as [Hd Bd]. rewrite F2R_two_101 in Bd.
  pose proof Hd as Hd'. apply finb_iff in Hd'. destruct Hd' as [Vd Fd].
  pose proof (mul_rounds d lerp_rate Vd eq_refl Fd eq_refl) as Rp.
  fold p in Rp.
  assert (Wp : bounded two_101 p).
  { apply (bounded_rounds (F2R d * F2R lerp_rate) (F2R two_101));
      try assumption; try reflexivity.
    - now apply rounds_exact.
    - rewrite F2R_two_101, Rabs_mult.
      rewrite (Rabs_pos_eq (F2R lerp_rate)) by lra.
      pose proof (Rabs_pos (F2R d)). nra. }
  destruct (bounded_abs _ _ Wp) as [Hp _].
  pose proof Hp as Hp'. apply finb_iff in Hp'. destruct Hp' as [Vp Fp].
  pose proof (add_rounds c p Vc Vp Fc Fp) as Ra.
  apply finb_iff in Hf. destruct Hf as [_ Ff].
  split; [now apply rounds_error |].
  split; [now apply rounds_error |].
  apply rounds_error; [exact Ra | exact Ff].
Qed.

(** Far from the target, one interpolation step moves strictly closer. *)
Lemma smooth_progress (c t : float) :
  moderate c = true -> moderate t = true ->
  far_from c t -> closer c t (smooth c t lerp_rate).
Proof.
  intros Mc Mt [Hfar Hfloor].
  destruct (smooth_roundings c t Mc Mt) as (E1 & E2 & E3).
  destruct (smooth_between c t lerp_rate Mc Mt eq_refl eq_refl eq_refl)
    as (_ & Hup & Hdown).
  pose proof lerp_rate_bounds as HK.
  pose proof (bpow_pos (-120)) as H120.
  set (C := F2R c) in *. set (T := F2R t) in *.
  set (D := F2R (sub t c)) in *.
  set (P := F2R (mul (sub t c) lerp_rate)) in *.
  set (K := F2R lerp_rate) in *.
  set (C' := F2R (smooth c t lerp_rate)) in *.
  unfold closer. fold C T C'.
  destruct (Rlt_or_le C T) as [Hlt | Hge].
  - rewrite (Rabs_pos_eq (T - C)) in Hfar, Hfloor by lra.
    pose proof (lerp_progress_real C T D P K C' HK Hlt Hfar Hfloor E1 E2 E3).
    destruct (Hup ltac:(lra)).
    rewrite !Rabs_pos_eq by lra. lra.
  - assert (Hne : T - C <> 0).
    { intros E. rewrite E, Rabs_R0 in Hfloor. lra. }
    assert (Hlt : - C < - T) by lra.
    rewrite (Rabs_left1 (T - C)) in Hfar, Hfloor by lra.
    assert (X : - C < - C').
    { apply (lerp_progress_real (- C) (- T) (- D) (- P) K (- C'));
        try assumption.
      - rewrite Rabs_Ropp. lra.
      - lra.
      - replace (- D - (- T - - C)) with (- (D - (T - C))) by ring.
        replace (- T - - C) with (- (T - C)) by ring.
        now rewrite !Rabs_Ropp.
      - replace (- P - - D * K) with (- (P - D * K)) by ring.
        replace (- D * K) with (- (D * K)) by ring.
        now rewrite !Rabs_Ropp.
      - replace (- C' - (- C + - P)) with (- (C' - (C + P))) by ring.
        replace (- C + - P) with (- (C + P)) by ring.
        now rewrite !Rabs_Ropp. }
    destruct (Hdown ltac:(lra)).
    rewrite !Rabs_left1 by lra. lra.
Qed.

End ProgressFloat.

Section Accuracy.
Local Open Scope R_scope.

(** The stored rate is within [2^-30] of 0.02. *)
Lemma lerp_rate_near : Rabs (F2R lerp_rate - 2 / 100) <= / 1073741824.
Proof.
  change lerp_rate with (S754_finite false 10737418 (-29)). cbn [F2R].
  rewrite (bpow_neg_inv 29). change (Z.pow_pos 2 29) with 536870912%Z.
  apply Rabs_le. lra.
Qed.

Lemma lerp_accuracy_real (C T D P K C' : R) :
  0 <= K <= / 4 -> Rabs (K - 2 / 100) <= / 1073741824 ->
  Rabs (D - (T - C)) <= bpow (-24) * Rabs (T - C) + bpow (-150) ->
  Rabs (P - D * K) <= bpow (-24) * Rabs (D * K) + bpow (-150) ->
  Rabs (C' - (C + P)) <= bpow (-24) * Rabs (C + P) + bpow (-150) ->
  Rabs (C' - (C + (T - C) * (2 / 100)))
  <= bpow (-22) * (Rabs C + Rabs (T - C)) + bpow (-148).
Proof.
  intros HK Hk E1 E2 E3.
  assert (Hu : bpow (-24) = / 16777216).
  { rewrite (bpow_neg_inv 24). reflexivity. }
  assert (H22 : bpow (-22) = / 4194304).
  { rewrite (bpow_neg_inv 22). reflexivity. }
  assert (H148 : bpow (-148) = 4 * bpow (-150)).
  { replace 4 with (bpow 2) by (unfold bpow; simpl; lra).
    rewrite <- bpow_add. reflexivity. }
  pose proof (bpow_pos (-150)) as Hpos.
  rewrite Hu in *. rewrite H22, H148. clear Hu H22 H148.
  set (eta := bpow (-150)) in *. set (d := T - C) in *.
  rewrite Rabs_mult, (Rabs_pos_eq K) in E2 by lra.
  assert (TD : Rabs D <= Rabs d + Rabs (D - d)).
  { replace D with (d + (D - d)) at 1 by ring. apply Rabs_triang. }
  assert (TP : Rabs P <= Rabs D * K + Rabs (P - D * K)).
  { replace P with (D * K + (P - D * K)) at 1 by ring.
    eapply Rle_trans; [apply Rabs_triang |].
    rewrite Rabs_mult, (Rabs_pos_eq K) by lra. lra. }
  assert (TCP : Rabs (C + P) <= Rabs C + Rabs P) by apply Rabs_triang.
  assert (TG : Rabs (C' - (C + d * (2 / 100)))
               <= Rabs (C' - (C + P)) + Rabs (P - D * K)
                  + Rabs (D - d) * K + Rabs d * Rabs (K - 2 / 100)).
  { replace (C' - (C + d * (2 / 100)))
      with ((C' - (C + P)) + (P - D * K) + ((D - d) * K + d * (K - 2 / 100)))
      by ring.
    pose proof (Rabs_triang ((C' - (C + P)) + (P - D * K))
                  ((D - d) * K + d * (K - 2 / 100))) as G1.
    pose proof (Rabs_triang (C' - (C + P)) (P - D * K)) as G2.
    pose proof (Rabs_triang ((D - d) * K) (d * (K - 2 / 100))) as G3.
    rewrite !Rabs_mult, (Rabs_pos_eq K) in G3 by lra. lra. }
  pose proof (Rabs_pos C) as PC. pose proof (Rabs_pos d) as Pd.
  pose proof (Rabs_pos D) as PD. pose proof (Rabs_pos P) as PP.
  pose proof (Rabs_pos (D - d)) as P1.
  pose proof (Rabs_pos (P - D * K)) as P2.
  pose proof (Rabs_pos (K - 2 / 100)) as Pk.
  generalize dependent (Rabs (C' - (C + d * (2 / 100)))).
  generalize dependent (Rabs (C' - (C + P))).
  generalize dependent (Rabs (C + P)).
  generalize dependent (Rabs (P - D * K)).
  generalize dependent (Rabs (D - d)).
  generalize dependent (Rabs (K - 2 / 100)).
  generalize dependent (Rabs P). generalize dependent (Rabs D).
  generalize dependent (Rabs d). generalize dependent (Rabs C).
  intros aC PC ad Pd aD PD aP PP ak Hk Pk a1 E1 TD P1 a2 E2 TP P2 aCP TCP a3 E3 g TG.
  assert (M1 : aD * K <= aD / 4) by nra.
  assert (M2 : a1 * K <= a1 / 4) by nra.
  assert (M3 : ad * ak <= ad / 1073741824) by nra.
  assert (M0 : 0 <= aD * K) by nra.
  lra.
Qed.

Lemma smooth_accuracy (c t : float) :
  moderate c = true -> moderate t = true ->
  near_rate c t (smooth c t lerp_rate).
Proof.
  intros Mc Mt.
  destruct (smooth_roundings c t Mc Mt) as (E1 & E2 & E3).
  pose proof lerp_rate_bounds as HK.
  assert (HK0 : 0 <= F2R lerp_rate <= / 4) by lra.
  exact (lerp_accuracy_real _ _ _ _ _ _ HK0 lerp_rate_near E1 E2 E3).
Qed.

End Accuracy.

(** C7.  For parameter values of magnitude at most [2^100], one
    interpolation step moves each of the six fields to a value between the
    current one and the target: it never overshoots, the sign of
    [target - current] never flips and [|target - current|] does not grow.
    The new value is [current + (target - current) * 0.02] up to rounding.
    The distance decreases strictly whenever the stored value changes, and
    it does so for every current value that is far from the target: at a
    distance of at least [2^-18] times its magnitude (and at least
    [2^-120]).  Nearer than that the value can stall. *)
Theorem lerp_never_overshoots (cur target : Params)
    (Hcur : params_moderate cur = true)
    (Htarget : params_moderate target = true) :
  let next := lerp_params cur target in
  lerp_step_ok (p_a cur) (p_a target) (p_a next) /\
  lerp_step_ok (p_b cur) (p_b target) (p_b next) /\
  lerp_step_ok (p_c cur) (p_c target) (p_c next) /\
  lerp_step_ok (p_d cur) (p_d target) (p_d next) /\
  lerp_step_ok (p_e cur) (p_e target) (p_e next) /\
  lerp_step_ok (p_f cur) (p_f target) (p_f next).
Proof.
  unfold params_moderate in *.
  do 5 (apply andb_true_iff in Hcur; destruct Hcur as [Hcur ?]).
  do 5 (apply andb_true_iff in Htarget; destruct Htarget as [Htarget ?]).
  cbv zeta. cbn [lerp_params p_a p_b p_c p_d p_e p_f].
  assert (Hs : forall c t, moderate c = true -> moderate t = true ->
                           lerp_step_ok c t (smooth c t lerp_rate)).
  { intros c t Mc Mt. split; [now apply lerp_field |].
    split; [now apply smooth_accuracy | now apply smooth_progress]. }
  repeat apply conj; apply Hs; assumption.
Qed.

Section FarExample.
Local Open Scope R_scope.

Lemma lorenz_far : far_from (p_b lorenz_cur) (p_b lorenz_far_target).
Proof.
  unfold far_from. cbn [p_b lorenz_cur lorenz_far_target].
  change (of_Z 28) with (S754_finite false 14680064 (-19)).
  change (of_Z 33) with (S754_finite false 8650752 (-18)).
  cbn [F2R]. rewrite (bpow_neg_inv 19), (bpow_neg_inv 18).
  change (Z.pow_pos 2 19) with 524288%Z.
  change (Z.pow_pos 2 18) with 262144%Z.
  replace (8650752 * / 262144 - 14680064 * / 524288) with 5 by lra.
  replace (14680064 * / 524288) with 28 by lra.
  rewrite !Rabs_pos_eq by lra.
  split; [lra |].
  apply Rle_trans with (bpow 0); [apply bpow_le; lia |].
  rewrite bpow_0. lra.
Qed.

End FarExample.

(** From [b = 28] toward the target 33 the step moves [b] strictly closer
    (to [14732493 * 2^-19], about 28.1). *)
Lemma lerp_never_overshoots_witness :
  closer (p_b lorenz_cur) (p_b lorenz_far_target)
         (p_b (lerp_params lorenz_cur lorenz_far_target)).
Proof.
  exact (proj2 (proj2 (proj1 (proj2
    (lerp_never_overshoots lorenz_cur lorenz_far_target eq_refl eq_refl))))
    lorenz_far).
Defined.

(** ** Tone mapper: the design's formula *)

Section LogBounds.
Local Open Scope R_scope.

Lemma ln_le_compat (x y : R) : 0 < x -> x <= y -> ln x <= ln y.
Proof.
  intros Hx [Hlt | ->]; [| lra].
  left. now apply ln_increasing.
Qed.

Lemma ln_upper (z : R) : 0 < z -> ln z <= z - 1.
Proof.
  intros Hz. pose proof (exp_ineq1_le (ln z)) as H.
  rewrite exp_ln in H by assumption. lra.
Qed.

(** Two positive reals that are close have close logarithms. *)
Lemma ln_close (W Y eta : R) :
  0 < W -> 0 <= eta <= / 2 -> Rabs (Y - W) <= eta * W ->
  Rabs (ln Y - ln W) <= 2 * eta.
Proof.
  intros HW He HY. apply Rabs_le_inv in HY.
  assert (HY0 : 0 < Y) by nra.
  assert (E1 : ln Y - ln W = ln (Y * / W)).
  { rewrite ln_mult, ln_Rinv; try assumption; [lra |].
    now apply Rinv_0_lt_compat. }
  assert (E2 : ln W - ln Y = ln (W * / Y)).
  { rewrite ln_mult, ln_Rinv; try assumption; [lra |].
    now apply Rinv_0_lt_compat. }
  pose proof (Rinv_0_lt_compat W HW) as HiW.
  pose proof (Rinv_0_lt_compat Y HY0) as HiY.
  assert (U1 : ln Y - ln W <= eta).
  { rewrite E1. etransitivity; [apply ln_upper; nra |].
    assert (Y * / W <= (W + eta * W) * / W) by nra.
    replace ((W + eta * W) * / W) with (1 + eta) in H by (field; lra).
    lra. }
  assert (U2 : ln W - ln Y <= 2 * eta).
  { rewrite E2. etransitivity; [apply ln_upper; nra |].
    assert (HWY : W * / Y - 1 = (W - Y) * / Y) by (field; lra).
    rewrite HWY.
    assert (HYl : W / 2 <= Y) by nra.
    assert (Hi : / Y <= 2 * / W).
    { replace (2 * / W) with (/ (W / 2)) by (field; lra).
      apply Rinv_le_contravar; lra. }
    destruct (Rle_or_lt W Y) as [Hle | Hgt].
    - assert ((W - Y) * / Y <= 0) by nra. lra.
    - assert ((W - Y) * / Y <= (eta * W) * (2 * / W)) by nra.
      replace (eta * W * (2 * / W)) with (2 * eta) in H by (field; lra).
      lra. }
  apply Rabs_le_intro. lra.
Qed.

Lemma exp_9_lower : 512 <= exp 9.
Proof.
  pose proof (exp_ineq1_le 1) as H1.
  pose proof (exp_pos 1) as P1.
  assert (H2 : 4 <= exp 2).
  { replace 2 with (1 + 1) by lra. rewrite exp_plus. nra. }
  assert (H4 : 16 <= exp 4).
  { replace 4 with (2 + 2) by lra. rewrite exp_plus. nra. }
  assert (H8 : 256 <= exp 8).
  { replace 8 with (4 + 4) by lra. rewrite exp_plus. nra. }
  replace 9 with (8 + 1) by lra. rewrite exp_plus. nra.
Qed.

Lemma ln_upper_9 (y : R) : 0 < y -> y <= 512 -> ln y <= 9.
Proof.
  intros H0 H1. rewrite <- (ln_exp 9).
  apply ln_le_compat; [assumption |]. pose proof exp_9_lower. lra.
Qed.

(** Upper bounds of [exp (2^k / 1024)], by squaring from
    [exp (1/1024) <= 1024/1023]. *)
Lemma exp_chain :
  exp (1 / 1024) <= 1000977517107 / 1000000000000 /\
  exp (2 / 1024) <= 1001955989754 / 1000000000000 /\
  exp (4 / 1024) <= 1003915805404 / 1000000000000 /\
  exp (8 / 1024) <= 1007846944340 / 1000000000000 /\
  exp (16 / 1024) <= 1015755463216 / 1000000000000 /\
  exp (32 / 1024) <= 1031759161054 / 1000000000000 /\
  exp (64 / 1024) <= 1064526966419 / 1000000000000 /\
  exp (128 / 1024) <= 1133217662234 / 1000000000000 /\
  exp (256 / 1024) <= 1284182270000 / 1000000000000 /\
  exp (512 / 1024) <= 1649124102583 / 1000000000000 /\
  exp (1024 / 1024) <= 2719610305721 / 1000000000000 /\
  exp (2048 / 1024) <= 7396280214984 / 1000000000000 /\
  exp (4096 / 1024) <= 54704961018564 / 1000000000000.
Proof.
  assert (B0 : exp (1 / 1024) <= 1000977517107 / 1000000000000).
  { pose proof (exp_ineq1_le (- (1 / 1024))) as H.
    pose proof (exp_pos (1 / 1024)) as P.
    assert (E : exp (1 / 1024) * exp (- (1 / 1024)) = 1).
    { rewrite <- exp_plus. replace (1 / 1024 + - (1 / 1024)) with 0 by lra.
      apply exp_0. }
    nra. }
  assert (B1 : exp (2 / 1024) <= 1001955989754 / 1000000000000).
  { replace (2 / 1024) with (1 / 1024 + 1 / 1024) by lra.
    rewrite exp_plus. pose proof (exp_pos (1 / 1024)). nra. }
  assert (B2 : exp (4 / 1024) <= 1003915805404 / 1000000000000).
  { replace (4 / 1024) with (2 / 1024 + 2 / 1024) by lra.
    rewrite exp_plus. pose proof (exp_pos (2 / 1024)). nra. }
  assert (B3 : exp (8 / 1024) <= 1007846944340 / 1000000000000).
  { replace (8 / 1024) with (4 / 1024 + 4 / 1024) by lra.
    rewrite exp_plus. pose proof (exp_pos (4 / 1024)). nra. }
  assert (B4 : exp (16 / 1024) <= 1015755463216 / 1000000000000).
  { replace (16 / 1024) with (8 / 1024 + 8 / 1024) by lra.
    rewrite exp_plus. pose proof (exp_pos (8 / 1024)). nra. }
  assert (B5 : exp (32 / 1024) <= 1031759161054 / 1000000000000).
  { replace (32 / 1024) with (16 / 1024 + 16 / 1024) by lra.
    rewrite exp_plus. pose proof (exp_pos (16 / 1024)). nra. }
  assert (B6 : exp (64 / 1024) <= 1064526966419 / 1000000000000).
  { replace (64 / 1024) with (32 / 1024 + 32 / 1024) by lra.
    rewrite exp_plus. pose proof (exp_pos (32 / 1024)). nra. }
  assert (B7 : exp (128 / 1024) <= 1133217662234 / 1000000000000).
  { replace (128 / 1024) with (64 / 1024 + 64 / 1024) by lra.
    rewrite exp_plus. pose proof (exp_pos (64 / 1024)). nra. }
  assert (B8 : exp (256 / 1024) <= 1284182270000 / 1000000000000).
  { replace (256 / 1024) with (128 / 1024 + 128 / 1024) by lra.
    rewrite exp_plus. pose proof (exp_pos (128 / 1024)). nra. }
  assert (B9 : exp (512 / 1024) <= 1649124102583 / 1000000000000).
  { replace (512 / 1024) with (256 / 1024 + 256 / 1024) by lra.
    rewrite exp_plus. pose proof (exp_pos (256 / 1024)). nra. }
  assert (B10 : exp (1024 / 1024) <= 2719610305721 / 1000000000000).
  { replace (1024 / 1024) with (512 / 1024 + 512 / 1024) by lra.
    rewrite exp_plus. pose proof (exp_pos (512 / 1024)). nra. }
  assert (B11 : exp (2048 / 1024) <= 7396280214984 / 1000000000000).
  { replace (2048 / 1024) with (1024 / 1024 + 1024 / 1024) by lra.
    rewrite exp_plus. pose proof (exp_pos (1024 / 1024)). nra. }
  assert (B12 : exp (4096 / 1024) <= 54704961018564 / 1000000000000).
  { replace (4096 / 1024) with (2048 / 1024 + 2048 / 1024) by lra.
    rewrite exp_plus. pose proof (exp_pos (2048 / 1024)). nra. }
  repeat split; assumption.
Qed.

Lemma exp_5804 : exp (5804 / 1024) <= 291.
Proof.
  destruct exp_chain as (B0 & B1 & B2 & B3 & B4 & B5 & B6 & B7 & B8 & B9 & B10 & B11 & B12).
  assert (P0 : exp (5120 / 1024) <= 148776175760153 / 1000000000000).
  { replace (5120 / 1024) with (4096 / 1024 + 1024 / 1024) by lra.
    rewrite exp_plus. pose proof (exp_pos (4096 / 1024)).
    pose proof (exp_pos (1024 / 1024)). nra. }
  assert (P1 : exp (5632 / 1024) <= 245350377336193 / 1000000000000).
  { replace (5632 / 1024) with (5120 / 1024 + 512 / 1024) by lra.
    rewrite exp_plus. pose proof (exp_pos (5120 / 1024)).
    pose proof (exp_pos (512 / 1024)). nra. }
  assert (P2 : exp (5760 / 1024) <= 278035381033151 / 1000000000000).
  { replace (5760 / 1024) with (5632 / 1024 + 128 / 1024) by lra.
    rewrite exp_plus. pose proof (exp_pos (5632 / 1024)).
    pose proof (exp_pos (128 / 1024)). nra. }
  assert (P3 : exp (5792 / 1024) <= 286865551478094 / 1000000000000).
  { replace (5792 / 1024) with (5760 / 1024 + 32 / 1024) by lra.
    rewrite exp_plus. pose proof (exp_pos (5760 / 1024)).
    pose proof (exp_pos (32 / 1024)). nra. }
  assert (P4 : exp (5800 / 1024) <= 289116569493607 / 1000000000000).
  { replace (5800 / 1024) with (5792 / 1024 + 8 / 1024) by lra.
    rewrite exp_plus. pose proof (exp_pos (5792 / 1024)).
    pose proof (exp_pos (8 / 1024)). nra. }
  assert (P5 : exp (5804 / 1024) <= 290248693718817 / 1000000000000).
  { replace (5804 / 1024) with (5800 / 1024 + 4 / 1024) by lra.
    rewrite exp_plus. pose proof (exp_pos (5800 / 1024)).
    pose proof (exp_pos (4 / 1024)). nra. }
  lra.
Qed.

Lemma ln_291_lower : 5804 / 1024 <= ln 291.
Proof.
  rewrite <- (ln_exp (5804 / 1024)).
  apply ln_le_compat; [apply exp_pos | apply exp_5804].
Qed.

End LogBounds.

Section ExpChain.
Local Open Scope R_scope.

(** A lower bound of [exp z] gives, squared [k] times, one of
    [exp (z * 2^k)]. *)
Lemma sq_chain_exp (D n : Z) (z : R) (k : nat) :
  (0 < D)%Z -> (0 <= n)%Z -> IZR n / IZR D <= exp z ->
  (0 <= sq_chain D n k)%Z /\
  IZR (sq_chain D n k) / IZR D <= exp (z * 2 ^ k).
Proof.
  intros HD Hn H0. assert (HDr : 0 < IZR D) by (apply IZR_lt; lia).
  induction k as [| j [IH0 IH]].
  - cbn [sq_chain pow]. rewrite Rmult_1_r. split; assumption.
  - cbn [sq_chain]. set (m := sq_chain D n j) in *. cbv zeta.
    assert (Hq : (0 <= m * m / D)%Z) by (apply Z.div_pos; nia).
    split; [exact Hq |].
    assert (Hle : IZR (m * m / D) * IZR D <= IZR m * IZR m).
    { rewrite <- !mult_IZR. apply IZR_le.
      rewrite Z.mul_comm. apply Z.mul_div_le. lia. }
    assert (Hm : 0 <= IZR m) by (apply IZR_le; lia).
    assert (He : exp (z * 2 ^ S j) = exp (z * 2 ^ j) * exp (z * 2 ^ j)).
    { rewrite <- exp_plus. f_equal. cbn [pow]. ring. }
    rewrite He. pose proof (exp_pos (z * 2 ^ j)) as Hp.
    assert (Hmd : 0 <= IZR m / IZR D).
    { apply Rmult_le_pos; [exact Hm |]. left. now apply Rinv_0_lt_compat. }
    assert (Hsq : IZR m / IZR D * (IZR m / IZR D)
                  <= exp (z * 2 ^ j) * exp (z * 2 ^ j)) by nra.
    assert (Hd : IZR (m * m / D) / IZR D
                 <= IZR m / IZR D * (IZR m / IZR D)).
    { apply Rmult_le_reg_r with (IZR D * IZR D); [nra |].
      replace (IZR (m * m / D) / IZR D * (IZR D * IZR D))
        with (IZR (m * m / D) * IZR D) by (field; lra).
      replace (IZR m / IZR D * (IZR m / IZR D) * (IZR D * IZR D))
        with (IZR m * IZR m) by (field; lra).
      exact Hle. }
    lra.
Qed.

Lemma pow2_48 : 2 ^ 48 = 281474976710656.
Proof.
  change 2 with (IZR 2). rewrite pow_IZR.
  change (2 ^ Z.of_nat 48)%Z with 281474976710656%Z. reflexivity.
Qed.

(** [exp 4.6] is above [13039607 * 2^-17]. *)
Lemma exp_46_lower : 13039607 / 131072 < exp (46 / 10).
Proof.
  pose proof (sq_chain_exp 1000000000000000000000000000000
                1000000000000016342482922482304 (46 / 10 / 281474976710656) 48
                ltac:(lia) ltac:(lia)) as H.
  assert (H0 : IZR 1000000000000016342482922482304 / IZR 1000000000000000000000000000000
               <= exp (46 / 10 / 281474976710656)).
  { etransitivity; [| apply exp_ineq1_le]. lra. }
  destruct (H H0) as [_ Hc]. clear H H0.
  rewrite pow2_48 in Hc.
  replace (46 / 10 / 281474976710656 * 281474976710656) with (46 / 10)
    in Hc by lra.
  assert (E : sq_chain 1000000000000000000000000000000 1000000000000016342482922482304 48
              = 99484315641930055023282485255478%Z) by (vm_compute; reflexivity).
  rewrite E in Hc. lra.
Qed.

(** [exp (9646899 * 2^-21)] is below [13039607 * 2^-17]. *)
Lemma exp_lstar_upper : exp (9646899 / 2097152) < 13039607 / 131072.
Proof.
  pose proof (sq_chain_exp 1000000000000000000000000000000
                999999999999983657517416330874 (- (9646899 / 2097152) / 281474976710656) 48
                ltac:(lia) ltac:(lia)) as H.
  assert (H0 : IZR 999999999999983657517416330874 / IZR 1000000000000000000000000000000
               <= exp (- (9646899 / 2097152) / 281474976710656)).
  { etransitivity; [| apply exp_ineq1_le]. lra. }
  destruct (H H0) as [_ Hc]. clear H H0.
  rewrite pow2_48 in Hc.
  replace (- (9646899 / 2097152) / 281474976710656 * 281474976710656)
    with (- (9646899 / 2097152)) in Hc by lra.
  assert (E : sq_chain 1000000000000000000000000000000 999999999999983657517416330874 48
              = 10051836703251005331337964742%Z) by (vm_compute; reflexivity).
  rewrite E in Hc.
  pose proof (exp_pos (9646899 / 2097152)) as Hp.
  assert (Hi : exp (9646899 / 2097152) * exp (- (9646899 / 2097152)) = 1).
  { rewrite <- exp_plus.
    replace (9646899 / 2097152 + - (9646899 / 2097152)) with 0 by lra.
    apply exp_0. }
  nra.
Qed.

End ExpChain.

Section RoundingExists.
Local Open Scope R_scope.

Lemma bpow_above (n : nat) : INR n < bpow (Z.of_nat n).
Proof.
  induction n as [| k IH].
  - change (Z.of_nat 0) with 0%Z. cbn [INR]. rewrite bpow_0. lra.
  - rewrite S_INR, Nat2Z.inj_succ. unfold Z.succ. rewrite bpow_succ.
    assert (1 <= bpow (Z.of_nat k)).
    { rewrite <- bpow_0. apply bpow_le. lia. }
    lra.
Qed.

(** Every positive real has an exponent of the grid. *)
Lemma grid_exp_exists (x : R) : 0 < x -> exists E, grid_exp x E.
Proof.
  intros Hx. destruct (Rlt_or_le x (bpow (-125))) as [Hs | Hl].
  - exists (-149)%Z. split; [lia |]. split; [exact Hs | lia].
  - assert (Hn : exists n : nat, x < bpow (-125 + Z.of_nat n)).
    { destruct (archimed (x * bpow 125)) as [Hu _].
      assert (Hu0 : (0 <= up (x * bpow 125))%Z).
      { apply le_IZR. pose proof (bpow_pos 125). nra. }
      exists (Z.to_nat (up (x * bpow 125))).
      pose proof (bpow_above (Z.to_nat (up (x * bpow 125)))) as Ha.
      rewrite INR_IZR_INZ, Z2Nat.id in Ha by lia.
      rewrite bpow_add.
      assert (E : bpow (-125) * bpow 125 = 1).
      { rewrite <- bpow_add. apply bpow_0. }
      pose proof (bpow_pos (-125)). pose proof (bpow_pos 125).
      rewrite Z2Nat.id by lia.
      set (B := bpow (up (x * bpow 125))) in *.
      assert (x * bpow 125 < B) by lra.
      assert (x * (bpow 125 * bpow (-125)) < B * bpow (-125)) by nra.
      replace (bpow 125 * bpow (-125)) with 1 in * by lra. lra. }
    destruct Hn as [n Hn].
    assert (Hex : exists m, (-125 <= m)%Z /\ bpow m <= x < bpow (m + 1)).
    { induction n as [| k IH].
      - change (Z.of_nat 0) with 0%Z in Hn.
        replace (-125 + 0)%Z with (-125)%Z in Hn by lia. lra.
      - destruct (Rlt_or_le x (bpow (-125 + Z.of_nat k))) as [H1 | H2].
        + exact (IH H1).
        + exists (-125 + Z.of_nat k)%Z. split; [lia |]. split; [exact H2 |].
          replace (-125 + Z.of_nat k + 1)%Z with (-125 + Z.of_nat (S k))%Z
            by lia.
          exact Hn. }
    destruct Hex as (m & Hm & H1 & H2).
    exists (m - 23)%Z. split; [lia |]. split.
    + replace (m - 23 + 24)%Z with (m + 1)%Z by lia. exact H2.
    + intros _. replace (m - 23 + 23)%Z with m by lia. exact H1.
Qed.

(** Every real has a nearest point on a grid, the even one of two. *)
Lemma nearest_even_exists (x : R) (E : Z) : exists k, nearest_even x k E.
Proof.
  pose proof (bpow_pos E) as HE.
  set (r := x / bpow E).
  assert (Hx : x = r * bpow E) by (unfold r; field; lra).
  destruct (base_Int_part r) as [F1 F2].
  set (f := Int_part r) in *.
  assert (Hk : forall k : Z, Rabs (r - IZR k) <= / 2 ->
                 (Rabs (r - IZR k) = / 2 -> Z.even k = true) ->
                 nearest_even x k E).
  { intros k H1 H2.
    assert (Ed : x - IZR k * bpow E = (r - IZR k) * bpow E)
      by (rewrite Hx at 1; ring).
    unfold nearest_even. rewrite Ed, Rabs_mult, (Rabs_pos_eq (bpow E)) by lra.
    split; [nra |]. intros H. apply H2. nra. }
  destruct (Rtotal_order (r - IZR f) (/ 2)) as [Hlt | [Heq | Hgt]].
  - exists f. apply Hk.
    + rewrite Rabs_pos_eq by lra. lra.
    + rewrite Rabs_pos_eq by lra. lra.
  - destruct (Z.even f) eqn:Hev.
    + exists f. apply Hk; [rewrite Rabs_pos_eq by lra; lra | auto].
    + exists (f + 1)%Z. apply Hk.
      * rewrite plus_IZR, Rabs_left1 by lra. lra.
      * intros _. rewrite Z.even_add, Hev. reflexivity.
  - exists (f + 1)%Z. apply Hk.
    + rewrite plus_IZR, Rabs_left1 by lra. lra.
    + rewrite plus_IZR, Rabs_left1 by lra. lra.
Qed.

Lemma rounds_pos_exists (x : R) : 0 < x -> exists f, rounds_pos x f.
Proof.
  intros Hx. destruct (grid_exp_exists x Hx) as [E HE].
  destruct (nearest_even_exists x E) as [k Hk].
  exists (float_of false k E), k, E. auto.
Qed.

(** Every real has a rounding. *)
Theorem rounds_exists (x : R) : exists f, rounds x f.
Proof.
  destruct (Rtotal_order x 0) as [Hneg | [-> | Hpos]].
  - destruct (rounds_pos_exists (- x) ltac:(lra)) as [g Hg].
    exists (opp g). split; [| split]; intros; try lra.
    now rewrite opp_opp.
  - exists zero. apply (rounds_zero false).
  - destruct (rounds_pos_exists x Hpos) as [f Hf].
    exists f. split; [| split]; intros; try lra. exact Hf.
Qed.

End RoundingExists.

Ltac f2r_neg p :=
  cbn [F2R]; rewrite (bpow_neg_inv p);
  let v := eval vm_compute in (Z.pow_pos 2 p) in
  change (Z.pow_pos 2 p) with v; lra.

Section ToneConstants.
Local Open Scope R_scope.

Lemma F2R_EXPOSURE : F2R EXPOSURE = 5 / 2.
Proof. change EXPOSURE with (S754_finite false 10485760 (-22)). f2r_neg 22%positive. Qed.

Lemma F2R_45 : F2R (of_Z 45) = 45.
Proof. change (of_Z 45) with (S754_finite false 11796480 (-18)). f2r_neg 18%positive. Qed.

Lemma F2R_116 : F2R (of_Z 116) = 116.
Proof. change (of_Z 116) with (S754_finite false 15204352 (-17)). f2r_neg 17%positive. Qed.

Lemma F2R_290 : F2R (of_Z 290) = 290.
Proof. change (of_Z 290) with (S754_finite false 9502720 (-15)). f2r_neg 15%positive. Qed.

Lemma F2R_291 : F2R (of_Z 291) = 291.
Proof. change (of_Z 291) with (S754_finite false 9535488 (-15)). f2r_neg 15%positive. Qed.

Lemma F2R_9 : F2R (of_Z 9) = 9.
Proof. change (of_Z 9) with (S754_finite false 9437184 (-20)). f2r_neg 20%positive. Qed.

Lemma F2R_405 : F2R (of_Z 405) = 405.
Proof. change (of_Z 405) with (S754_finite false 13271040 (-15)). f2r_neg 15%positive. Qed.

Lemma F2R_ln_bound : F2R (lit 5804 1024) = 5804 / 1024.
Proof. change (lit 5804 1024) with (S754_finite false 11886592 (-21)). f2r_neg 21%positive. Qed.

End ToneConstants.

Section ToneLn.

Variable logf : float -> float.

(** [logf] as the design's [ln]: it returns values of the format, the
    natural logarithm rounded to single precision for a finite argument
    from 1 on, and the infinity at the infinity. *)
Hypothesis logf_valid : forall x, valid x = true -> valid (logf x) = true.
Hypothesis logf_ln :
  forall x, finb x = true -> (1 <= F2R x)%R -> rounds (ln (F2R x)) (logf x).
Hypothesis logf_inf : logf (S754_infinity false) = S754_infinity false.

Lemma logf_ln_mono (x y : float) :
  valid x = true -> valid y = true ->
  leb one x = true -> leb x y = true -> leb (logf x) (logf y) = true.
Proof.
  intros Vx Vy H1 Hxy.
  destruct (leb_not_nan _ _ Hxy) as [Nx Ny].
  destruct (finite_cases x Nx) as [Fx | [-> | ->]]; [| | discriminate H1].
  - assert (Hx : finb x = true) by (apply finb_iff; auto).
    apply leb_F2R in H1; try assumption; try reflexivity.
    rewrite F2R_one in H1.
    pose proof (logf_ln x Hx H1) as Rx.
    destruct (finite_cases y Ny) as [Fy | [-> | ->]].
    + assert (Hy : finb y = true) by (apply finb_iff; auto).
      apply leb_F2R in Hxy; try assumption.
      apply (rounds_mono (ln (F2R x)) (ln (F2R y))); try assumption.
      * apply logf_ln; [assumption | lra].
      * apply ln_le_compat; lra.
    + rewrite logf_inf. apply leb_inf.
      exact (proj2 (rounds_valid _ _ Rx)).
    + destruct x as [[|] | [|] | | [|] m e]; discriminate.
  - apply leb_inf_l in Hxy. subst y. rewrite logf_inf. reflexivity.
Qed.

Lemma logf_ln_one : leb zero (logf one) = true.
Proof.
  pose proof (logf_ln one eq_refl) as H. rewrite F2R_one in H.
  specialize (H ltac:(lra)). rewrite ln_1 in H.
  destruct H as (H & _ & _). destruct (H eq_refl) as [-> | ->]; reflexivity.
Qed.

Section Saturation.
Local Open Scope R_scope.

(** From an accumulated value of 116 on, the value before the clamp is
    above 255. *)
Lemma tone_raw_saturates (a : float) :
  valid a = true -> leb (of_Z 116) a = true ->
  gtb (tone_raw logf a) (of_Z 255) = true.
Proof.
  intros Va Ha.
  assert (H116 : ltb (of_Z 255) (tone_raw logf (of_Z 116)) = true).
  { unfold tone_raw.
    change (add one (mul (of_Z 116) EXPOSURE)) with (of_Z 291).
    pose proof (logf_ln (of_Z 291) eq_refl) as Rl. rewrite F2R_291 in Rl.
    specialize (Rl ltac:(lra)).
    assert (Hc : leb (lit 5804 1024) (logf (of_Z 291)) = true).
    { apply (rounds_mono (5804 / 1024) (ln 291)); try assumption.
      - rewrite <- F2R_ln_bound. now apply rounds_exact.
      - apply ln_291_lower. }
    destruct (mul_pos_const_mono (lit 5804 1024) (logf (of_Z 291)) (of_Z 45)
                eq_refl (logf_valid (of_Z 291) eq_refl) eq_refl eq_refl eq_refl Hc)
      as [_ Hm].
    apply (ltb_leb_trans (of_Z 255) (mul (lit 5804 1024) (of_Z 45)));
      try reflexivity; try assumption.
    apply mul_valid; [apply logf_valid |]; reflexivity. }
  destruct (tone_raw_mono logf logf_valid logf_ln_mono logf_ln_one
              (of_Z 116) a eq_refl Va eq_refl Ha) as (V1 & V2 & _ & Hm).
  exact (ltb_leb_trans (of_Z 255) _ _ eq_refl V1 V2 H116 Hm).
Qed.

(** The design's value is 255 from 116 on. *)
Lemma tone_spec_saturates (x : R) : 116 <= x -> tone_spec x = 255.
Proof.
  intros Hx. unfold tone_spec.
  assert (H : 5804 / 1024 <= ln (1 + x * 2.5)).
  { etransitivity; [apply ln_291_lower |]. apply ln_le_compat; lra. }
  rewrite Rmax_right by lra. apply Rmin_left. lra.
Qed.

(** Below 116 the single-precision value is within [2^-12] of the
    design's. *)
Lemma tone_value_near (a : float) :
  finb a = true -> leb zero a = true -> leb (of_Z 116) a = false ->
  Rabs (F2R (tone_value logf a) - tone_spec (F2R a)) <= bpow (-12).
Proof.
  intros Ha H0 H116.
  pose proof Ha as Ha'. apply finb_iff in Ha'. destruct Ha' as [Va Fa].
  apply leb_F2R in H0; try assumption; try reflexivity.
  change (F2R zero) with 0 in H0.
  assert (Hx : F2R a < 116).
  { destruct (Rlt_or_le (F2R a) 116) as [H | H]; [exact H |].
    rewrite <- F2R_116 in H. apply leb_F2R in H; try assumption;
      try reflexivity. congruence. }
  set (x := F2R a) in *.
  (* the product *)
  pose proof (mul_rounds a EXPOSURE Va eq_refl Fa eq_refl) as Rm.
  fold x in Rm. rewrite F2R_EXPOSURE in Rm.
  assert (Wm : within zero (of_Z 290) (mul a EXPOSURE)).
  { apply (rounds_within (x * (5 / 2)) 0 290); try assumption;
      try reflexivity.
    - apply (rounds_zero false).
    - apply (of_Z_rounds 290).
    - lra. }
  destruct Wm as [Hm [M0 M1]]. change (F2R zero) with 0 in M0.
  rewrite F2R_290 in M1.
  pose proof Hm as Hm'. apply finb_iff in Hm'. destruct Hm' as [Vm Fm].
  pose proof (rounds_error _ _ Rm Fm) as Em.
  set (m := mul a EXPOSURE) in *. set (M := F2R m) in *.
  (* the sum *)
  pose proof (add_rounds one m eq_refl Vm eq_refl Fm) as Ry.
  rewrite F2R_one in Ry. fold M in Ry.
  assert (Wy : within one (of_Z 291) (add one m)).
  { apply (rounds_within (1 + M) 1 291); try assumption; try reflexivity.
    - rewrite <- F2R_one. now apply rounds_exact.
    - apply (of_Z_rounds 291).
    - lra. }
  destruct Wy as [Hy [Y0 Y1]]. rewrite F2R_one in Y0. rewrite F2R_291 in Y1.
  pose proof Hy as Hy'. apply finb_iff in Hy'. destruct Hy' as [Vy Fy].
  pose proof (rounds_error _ _ Ry Fy) as Ey.
  set (y := add one m) in *. set (Y := F2R y) in *.
  (* the logarithm *)
  pose proof (logf_ln y Hy Y0) as Rl. fold Y in Rl.
  assert (L0 : 0 <= ln Y) by (rewrite <- ln_1; apply ln_le_compat; lra).
  assert (L1 : ln Y <= 9) by (apply ln_upper_9; lra).
  assert (Wl : within zero (of_Z 9) (logf y)).
  { apply (rounds_within (ln Y) 0 9); try assumption; try reflexivity.
    - apply (rounds_zero false).
    - apply (of_Z_rounds 9).
    - lra. }
  destruct Wl as [Hl [Lf0 Lf1]]. change (F2R zero) with 0 in Lf0.
  rewrite F2R_9 in Lf1.
  pose proof Hl as Hl'. apply finb_iff in Hl'. destruct Hl' as [Vl Fl].
  pose proof (rounds_error _ _ Rl Fl) as El.
  set (l := logf y) in *. set (L := F2R l) in *.
  (* the product with 45 *)
  pose proof (mul_rounds l (of_Z 45) Vl eq_refl Fl eq_refl) as Rr.
  fold L in Rr. rewrite F2R_45 in Rr.
  assert (Wr : within zero (of_Z 405) (mul l (of_Z 45))).
  { apply (rounds_within (L * 45) 0 405); try assumption; try reflexivity.
    - apply (rounds_zero false).
    - apply (of_Z_rounds 405).
    - lra. }
  destruct Wr as [Hr [R0 R1]]. change (F2R zero) with 0 in R0.
  rewrite F2R_405 in R1.
  pose proof Hr as Hr'. apply finb_iff in Hr'. destruct Hr' as [Vr Fr].
  pose proof (rounds_error _ _ Rr Fr) as Er.
  change (mul l (of_Z 45)) with (tone_raw logf a) in *.
  set (r := tone_raw logf a) in *. set (R := F2R r) in *.
  (* the constants of the error bounds *)
  assert (Hu : bpow (-24) = / 16777216) by (rewrite (bpow_neg_inv 24); reflexivity).
  assert (H12 : bpow (-12) = / 4096) by (rewrite (bpow_neg_inv 12); reflexivity).
  assert (Heta : 0 < bpow (-150) <= / 1099511627776).
  { split; [apply bpow_pos |].
    apply Rle_trans with (bpow (-40)); [apply bpow_le; lia |].
    rewrite (bpow_neg_inv 40). change (Z.pow_pos 2 40) with 1099511627776%Z.
    lra. }
  rewrite Hu in *. rewrite H12. clear Hu H12.
  set (eta := bpow (-150)) in *.
  (* the argument of the logarithm *)
  set (W := 1 + x * 2.5) in *.
  assert (HW : 1 <= W <= 291) by (unfold W; lra).
  rewrite (Rabs_pos_eq (x * (5 / 2))) in Em by lra.
  rewrite (Rabs_pos_eq (1 + M)) in Ey by lra.
  rewrite (Rabs_pos_eq (ln Y)) in El by lra.
  rewrite (Rabs_pos_eq (L * 45)) in Er by lra.
  apply Rabs_le_inv in Em, Ey, El, Er.
  assert (HYW : Rabs (Y - W) <= / 4194304 * W).
  { apply Rabs_le_intro. unfold W. lra. }
  pose proof (ln_close W Y (/ 4194304) ltac:(lra) ltac:(lra) HYW) as Eln.
  apply Rabs_le_inv in Eln.
  assert (HS0 : 0 <= ln W) by (rewrite <- ln_1; apply ln_le_compat; lra).
  assert (HRS : Rabs (R - ln W * 45) <= / 4096)
    by (apply Rabs_le_intro; lra).
  apply Rabs_le_inv in HRS.
  (* the clamps *)
  unfold tone_spec. fold W. rewrite Rmax_right by lra.
  unfold tone_value. fold r. cbv zeta.
  destruct (gtb r (of_Z 255)) eqn:Hg.
  - apply (ltb_F2R (of_Z 255) r) in Hg; try assumption; try reflexivity.
    rewrite F2R_255 in Hg. fold R in Hg. rewrite F2R_255.
    apply Rabs_le_intro. unfold Rmin.
    destruct (Rle_dec 255 (ln W * 45)); lra.
  - assert (Hle : R <= 255).
    { destruct (Rle_or_lt R 255) as [H | H]; [exact H |].
      rewrite <- F2R_255 in H.
      apply (ltb_F2R (of_Z 255) r) in H; try assumption; try reflexivity.
      change (gtb r (of_Z 255)) with (ltb (of_Z 255) r) in Hg.
      congruence. }
    fold R. apply Rabs_le_intro. unfold Rmin.
    destruct (Rle_dec 255 (ln W * 45)); lra.
Qed.

End Saturation.

Section ToneByte.
Local Open Scope R_scope.

(** The single-precision value is within [2^-12] of the design's, for every
    finite accumulated value that is not negative. *)
Lemma tone_value_close (a : float) :
  finb a = true -> leb zero a = true ->
  Rabs (F2R (tone_value logf a) - tone_spec (F2R a)) <= bpow (-12).
Proof.
  intros Ha H0. destruct (leb (of_Z 116) a) eqn:H116.
  - pose proof Ha as Ha'. apply finb_iff in Ha'. destruct Ha' as [Va Fa].
    pose proof (tone_raw_saturates a Va H116) as Hg.
    unfold tone_value. cbv zeta. rewrite Hg, F2R_255.
    apply leb_F2R in H116; try assumption; try reflexivity.
    rewrite F2R_116 in H116.
    rewrite (tone_spec_saturates _ H116).
    replace (255 - 255) with 0 by ring. rewrite Rabs_R0.
    left. apply bpow_pos.
  - now apply tone_value_near.
Qed.

End ToneByte.

(** C8.  Taking [logf] as the natural logarithm rounded to single
    precision: for non-negative accumulated inputs [a1 <= a2] the two bytes
    are defined, the first is not above the second, and both are in
    0..255; the lower clamp of the design never acts; for a finite input
    the byte is the truncation of the single-precision value, which is
    within [2^-12] of the design's
    [clamp (ln (1 + accum * 2.5) * 45, 0, 255)]; and the byte is 255 for
    every input from 116 on, the infinity included. *)
Theorem tone_map_monotone (a1 a2 : float)
    (V1 : valid a1 = true) (V2 : valid a2 = true)
    (H0 : leb zero a1 = true) (H12 : leb a1 a2 = true) :
  exists v1 v2,
    tone_map logf a1 = Some v1 /\ tone_map logf a2 = Some v2 /\
    tone_formula logf a1 = Some v1 /\ tone_formula logf a2 = Some v2 /\
    0 <= v1 /\ v1 <= v2 /\ v2 <= 255 /\
    (is_finite a1 = true -> byte_of_spec (F2R a1) v1) /\
    (is_finite a2 = true -> byte_of_spec (F2R a2) v2) /\
    (leb (of_Z 116) a2 = true -> v2 = 255) /\
    (gtb (tone_raw logf a2) (of_Z 255) = true -> v2 = 255).
Proof.
  pose proof logf_ln_mono as Lm. pose proof logf_ln_one as L1.
  assert (H0' : leb zero a2 = true) by (apply (leb_trans zero a1 a2); auto).
  destruct (tone_map_byte logf logf_valid Lm L1 a1 V1 H0)
    as (v1 & E1 & R1 & F1).
  destruct (tone_map_byte logf logf_valid Lm L1 a2 V2 H0')
    as (v2 & E2 & R2 & F2).
  exists v1, v2.
  pose proof (tone_value_mono logf logf_valid Lm L1 a1 a2 V1 V2 H0 H12)
    as Hm.
  destruct (tone_value_within logf logf_valid Lm L1 a1 V1 H0) as [Hf1 _].
  destruct (tone_value_within logf logf_valid Lm L1 a2 V2 H0') as [Hf2 _].
  apply finb_iff in Hf1, Hf2.
  apply leb_F2R in Hm; try tauto.
  assert (Hsat : gtb (tone_raw logf a2) (of_Z 255) = true -> v2 = 255).
  { intros Hgt. unfold tone_map, tone_value in E2. cbv zeta in E2.
    rewrite Hgt, to_uchar_255 in E2. congruence. }
  split; [exact E1 |]. split; [exact E2 |].
  split; [now rewrite (tone_formula_eq logf logf_valid Lm L1) |].
  split; [now rewrite (tone_formula_eq logf logf_valid Lm L1) |].
  split; [lia |].
  split.
  { assert (IZR v1 < IZR v2 + 1)%R by lra.
    rewrite <- (plus_IZR v2 1) in H. apply lt_IZR in H. lia. }
  split; [lia |].
  split.
  { intros Fa. exists (F2R (tone_value logf a1)). split; [| exact F1].
    apply tone_value_close; [apply finb_iff; auto | exact H0]. }
  split.
  { intros Fa. exists (F2R (tone_value logf a2)). split; [| exact F2].
    apply tone_value_close; [apply finb_iff; auto | exact H0']. }
  split; [| exact Hsat].
  intros H116. apply Hsat. now apply tone_raw_saturates.
Qed.

End ToneLn.

(** [round_ln] is an instance of what is assumed of [logf]. *)
Lemma round_ln_rounds (x : float) :
  is_finite x = true -> rounds (ln (F2R x)) (round_ln x).
Proof.
  intros Fx. unfold round_ln. rewrite Fx.
  apply epsilon_spec. apply rounds_exists.
Qed.

Lemma round_ln_valid (x : float) :
  valid x = true -> valid (round_ln x) = true.
Proof.
  intros Vx. destruct (is_finite x) eqn:Fx.
  - exact (proj1 (rounds_valid _ _ (round_ln_rounds x Fx))).
  - unfold round_ln. rewrite Fx. exact Vx.
Qed.

Lemma round_ln_at (x : float) :
  finb x = true -> (1 <= F2R x)%R -> rounds (ln (F2R x)) (round_ln x).
Proof.
  intros Hx _. apply finb_iff in Hx. now apply round_ln_rounds.
Qed.

Lemma tone_map_monotone_witness :
  exists v1 v2,
    tone_map round_ln one = Some v1 /\
    tone_map round_ln (of_Z 200) = Some v2 /\
    tone_formula round_ln one = Some v1 /\
    tone_formula round_ln (of_Z 200) = Some v2 /\
    0 <= v1 /\ v1 <= v2 /\ v2 <= 255 /\
    (is_finite one = true -> byte_of_spec (F2R one) v1) /\
    (is_finite (of_Z 200) = true -> byte_of_spec (F2R (of_Z 200)) v2) /\
    (leb (of_Z 116) (of_Z 200) = true -> v2 = 255) /\
    (gtb (tone_raw round_ln (of_Z 200)) (of_Z 255) = true -> v2 = 255).
Proof.
  exact (tone_map_monotone round_ln round_ln_valid round_ln_at eq_refl
           one (of_Z 200) eq_refl eq_refl eq_refl eq_refl).
Defined.

Section ToneBoundary.
Local Open Scope R_scope.

Lemma F2R_y207 : F2R (S754_finite false 13039607 (-17)) = 13039607 / 131072.
Proof. f2r_neg 17%positive. Qed.

Lemma F2R_l207 : F2R (S754_finite false 9646899 (-21)) = 9646899 / 2097152.
Proof. f2r_neg 21%positive. Qed.

Lemma F2R_accum_207 : F2R accum_207 = 10326828 / 262144.
Proof. unfold accum_207. f2r_neg 18%positive. Qed.

(** [ln (13039607 * 2^-17)] lies between [9646899 * 2^-21] and 4.6. *)
Lemma ln_y207 :
  9646899 / 2097152 < ln (13039607 / 131072) < 46 / 10.
Proof.
  split.
  - rewrite <- (ln_exp (9646899 / 2097152)).
    apply ln_increasing; [apply exp_pos | apply exp_lstar_upper].
  - rewrite <- (ln_exp (46 / 10)).
    apply ln_increasing; [lra | apply exp_46_lower].
Qed.

(** The single-precision logarithm of [13039607 * 2^-17] is the number
    nearest to 4.6. *)
Lemma round_ln_y207 :
  round_ln (S754_finite false 13039607 (-17))
  = S754_finite false 9646899 (-21).
Proof.
  pose proof (round_ln_rounds (S754_finite false 13039607 (-17)) eq_refl)
    as Hr.
  rewrite F2R_y207 in Hr.
  assert (Hl : rounds (9646899 / 2097152) (S754_finite false 9646899 (-21))).
  { rewrite <- F2R_l207. apply rounds_exact; reflexivity. }
  assert (Hh : rounds (46 / 10) (S754_finite false 9646899 (-21))).
  { change (S754_finite false 9646899 (-21)) with (div (of_Z 46) (of_Z 10)).
    pose proof (div_rounds (of_Z 46) (of_Z 10) eq_refl eq_refl eq_refl eq_refl)
      as Hd.
    assert (E46 : F2R (of_Z 46) = 46).
    { change (of_Z 46) with (S754_finite false 12058624 (-18)).
      f2r_neg 18%positive. }
    assert (E10 : F2R (of_Z 10) = 10).
    { change (of_Z 10) with (S754_finite false 10485760 (-20)).
      f2r_neg 20%positive. }
    rewrite E46, E10 in Hd. apply Hd. lra. }
  pose proof ln_y207 as [L1 L2].
  destruct (rounds_within _ _ _ _ _ _ Hr Hl Hh ltac:(lra) eq_refl eq_refl)
    as [Fb [B1 B2]].
  apply finite_eq; [exact Fb | reflexivity | lra |].
  rewrite F2R_l207 in B1. lra.
Qed.

(** C8, the boundary case.  With the logarithm rounded to single
    precision, the accumulated value [10326828 * 2^-18] is written as
    207, while [ln (1 + accum * 2.5) * 45] is below 207 and its
    truncation is 206. *)
Lemma tone_byte_above_formula :
  tone_map round_ln accum_207 = Some 207%Z /\
  tone_formula round_ln accum_207 = Some 207%Z /\
  206 <= tone_spec (F2R accum_207) < 207.
Proof.
  assert (Er : tone_raw round_ln accum_207 = of_Z 207).
  { unfold tone_raw.
    change (add one (mul accum_207 EXPOSURE))
      with (S754_finite false 13039607 (-17)).
    rewrite round_ln_y207. vm_compute. reflexivity. }
  split; [| split].
  - unfold tone_map, tone_value. rewrite Er. vm_compute. reflexivity.
  - unfold tone_formula. rewrite Er. vm_compute. reflexivity.
  - unfold tone_spec. rewrite F2R_accum_207.
    replace (1 + 10326828 / 262144 * 2.5) with (13039607 / 131072) by lra.
    pose proof ln_y207 as [L1 L2].
    rewrite Rmax_right by lra. rewrite Rmin_right by lra. lra.
Qed.

End ToneBoundary.
